(** * Contrapunctus: species-counterpoint validators

    A shallow embedding of the pitch / interval / scale arithmetic
    (Pitch.js, Interval.js, Scale.js) and of the three species validators
    (FirstSpeciesValidator.js, SecondSpeciesValidator.js,
    ThirdSpeciesValidator.js), followed by the vocabulary of the
    statements and by the properties established about the validators.

    Conventions of the embedding.
    - JavaScript numbers that occur in the program are small integers; they
      are modelled by [Z].  [%] is the truncating remainder [Z.rem],
      [Math.floor(a / b)] for positive [b] is [Z.div], [Math.sign] is
      [Z.sgn].
    - A value read from a note array is a [jsval]: a string, [null] (a
      rest) or [undefined] (an index outside the array).
    - A JavaScript exception is the [Throw] alternative of [result].
    - The [message] text of an issue (and the informative [interval] /
      [motionType] fields some issues carry) is not modelled: no rule
      reads it back and building it cannot throw. *)

From Stdlib Require Import ZArith List String Ascii Bool Lia DecimalString
  DecimalPos Sorted.
Import ListNotations.
Open Scope string_scope.
Open Scope list_scope.
Open Scope Z_scope.

(* ================================================================== *)
(** * Exceptions and values *)
(* ================================================================== *)

(** [TypeError]: a property was read from [null] / [undefined].
    [InvalidNoteFormat]: the [Error] thrown by [Pitch.parse]. *)
Inductive exn : Type :=
  | TypeError
  | InvalidNoteFormat.

Inductive result (A : Type) : Type :=
  | Ok (a : A)
  | Throw (e : exn).
Arguments Ok {A} a.
Arguments Throw {A} e.

Definition bind {A B : Type} (m : result A) (f : A -> result B) : result B :=
  match m with
  | Ok a => f a
  | Throw e => Throw e
  end.

Notation "'let*' x ':=' m 'in' k" := (bind m (fun x => k))
  (at level 10, x name, m at level 100, k at level 200).

Inductive jsval : Type :=
  | JUndefined
  | JNull
  | JString (s : string).

(** [===] against [null]. *)
Definition is_null (v : jsval) : bool :=
  match v with JNull => true | _ => false end.

(** Truthiness of a note value ([!n] in the source is its negation). *)
Definition truthy (v : jsval) : bool :=
  match v with
  | JString "" => false
  | JString _ => true
  | _ => false
  end.

(** [a[i]]: [None] is [undefined], for an index outside the array. *)
Definition nthZ {A : Type} (l : list A) (i : Z) : option A :=
  if i <? 0 then None else nth_error l (Z.to_nat i).

Definition len {A : Type} (l : list A) : Z := Z.of_nat (List.length l).

(** A counterpoint entry as a value: a string or [null]. *)
Definition note_val (n : option string) : jsval :=
  match n with
  | Some s => JString s
  | None => JNull
  end.

(** [a[i]] for an array of strings (the cantus firmus, the sounding
    notes). *)
Definition str_at (l : list string) (i : Z) : jsval :=
  match nthZ l i with
  | Some s => JString s
  | None => JUndefined
  end.

Definition cf_at (cf : list string) (i : Z) : jsval := str_at cf i.

(** [a[i]] for a counterpoint array, whose entries are strings or [null]. *)
Definition cp_at (cp : list (option string)) (i : Z) : jsval :=
  match nthZ cp i with
  | Some n => note_val n
  | None => JUndefined
  end.

(** [Array.prototype.indexOf]. *)
Fixpoint indexOf_from {A : Type} (eqb : A -> A -> bool) (l : list A) (x : A) (k : Z) : Z :=
  match l with
  | [] => -1
  | y :: l' => if eqb y x then k else indexOf_from eqb l' x (k + 1)
  end.

Definition indexOf_str (l : list string) (x : string) : Z :=
  indexOf_from String.eqb l x 0.

Definition indexOf_Z (l : list Z) (x : Z) : Z :=
  indexOf_from Z.eqb l x 0.

Definition includes_str (l : list string) (x : string) : bool :=
  existsb (String.eqb x) l.

(** Number to string, as in [name + octave]. *)
Definition string_of_Z (z : Z) : string :=
  NilZero.string_of_int (Z.to_int z).

(** The integers [lo], [lo+1], ..., [hi-1]: the values a
    [for (let i = lo; i < hi; i++)] loop visits. *)
Definition zrange (lo hi : Z) : list Z :=
  map (fun k => lo + Z.of_nat k) (seq 0 (Z.to_nat (hi - lo))).

(* ================================================================== *)
(** * Pitch.js *)
(* ================================================================== *)

Module Pitch.

Definition NOTE_NAMES : list string :=
  ["C"; "C#"; "D"; "D#"; "E"; "F"; "F#"; "G"; "G#"; "A"; "A#"; "B"].

Definition ENHARMONICS : list (string * string) :=
  [("Db", "C#"); ("Eb", "D#"); ("Fb", "E"); ("Gb", "F#"); ("Ab", "G#");
   ("Bb", "A#"); ("Cb", "B"); ("E#", "F"); ("B#", "C")].

Definition DIATONIC_NAMES : list string :=
  ["C"; "D"; "E"; "F"; "G"; "A"; "B"].

Fixpoint lookup_enharmonic (tbl : list (string * string)) (k : string) : option string :=
  match tbl with
  | [] => None
  | (k', v) :: tbl' => if String.eqb k' k then Some v else lookup_enharmonic tbl' k
  end.

Record parsed : Type := mkParsed {
  name : string;
  accidental : string;
  octave : Z;
  midi : Z
}.

(** Character classes of the regular expression
    [/^([A-Ga-g])([#b]?)(\d)$/]. *)
Definition is_letter_AG (c : ascii) : bool :=
  let n := nat_of_ascii c in
  (((65 <=? n) && (n <=? 71)) || ((97 <=? n) && (n <=? 103)))%nat.

Definition is_accidental (c : ascii) : bool :=
  (Ascii.eqb c "#" || Ascii.eqb c "b")%char.

Definition is_digit (c : ascii) : bool :=
  let n := nat_of_ascii c in ((48 <=? n) && (n <=? 57))%nat.

Definition toUpperCase (c : ascii) : ascii :=
  let n := nat_of_ascii c in
  if ((97 <=? n) && (n <=? 122))%nat then ascii_of_nat (n - 32) else c.

Definition parseInt (c : ascii) : Z :=
  Z.of_nat (nat_of_ascii c - 48).

Definition str1 (c : ascii) : string := String c EmptyString.

(** The three capture groups, when the string matches. *)
Definition regex_match (noteStr : string) : option (ascii * string * ascii) :=
  match noteStr with
  | String l (String d EmptyString) =>
      if is_letter_AG l && is_digit d then Some (l, "", d) else None
  | String l (String a (String d EmptyString)) =>
      if is_letter_AG l && is_accidental a && is_digit d
      then Some (l, str1 a, d) else None
  | _ => None
  end.

Definition parse_string (noteStr : string) : result parsed :=
  match regex_match noteStr with
  | None => Throw InvalidNoteFormat
  | Some (l, acc, d) =>
      let name := str1 (toUpperCase l) in
      let octave := parseInt d in
      let normalizedName := (name ++ acc)%string in
      let normalizedName :=
        match lookup_enharmonic ENHARMONICS normalizedName with
        | Some n => n
        | None => normalizedName
        end in
      let semitone := indexOf_str NOTE_NAMES normalizedName in
      let semitone :=
        if semitone =? -1 then
          let baseIndex := indexOf_str NOTE_NAMES name in
          let s := if String.eqb acc "#" then baseIndex + 1 else baseIndex - 1 in
          Z.rem (s + 12) 12
        else semitone in
      Ok (mkParsed name acc octave ((octave + 1) * 12 + semitone))
  end.

(** [parse(noteStr)]: [noteStr.match] on [null] / [undefined] is a
    [TypeError]. *)
Definition parse (noteStr : jsval) : result parsed :=
  match noteStr with
  | JString s => parse_string s
  | _ => Throw TypeError
  end.

Definition fromMidi (midi : Z) : string :=
  let octave := midi / 12 - 1 in
  let noteIndex := Z.rem midi 12 in
  let noteName :=
    match nthZ NOTE_NAMES noteIndex with
    | Some n => n
    | None => "undefined"
    end in
  (noteName ++ string_of_Z octave)%string.

Definition toMidi (noteStr : jsval) : result Z :=
  let* p := parse noteStr in Ok (midi p).

Definition diatonicIndex (noteName : string) : Z :=
  match noteName with
  | EmptyString => indexOf_str DIATONIC_NAMES ""
  | String c _ => indexOf_str DIATONIC_NAMES (str1 (toUpperCase c))
  end.

Definition genericInterval (note1 note2 : jsval) : result Z :=
  let* p1 := parse note1 in
  let* p2 := parse note2 in
  let d1 := diatonicIndex (name p1) + octave p1 * 7 in
  let d2 := diatonicIndex (name p2) + octave p2 * 7 in
  Ok (Z.abs (d2 - d1) + 1).

End Pitch.

(* ================================================================== *)
(** * Interval.js *)
(* ================================================================== *)

Module Interval.

Record simple_t : Type := mkSimple {
  sgeneric : Z;
  ssemitones : Z;
  sname : string
}.

Record t : Type := mkInterval {
  semitones : Z;
  generic : Z;
  quality : string;
  name : string;
  simple : simple_t;
  compound : bool;
  direction : Z
}.

(** The [expected] table of [calculateQuality]; a missing key reads
    [undefined] and makes [diff] a [NaN], for which every comparison is
    false. *)
Definition expected (generic : Z) : option Z :=
  match generic with
  | 1 => Some 0 | 2 => Some 2 | 3 => Some 4 | 4 => Some 5
  | 5 => Some 7 | 6 => Some 9 | 7 => Some 11 | 8 => Some 12
  | _ => None
  end.

Definition calculateQuality (generic semitones : Z) : string :=
  let isPerfectType := existsb (Z.eqb generic) [1; 4; 5; 8] in
  match expected generic with
  | Some e =>
      let diff := semitones - e in
      if isPerfectType then
        if diff =? 0 then "P"
        else if diff =? 1 then "A"
        else if diff =? -1 then "d"
        else if diff >? 1 then "A"
        else "d"
      else
        if diff =? 0 then "M"
        else if diff =? -1 then "m"
        else if diff =? 1 then "A"
        else if diff <? -1 then "d"
        else "A"
  | None => if isPerfectType then "d" else "A"
  end.

Definition between (note1 note2 : jsval) : result t :=
  let* midi1 := Pitch.toMidi note1 in
  let* midi2 := Pitch.toMidi note2 in
  let semitones := midi2 - midi1 in
  let direction := if semitones >=? 0 then 1 else -1 in
  let semitones := Z.abs semitones in
  let* generic := Pitch.genericInterval note1 note2 in
  let simpleGeneric := Z.rem (generic - 1) 7 + 1 in
  let simpleSemitones := Z.rem semitones 12 in
  let quality := calculateQuality simpleGeneric simpleSemitones in
  Ok (mkInterval
        (semitones * direction)
        generic
        quality
        (quality ++ string_of_Z generic)%string
        (mkSimple simpleGeneric simpleSemitones (quality ++ string_of_Z simpleGeneric)%string)
        (generic >? 8)
        direction).

(** The classifiers are only ever applied to interval objects here, so
    the [typeof interval === 'string'] alternative is not needed. *)
Definition isConsonant (i : t) : bool :=
  includes_str ["P1"; "P5"; "P8"; "m3"; "M3"; "m6"; "M6"] (sname (simple i)).

Definition isPerfectConsonance (i : t) : bool :=
  includes_str ["P1"; "P5"; "P8"] (sname (simple i)).

Definition isImperfectConsonance (i : t) : bool :=
  includes_str ["m3"; "M3"; "m6"; "M6"] (sname (simple i)).

Definition isDissonant (i : t) : bool := negb (isConsonant i).

Definition isTritone (i : t) : bool := ssemitones (simple i) =? 6.

End Interval.

(* ================================================================== *)
(** * Scale.js *)
(* ================================================================== *)

Module Scale.

(** The keys of [PATTERNS]; [otherMode] stands for any mode name that is
    not a property of [PATTERNS], for which [getPattern] falls back to
    the major pattern. *)
Inductive mode : Type :=
  | major | naturalMinor | harmonicMinor | melodicMinor | dorian
  | phrygian | lydian | mixolydian | aeolian | locrian | otherMode.

Definition PATTERNS (m : mode) : option (list Z) :=
  match m with
  | major => Some [0; 2; 4; 5; 7; 9; 11]
  | naturalMinor => Some [0; 2; 3; 5; 7; 8; 10]
  | harmonicMinor => Some [0; 2; 3; 5; 7; 8; 11]
  | melodicMinor => Some [0; 2; 3; 5; 7; 9; 11]
  | dorian => Some [0; 2; 3; 5; 7; 9; 10]
  | phrygian => Some [0; 1; 3; 5; 7; 8; 10]
  | lydian => Some [0; 2; 4; 6; 7; 9; 11]
  | mixolydian => Some [0; 2; 4; 5; 7; 9; 10]
  | aeolian => Some [0; 2; 3; 5; 7; 8; 10]
  | locrian => Some [0; 1; 3; 5; 6; 8; 10]
  | otherMode => None
  end.

Definition getPattern (m : mode) : list Z :=
  match PATTERNS m with
  | Some p => p
  | None => [0; 2; 4; 5; 7; 9; 11]
  end.

(** [note + '0'] style concatenation on a note value is only applied to
    the tonic, which is a string. *)
Definition getDegree (note : jsval) (tonic : string) (m : mode) : result (option Z) :=
  let* noteMidi := Pitch.toMidi note in
  let* tonicMidi := Pitch.toMidi (JString (tonic ++ "0")%string) in
  let pattern := getPattern m in
  let relativePosition := Z.rem (Z.rem (noteMidi - tonicMidi) 12 + 12) 12 in
  let degreeIndex := indexOf_Z pattern relativePosition in
  Ok (if negb (degreeIndex =? -1) then Some (degreeIndex + 1) else None).

End Scale.

(* ================================================================== *)
(** * Validation results *)
(* ================================================================== *)

Inductive severity : Type := ERROR | WARNING | SUGGESTION.

(** A ValidationIssue.  [position] is [None] when the object has no
    [position] property (the [LENGTH] error). *)
Record issue : Type := mkIssue {
  rule : string;
  position : option Z;
  severity_of : severity
}.

Record noteResult : Type := mkNote {
  note_valid : bool;
  issues : list issue
}.

Record results : Type := mkResults {
  valid : bool;
  score : Z;
  errors : list issue;
  warnings : list issue;
  suggestions : list issue;
  noteResults : list noteResult
}.

(** The object every [validate] starts from. *)
Definition fresh_results : results := mkResults true 100 [] [] [] [].

Inductive voice : Type := upper | lower.

Record exercise : Type := mkExercise {
  cantusFirmus : list string;
  counterpoint : list (option string);
  key : string;
  mode : Scale.mode;
  cpPosition : voice
}.

(** The rule identifiers of the three [RULES] tables; a key that occurs
    in several tables has the same value in each. *)
Module RULES.
Definition CONSONANCE := "consonance".
Definition PARALLEL_FIFTHS := "parallel-fifths".
Definition PARALLEL_OCTAVES := "parallel-octaves".
Definition HIDDEN_FIFTHS := "hidden-fifths".
Definition HIDDEN_OCTAVES := "hidden-octaves".
Definition START_CONSONANCE := "start-consonance".
Definition END_CONSONANCE := "end-consonance".
Definition CADENCE := "cadence".
Definition VOICE_CROSSING := "voice-crossing".
Definition UNISON := "unison".
Definition MOTION_TYPE := "motion-type".
Definition STEPWISE := "stepwise".
Definition RANGE := "range".
Definition TRITONE := "tritone".
Definition LEADING_TONE := "leading-tone".
Definition COMPOUND_TRITONE := "compound-tritone".
Definition COMPOUND_DISSONANT_LEAP := "compound-dissonant-leap".
Definition BATTUTA_FIFTHS := "battuta-fifths".
Definition BATTUTA_OCTAVES := "battuta-octaves".
Definition PROLONGED_DIRECTION := "prolonged-direction".
Definition ARPEGGIO := "arpeggio".
Definition EXCESSIVE_PARALLELS := "excessive-parallels".
Definition PASSING_TONE := "passing-tone".
Definition WEAK_BEAT_DISSONANCE := "weak-beat-dissonance".
Definition LAST_NOTE_WHOLE := "last-note-whole".
Definition ANACRUSIS := "anacrusis".
Definition STRONG_WEAK_PARALLELS := "strong-weak-parallels".
Definition CADENCE_SECOND_SPECIES := "cadence-second-species".
Definition NOTE_REPETITION := "note-repetition".
Definition CAMBIATA := "cambiata".
Definition PASSING_TONE_STRONG := "passing-tone-strong".
Definition CADENCE_THIRD_SPECIES := "cadence-third-species".
Definition BEAT_THREE_CONSONANCE := "beat-three-consonance".
End RULES.

(* ------------------------------------------------------------------ *)
(** ** Statements on the results object *)

(** A rule check: it reads and extends the results object, or throws. *)
Definition check : Type := results -> result results.

Definition skip : check := fun r => Ok r.

Definition andThen (c1 c2 : check) : check := fun r => bind (c1 r) c2.

Notation "c1 ;; c2" := (andThen c1 c2) (at level 61, right associativity).

Definition when (b : bool) (c : check) : check := if b then c else skip.

(** Evaluate an expression that may throw, then go on. *)
Definition eval {A : Type} (m : result A) (k : A -> check) : check :=
  fun r => bind m (fun a => k a r).

Notation "'do' x '<-' m ';' k" := (eval m (fun x => k))
  (at level 10, x name, m at level 100, k at level 200).

(** [for (const a of l) body]. *)
Fixpoint forEach {A : Type} (l : list A) (body : A -> check) : check :=
  match l with
  | [] => skip
  | a :: l' => body a ;; forEach l' body
  end.

(** A statement sequence that also yields a value: the [break] flag of
    a loop body, or the new values of the loop variables. *)
Definition step (T : Type) : Type := results -> result (T * results).

Definition yield {T : Type} (t : T) : step T := fun r => Ok (t, r).

Definition thenYield {T : Type} (c : check) (t : T) : step T :=
  fun r => let* r' := c r in Ok (t, r').

Definition evalT {A T : Type} (m : result A) (k : A -> step T) : step T :=
  fun r => bind m (fun a => k a r).

Notation "'doT' x '<-' m ';' k" := (evalT m (fun x => k))
  (at level 10, x name, m at level 100, k at level 200).

(** A loop whose body may [break]: the body yields [true] to leave. *)
Fixpoint forBreak {A : Type} (l : list A) (body : A -> step bool) : check :=
  match l with
  | [] => skip
  | a :: l' => fun r =>
      let* br := body a r in
      if fst br then Ok (snd br) else forBreak l' body (snd br)
  end.

(** A loop that carries local variables [s] besides the results. *)
Fixpoint forState {A S : Type} (l : list A) (body : A -> S -> step S) (s : S) : step S :=
  match l with
  | [] => yield s
  | a :: l' => fun r =>
      let* sr := body a s r in
      forState l' body (fst sr) (snd sr)
  end.

(** The statements after such a loop, which read its variables. *)
Definition afterLoop {S : Type} (loop : step S) (k : S -> check) : check :=
  fun r => let* sr := loop r in k (fst sr) (snd sr).

Fixpoint mapM {A B : Type} (f : A -> result B) (l : list A) : result (list B) :=
  match l with
  | [] => Ok []
  | a :: l' =>
      let* b := f a in
      let* bs := mapM f l' in
      Ok (b :: bs)
  end.

Definition with_errors (l : list issue) (r : results) : results :=
  mkResults (valid r) (score r) l (warnings r) (suggestions r) (noteResults r).
Definition with_warnings (l : list issue) (r : results) : results :=
  mkResults (valid r) (score r) (errors r) l (suggestions r) (noteResults r).
Definition with_suggestions (l : list issue) (r : results) : results :=
  mkResults (valid r) (score r) (errors r) (warnings r) l (noteResults r).
Definition with_noteResults (l : list noteResult) (r : results) : results :=
  mkResults (valid r) (score r) (errors r) (warnings r) (suggestions r) l.
Definition with_valid (b : bool) (r : results) : results :=
  mkResults b (score r) (errors r) (warnings r) (suggestions r) (noteResults r).
Definition with_score (z : Z) (r : results) : results :=
  mkResults (valid r) z (errors r) (warnings r) (suggestions r) (noteResults r).

(** [results.errors.push(issue)] and its two siblings. *)
Definition push_error (i : issue) : check :=
  fun r => Ok (with_errors (errors r ++ [i]) r).
Definition push_warning (i : issue) : check :=
  fun r => Ok (with_warnings (warnings r ++ [i]) r).
Definition push_suggestion (i : issue) : check :=
  fun r => Ok (with_suggestions (suggestions r ++ [i]) r).

Fixpoint update_nth {A : Type} (n : nat) (f : A -> A) (l : list A) : option (list A) :=
  match l, n with
  | [], _ => None
  | x :: l', O => Some (f x :: l')
  | x :: l', S n' =>
      match update_nth n' f l' with
      | Some l'' => Some (x :: l'')
      | None => None
      end
  end.

(** A write through [results.noteResults[p]]: a [TypeError] when that
    entry is [undefined]. *)
Definition modify_note (p : Z) (f : noteResult -> noteResult) : check :=
  fun r =>
    if p <? 0 then Throw TypeError
    else match update_nth (Z.to_nat p) f (noteResults r) with
         | Some l => Ok (with_noteResults l r)
         | None => Throw TypeError
         end.

(** [results.noteResults[p].valid = false]. *)
Definition set_invalid (p : Z) : check :=
  modify_note p (fun n => mkNote false (issues n)).

(** [results.noteResults[p].issues.push(issue)]. *)
Definition push_note (p : Z) (i : issue) : check :=
  modify_note p (fun n => mkNote (note_valid n) (issues n ++ [i])).

(** The statement groups that end every per-position rule:
    - an error is pushed, the position is marked invalid and the issue is
      pushed to the position;
    - a warning or suggestion is pushed and pushed to the position.
    The [_only] variants are the bare [push] used by the global rules. *)
Definition error_at (rl : string) (p : Z) : check :=
  let i := mkIssue rl (Some p) ERROR in
  push_error i ;; set_invalid p ;; push_note p i.

Definition warning_at (rl : string) (p : Z) : check :=
  let i := mkIssue rl (Some p) WARNING in
  push_warning i ;; push_note p i.

Definition suggestion_at (rl : string) (p : Z) : check :=
  let i := mkIssue rl (Some p) SUGGESTION in
  push_suggestion i ;; push_note p i.

Definition error_only (rl : string) (p : Z) : check :=
  push_error (mkIssue rl (Some p) ERROR).

Definition warning_only (rl : string) (p : Z) : check :=
  push_warning (mkIssue rl (Some p) WARNING).

Definition suggestion_only (rl : string) (p : Z) : check :=
  push_suggestion (mkIssue rl (Some p) SUGGESTION).

(** The [for] loop that initialises [results.noteResults[i]] for
    [i < n]; on the empty array each assignment appends. *)
Definition init_noteResults (n : Z) : check :=
  forEach (zrange 0 n)
    (fun _ r => Ok (with_noteResults (noteResults r ++ [mkNote true []]) r)).

(** The early return of [validate] on a length mismatch. *)
Definition length_error : results :=
  with_valid false
    (with_errors (errors fresh_results ++ [mkIssue "LENGTH" None ERROR]) fresh_results).

(** The two assignments that end every [validate]. *)
Definition finish (calculateScore : results -> Z) : check :=
  fun r =>
    let r := with_score (calculateScore r) r in
    Ok (with_valid (len (errors r) =? 0) r).

(** [Interval.between(cpPosition === 'upper' ? cf : cp,
                      cpPosition === 'upper' ? cp : cf)]. *)
Definition between_voices (cpPosition : voice) (cf cp : jsval) : result Interval.t :=
  match cpPosition with
  | upper => Interval.between cf cp
  | lower => Interval.between cp cf
  end.

Definition sname_of (i : Interval.t) : string := Interval.sname (Interval.simple i).
Definition sgeneric_of (i : Interval.t) : Z := Interval.sgeneric (Interval.simple i).

(** [degree === k] for a degree that is a number or [null]. *)
Definition degree_is (d : option Z) (k : Z) : bool :=
  match d with
  | Some n => n =? k
  | None => false
  end.

Inductive motion : Type := stationary | oblique | similar | contrary.

Definition motion_eqb (a b : motion) : bool :=
  match a, b with
  | stationary, stationary | oblique, oblique
  | similar, similar | contrary, contrary => true
  | _, _ => false
  end.

(** [getMotionType], identical in the three validators. *)
Definition getMotionType (cf1 cf2 cp1 cp2 : jsval) : result motion :=
  let* a2 := Pitch.toMidi cf2 in
  let* a1 := Pitch.toMidi cf1 in
  let cfDirection := Z.sgn (a2 - a1) in
  let* b2 := Pitch.toMidi cp2 in
  let* b1 := Pitch.toMidi cp1 in
  let cpDirection := Z.sgn (b2 - b1) in
  if (cfDirection =? 0) && (cpDirection =? 0) then Ok stationary
  else if (cfDirection =? 0) || (cpDirection =? 0) then Ok oblique
  else if cfDirection =? cpDirection then Ok similar
  else Ok contrary.

(** [Math.sign(Pitch.toMidi(b) - Pitch.toMidi(a))]. *)
Definition sign_step (a b : jsval) : result Z :=
  let* mb := Pitch.toMidi b in
  let* ma := Pitch.toMidi a in
  Ok (Z.sgn (mb - ma)).

(** The [triadPatterns] table of [checkArpeggios]. *)
Definition triadPatterns : list (Z * Z * Z) :=
  [(1, 3, 5); (1, 5, 3); (3, 1, 5); (3, 5, 1); (5, 1, 3); (5, 3, 1);
   (2, 4, 6); (2, 6, 4); (4, 2, 6); (4, 6, 2); (6, 2, 4); (6, 4, 2);
   (3, 5, 7); (3, 7, 5); (5, 3, 7); (5, 7, 3); (7, 3, 5); (7, 5, 3);
   (4, 6, 1); (4, 1, 6); (6, 4, 1); (6, 1, 4); (1, 4, 6); (1, 6, 4);
   (5, 7, 2); (5, 2, 7); (7, 5, 2); (7, 2, 5); (2, 5, 7); (2, 7, 5);
   (6, 1, 3); (6, 3, 1); (1, 6, 3); (1, 3, 6); (3, 6, 1); (3, 1, 6);
   (7, 2, 4); (7, 4, 2); (2, 7, 4); (2, 4, 7); (4, 7, 2); (4, 2, 7)].

Definition pattern_matches (cur pat : Z * Z * Z) : bool :=
  match pat, cur with
  | (p0, p1, p2), (c0, c1, c2) => (p0 =? c0) && (p1 =? c1) && (p2 =? c2)
  end.

(* ================================================================== *)
(** * FirstSpeciesValidator.js *)
(* ================================================================== *)

Module FirstSpecies.

(** Rule 1: only consonances. *)
Definition checkConsonance (interval : Interval.t) (position : Z) : check :=
  when (Interval.isDissonant interval)
    (error_at RULES.CONSONANCE position).

(** Rule 7: unisons only at the beginning and the end. *)
Definition checkUnison (interval : Interval.t) (position length : Z) : check :=
  when (String.eqb (sname_of interval) "P1"
        && negb (position =? 0) && negb (position =? length - 1))
    (error_at RULES.UNISON position).

(** Rule 6: no voice crossing. *)
Definition checkVoiceCrossing (cf cp : jsval) (cpPosition : voice) (position : Z) : check :=
  do cfMidi <- Pitch.toMidi cf;
  do cpMidi <- Pitch.toMidi cp;
  let crossed :=
    match cpPosition with
    | upper => cpMidi <? cfMidi
    | lower => cpMidi >? cfMidi
    end in
  when crossed (error_at RULES.VOICE_CROSSING position).

(** Rules 2 and 3: parallel and hidden fifths / octaves. *)
Definition checkParallels (prevInterval currInterval : Interval.t)
    (prevCf currCf prevCp currCp : jsval) (position : Z) : check :=
  do motion <- getMotionType prevCf currCf prevCp currCp;
  let prevPerfect := Interval.isPerfectConsonance prevInterval
                     && negb (String.eqb (sname_of prevInterval) "P1") in
  let currPerfect := Interval.isPerfectConsonance currInterval
                     && negb (String.eqb (sname_of currInterval) "P1") in
  when (prevPerfect && currPerfect
        && String.eqb (sname_of prevInterval) (sname_of currInterval)
        && motion_eqb motion similar)
    (error_at (if String.eqb (sname_of prevInterval) "P5"
               then RULES.PARALLEL_FIFTHS else RULES.PARALLEL_OCTAVES) position) ;;
  when (negb prevPerfect && currPerfect && motion_eqb motion similar)
    (do cpInterval <- Interval.between prevCp currCp;
     let isStepwise := sgeneric_of cpInterval <=? 2 in
     when (negb isStepwise)
       (warning_at (if String.eqb (sname_of currInterval) "P5"
                    then RULES.HIDDEN_FIFTHS else RULES.HIDDEN_OCTAVES) position)).

(** Rule 11: no melodic tritone. *)
Definition checkMelodicTritone (prevNote currNote : jsval) (position : Z) : check :=
  do interval <- Interval.between prevNote currNote;
  when (Interval.isTritone interval) (error_at RULES.TRITONE position).

(** Rule 8: prefer contrary motion. *)
Definition analyzeMotion (prevCf currCf prevCp currCp : jsval) (position : Z) : check :=
  do motion <- getMotionType prevCf currCf prevCp currCp;
  when (motion_eqb motion similar) (suggestion_at RULES.MOTION_TYPE position).

(** Rule 9: prefer stepwise motion. *)
Definition checkStepwise (prevNote currNote : jsval) (position : Z) : check :=
  do interval <- Interval.between prevNote currNote;
  when (sgeneric_of interval >? 3) (suggestion_at RULES.STEPWISE position) ;;
  when (sgeneric_of interval >? 6) (warning_at RULES.STEPWISE position).

(** Rule 4: start on a perfect consonance. *)
Definition checkStartInterval (cf cp : jsval) (cpPosition : voice) : check :=
  do interval <- between_voices cpPosition cf cp;
  when (negb (Interval.isPerfectConsonance interval))
    (error_at RULES.START_CONSONANCE 0).

(** Rule 5: end on a perfect consonance with a proper cadence. *)
Definition checkEndInterval (cantusFirmus : list string)
    (counterpoint : list (option string)) (key : string) (mode : Scale.mode)
    (cpPosition : voice) : check :=
  let lastIdx := len cantusFirmus - 1 in
  let cf := cf_at cantusFirmus lastIdx in
  let cp := cp_at counterpoint lastIdx in
  do interval <- between_voices cpPosition cf cp;
  when (negb (String.eqb (sname_of interval) "P1")
        && negb (String.eqb (sname_of interval) "P8"))
    (error_at RULES.END_CONSONANCE lastIdx) ;;
  when (lastIdx >? 0)
    (let penultimateCp := cp_at counterpoint (lastIdx - 1) in
     do penultimateDegree <- Scale.getDegree penultimateCp key mode;
     match cpPosition with
     | upper =>
         when (negb (degree_is penultimateDegree 7))
           (warning_at RULES.LEADING_TONE (lastIdx - 1))
     | lower =>
         when (negb (degree_is penultimateDegree 2))
           (warning_at RULES.CADENCE (lastIdx - 1))
     end).

(** [Math.min(...l)] / [Math.max(...l)] of a non-empty list. *)
Definition min_of (m : Z) (l : list Z) : Z := fold_left Z.min l m.
Definition max_of (m : Z) (l : list Z) : Z := fold_left Z.max l m.

(** Rule 10: range.  On the empty array [Math.min()] is [Infinity] and
    [Math.max()] is [-Infinity], so that [range] is [-Infinity]. *)
Definition checkRange (counterpoint : list (option string)) (cpPosition : voice) : check :=
  do midis <- mapM (fun n => Pitch.toMidi (note_val n)) counterpoint;
  match midis with
  | [] => skip
  | m :: ms =>
      let lowest := min_of m ms in
      let highest := max_of m ms in
      let range := highest - lowest in
      when (range >? 19)
        (push_warning (mkIssue RULES.RANGE (Some (-1)) WARNING))
  end.

(** Rule 12: compound tritones. *)
Definition checkCompoundTritones (counterpoint : list (option string))
    (key : string) (mode : Scale.mode) : check :=
  if len counterpoint <? 3 then skip else
  forEach (zrange 0 (len counterpoint - 2)) (fun i =>
    forBreak (zrange 3 (Z.min 5 (len counterpoint - i) + 1)) (fun span =>
      let startNote := cp_at counterpoint i in
      let endNote := cp_at counterpoint (i + span - 1) in
      doT startDegree <- Scale.getDegree startNote key mode;
      doT endDegree <- Scale.getDegree endNote key mode;
      if (degree_is startDegree 4 && degree_is endDegree 7)
         || (degree_is startDegree 7 && degree_is endDegree 4)
      then
        doT interval <- Interval.between startNote endNote;
        if Interval.isTritone interval
        then thenYield (warning_only RULES.COMPOUND_TRITONE i) true
        else yield false
      else yield false)).

(** Rule 13: compound dissonant leaps. *)
Definition checkCompoundDissonantLeaps (counterpoint : list (option string)) : check :=
  if len counterpoint <? 3 then skip else
  forEach (zrange 0 (len counterpoint - 2)) (fun i =>
    let note1 := cp_at counterpoint i in
    let note2 := cp_at counterpoint (i + 1) in
    let note3 := cp_at counterpoint (i + 2) in
    do interval1 <- Interval.between note1 note2;
    do interval2 <- Interval.between note2 note3;
    when ((sgeneric_of interval1 >? 2) && (sgeneric_of interval2 >? 2))
      (do dir1 <- sign_step note1 note2;
       do dir2 <- sign_step note2 note3;
       when ((dir1 =? dir2) && negb (dir1 =? 0))
         (do compoundInterval <- Interval.between note1 note3;
          when (Interval.isDissonant compoundInterval
                || (sgeneric_of compoundInterval =? 7)
                || (sgeneric_of compoundInterval =? 9))
            (warning_only RULES.COMPOUND_DISSONANT_LEAP (i + 2))))).

(** Rule 14: battuta (intermittent) fifths and octaves.  Both [continue]
    statements only end the current iteration. *)
Definition checkBattutaParallels (cantusFirmus : list string)
    (counterpoint : list (option string)) (cpPosition : voice) : check :=
  if len cantusFirmus <? 3 then skip else
  forEach (zrange 0 (len cantusFirmus - 2)) (fun i =>
    do interval1 <- between_voices cpPosition (cf_at cantusFirmus i) (cp_at counterpoint i);
    if negb (Interval.isPerfectConsonance interval1)
       || String.eqb (sname_of interval1) "P1"
    then skip else
    forEach (zrange 2 (Z.min 3 (len cantusFirmus - i - 1) + 1)) (fun gap =>
      do interval2 <- between_voices cpPosition
                        (cf_at cantusFirmus (i + gap)) (cp_at counterpoint (i + gap));
      when (String.eqb (sname_of interval1) (sname_of interval2))
        (do cfDir <- sign_step (cf_at cantusFirmus i) (cf_at cantusFirmus (i + gap));
         do cpDir <- sign_step (cp_at counterpoint i) (cp_at counterpoint (i + gap));
         when ((cfDir =? cpDir) && negb (cfDir =? 0))
           (let rule := if String.eqb (sname_of interval1) "P5"
                        then RULES.BATTUTA_FIFTHS else RULES.BATTUTA_OCTAVES in
            do m2 <- Pitch.toMidi (cp_at counterpoint (i + gap));
            do m1 <- Pitch.toMidi (cp_at counterpoint (i + gap - 1));
            let cpLeap := Z.abs (m2 - m1) in
            do approachMotion <- getMotionType
                 (cf_at cantusFirmus (i + gap - 1)) (cf_at cantusFirmus (i + gap))
                 (cp_at counterpoint (i + gap - 1)) (cp_at counterpoint (i + gap));
            if (cpLeap >=? 5) && (cpLeap <=? 7) && motion_eqb approachMotion contrary
            then skip
            else warning_only rule (i + gap))))).

(** Rule 15: prolonged direction.  The loop variables are
    [(currentDirection, directionCount, startPosition)]. *)
Definition checkProlongedDirection (counterpoint : list (option string)) : check :=
  if len counterpoint <? 4 then skip else
  afterLoop
    (forState (zrange 1 (len counterpoint))
       (fun i '(currentDirection, directionCount, startPosition) =>
          doT direction <- sign_step (cp_at counterpoint (i - 1)) (cp_at counterpoint i);
          if direction =? 0
          then yield (currentDirection, directionCount, startPosition)
          else if direction =? currentDirection
          then yield (currentDirection, directionCount + 1, startPosition)
          else
            thenYield
              (when (directionCount >? 8)
                 (warning_only RULES.PROLONGED_DIRECTION startPosition))
              (direction, 1, i - 1))
       (0, 1, 0))
    (fun '(_, directionCount, startPosition) =>
       when (directionCount >? 8)
         (warning_only RULES.PROLONGED_DIRECTION startPosition)).

(** Rule 16: arpeggios.  [!degree] holds exactly for [null]: a degree is
    never [0]. *)
Definition checkArpeggios (counterpoint : list (option string))
    (key : string) (mode : Scale.mode) : check :=
  if len counterpoint <? 3 then skip else
  forEach (zrange 0 (len counterpoint - 2)) (fun i =>
    let note1 := cp_at counterpoint i in
    let note2 := cp_at counterpoint (i + 1) in
    let note3 := cp_at counterpoint (i + 2) in
    do degree1 <- Scale.getDegree note1 key mode;
    do degree2 <- Scale.getDegree note2 key mode;
    do degree3 <- Scale.getDegree note3 key mode;
    match degree1, degree2, degree3 with
    | Some d1, Some d2, Some d3 =>
        match find (pattern_matches (d1, d2, d3)) triadPatterns with
        | Some _ =>
            do int1 <- Interval.between note1 note2;
            do int2 <- Interval.between note2 note3;
            when ((sgeneric_of int1 >=? 3) && (sgeneric_of int2 >=? 3))
              (suggestion_only RULES.ARPEGGIO i)
        | None => skip
        end
    | _, _, _ => skip
    end).

(** Rule 17: excessive parallel thirds or sixths.  The loop variables are
    [(consecutiveThirds, consecutiveSixths, thirdsStart, sixthsStart)]. *)
Definition checkExcessiveParallelConsonances (cantusFirmus : list string)
    (counterpoint : list (option string)) (cpPosition : voice) : check :=
  if len cantusFirmus <? 4 then skip else
  afterLoop
    (forState (zrange 0 (len cantusFirmus))
       (fun i '(consecutiveThirds, consecutiveSixths, thirdsStart, sixthsStart) =>
          doT interval <- between_voices cpPosition
                            (cf_at cantusFirmus i) (cp_at counterpoint i);
          let isThird := String.eqb (sname_of interval) "m3"
                         || String.eqb (sname_of interval) "M3" in
          let isSixth := String.eqb (sname_of interval) "m6"
                         || String.eqb (sname_of interval) "M6" in
          if isThird then
            yield (consecutiveThirds + 1, 0,
                   (if consecutiveThirds =? 0 then i else thirdsStart), sixthsStart)
          else if isSixth then
            yield (0, consecutiveSixths + 1, thirdsStart,
                   (if consecutiveSixths =? 0 then i else sixthsStart))
          else
            thenYield
              (when (consecutiveThirds >? 4)
                 (suggestion_only RULES.EXCESSIVE_PARALLELS thirdsStart) ;;
               when (consecutiveSixths >? 4)
                 (suggestion_only RULES.EXCESSIVE_PARALLELS sixthsStart))
              (0, 0, thirdsStart, sixthsStart))
       (0, 0, 0, 0))
    (fun '(consecutiveThirds, consecutiveSixths, thirdsStart, sixthsStart) =>
       when (consecutiveThirds >? 4)
         (suggestion_only RULES.EXCESSIVE_PARALLELS thirdsStart) ;;
       when (consecutiveSixths >? 4)
         (suggestion_only RULES.EXCESSIVE_PARALLELS sixthsStart)).

Definition calculateScore (r : results) : Z :=
  let score := 100 in
  let score := score - len (errors r) * 15 in
  let score := score - len (warnings r) * 5 in
  let score := score - len (suggestions r) in
  Z.max 0 score.

Definition validate (e : exercise) : result results :=
  let cantusFirmus := cantusFirmus e in
  let counterpoint := counterpoint e in
  let key := key e in
  let mode := mode e in
  let cpPosition := cpPosition e in
  if negb (len cantusFirmus =? len counterpoint) then Ok length_error
  else
    let length := len cantusFirmus in
    (init_noteResults length ;;
     forEach (zrange 0 length) (fun i =>
       let cf := cf_at cantusFirmus i in
       let cp := cp_at counterpoint i in
       do interval <- between_voices cpPosition cf cp;
       checkConsonance interval i ;;
       checkUnison interval i length ;;
       checkVoiceCrossing cf cp cpPosition i ;;
       when (i >? 0)
         (let prevCf := cf_at cantusFirmus (i - 1) in
          let prevCp := cp_at counterpoint (i - 1) in
          do prevInterval <- between_voices cpPosition prevCf prevCp;
          checkParallels prevInterval interval prevCf cf prevCp cp i ;;
          checkMelodicTritone prevCp cp i ;;
          analyzeMotion prevCf cf prevCp cp i ;;
          checkStepwise prevCp cp i)) ;;
     checkStartInterval (cf_at cantusFirmus 0) (cp_at counterpoint 0) cpPosition ;;
     checkEndInterval cantusFirmus counterpoint key mode cpPosition ;;
     checkRange counterpoint cpPosition ;;
     checkCompoundTritones counterpoint key mode ;;
     checkCompoundDissonantLeaps counterpoint ;;
     checkBattutaParallels cantusFirmus counterpoint cpPosition ;;
     checkProlongedDirection counterpoint ;;
     checkArpeggios counterpoint key mode ;;
     checkExcessiveParallelConsonances cantusFirmus counterpoint cpPosition ;;
     finish calculateScore) fresh_results.

End FirstSpecies.

(* ================================================================== *)
(** * Helpers shared by the second- and third-species validators *)
(* ================================================================== *)

(** [getSoundingNotes]: the non-null entries with their indices. *)
Fixpoint getSoundingNotes_from (counterpoint : list (option string)) (i : Z)
    : list (string * Z) :=
  match counterpoint with
  | [] => []
  | None :: l => getSoundingNotes_from l (i + 1)
  | Some s :: l => (s, i) :: getSoundingNotes_from l (i + 1)
  end.

Definition getSoundingNotes (counterpoint : list (option string)) : list (string * Z) :=
  getSoundingNotes_from counterpoint 0.

(** [sounding[k]] where a property of the entry is read next: a
    [TypeError] when the entry is [undefined]. *)
Definition entry_at (sounding : list (string * Z)) (k : Z) : result (string * Z) :=
  match nthZ sounding k with
  | Some e => Ok e
  | None => Throw TypeError
  end.

(** [sounding[k].index]. *)
Definition index_at (sounding : list (string * Z)) (k : Z) : result Z :=
  let* e := entry_at sounding k in Ok (snd e).

(** [indices[k]] for a list of strong-beat indices.  Every use of such
    an index reads the counterpoint and the cantus firmus at it and
    parses what it finds, so that an [undefined] index ends in a
    [TypeError]; it is raised here. *)
Definition idx_at (indices : list Z) (k : Z) : result Z :=
  match nthZ indices k with
  | Some i => Ok i
  | None => Throw TypeError
  end.

(** The verdict [{ valid, reason }] of a formula detector. *)
Module Formula.
Record t : Type := mk { valid : bool; reason : string }.
End Formula.

(* ================================================================== *)
(** * SecondSpeciesValidator.js *)
(* ================================================================== *)

Module SecondSpecies.

Definition getMeasureIndex (cpIndex : Z) : Z := cpIndex / 2.

Definition isStrongBeat (cpIndex cpLen : Z) : bool :=
  (Z.rem cpIndex 2 =? 0) || (cpIndex =? cpLen - 1).

Definition isWeakBeat (cpIndex cpLen : Z) : bool :=
  (Z.rem cpIndex 2 =? 1) && negb (cpIndex =? cpLen - 1).

Definition getCFNote (cpIndex : Z) (cf : list string) : jsval :=
  cf_at cf (getMeasureIndex cpIndex).

Definition getStrongBeatIndices (cpLen : Z) : list Z :=
  filter (fun i => isStrongBeat i cpLen) (zrange 0 cpLen).

(** Passing-tone detection (§18). *)
Definition isPassingTone (cpIndex : Z) (counterpoint : list (option string))
    (cf : list string) (cpPosition : voice) : result Formula.t :=
  let cpLen := len counterpoint in
  if negb (isWeakBeat cpIndex cpLen) then
    Ok (Formula.mk false "No es tiempo débil")
  else
  let current := cp_at counterpoint cpIndex in
  if is_null current then
    Ok (Formula.mk false "Silencio, no nota de paso")
  else
  let prevIndex := cpIndex - 1 in
  let prev := cp_at counterpoint prevIndex in
  if is_null prev then
    Ok (Formula.mk false "Nota anterior es silencio (anacrusa)")
  else
  let nextIndex := cpIndex + 1 in
  if nextIndex >=? cpLen then
    Ok (Formula.mk false "No hay nota siguiente")
  else
  let next := cp_at counterpoint nextIndex in
  if is_null next then
    Ok (Formula.mk false "Nota siguiente es nula")
  else
  let* intervalPrevCurr := Interval.between prev current in
  if sgeneric_of intervalPrevCurr >? 2 then
    Ok (Formula.mk false "No hay grado conjunto desde la nota anterior")
  else
  let* intervalCurrNext := Interval.between current next in
  if sgeneric_of intervalCurrNext >? 2 then
    Ok (Formula.mk false "No hay grado conjunto hacia la nota siguiente")
  else
  let* dir1 := sign_step prev current in
  let* dir2 := sign_step current next in
  if (dir1 =? 0) || (dir2 =? 0) then
    Ok (Formula.mk false "Repetición de nota, no movimiento de escala")
  else
  if negb (dir1 =? dir2) then
    Ok (Formula.mk false "Cambio de dirección: no es nota de paso")
  else
  let prevCF := getCFNote prevIndex cf in
  let* prevInterval := between_voices cpPosition prevCF prev in
  if Interval.isDissonant prevInterval then
    Ok (Formula.mk false "Nota anterior (tiempo fuerte) no es consonante con el CF")
  else
  let nextCF := getCFNote nextIndex cf in
  let* nextInterval := between_voices cpPosition nextCF next in
  if Interval.isDissonant nextInterval then
    Ok (Formula.mk false "Nota siguiente (tiempo fuerte) no es consonante con el CF")
  else
  Ok (Formula.mk true "Nota de paso válida").

(** Only [counterpoint[0]] may be [null]. *)
Definition checkAnacrusis (counterpoint : list (option string)) (cpLen : Z) : check :=
  forEach (zrange 0 cpLen) (fun i =>
    when (is_null (cp_at counterpoint i) && negb (i =? 0))
      (error_at RULES.ANACRUSIS i)).

Definition checkStrongBeatConsonance (interval : Interval.t) (position : Z) : check :=
  when (Interval.isDissonant interval) (error_at RULES.CONSONANCE position).

Definition checkWeakBeatDissonance (interval : Interval.t) (position : Z)
    (counterpoint : list (option string)) (cf : list string) (cpPosition : voice) : check :=
  if negb (Interval.isDissonant interval) then skip else
  do ptResult <- isPassingTone position counterpoint cf cpPosition;
  when (negb (Formula.valid ptResult)) (error_at RULES.PASSING_TONE position).

Definition checkUnison (interval : Interval.t) (position cpLen : Z)
    (counterpoint : list (option string)) : check :=
  if negb (String.eqb (sname_of interval) "P1") then skip else
  let isFirstSounding :=
    ((position =? 0) && negb (is_null (cp_at counterpoint 0)))
    || ((position =? 1) && is_null (cp_at counterpoint 0)) in
  let isLast := position =? cpLen - 1 in
  when (negb isFirstSounding && negb isLast) (error_at RULES.UNISON position).

Definition checkVoiceCrossing (cf cp : jsval) (cpPosition : voice) (position : Z) : check :=
  do cfMidi <- Pitch.toMidi cf;
  do cpMidi <- Pitch.toMidi cp;
  let crossed :=
    match cpPosition with
    | upper => cpMidi <? cfMidi
    | lower => cpMidi >? cfMidi
    end in
  when crossed (error_at RULES.VOICE_CROSSING position).

Definition checkMelodicTritone (prevNote currNote : jsval) (position : Z) : check :=
  do interval <- Interval.between prevNote currNote;
  when (Interval.isTritone interval) (error_at RULES.TRITONE position).

Definition checkStepwise (prevNote currNote : jsval) (position : Z) : check :=
  do interval <- Interval.between prevNote currNote;
  when (sgeneric_of interval >? 3) (suggestion_at RULES.STEPWISE position) ;;
  when (sgeneric_of interval >? 6) (warning_at RULES.STEPWISE position).

(** Note repetition from a weak beat to the next strong beat. *)
Definition checkNoteRepetition (prevEntry currEntry : string * Z) (cpLen : Z) : check :=
  if negb (isWeakBeat (snd prevEntry) cpLen) then skip else
  if negb (isStrongBeat (snd currEntry) cpLen) then skip else
  do a <- Pitch.toMidi (JString (fst prevEntry));
  do b <- Pitch.toMidi (JString (fst currEntry));
  when (a =? b) (warning_at RULES.NOTE_REPETITION (snd currEntry)).

Definition checkStrongBeatParallels (cf : list string)
    (counterpoint : list (option string)) (cpPosition : voice) (cpLen : Z) : check :=
  let strongIndices := getStrongBeatIndices cpLen in
  forEach (zrange 1 (len strongIndices)) (fun si =>
    do prevIdx <- idx_at strongIndices (si - 1);
    do currIdx <- idx_at strongIndices si;
    let prevCp := cp_at counterpoint prevIdx in
    let currCp := cp_at counterpoint currIdx in
    if is_null prevCp || is_null currCp then skip else
    let prevCF := getCFNote prevIdx cf in
    let currCF := getCFNote currIdx cf in
    do prevInterval <- between_voices cpPosition prevCF prevCp;
    do currInterval <- between_voices cpPosition currCF currCp;
    do motion <- getMotionType prevCF currCF prevCp currCp;
    let prevPerfect := Interval.isPerfectConsonance prevInterval
                       && negb (String.eqb (sname_of prevInterval) "P1") in
    let currPerfect := Interval.isPerfectConsonance currInterval
                       && negb (String.eqb (sname_of currInterval) "P1") in
    when (prevPerfect && currPerfect
          && String.eqb (sname_of prevInterval) (sname_of currInterval)
          && motion_eqb motion similar)
      (error_at (if String.eqb (sname_of prevInterval) "P5"
                 then RULES.PARALLEL_FIFTHS else RULES.PARALLEL_OCTAVES) currIdx)).

Definition checkStrongBeatHiddenParallels (cf : list string)
    (counterpoint : list (option string)) (cpPosition : voice) (cpLen : Z) : check :=
  let strongIndices := getStrongBeatIndices cpLen in
  forEach (zrange 1 (len strongIndices)) (fun si =>
    do prevIdx <- idx_at strongIndices (si - 1);
    do currIdx <- idx_at strongIndices si;
    let prevCp := cp_at counterpoint prevIdx in
    let currCp := cp_at counterpoint currIdx in
    if is_null prevCp || is_null currCp then skip else
    let prevCF := getCFNote prevIdx cf in
    let currCF := getCFNote currIdx cf in
    do prevInterval <- between_voices cpPosition prevCF prevCp;
    do currInterval <- between_voices cpPosition currCF currCp;
    do motion <- getMotionType prevCF currCF prevCp currCp;
    let prevPerfect := Interval.isPerfectConsonance prevInterval
                       && negb (String.eqb (sname_of prevInterval) "P1") in
    let currPerfect := Interval.isPerfectConsonance currInterval
                       && negb (String.eqb (sname_of currInterval) "P1") in
    when (negb prevPerfect && currPerfect && motion_eqb motion similar)
      (do cpInterval <- Interval.between prevCp currCp;
       let isStepwise := sgeneric_of cpInterval <=? 2 in
       when (negb isStepwise)
         (warning_at (if String.eqb (sname_of currInterval) "P5"
                      then RULES.HIDDEN_FIFTHS else RULES.HIDDEN_OCTAVES) currIdx))).

Definition checkStrongBeatMotion (cf : list string)
    (counterpoint : list (option string)) (cpPosition : voice) (cpLen : Z) : check :=
  let strongIndices := getStrongBeatIndices cpLen in
  forEach (zrange 1 (len strongIndices)) (fun si =>
    do prevIdx <- idx_at strongIndices (si - 1);
    do currIdx <- idx_at strongIndices si;
    let prevCp := cp_at counterpoint prevIdx in
    let currCp := cp_at counterpoint currIdx in
    if is_null prevCp || is_null currCp then skip else
    let prevCF := getCFNote prevIdx cf in
    let currCF := getCFNote currIdx cf in
    do motion <- getMotionType prevCF currCF prevCp currCp;
    when (motion_eqb motion similar) (suggestion_at RULES.MOTION_TYPE currIdx)).

(** Perfect fifths / octaves between a strong beat and the adjacent
    weak beat. *)
Definition checkCrossBeatParallels (cf : list string)
    (counterpoint : list (option string)) (cpPosition : voice) (cpLen : Z) : check :=
  forEach (zrange 0 (cpLen - 1)) (fun i =>
    let cp1 := cp_at counterpoint i in
    let cp2 := cp_at counterpoint (i + 1) in
    if is_null cp1 || is_null cp2 then skip else
    let oneStrong := negb (Bool.eqb (isStrongBeat i cpLen) (isStrongBeat (i + 1) cpLen)) in
    if negb oneStrong then skip else
    let cf1 := getCFNote i cf in
    let cf2 := getCFNote (i + 1) cf in
    do interval1 <- between_voices cpPosition cf1 cp1;
    do interval2 <- between_voices cpPosition cf2 cp2;
    let perf1 := Interval.isPerfectConsonance interval1
                 && negb (String.eqb (sname_of interval1) "P1") in
    let perf2 := Interval.isPerfectConsonance interval2
                 && negb (String.eqb (sname_of interval2) "P1") in
    when (perf1 && perf2 && String.eqb (sname_of interval1) (sname_of interval2))
      (do motion <- getMotionType cf1 cf2 cp1 cp2;
       when (motion_eqb motion similar)
         (warning_at RULES.STRONG_WEAK_PARALLELS (i + 1)))).

Definition checkStartInterval (cf : list string)
    (counterpoint : list (option string)) (cpPosition : voice) : check :=
  let startIdx := if is_null (cp_at counterpoint 0) then 1 else 0 in
  let cp := cp_at counterpoint startIdx in
  if is_null cp then skip else
  let cfNote := getCFNote startIdx cf in
  do interval <- between_voices cpPosition cfNote cp;
  when (negb (Interval.isPerfectConsonance interval))
    (error_at RULES.START_CONSONANCE startIdx).

Definition checkEndInterval (cf : list string)
    (counterpoint : list (option string)) (key : string) (mode : Scale.mode)
    (cpPosition : voice) (cpLen : Z) : check :=
  let lastIdx := cpLen - 1 in
  let cp := cp_at counterpoint lastIdx in
  if is_null cp then skip else
  let cfNote := getCFNote lastIdx cf in
  do interval <- between_voices cpPosition cfNote cp;
  when (negb (String.eqb (sname_of interval) "P1")
        && negb (String.eqb (sname_of interval) "P8"))
    (error_at RULES.END_CONSONANCE lastIdx).

Definition checkLastNoteWhole (cpLen : Z) : check :=
  when ((cpLen >? 1) && (Z.rem cpLen 2 =? 0))
    (error_at RULES.LAST_NOTE_WHOLE (cpLen - 1)).

(** Cadence (§20-22). *)
Definition checkCadence (cf : list string)
    (counterpoint : list (option string)) (key : string) (mode : Scale.mode)
    (cpPosition : voice) (cpLen : Z) : check :=
  if cpLen <? 3 then skip else
  let penultimateWeakIdx := cpLen - 2 in
  let penultimateWeakNote := cp_at counterpoint penultimateWeakIdx in
  if is_null penultimateWeakNote then skip else
  if negb (isWeakBeat penultimateWeakIdx cpLen) then skip else
  do degree <- Scale.getDegree penultimateWeakNote key mode;
  match cpPosition with
  | upper =>
      when (negb (degree_is degree 7))
        (warning_at RULES.CADENCE_SECOND_SPECIES penultimateWeakIdx)
  | lower =>
      when (negb (degree_is degree 2) && negb (degree_is degree 5)
            && negb (degree_is degree 7))
        (warning_at RULES.CADENCE_SECOND_SPECIES penultimateWeakIdx)
  end ;;
  let penultimateStrongIdx := cpLen - 3 in
  when (penultimateStrongIdx >=? 0)
    (let penultimateStrongNote := cp_at counterpoint penultimateStrongIdx in
     match cpPosition with
     | upper =>
         when (negb (is_null penultimateStrongNote))
           (do strongDegree <- Scale.getDegree penultimateStrongNote key mode;
            when (negb (degree_is strongDegree 6) && negb (degree_is strongDegree 5))
              (suggestion_at RULES.CADENCE_SECOND_SPECIES penultimateStrongIdx))
     | lower => skip
     end).

Definition min_of (m : Z) (l : list Z) : Z := fold_left Z.min l m.
Definition max_of (m : Z) (l : list Z) : Z := fold_left Z.max l m.

(** Range, on the sounding notes only. *)
Definition checkRange (counterpoint : list (option string)) (cpPosition : voice) : check :=
  do midis <- mapM (fun n => Pitch.toMidi (note_val n))
                (filter (fun n => negb (is_null (note_val n))) counterpoint);
  match midis with
  | [] => skip
  | m :: ms =>
      let lowest := min_of m ms in
      let highest := max_of m ms in
      let range := highest - lowest in
      when (range >? 19)
        (push_warning (mkIssue RULES.RANGE (Some (-1)) WARNING))
  end.

(** Rule 12: compound tritones, with the cadential exception. *)
Definition checkCompoundTritones (soundingNotes : list string)
    (sounding : list (string * Z)) (key : string) (mode : Scale.mode) : check :=
  if len soundingNotes <? 3 then skip else
  forEach (zrange 0 (len soundingNotes - 2)) (fun i =>
    forBreak (zrange 3 (Z.min 5 (len soundingNotes - i) + 1)) (fun span =>
      let startNote := str_at soundingNotes i in
      let endNote := str_at soundingNotes (i + span - 1) in
      doT startDegree <- Scale.getDegree startNote key mode;
      doT endDegree <- Scale.getDegree endNote key mode;
      if (degree_is startDegree 4 && degree_is endDegree 7)
         || (degree_is startDegree 7 && degree_is endDegree 4)
      then
        doT interval <- Interval.between startNote endNote;
        if Interval.isTritone interval then
          doT startPos <- index_at sounding i;
          doT endPos <- index_at sounding (i + span - 1);
          if degree_is endDegree 7 && (i + span - 1 =? len soundingNotes - 2)
          then yield true
          else thenYield (warning_only RULES.COMPOUND_TRITONE startPos) true
        else yield false
      else yield false)).

(** Rule 13: compound dissonant leaps. *)
Definition checkCompoundDissonantLeaps (soundingNotes : list string)
    (sounding : list (string * Z)) : check :=
  if len soundingNotes <? 3 then skip else
  forEach (zrange 0 (len soundingNotes - 2)) (fun i =>
    let note1 := str_at soundingNotes i in
    let note2 := str_at soundingNotes (i + 1) in
    let note3 := str_at soundingNotes (i + 2) in
    do interval1 <- Interval.between note1 note2;
    do interval2 <- Interval.between note2 note3;
    when ((sgeneric_of interval1 >? 2) && (sgeneric_of interval2 >? 2))
      (do dir1 <- sign_step note1 note2;
       do dir2 <- sign_step note2 note3;
       when ((dir1 =? dir2) && negb (dir1 =? 0))
         (do compoundInterval <- Interval.between note1 note3;
          when (Interval.isDissonant compoundInterval
                || (sgeneric_of compoundInterval =? 7)
                || (sgeneric_of compoundInterval =? 9))
            (do pos <- index_at sounding (i + 2);
             do startPos <- index_at sounding i;
             warning_only RULES.COMPOUND_DISSONANT_LEAP pos)))).

(** Rule 15: prolonged direction.  The loop variables are
    [(currentDirection, directionCount, startSoundingIdx)]. *)
Definition checkProlongedDirection (soundingNotes : list string)
    (sounding : list (string * Z)) : check :=
  if len soundingNotes <? 4 then skip else
  afterLoop
    (forState (zrange 1 (len soundingNotes))
       (fun i '(currentDirection, directionCount, startSoundingIdx) =>
          doT direction <- sign_step (str_at soundingNotes (i - 1)) (str_at soundingNotes i);
          if direction =? 0
          then yield (currentDirection, directionCount, startSoundingIdx)
          else if direction =? currentDirection
          then yield (currentDirection, directionCount + 1, startSoundingIdx)
          else
            thenYield
              (when (directionCount >? 8)
                 (do startPos <- index_at sounding startSoundingIdx;
                  do endPos <- index_at sounding (i - 1);
                  warning_only RULES.PROLONGED_DIRECTION startPos))
              (direction, 1, i - 1))
       (0, 1, 0))
    (fun '(_, directionCount, startSoundingIdx) =>
       when (directionCount >? 8)
         (do startPos <- index_at sounding startSoundingIdx;
          do endPos <- index_at sounding (len soundingNotes - 1);
          warning_only RULES.PROLONGED_DIRECTION startPos)).

(** Rule 16: arpeggios. *)
Definition checkArpeggios (soundingNotes : list string)
    (sounding : list (string * Z)) (key : string) (mode : Scale.mode) : check :=
  if len soundingNotes <? 3 then skip else
  forEach (zrange 0 (len soundingNotes - 2)) (fun i =>
    let note1 := str_at soundingNotes i in
    let note2 := str_at soundingNotes (i + 1) in
    let note3 := str_at soundingNotes (i + 2) in
    do degree1 <- Scale.getDegree note1 key mode;
    do degree2 <- Scale.getDegree note2 key mode;
    do degree3 <- Scale.getDegree note3 key mode;
    match degree1, degree2, degree3 with
    | Some d1, Some d2, Some d3 =>
        match find (pattern_matches (d1, d2, d3)) triadPatterns with
        | Some _ =>
            do int1 <- Interval.between note1 note2;
            do int2 <- Interval.between note2 note3;
            when ((sgeneric_of int1 >=? 3) && (sgeneric_of int2 >=? 3))
              (do pos <- index_at sounding i;
               do endPos <- index_at sounding (i + 2);
               suggestion_only RULES.ARPEGGIO pos)
        | None => skip
        end
    | _, _, _ => skip
    end).

(** Rule 17: excessive parallel thirds or sixths between strong beats.
    The loop variables are
    [(consecutiveThirds, consecutiveSixths, thirdsStart, sixthsStart)]. *)
Definition checkExcessiveParallelConsonances (cf : list string)
    (counterpoint : list (option string)) (cpPosition : voice) (cpLen : Z) : check :=
  let strongIndices := getStrongBeatIndices cpLen in
  if len strongIndices <? 4 then skip else
  afterLoop
    (forState (zrange 0 (len strongIndices))
       (fun si '(consecutiveThirds, consecutiveSixths, thirdsStart, sixthsStart) =>
          doT idx <- idx_at strongIndices si;
          let cp := cp_at counterpoint idx in
          if is_null cp then yield (0, 0, thirdsStart, sixthsStart) else
          let cfNote := getCFNote idx cf in
          doT interval <- between_voices cpPosition cfNote cp;
          let isThird := String.eqb (sname_of interval) "m3"
                         || String.eqb (sname_of interval) "M3" in
          let isSixth := String.eqb (sname_of interval) "m6"
                         || String.eqb (sname_of interval) "M6" in
          if isThird then
            yield (consecutiveThirds + 1, 0,
                   (if consecutiveThirds =? 0 then idx else thirdsStart), sixthsStart)
          else if isSixth then
            yield (0, consecutiveSixths + 1, thirdsStart,
                   (if consecutiveSixths =? 0 then idx else sixthsStart))
          else
            thenYield
              (when (consecutiveThirds >? 4)
                 (suggestion_only RULES.EXCESSIVE_PARALLELS thirdsStart) ;;
               when (consecutiveSixths >? 4)
                 (suggestion_only RULES.EXCESSIVE_PARALLELS sixthsStart))
              (0, 0, thirdsStart, sixthsStart))
       (0, 0, 0, 0))
    (fun '(consecutiveThirds, consecutiveSixths, thirdsStart, sixthsStart) =>
       when (consecutiveThirds >? 4)
         (suggestion_only RULES.EXCESSIVE_PARALLELS thirdsStart) ;;
       when (consecutiveSixths >? 4)
         (suggestion_only RULES.EXCESSIVE_PARALLELS sixthsStart)).

(** Rule 14: battuta fifths / octaves between strong beats. *)
Definition checkBattutaParallels (cf : list string)
    (counterpoint : list (option string)) (cpPosition : voice) (cpLen : Z) : check :=
  let strongIndices := getStrongBeatIndices cpLen in
  if len strongIndices <? 3 then skip else
  forEach (zrange 0 (len strongIndices - 2)) (fun si =>
    do idx1 <- idx_at strongIndices si;
    let cp1 := cp_at counterpoint idx1 in
    if is_null cp1 then skip else
    let cf1 := getCFNote idx1 cf in
    do interval1 <- between_voices cpPosition cf1 cp1;
    if negb (Interval.isPerfectConsonance interval1)
       || String.eqb (sname_of interval1) "P1"
    then skip else
    forEach (zrange 2 (Z.min 3 (len strongIndices - si - 1) + 1)) (fun gap =>
      do idx2 <- idx_at strongIndices (si + gap);
      let cp2 := cp_at counterpoint idx2 in
      if is_null cp2 then skip else
      let cf2 := getCFNote idx2 cf in
      do interval2 <- between_voices cpPosition cf2 cp2;
      when (String.eqb (sname_of interval1) (sname_of interval2))
        (do cfDir <- sign_step cf1 cf2;
         do cpDir <- sign_step cp1 cp2;
         when ((cfDir =? cpDir) && negb (cfDir =? 0))
           (do prevStrongIdx <- idx_at strongIndices (si + gap - 1);
            let prevCp := cp_at counterpoint prevStrongIdx in
            let report :=
              warning_only (if String.eqb (sname_of interval1) "P5"
                            then RULES.BATTUTA_FIFTHS else RULES.BATTUTA_OCTAVES) idx2 in
            if negb (is_null prevCp) then
              do m2 <- Pitch.toMidi cp2;
              do m1 <- Pitch.toMidi prevCp;
              let cpLeap := Z.abs (m2 - m1) in
              let prevCF := getCFNote prevStrongIdx cf in
              do approachMotion <- getMotionType prevCF cf2 prevCp cp2;
              if (cpLeap >=? 5) && (cpLeap <=? 7) && motion_eqb approachMotion contrary
              then skip
              else report
            else report)))).

Definition calculateScore (r : results) : Z :=
  let score := 100 in
  let score := score - len (errors r) * 10 in
  let score := score - len (warnings r) * 4 in
  let score := score - len (suggestions r) in
  Z.max 0 score.

Definition validate (e : exercise) : result results :=
  let cantusFirmus := cantusFirmus e in
  let counterpoint := counterpoint e in
  let key := key e in
  let mode := mode e in
  let cpPosition := cpPosition e in
  let cfLen := len cantusFirmus in
  let cpLen := len counterpoint in
  let expectedCpLen := cfLen * 2 - 1 in
  if negb (cpLen =? expectedCpLen) then Ok length_error
  else
    let sounding := getSoundingNotes counterpoint in
    let soundingNotes := map fst sounding in
    (init_noteResults cpLen ;;
     checkAnacrusis counterpoint cpLen ;;
     forEach (zrange 0 cpLen) (fun i =>
       let cp := cp_at counterpoint i in
       if is_null cp then skip else
       let cfNote := getCFNote i cantusFirmus in
       do interval <- between_voices cpPosition cfNote cp;
       when (isStrongBeat i cpLen)
         (checkStrongBeatConsonance interval i ;;
          checkUnison interval i cpLen counterpoint) ;;
       when (isWeakBeat i cpLen)
         (checkWeakBeatDissonance interval i counterpoint cantusFirmus cpPosition) ;;
       checkVoiceCrossing cfNote cp cpPosition i) ;;
     forEach (zrange 1 (len sounding)) (fun si =>
       do prevEntry <- entry_at sounding (si - 1);
       do currEntry <- entry_at sounding si;
       checkMelodicTritone (JString (fst prevEntry)) (JString (fst currEntry)) (snd currEntry) ;;
       checkStepwise (JString (fst prevEntry)) (JString (fst currEntry)) (snd currEntry) ;;
       checkNoteRepetition prevEntry currEntry cpLen) ;;
     checkStrongBeatParallels cantusFirmus counterpoint cpPosition cpLen ;;
     checkStrongBeatHiddenParallels cantusFirmus counterpoint cpPosition cpLen ;;
     checkStrongBeatMotion cantusFirmus counterpoint cpPosition cpLen ;;
     checkCrossBeatParallels cantusFirmus counterpoint cpPosition cpLen ;;
     checkStartInterval cantusFirmus counterpoint cpPosition ;;
     checkEndInterval cantusFirmus counterpoint key mode cpPosition cpLen ;;
     checkLastNoteWhole cpLen ;;
     checkCadence cantusFirmus counterpoint key mode cpPosition cpLen ;;
     checkRange counterpoint cpPosition ;;
     checkCompoundTritones soundingNotes sounding key mode ;;
     checkCompoundDissonantLeaps soundingNotes sounding ;;
     checkProlongedDirection soundingNotes sounding ;;
     checkArpeggios soundingNotes sounding key mode ;;
     checkExcessiveParallelConsonances cantusFirmus counterpoint cpPosition cpLen ;;
     checkBattutaParallels cantusFirmus counterpoint cpPosition cpLen ;;
     finish calculateScore) fresh_results.

End SecondSpecies.

(* ================================================================== *)
(** * ThirdSpeciesValidator.js *)
(* ================================================================== *)

(** The verdict [{ valid, reason, notePosition }] of [isCambiata]. *)
Module Cambiata.
Record t : Type := mk { valid : bool; reason : string; notePosition : option Z }.
End Cambiata.

(** The verdict [{ type, valid, reason }] of [classifyDissonance]. *)
Module Classification.
Record t : Type := mk { type : string; valid : bool; reason : string }.
End Classification.

Module ThirdSpecies.

Definition getMeasureIndex (cpIndex : Z) : Z := cpIndex / 4.

Definition getBeatInMeasure (cpIndex : Z) : Z := Z.rem cpIndex 4 + 1.

Definition isDownbeat (cpIndex cpLen : Z) : bool :=
  (Z.rem cpIndex 4 =? 0) || (cpIndex =? cpLen - 1).

Definition isSemiStrong (cpIndex cpLen : Z) : bool :=
  (Z.rem cpIndex 4 =? 2) && negb (cpIndex =? cpLen - 1).

Definition isWeakBeat (cpIndex cpLen : Z) : bool :=
  let beat := Z.rem cpIndex 4 in
  ((beat =? 1) || (beat =? 3)) && negb (cpIndex =? cpLen - 1).

Definition getCFNote (cpIndex : Z) (cf : list string) : jsval :=
  cf_at cf (getMeasureIndex cpIndex).

Definition getDownbeatIndices (cpLen : Z) : list Z :=
  filter (fun i => isDownbeat i cpLen) (zrange 0 cpLen).

(** Passing tone (§26). *)
Definition isPassingTone (cpIndex : Z) (counterpoint : list (option string))
    (cf : list string) (cpPosition : voice) : result Formula.t :=
  let cpLen := len counterpoint in
  if negb (isWeakBeat cpIndex cpLen) then
    Ok (Formula.mk false "No es tiempo débil")
  else
  let current := cp_at counterpoint cpIndex in
  if is_null current then
    Ok (Formula.mk false "Silencio, no nota de paso")
  else
  let prevIndex := cpIndex - 1 in
  if prevIndex <? 0 then
    Ok (Formula.mk false "No hay nota anterior")
  else
  let prev := cp_at counterpoint prevIndex in
  if is_null prev then
    Ok (Formula.mk false "Nota anterior es silencio")
  else
  let nextIndex := cpIndex + 1 in
  if nextIndex >=? cpLen then
    Ok (Formula.mk false "No hay nota siguiente")
  else
  let next := cp_at counterpoint nextIndex in
  if is_null next then
    Ok (Formula.mk false "Nota siguiente es nula")
  else
  let* intervalPrevCurr := Interval.between prev current in
  if sgeneric_of intervalPrevCurr >? 2 then
    Ok (Formula.mk false "No hay grado conjunto desde la nota anterior")
  else
  let* intervalCurrNext := Interval.between current next in
  if sgeneric_of intervalCurrNext >? 2 then
    Ok (Formula.mk false "No hay grado conjunto hacia la nota siguiente")
  else
  let* dir1 := sign_step prev current in
  let* dir2 := sign_step current next in
  if (dir1 =? 0) || (dir2 =? 0) then
    Ok (Formula.mk false "Repetición de nota, no movimiento de escala")
  else
  if negb (dir1 =? dir2) then
    Ok (Formula.mk false "Cambio de dirección: no es nota de paso")
  else
  let prevCF := getCFNote prevIndex cf in
  let* prevInterval := between_voices cpPosition prevCF prev in
  if Interval.isDissonant prevInterval then
    Ok (Formula.mk false "Nota anterior no es consonante con el CF")
  else
  let nextCF := getCFNote nextIndex cf in
  let* nextInterval := between_voices cpPosition nextCF next in
  if Interval.isDissonant nextInterval then
    Ok (Formula.mk false "Nota siguiente no es consonante con el CF")
  else
  Ok (Formula.mk true "Nota de paso válida").

(** Is there a valid cambiata whose first note is at [startIndex]? *)
Definition _checkCambiataAt (startIndex : Z) (counterpoint : list (option string))
    (cf : list string) (cpPosition : voice) (cpLen : Z) : result bool :=
  if (startIndex <? 0) || (startIndex + 4 >=? cpLen) then Ok false else
  let n1 := cp_at counterpoint startIndex in
  let n2 := cp_at counterpoint (startIndex + 1) in
  let n3 := cp_at counterpoint (startIndex + 2) in
  let n4 := cp_at counterpoint (startIndex + 3) in
  let n5 := cp_at counterpoint (startIndex + 4) in
  if negb (truthy n1) || negb (truthy n2) || negb (truthy n3)
     || negb (truthy n4) || negb (truthy n5)
  then Ok false else
  let* m1 := Pitch.toMidi n1 in
  let* m2 := Pitch.toMidi n2 in
  let* m3 := Pitch.toMidi n3 in
  let* m4 := Pitch.toMidi n4 in
  let* m5 := Pitch.toMidi n5 in
  let* int12 := Interval.between n1 n2 in
  let* int23 := Interval.between n2 n3 in
  let* int34 := Interval.between n3 n4 in
  let* int45 := Interval.between n4 n5 in
  let dir1 := Z.sgn (m2 - m1) in
  if dir1 =? 0 then Ok false else
  if (dir1 <? 0)
     && (negb (sgeneric_of int12 =? 2) || (m2 >=? m1)
         || (negb (sgeneric_of int23 =? 3) || (m3 >=? m2))
         || (negb (sgeneric_of int34 =? 2) || (m4 <=? m3))
         || (negb (sgeneric_of int45 =? 2) || (m5 <=? m4)))
  then Ok false else
  if (dir1 >? 0)
     && (negb (sgeneric_of int12 =? 2) || (m2 <=? m1)
         || (negb (sgeneric_of int23 =? 3) || (m3 <=? m2))
         || (negb (sgeneric_of int34 =? 2) || (m4 >=? m3))
         || (negb (sgeneric_of int45 =? 2) || (m5 >=? m4)))
  then Ok false else
  let cf1 := getCFNote startIndex cf in
  let* interval1 := between_voices cpPosition cf1 n1 in
  if Interval.isDissonant interval1 then Ok false else
  let cf5 := getCFNote (startIndex + 4) cf in
  let* interval5 := between_voices cpPosition cf5 n5 in
  if Interval.isDissonant interval5 then Ok false else
  if Interval.isTritone interval5 then Ok false else
  Ok true.

(** Cambiata (§29-§32): the position as note 2, 3 or 4 of a pattern. *)
Definition isCambiata (cpIndex : Z) (counterpoint : list (option string))
    (cf : list string) (cpPosition : voice) : result Cambiata.t :=
  let cpLen := len counterpoint in
  let current := cp_at counterpoint cpIndex in
  if is_null current then Ok (Cambiata.mk false "Silencio" None) else
  let* w2 := _checkCambiataAt (cpIndex - 1) counterpoint cf cpPosition cpLen in
  if w2 then Ok (Cambiata.mk true "Nota 2 de cambiata válida" (Some 2)) else
  let* w3 := _checkCambiataAt (cpIndex - 2) counterpoint cf cpPosition cpLen in
  if w3 then Ok (Cambiata.mk true "Nota 3 de cambiata válida" (Some 3)) else
  let* w4 := _checkCambiataAt (cpIndex - 3) counterpoint cf cpPosition cpLen in
  if w4 then Ok (Cambiata.mk true "Nota 4 de cambiata válida" (Some 4)) else
  Ok (Cambiata.mk false "No es parte de una cambiata válida" None).

(** Strong-beat passing tone (§33). *)
Definition isStrongBeatPassingTone (cpIndex : Z) (counterpoint : list (option string))
    (cf : list string) (cpPosition : voice) : result Formula.t :=
  let cpLen := len counterpoint in
  if negb (isSemiStrong cpIndex cpLen) then
    Ok (Formula.mk false "No es tiempo 3 (semi-fuerte)")
  else
  let current := cp_at counterpoint cpIndex in
  if is_null current then Ok (Formula.mk false "Silencio") else
  let prevIndex := cpIndex - 1 in
  if prevIndex <? 0 then Ok (Formula.mk false "No hay nota anterior") else
  let prev := cp_at counterpoint prevIndex in
  if is_null prev then Ok (Formula.mk false "Nota anterior es silencio") else
  let nextIndex := cpIndex + 1 in
  if nextIndex >=? cpLen then Ok (Formula.mk false "No hay nota siguiente") else
  let next := cp_at counterpoint nextIndex in
  if is_null next then Ok (Formula.mk false "Nota siguiente es nula") else
  let* intPrev := Interval.between prev current in
  if sgeneric_of intPrev >? 2 then
    Ok (Formula.mk false "No hay grado conjunto desde la nota anterior")
  else
  let* intNext := Interval.between current next in
  if sgeneric_of intNext >? 2 then
    Ok (Formula.mk false "No hay grado conjunto hacia la nota siguiente")
  else
  let* dir1 := sign_step prev current in
  let* dir2 := sign_step current next in
  if (dir1 =? 0) || (dir2 =? 0) || negb (dir1 =? dir2) then
    Ok (Formula.mk false "No es movimiento escalar continuo")
  else
  let* intPrevNext := Interval.between prev next in
  if negb (sgeneric_of intPrevNext =? 3) then
    Ok (Formula.mk false "No es el centro de un intervalo de 3ª")
  else
  let prevCF := getCFNote prevIndex cf in
  let* prevInterval := between_voices cpPosition prevCF prev in
  if Interval.isDissonant prevInterval then
    Ok (Formula.mk false "Nota anterior no es consonante con el CF")
  else
  let nextCF := getCFNote nextIndex cf in
  let* nextInterval := between_voices cpPosition nextCF next in
  if Interval.isDissonant nextInterval then
    Ok (Formula.mk false "Nota siguiente no es consonante con el CF")
  else
  Ok (Formula.mk true "Nota de paso en tiempo fuerte válida (§33)").

(** Classify a dissonance: a valid formula or an error. *)
Definition classifyDissonance (cpIndex : Z) (counterpoint : list (option string))
    (cf : list string) (cpPosition : voice) : result Classification.t :=
  let cpLen := len counterpoint in
  if isDownbeat cpIndex cpLen then
    Ok (Classification.mk "invalid" false
          "Disonancia en tiempo 1 (fuerte) — prohibida")
  else
  if isSemiStrong cpIndex cpLen then
    let* spt := isStrongBeatPassingTone cpIndex counterpoint cf cpPosition in
    if Formula.valid spt then
      Ok (Classification.mk "strong-passing-tone" true (Formula.reason spt))
    else
    let* cam := isCambiata cpIndex counterpoint cf cpPosition in
    if Cambiata.valid cam then
      Ok (Classification.mk "cambiata" true (Cambiata.reason cam))
    else
    Ok (Classification.mk "invalid" false
          "Disonancia en tiempo 3 no es nota de paso válida ni cambiata")
  else
  if isWeakBeat cpIndex cpLen then
    let* pt := isPassingTone cpIndex counterpoint cf cpPosition in
    if Formula.valid pt then
      Ok (Classification.mk "passing-tone" true (Formula.reason pt))
    else
    let* cam := isCambiata cpIndex counterpoint cf cpPosition in
    if Cambiata.valid cam then
      Ok (Classification.mk "cambiata" true (Cambiata.reason cam))
    else
    Ok (Classification.mk "invalid" false
          ("Disonancia en tiempo débil no es nota de paso ni cambiata. "
           ++ Formula.reason pt)%string)
  else
  Ok (Classification.mk "invalid" false "Posición no reconocida").

(** The first loop of the source function has an empty body; no null is
    allowed from position 3 on (or 0 without anacrusis). *)
Definition checkAnacrusis (counterpoint : list (option string)) (cpLen : Z) : check :=
  let hasAnacrusis := is_null (cp_at counterpoint 0) in
  let startCheck := if hasAnacrusis then 3 else 0 in
  forEach (zrange startCheck cpLen) (fun i =>
    when (is_null (cp_at counterpoint i)) (error_at RULES.UNISON i)).

Definition checkDownbeatConsonance (interval : Interval.t) (position : Z) : check :=
  when (Interval.isDissonant interval) (error_at RULES.CONSONANCE position).

Definition checkBeatThreeConsonance (interval : Interval.t) (position : Z)
    (counterpoint : list (option string)) (cf : list string) (cpPosition : voice) : check :=
  if negb (Interval.isDissonant interval) then skip else
  do classification <- classifyDissonance position counterpoint cf cpPosition;
  if negb (Classification.valid classification)
  then error_at RULES.BEAT_THREE_CONSONANCE position
  else suggestion_at RULES.PASSING_TONE_STRONG position.

Definition checkWeakBeatDissonance (interval : Interval.t) (position : Z)
    (counterpoint : list (option string)) (cf : list string) (cpPosition : voice) : check :=
  if negb (Interval.isDissonant interval) then skip else
  do classification <- classifyDissonance position counterpoint cf cpPosition;
  when (negb (Classification.valid classification))
    (error_at RULES.PASSING_TONE position).

Fixpoint _getFirstSoundingIndex_from (counterpoint : list (option string)) (i : Z) : option Z :=
  match counterpoint with
  | [] => None
  | Some _ :: _ => Some i
  | None :: l => _getFirstSoundingIndex_from l (i + 1)
  end.

Definition _getFirstSoundingIndex (counterpoint : list (option string)) : Z :=
  match _getFirstSoundingIndex_from counterpoint 0 with
  | Some i => i
  | None => 0
  end.

Definition checkUnison (interval : Interval.t) (position cpLen : Z)
    (counterpoint : list (option string)) : check :=
  if negb (String.eqb (sname_of interval) "P1") then skip else
  let firstSounding := _getFirstSoundingIndex counterpoint in
  let isFirst := position =? firstSounding in
  let isLast := position =? cpLen - 1 in
  when (negb isFirst && negb isLast) (error_at RULES.UNISON position).

Definition checkVoiceCrossing (cf cp : jsval) (cpPosition : voice) (position : Z) : check :=
  do cfMidi <- Pitch.toMidi cf;
  do cpMidi <- Pitch.toMidi cp;
  let crossed :=
    match cpPosition with
    | upper => cpMidi <? cfMidi
    | lower => cpMidi >? cfMidi
    end in
  when crossed (error_at RULES.VOICE_CROSSING position).

Definition checkMelodicTritone (prevNote currNote : jsval) (position : Z) : check :=
  do interval <- Interval.between prevNote currNote;
  when (Interval.isTritone interval) (error_at RULES.TRITONE position).

Definition checkDownbeatParallels (cf : list string)
    (counterpoint : list (option string)) (cpPosition : voice) (cpLen : Z) : check :=
  let downbeats := getDownbeatIndices cpLen in
  forEach (zrange 1 (len downbeats)) (fun di =>
    do prevIdx <- idx_at downbeats (di - 1);
    do currIdx <- idx_at downbeats di;
    let prevCp := cp_at counterpoint prevIdx in
    let currCp := cp_at counterpoint currIdx in
    if is_null prevCp || is_null currCp then skip else
    let prevCF := getCFNote prevIdx cf in
    let currCF := getCFNote currIdx cf in
    do prevInterval <- between_voices cpPosition prevCF prevCp;
    do currInterval <- between_voices cpPosition currCF currCp;
    do motion <- getMotionType prevCF currCF prevCp currCp;
    let prevPerfect := Interval.isPerfectConsonance prevInterval
                       && negb (String.eqb (sname_of prevInterval) "P1") in
    let currPerfect := Interval.isPerfectConsonance currInterval
                       && negb (String.eqb (sname_of currInterval) "P1") in
    when (prevPerfect && currPerfect
          && String.eqb (sname_of prevInterval) (sname_of currInterval)
          && motion_eqb motion similar)
      (error_at (if String.eqb (sname_of prevInterval) "P5"
                 then RULES.PARALLEL_FIFTHS else RULES.PARALLEL_OCTAVES) currIdx)).

Definition checkDownbeatHiddenParallels (cf : list string)
    (counterpoint : list (option string)) (cpPosition : voice) (cpLen : Z) : check :=
  let downbeats := getDownbeatIndices cpLen in
  forEach (zrange 1 (len downbeats)) (fun di =>
    do prevIdx <- idx_at downbeats (di - 1);
    do currIdx <- idx_at downbeats di;
    let prevCp := cp_at counterpoint prevIdx in
    let currCp := cp_at counterpoint currIdx in
    if is_null prevCp || is_null currCp then skip else
    let prevCF := getCFNote prevIdx cf in
    let currCF := getCFNote currIdx cf in
    do prevInterval <- between_voices cpPosition prevCF prevCp;
    do currInterval <- between_voices cpPosition currCF currCp;
    do motion <- getMotionType prevCF currCF prevCp currCp;
    let prevPerfect := Interval.isPerfectConsonance prevInterval
                       && negb (String.eqb (sname_of prevInterval) "P1") in
    let currPerfect := Interval.isPerfectConsonance currInterval
                       && negb (String.eqb (sname_of currInterval) "P1") in
    when (negb prevPerfect && currPerfect && motion_eqb motion similar)
      (do cpInterval <- Interval.between prevCp currCp;
       let isStepwise := sgeneric_of cpInterval <=? 2 in
       when (negb isStepwise)
         (warning_at (if String.eqb (sname_of currInterval) "P5"
                      then RULES.HIDDEN_FIFTHS else RULES.HIDDEN_OCTAVES) currIdx))).

Definition checkDownbeatMotion (cf : list string)
    (counterpoint : list (option string)) (cpPosition : voice) (cpLen : Z) : check :=
  let downbeats := getDownbeatIndices cpLen in
  forEach (zrange 1 (len downbeats)) (fun di =>
    do prevIdx <- idx_at downbeats (di - 1);
    do currIdx <- idx_at downbeats di;
    let prevCp := cp_at counterpoint prevIdx in
    let currCp := cp_at counterpoint currIdx in
    if is_null prevCp || is_null currCp then skip else
    let prevCF := getCFNote prevIdx cf in
    let currCF := getCFNote currIdx cf in
    do motion <- getMotionType prevCF currCF prevCp currCp;
    when (motion_eqb motion similar) (suggestion_at RULES.MOTION_TYPE currIdx)).

Definition checkStartInterval (cf : list string)
    (counterpoint : list (option string)) (cpPosition : voice) : check :=
  let startIdx := _getFirstSoundingIndex counterpoint in
  let cp := cp_at counterpoint startIdx in
  if is_null cp then skip else
  let cfNote := getCFNote startIdx cf in
  do interval <- between_voices cpPosition cfNote cp;
  when (negb (Interval.isPerfectConsonance interval))
    (error_at RULES.START_CONSONANCE startIdx).

Definition checkEndInterval (cf : list string)
    (counterpoint : list (option string)) (cpPosition : voice) (cpLen : Z) : check :=
  let lastIdx := cpLen - 1 in
  let cp := cp_at counterpoint lastIdx in
  if is_null cp then skip else
  let cfNote := getCFNote lastIdx cf in
  do interval <- between_voices cpPosition cfNote cp;
  when (negb (String.eqb (sname_of interval) "P1")
        && negb (String.eqb (sname_of interval) "P8"))
    (error_at RULES.END_CONSONANCE lastIdx).

(** This check only pushes to [results.errors]. *)
Definition checkLastNoteWhole (cpLen : Z) : check :=
  when (negb (Z.rem (cpLen + 3) 4 =? 0))
    (error_only RULES.CONSONANCE (cpLen - 1)).

(** Cadence (§34). *)
Definition checkCadence (cf : list string)
    (counterpoint : list (option string)) (key : string) (mode : Scale.mode)
    (cpPosition : voice) (cpLen : Z) : check :=
  if cpLen <? 5 then skip else
  let penultimateBeat4Idx := cpLen - 2 in
  let penultimateBeat4Note := cp_at counterpoint penultimateBeat4Idx in
  if is_null penultimateBeat4Note then skip else
  do degree <- Scale.getDegree penultimateBeat4Note key mode;
  match cpPosition with
  | upper =>
      when (negb (degree_is degree 7))
        (warning_at RULES.CADENCE_THIRD_SPECIES penultimateBeat4Idx)
  | lower =>
      when (negb (degree_is degree 2) && negb (degree_is degree 5)
            && negb (degree_is degree 7))
        (warning_at RULES.CADENCE_THIRD_SPECIES penultimateBeat4Idx)
  end.

(** Compound tritones (§7c). *)
Definition checkCompoundTritones (soundingNotes : list string)
    (sounding : list (string * Z)) (key : string) (mode : Scale.mode) : check :=
  if len soundingNotes <? 3 then skip else
  forEach (zrange 0 (len soundingNotes - 2)) (fun i =>
    forBreak (zrange 3 (Z.min 5 (len soundingNotes - i) + 1)) (fun span =>
      let startNote := str_at soundingNotes i in
      let endNote := str_at soundingNotes (i + span - 1) in
      doT startDegree <- Scale.getDegree startNote key mode;
      doT endDegree <- Scale.getDegree endNote key mode;
      if (degree_is startDegree 4 && degree_is endDegree 7)
         || (degree_is startDegree 7 && degree_is endDegree 4)
      then
        doT interval <- Interval.between startNote endNote;
        if Interval.isTritone interval then
          doT startPos <- index_at sounding i;
          doT endPos <- index_at sounding (i + span - 1);
          if degree_is endDegree 7 && (i + span - 1 =? len soundingNotes - 2)
          then yield true
          else thenYield (warning_only RULES.COMPOUND_TRITONE startPos) true
        else yield false
      else yield false)).

(** Prolonged direction (§7f), with the threshold raised to 11. *)
Definition checkProlongedDirection (soundingNotes : list string)
    (sounding : list (string * Z)) : check :=
  if len soundingNotes <? 4 then skip else
  let threshold := 11 in
  afterLoop
    (forState (zrange 1 (len soundingNotes))
       (fun i '(currentDirection, directionCount, startSoundingIdx) =>
          doT direction <- sign_step (str_at soundingNotes (i - 1)) (str_at soundingNotes i);
          if direction =? 0
          then yield (currentDirection, directionCount, startSoundingIdx)
          else if direction =? currentDirection
          then yield (currentDirection, directionCount + 1, startSoundingIdx)
          else
            thenYield
              (when (directionCount >? threshold)
                 (do startPos <- index_at sounding startSoundingIdx;
                  do endPos <- index_at sounding (i - 1);
                  warning_only RULES.PROLONGED_DIRECTION startPos))
              (direction, 1, i - 1))
       (0, 1, 0))
    (fun '(_, directionCount, startSoundingIdx) =>
       when (directionCount >? threshold)
         (do startPos <- index_at sounding startSoundingIdx;
          do endPos <- index_at sounding (len soundingNotes - 1);
          warning_only RULES.PROLONGED_DIRECTION startPos)).

(** Arpeggiated patterns (§7h). *)
Definition checkArpeggios (soundingNotes : list string)
    (sounding : list (string * Z)) (key : string) (mode : Scale.mode) : check :=
  if len soundingNotes <? 3 then skip else
  forEach (zrange 0 (len soundingNotes - 2)) (fun i =>
    let note1 := str_at soundingNotes i in
    let note2 := str_at soundingNotes (i + 1) in
    let note3 := str_at soundingNotes (i + 2) in
    do degree1 <- Scale.getDegree note1 key mode;
    do degree2 <- Scale.getDegree note2 key mode;
    do degree3 <- Scale.getDegree note3 key mode;
    match degree1, degree2, degree3 with
    | Some d1, Some d2, Some d3 =>
        match find (pattern_matches (d1, d2, d3)) triadPatterns with
        | Some _ =>
            do int1 <- Interval.between note1 note2;
            do int2 <- Interval.between note2 note3;
            when ((sgeneric_of int1 >=? 3) && (sgeneric_of int2 >=? 3))
              (do pos <- index_at sounding i;
               do endPos <- index_at sounding (i + 2);
               suggestion_only RULES.ARPEGGIO pos)
        | None => skip
        end
    | _, _, _ => skip
    end).

(** Excessive note repetition; the loop variable is [repeatCount]. *)
Definition checkNoteRepetition (sounding : list (string * Z)) : check :=
  if len sounding <? 3 then skip else
  afterLoop
    (forState (zrange 1 (len sounding))
       (fun i repeatCount =>
          doT curr <- entry_at sounding i;
          doT a <- Pitch.toMidi (JString (fst curr));
          doT prev <- entry_at sounding (i - 1);
          doT b <- Pitch.toMidi (JString (fst prev));
          if a =? b then
            thenYield
              (when (repeatCount + 1 >=? 3)
                 (warning_only RULES.NOTE_REPETITION (snd curr)))
              (repeatCount + 1)
          else yield 1)
       1)
    (fun _ => skip).

Definition calculateScore (r : results) : Z :=
  let score := 100 in
  let score := score - len (errors r) * 8 in
  let score := score - len (warnings r) * 3 in
  let score := score - len (suggestions r) in
  Z.max 0 score.

Definition validate (e : exercise) : result results :=
  let cantusFirmus := cantusFirmus e in
  let counterpoint := counterpoint e in
  let key := key e in
  let mode := mode e in
  let cpPosition := cpPosition e in
  let cfLen := len cantusFirmus in
  let cpLen := len counterpoint in
  let expectedCpLen := cfLen * 4 - 3 in
  if negb (cpLen =? expectedCpLen) then Ok length_error
  else
    let sounding := getSoundingNotes counterpoint in
    let soundingNotes := map fst sounding in
    (init_noteResults cpLen ;;
     checkAnacrusis counterpoint cpLen ;;
     forEach (zrange 0 cpLen) (fun i =>
       let cp := cp_at counterpoint i in
       if is_null cp then skip else
       let cfNote := getCFNote i cantusFirmus in
       do interval <- between_voices cpPosition cfNote cp;
       when (isDownbeat i cpLen)
         (checkDownbeatConsonance interval i ;;
          checkUnison interval i cpLen counterpoint) ;;
       when (isSemiStrong i cpLen)
         (checkBeatThreeConsonance interval i counterpoint cantusFirmus cpPosition) ;;
       when (isWeakBeat i cpLen)
         (checkWeakBeatDissonance interval i counterpoint cantusFirmus cpPosition) ;;
       checkVoiceCrossing cfNote cp cpPosition i) ;;
     forEach (zrange 1 (len sounding)) (fun si =>
       do prevEntry <- entry_at sounding (si - 1);
       do currEntry <- entry_at sounding si;
       checkMelodicTritone (JString (fst prevEntry)) (JString (fst currEntry)) (snd currEntry)) ;;
     checkDownbeatParallels cantusFirmus counterpoint cpPosition cpLen ;;
     checkDownbeatHiddenParallels cantusFirmus counterpoint cpPosition cpLen ;;
     checkDownbeatMotion cantusFirmus counterpoint cpPosition cpLen ;;
     checkStartInterval cantusFirmus counterpoint cpPosition ;;
     checkEndInterval cantusFirmus counterpoint cpPosition cpLen ;;
     checkLastNoteWhole cpLen ;;
     checkCadence cantusFirmus counterpoint key mode cpPosition cpLen ;;
     checkCompoundTritones soundingNotes sounding key mode ;;
     checkProlongedDirection soundingNotes sounding ;;
     checkArpeggios soundingNotes sounding key mode ;;
     checkNoteRepetition sounding ;;
     finish calculateScore) fresh_results.

End ThirdSpecies.

(* ================================================================== *)
(** * The three validators as one family *)
(* ================================================================== *)

Inductive species : Type := First | Second | Third.

Definition validate_of (sp : species) : exercise -> result results :=
  match sp with
  | First => FirstSpecies.validate
  | Second => SecondSpecies.validate
  | Third => ThirdSpecies.validate
  end.

(** The counterpoint length each species asks for. *)
Definition expected_length (sp : species) (cfLen : Z) : Z :=
  match sp with
  | First => cfLen
  | Second => 2 * cfLen - 1
  | Third => 4 * cfLen - 3
  end.

Definition calculateScore_of (sp : species) : results -> Z :=
  match sp with
  | First => FirstSpecies.calculateScore
  | Second => SecondSpecies.calculateScore
  | Third => ThirdSpecies.calculateScore
  end.

(** All the issues of a result. *)
Definition all_issues (r : results) : list issue :=
  errors r ++ warnings r ++ suggestions r.

(* ================================================================== *)
(** * Vocabulary of the statements *)
(* ================================================================== *)

(** The weights of an error and of a warning, per species. *)
Definition weights (sp : species) : Z * Z :=
  match sp with
  | First => (15, 5)
  | Second => (10, 4)
  | Third => (8, 3)
  end.

(** [Pitch.toMidi(Pitch.fromMidi(i))]. *)
Definition roundtrip (i : Z) : result Z :=
  Pitch.toMidi (JString (Pitch.fromMidi i)).

Definition roundtrip_ok (i : Z) : bool :=
  match roundtrip i with
  | Ok j => j =? i
  | Throw _ => false
  end.

(** A detector returned, and its verdict is [valid] / not [valid]. *)
Definition accepts {A : Type} (valid : A -> bool) (m : result A) : Prop :=
  exists a, m = Ok a /\ valid a = true.

Definition rejects {A : Type} (valid : A -> bool) (m : result A) : Prop :=
  exists a, m = Ok a /\ valid a = false.

(** ** How a rule check extends the results *)

(** Every rule check only appends issues and only extends the issue
    lists of the per-position results.  [grows] records that, together
    with what is known of each appended issue: its rule is not [range],
    and it is either of a rule in [G] (the rules that push to a severity
    list only) or attached to the per-position result of its position. *)

Section GrowthRelation.

Variable G : string -> bool.

Definition attached (nrs : list noteResult) (i : issue) : Prop :=
  forall p, position i = Some p -> 0 <= p ->
    exists nr, nthZ nrs p = Some nr /\ In i (issues nr).

Definition admissible (nrs : list noteResult) (i : issue) : Prop :=
  rule i <> RULES.RANGE /\ (G (rule i) = true \/ attached nrs i).

Definition notes_grow (a b : list noteResult) : Prop :=
  forall k nr, nth_error a k = Some nr ->
    exists nr', nth_error b k = Some nr' /\ incl (issues nr) (issues nr').

Definition extends (nrs : list noteResult) (old new : list issue) : Prop :=
  exists l, new = old ++ l /\ Forall (admissible nrs) l.

Record grows (r r' : results) : Prop := mkGrows {
  grows_errors : extends (noteResults r') (errors r) (errors r');
  grows_warnings : extends (noteResults r') (warnings r) (warnings r');
  grows_suggestions : extends (noteResults r') (suggestions r) (suggestions r');
  grows_notes : notes_grow (noteResults r) (noteResults r')
}.

(** A check, or a loop body, is [sound] when every completed run of it
    [grows] the results. *)
Definition sound (c : check) : Prop :=
  forall r r', c r = Ok r' -> grows r r'.

Definition soundT {T : Type} (f : step T) : Prop :=
  forall r t r', f r = Ok (t, r') -> grows r r'.

End GrowthRelation.

(** The global melodic rules of each validator push their warning or
    suggestion without touching [results.noteResults]. *)
Definition global_rules (sp : species) : list string :=
  match sp with
  | First | Second =>
      [RULES.COMPOUND_TRITONE; RULES.COMPOUND_DISSONANT_LEAP;
       RULES.BATTUTA_FIFTHS; RULES.BATTUTA_OCTAVES;
       RULES.PROLONGED_DIRECTION; RULES.ARPEGGIO; RULES.EXCESSIVE_PARALLELS]
  | Third =>
      [RULES.COMPOUND_TRITONE; RULES.PROLONGED_DIRECTION;
       RULES.ARPEGGIO; RULES.NOTE_REPETITION]
  end.

Definition is_global (sp : species) (rl : string) : bool :=
  includes_str (global_rules sp) rl.

(** The warning of [checkRange]. *)
Definition range_issue : issue := mkIssue RULES.RANGE (Some (-1)) WARNING.

(** Highest minus lowest semitone index of a list of notes. *)
Definition semitone_span (ms : list Z) : Z :=
  match ms with
  | [] => 0
  | m :: l => fold_left Z.max l m - fold_left Z.min l m
  end.

(** The semitone indices of the sounding (non-rest) counterpoint notes. *)
Definition sounding_midis (e : exercise) : result (list Z) :=
  mapM (fun s => Pitch.toMidi (JString s))
       (map fst (getSoundingNotes (counterpoint e))).

Definition range_step (ms : list Z) (r : results) : results :=
  if semitone_span ms >? 19
  then with_warnings (warnings r ++ [range_issue]) r
  else r.

(** An issue of a result is the range warning, or admissible. *)
Definition accounted G (r : results) : Prop :=
  forall i, In i (all_issues r) ->
    i = range_issue \/ admissible G (noteResults r) i.

(** A result without any [range] issue. *)
Definition no_range (r : results) : Prop :=
  forall i, In i (all_issues r) -> rule i <> RULES.RANGE.

(** ** The cadence checks *)

(** The cadence check of each validator: in the first species it is the
    second half of [checkEndInterval]. *)
Definition cadence_check_of (sp : species) (e : exercise) : check :=
  match sp with
  | First =>
      FirstSpecies.checkEndInterval (cantusFirmus e) (counterpoint e)
        (key e) (mode e) (cpPosition e)
  | Second =>
      SecondSpecies.checkCadence (cantusFirmus e) (counterpoint e)
        (key e) (mode e) (cpPosition e) (len (counterpoint e))
  | Third =>
      ThirdSpecies.checkCadence (cantusFirmus e) (counterpoint e)
        (key e) (mode e) (cpPosition e) (len (counterpoint e))
  end.

(** The scale degrees the lower voice may hold on the penultimate unit
    without an issue. *)
Definition lower_cadence_degrees (sp : species) : list Z :=
  match sp with
  | First => [2]
  | Second | Third => [2; 5; 7]
  end.

Definition cadence_rule (sp : species) : string :=
  match sp with
  | First => RULES.CADENCE
  | Second => RULES.CADENCE_SECOND_SPECIES
  | Third => RULES.CADENCE_THIRD_SPECIES
  end.

Definition degree_among (d : option Z) (l : list Z) : bool :=
  existsb (degree_is d) l.

(** The results at the point where the rule checks start: [n] fresh
    per-position entries. *)
Definition blank_results (n : nat) : results :=
  mkResults true 100 [] [] [] (repeat (mkNote true []) n).

(** ** The formula detectors *)

(** The conditions under which [isPassingTone] accepts the note [cur] of
    a weak-beat position: they are the documented ones, except that the
    two melodic intervals are measured by [simple.generic]. *)
Definition passing_tone_conditions (getCFNote : Z -> list string -> jsval)
    (cpIndex : Z) (counterpoint : list (option string)) (cf : list string)
    (cpPosition : voice) (cur : string) : Prop :=
  exists prev next i1 i2 d iP iN,
    cp_at counterpoint (cpIndex - 1) = JString prev /\
    cp_at counterpoint (cpIndex + 1) = JString next /\
    Interval.between (JString prev) (JString cur) = Ok i1 /\
    sgeneric_of i1 <= 2 /\
    Interval.between (JString cur) (JString next) = Ok i2 /\
    sgeneric_of i2 <= 2 /\
    sign_step (JString prev) (JString cur) = Ok d /\
    sign_step (JString cur) (JString next) = Ok d /\
    d <> 0 /\
    between_voices cpPosition (getCFNote (cpIndex - 1) cf) (JString prev) = Ok iP /\
    Interval.isConsonant iP = true /\
    between_voices cpPosition (getCFNote (cpIndex + 1) cf) (JString next) = Ok iN /\
    Interval.isConsonant iN = true.

(** The part of the two detectors that follows the tests on the
    position and on rests. *)
Definition passing_tone_tail (getCFNote : Z -> list string -> jsval)
    (cpIndex : Z) (cf : list string) (cpPosition : voice)
    (prev current next : jsval) (r1 r2 r3 r4 r5 r6 r7 : string) : result Formula.t :=
  let* intervalPrevCurr := Interval.between prev current in
  if sgeneric_of intervalPrevCurr >? 2 then Ok (Formula.mk false r1) else
  let* intervalCurrNext := Interval.between current next in
  if sgeneric_of intervalCurrNext >? 2 then Ok (Formula.mk false r2) else
  let* dir1 := sign_step prev current in
  let* dir2 := sign_step current next in
  if (dir1 =? 0) || (dir2 =? 0) then Ok (Formula.mk false r3) else
  if negb (dir1 =? dir2) then Ok (Formula.mk false r4) else
  let* prevInterval := between_voices cpPosition (getCFNote (cpIndex - 1) cf) prev in
  if Interval.isDissonant prevInterval then Ok (Formula.mk false r5) else
  let* nextInterval := between_voices cpPosition (getCFNote (cpIndex + 1) cf) next in
  if Interval.isDissonant nextInterval then Ok (Formula.mk false r6) else
  Ok (Formula.mk true r7).

(** The conditions under which [_checkCambiataAt] accepts the window of
    five notes that starts at [startIndex]; again the four melodic
    intervals are measured by [simple.generic]. *)
Definition cambiata_window_conditions (startIndex : Z)
    (counterpoint : list (option string)) (cf : list string)
    (cpPosition : voice) : Prop :=
  exists n1 n2 n3 n4 n5 m1 m2 m3 m4 m5 i12 i23 i34 i45 I1 I5,
    cp_at counterpoint startIndex = JString n1 /\
    cp_at counterpoint (startIndex + 1) = JString n2 /\
    cp_at counterpoint (startIndex + 2) = JString n3 /\
    cp_at counterpoint (startIndex + 3) = JString n4 /\
    cp_at counterpoint (startIndex + 4) = JString n5 /\
    Pitch.toMidi (JString n1) = Ok m1 /\ Pitch.toMidi (JString n2) = Ok m2 /\
    Pitch.toMidi (JString n3) = Ok m3 /\ Pitch.toMidi (JString n4) = Ok m4 /\
    Pitch.toMidi (JString n5) = Ok m5 /\
    Interval.between (JString n1) (JString n2) = Ok i12 /\
    Interval.between (JString n2) (JString n3) = Ok i23 /\
    Interval.between (JString n3) (JString n4) = Ok i34 /\
    Interval.between (JString n4) (JString n5) = Ok i45 /\
    sgeneric_of i12 = 2 /\ sgeneric_of i23 = 3 /\
    sgeneric_of i34 = 2 /\ sgeneric_of i45 = 2 /\
    ((m2 < m1 /\ m3 < m2 /\ m3 < m4 /\ m4 < m5)
     \/ (m1 < m2 /\ m2 < m3 /\ m4 < m3 /\ m5 < m4)) /\
    between_voices cpPosition (ThirdSpecies.getCFNote startIndex cf) (JString n1) = Ok I1 /\
    Interval.isConsonant I1 = true /\
    between_voices cpPosition (ThirdSpecies.getCFNote (startIndex + 4) cf) (JString n5) = Ok I5 /\
    Interval.isConsonant I5 = true /\
    Interval.isTritone I5 = false.

(* ================================================================== *)
(** * Well-formed exercises *)
(* ================================================================== *)

(** A note name that [Pitch.parse] accepts. *)
Definition parses (s : string) : bool :=
  match Pitch.parse_string s with
  | Ok _ => true
  | Throw _ => false
  end.

(** A counterpoint entry of the second or third species: a rest, or a
    note name that parses. *)
Definition entry_ok (n : option string) : bool :=
  match n with
  | Some s => parses s
  | None => true
  end.

(** A counterpoint entry of the first species: a note name that parses. *)
Definition note_ok (n : option string) : bool :=
  match n with
  | Some s => parses s
  | None => false
  end.

(** A value that is a note name that parses. *)
Definition good (v : jsval) : Prop :=
  exists s, v = JString s /\ parses s = true.

(** A first-species exercise is well formed when its voices have the
    same, non-zero, number of notes, every note name parses, and so does
    the tonic. *)
Definition well_formed1 (cf : list string) (cp : list (option string))
    (key : string) : Prop :=
  Forall (fun s => parses s = true) cf /\
  Forall (fun n => note_ok n = true) cp /\
  parses (key ++ "0") = true /\
  len cp = len cf /\
  1 <= len cf.

(** A second-species exercise is well formed when the counterpoint has
    [2 * cfLen - 1] entries, every note name parses, so does the tonic,
    and the counterpoint is not a single rest. *)
Definition well_formed2 (cf : list string) (cp : list (option string))
    (key : string) : Prop :=
  Forall (fun s => parses s = true) cf /\
  Forall (fun n => entry_ok n = true) cp /\
  parses (key ++ "0") = true /\
  len cp = len cf * 2 - 1 /\
  (is_null (cp_at cp 0) = true -> 1 < len cp).

(** A third-species exercise is well formed when the counterpoint has
    [4 * cfLen - 3] entries, every note name parses, and so does the
    tonic. *)
Definition well_formed3 (cf : list string) (cp : list (option string))
    (key : string) : Prop :=
  Forall (fun s => parses s = true) cf /\
  Forall (fun n => entry_ok n = true) cp /\
  parses (key ++ "0") = true /\
  len cp = len cf * 4 - 3.

(** The same three conditions, as a test on an exercise. *)
Definition well_formed (sp : species) (e : exercise) : bool :=
  forallb parses (cantusFirmus e)
  && forallb (match sp with First => note_ok | _ => entry_ok end) (counterpoint e)
  && parses (key e ++ "0")
  && (len (counterpoint e) =? expected_length sp (len (cantusFirmus e)))
  && match sp with
     | First => 1 <=? len (cantusFirmus e)
     | Second => match counterpoint e with
                 | [None] => false
                 | _ => true
                 end
     | Third => true
     end.

Section Completion.

(** The number of per-position results, fixed by the initialisation
    loop of [validate]. *)
Variable n : Z.

Definition ready (r : results) : Prop := len (noteResults r) = n.

(** A check, or a loop body, is [total] when it completes on every
    results object with [n] per-position entries, and leaves [n] of
    them. *)
Definition total (c : check) : Prop :=
  forall r, ready r -> exists r', c r = Ok r' /\ ready r'.

Definition totalT {T : Type} (Q : T -> Prop) (f : step T) : Prop :=
  forall r, ready r -> exists t r', f r = Ok (t, r') /\ ready r' /\ Q t.

End Completion.

(* ================================================================== *)
(** * Sample exercises *)
(* ================================================================== *)

(** A first-species exercise with the counterpoint below. *)
Definition sample_first : exercise :=
  mkExercise ["C4"; "D4"; "C4"] [Some "C3"; Some "G5"; Some "C3"]
             "C" Scale.major lower.

(** A first-species exercise whose counterpoint outlines the tritone
    F4 - B4 over positions 1 to 3. *)
Definition sample_tritone : exercise :=
  mkExercise ["C4"; "D4"; "E4"; "D4"; "C4"]
             [Some "C5"; Some "F4"; Some "G4"; Some "B4"; Some "C5"]
             "C" Scale.major upper.

(** A second-species exercise whose counterpoint spans 24 semitones. *)
Definition sample_wide2 : exercise :=
  mkExercise ["C3"; "C3"] [Some "C3"; Some "C5"; Some "C3"]
             "C" Scale.major upper.

(** A third-species exercise whose counterpoint spans two octaves. *)
Definition sample_wide3 : exercise :=
  mkExercise ["C3"; "C3"]
             [Some "C3"; Some "C4"; Some "C5"; Some "C5"; Some "C3"]
             "C" Scale.major upper.

(** Lower-voice exercises of the first and of the second species whose
    penultimate note, G3, is on scale degree 5. *)
Definition sample_lower1 : exercise :=
  mkExercise ["C4"; "D4"; "C4"] [Some "C3"; Some "G3"; Some "C3"]
             "C" Scale.major lower.

Definition sample_lower2 : exercise :=
  mkExercise ["C4"; "D4"; "C4"]
             [Some "C3"; Some "E3"; Some "F3"; Some "G3"; Some "C3"]
             "C" Scale.major lower.

(** Exercises of the second and of the third species whose second note,
    D5, is a ninth above the first. *)
Definition sample_ninth2 : exercise :=
  mkExercise ["C4"; "E4"] [Some "C4"; Some "D5"; Some "E5"]
             "C" Scale.major upper.

Definition sample_ninth3 : exercise :=
  mkExercise ["C4"; "E4"]
             [Some "C4"; Some "D5"; Some "E5"; Some "C5"; Some "E5"]
             "C" Scale.major upper.

(** A third-species exercise whose third note, F5, is a ninth above the
    second and a step below the fourth. *)
Definition sample_ninth_beat3 : exercise :=
  mkExercise ["C4"; "C4"]
             [Some "C4"; Some "E4"; Some "F5"; Some "G5"; Some "C5"]
             "C" Scale.major upper.

(** A third-species counterpoint over the cantus firmus [C4 D4]. *)
Definition sample_cp3 : list (option string) :=
  [Some "C4"; Some "D5"; Some "F5"; Some "E5"; Some "D5"].

Definition sample_cambiata3 : exercise :=
  mkExercise ["C4"; "D4"] sample_cp3 "C" Scale.major upper.


(* ================================================================== *)
(** * Pitch.js: transposition and ranges *)
(* ================================================================== *)

Module PitchOps.

(** What [Pitch.fromMidi(midi)] returns on any integer: when [midi % 12]
    is negative, [NOTE_NAMES[noteIndex]] is [undefined] and
    [undefined + octave] is the number [NaN], here [None]. *)
Definition fromMidi_value (midi : Z) : option string :=
  if Z.rem midi 12 <? 0 then None else Some (Pitch.fromMidi midi).

(** [Pitch.transpose(noteStr, semitones)]. *)
Definition transpose (noteStr : jsval) (semitones : Z) : result (option string) :=
  let* m := Pitch.toMidi noteStr in
  Ok (fromMidi_value (m + semitones)).

(** [Pitch.range(low, high)]: the loop runs over semitone indices that
    are at least [lowMidi >= 12]. *)
Definition range (low high : jsval) : result (list string) :=
  let* lowMidi := Pitch.toMidi low in
  let* highMidi := Pitch.toMidi high in
  Ok (map Pitch.fromMidi (zrange lowMidi (highMidi + 1))).

End PitchOps.

(** The pitch class that [Pitch.parse] computes from the letter and the
    accidental. *)
Definition semitone_of (l : ascii) (acc : string) : Z :=
  let name := Pitch.str1 (Pitch.toUpperCase l) in
  let normalizedName := (name ++ acc)%string in
  let normalizedName :=
    match Pitch.lookup_enharmonic Pitch.ENHARMONICS normalizedName with
    | Some n => n
    | None => normalizedName
    end in
  let semitone := indexOf_str Pitch.NOTE_NAMES normalizedName in
  if semitone =? -1 then
    let baseIndex := indexOf_str Pitch.NOTE_NAMES name in
    let s := if String.eqb acc "#" then baseIndex + 1 else baseIndex - 1 in
    Z.rem (s + 12) 12
  else semitone.

(* ================================================================== *)
(** * Interval.js: simple names *)
(* ================================================================== *)

(** The simple name that [Interval.between] builds from a simple
    generic interval and a number of simple semitones. *)
Definition simple_name (g s : Z) : string :=
  (Interval.calculateQuality g s ++ string_of_Z g)%string.

(* ================================================================== *)
(** * Scale.js: the remaining functions *)
(* ================================================================== *)

(** [s.slice(0, -1)]: the string without its last character. *)
Fixpoint drop_last (s : string) : string :=
  match s with
  | EmptyString => EmptyString
  | String c EmptyString => EmptyString
  | String c s' => String c (drop_last s')
  end.

(** [Array.prototype.includes] on an array of numbers. *)
Definition includes_Z (l : list Z) (x : Z) : bool :=
  existsb (Z.eqb x) l.

Module ScaleOps.

Definition containsNote (note : jsval) (tonic : string) (m : Scale.mode) : result bool :=
  let* noteMidi := Pitch.toMidi note in
  let* tonicMidi := Pitch.toMidi (JString (tonic ++ "0")%string) in
  let pattern := Scale.getPattern m in
  let relativePosition := Z.rem (Z.rem (noteMidi - tonicMidi) 12 + 12) 12 in
  Ok (includes_Z pattern relativePosition).

(** [getNotes(tonic, mode, octaves)]; every index passed to
    [Pitch.fromMidi] is at least [tonicMidi >= 12]. *)
Definition getNotes (tonic : jsval) (m : Scale.mode) (octaves : Z) : result (list string) :=
  let* tonicMidi := Pitch.toMidi tonic in
  let pattern := Scale.getPattern m in
  let notes :=
    flat_map (fun oct =>
                map (fun offset => Pitch.fromMidi (tonicMidi + offset + oct * 12))
                    pattern)
             (zrange 0 octaves) in
  Ok (if octaves >? 0
      then notes ++ [Pitch.fromMidi (tonicMidi + octaves * 12)]
      else notes).

(** [getNotFromDegree(degree, tonic, mode)].  [pattern[(degree - 1) % 7]]
    is [undefined] for a negative index; the sum is then [NaN], and so
    is the result ([None]). *)
Definition getNotFromDegree (degree : Z) (tonic : jsval) (m : Scale.mode)
    : result (option string) :=
  let* tonicMidi := Pitch.toMidi tonic in
  let pattern := Scale.getPattern m in
  let octaveAdjust := (degree - 1) / 7 * 12 in
  match nthZ pattern (Z.rem (degree - 1) 7) with
  | Some offset => Ok (PitchOps.fromMidi_value (tonicMidi + offset + octaveAdjust))
  | None => Ok None
  end.

Definition RELATIVE_MINOR_OFFSET : Z := -3.

(** The index passed to [Pitch.fromMidi] is at least [12 - 3]. *)
Definition relativeMinor (majorKey : string) : result string :=
  let* midi := Pitch.toMidi (JString (majorKey ++ "4")%string) in
  Ok (drop_last (Pitch.fromMidi (midi + RELATIVE_MINOR_OFFSET))).

Definition relativeMajor (minorKey : string) : result string :=
  let* midi := Pitch.toMidi (JString (minorKey ++ "4")%string) in
  Ok (drop_last (Pitch.fromMidi (midi - RELATIVE_MINOR_OFFSET))).

(** [getLeadingTone(tonic, mode)].  Were [pattern[6]] missing, the sum
    would be [NaN], [Pitch.fromMidi] would return [NaN] and [.slice]
    would be a [TypeError]. *)
Definition getLeadingTone (tonic : string) (m : Scale.mode) : result string :=
  let pattern := Scale.getPattern m in
  let* tonicMidi := Pitch.toMidi (JString (tonic ++ "4")%string) in
  match nthZ pattern 6 with
  | Some offset => Ok (drop_last (Pitch.fromMidi (tonicMidi + offset)))
  | None => Throw TypeError
  end.

Definition isLeadingTone (note : jsval) (tonic : string) (m : Scale.mode) : result bool :=
  let* degree := Scale.getDegree note tonic m in
  Ok (degree_is degree 7).

(** [isTonic(note, tonic)] calls [getDegree] without a mode: the major
    pattern. *)
Definition isTonic (note : jsval) (tonic : string) : result bool :=
  let* degree := Scale.getDegree note tonic Scale.major in
  Ok (degree_is degree 1).

(** The loop of [getDiatonicRange] over the semitone indices
    [lo, lo + 1, ...]. *)
Fixpoint diatonic_from (tonic : string) (m : Scale.mode) (midis : list Z)
    : result (list string) :=
  match midis with
  | [] => Ok []
  | midi :: rest =>
      let note := Pitch.fromMidi midi in
      let* inScale := containsNote (JString note) tonic m in
      let* notes := diatonic_from tonic m rest in
      Ok (if inScale then note :: notes else notes)
  end.

Definition getDiatonicRange (tonic : string) (m : Scale.mode)
    (lowNote highNote : jsval) : result (list string) :=
  let* lowMidi := Pitch.toMidi lowNote in
  let* highMidi := Pitch.toMidi highNote in
  diatonic_from tonic m (zrange lowMidi (highMidi + 1)).

End ScaleOps.

(* ================================================================== *)
(** * What every validation result keeps *)
(* ================================================================== *)

(** The position of an issue is an index of the counterpoint, or it is
    the [-1] of the range warning. *)
Definition pos_ok (n : Z) (i : issue) : Prop :=
  match position i with
  | Some p =>
      0 <= p < n
      \/ (p = -1 /\ rule i = RULES.RANGE /\ severity_of i = WARNING)
  | None => False
  end.

(** The issues of a severity list have the severity of the list. *)
Definition listed_ok (n : Z) (sev : severity) (l : list issue) : Prop :=
  forall i, In i l -> severity_of i = sev /\ pos_ok n i.

(** The per-position result of position [p]: its issues are issues of
    position [p] that are also in one of the three lists, and it is
    marked invalid exactly when one of them is an error. *)
Definition note_entry_ok (r : results) (p : Z) (nr : noteResult) : Prop :=
  (forall i, In i (issues nr) -> position i = Some p /\ In i (all_issues r))
  /\ (note_valid nr = false <->
      exists i, In i (issues nr) /\ severity_of i = ERROR).

(** What a result keeps through every check: [n] is the length of the
    counterpoint and [G] tells the rule identifiers of the global
    melodic rules, whose issues are never recorded per position. *)
Record well_kept (G : string -> bool) (n : Z) (r : results) : Prop := mkKept {
  kept_len : len (noteResults r) = n;
  kept_errors : listed_ok n ERROR (errors r);
  kept_warnings : listed_ok n WARNING (warnings r);
  kept_suggestions : listed_ok n SUGGESTION (suggestions r);
  kept_notes :
    forall p nr, nthZ (noteResults r) p = Some nr -> note_entry_ok r p nr;
  kept_attached :
    forall i, In i (errors r) ->
      exists p nr, position i = Some p
                   /\ nthZ (noteResults r) p = Some nr /\ In i (issues nr);
  kept_local :
    forall p nr i, nthZ (noteResults r) p = Some nr -> In i (issues nr) ->
      G (rule i) = false
}.

(** A check, or a loop body, [preserves] these properties. *)
Definition preserves (G : string -> bool) (n : Z) (c : check) : Prop :=
  forall r r', well_kept G n r -> c r = Ok r' -> well_kept G n r'.

Definition preservesT {T : Type} (G : string -> bool) (n : Z) (Q : T -> Prop)
    (f : step T) : Prop :=
  forall r t r', well_kept G n r -> f r = Ok (t, r') -> well_kept G n r' /\ Q t.

(** The cantus-firmus index that sounds against counterpoint index [i]:
    the index itself in the first species, [getMeasureIndex] in the
    others. *)
Definition getMeasureIndex_of (sp : species) (cpIndex : Z) : Z :=
  match sp with
  | First => cpIndex
  | Second => SecondSpecies.getMeasureIndex cpIndex
  | Third => ThirdSpecies.getMeasureIndex cpIndex
  end.

(** The first position at which [checkAnacrusis] looks for rests. *)
Definition first_checked (sp : species) (counterpoint : list (option string)) : Z :=
  match sp with
  | Third => if is_null (cp_at counterpoint 0) then 3 else 0
  | _ => 1
  end.

(** The rule identifier under which a misplaced rest is reported. *)
Definition rest_rule (sp : species) : string :=
  match sp with
  | Third => RULES.UNISON
  | _ => RULES.ANACRUSIS
  end.

(** Exercises of the second and of the third species with a rest after
    the first note. *)
Definition sample_rest2 : exercise :=
  mkExercise ["C4"; "D4"; "C4"]
             [Some "C5"; None; Some "F5"; Some "B4"; Some "C5"]
             "C" Scale.major upper.

Definition sample_rest3 : exercise :=
  mkExercise ["C4"; "C4"]
             [None; Some "E4"; Some "G4"; None; Some "C5"]
             "C" Scale.major upper.

(* ================================================================== *)
(** * Sample values *)
(* ================================================================== *)

Example parse_C4 : Pitch.toMidi (JString "C4") = Ok 60.
Proof. reflexivity. Qed.

Example parse_Bb3 : Pitch.toMidi (JString "Bb3") = Ok 58.
Proof. reflexivity. Qed.

Example between_C4_G4 :
  (let* i := Interval.between (JString "C4") (JString "G4") in
   Ok (Interval.sname (Interval.simple i), Interval.generic i))
  = Ok ("P5", 5).
Proof. reflexivity. Qed.

Example fromMidi_60 : Pitch.fromMidi 60 = "C4".
Proof. reflexivity. Qed.

Example fromMidi_0 : Pitch.fromMidi 0 = "C-1".
Proof. reflexivity. Qed.

Example degree_B4_C : Scale.getDegree (JString "B4") "C" Scale.major = Ok (Some 7).
Proof. reflexivity. Qed.

(* ================================================================== *)
(** * Basic facts about the embedding *)
(* ================================================================== *)

Lemma bind_Ok_inv {A B : Type} (m : result A) (f : A -> result B) (b : B) :
  bind m f = Ok b -> exists a, m = Ok a /\ f a = Ok b.
Proof.
  destruct m as [a|e]; simpl; intros H.
  - exists a; split; [reflexivity | exact H].
  - discriminate H.
Qed.

Lemma andThen_inv (c1 c2 : check) (r r' : results) :
  (c1 ;; c2) r = Ok r' -> exists r1, c1 r = Ok r1 /\ c2 r1 = Ok r'.
Proof. unfold andThen. apply bind_Ok_inv. Qed.

Lemma eval_inv {A : Type} (m : result A) (k : A -> check) (r r' : results) :
  eval m k r = Ok r' -> exists a, m = Ok a /\ k a r = Ok r'.
Proof. unfold eval. apply bind_Ok_inv. Qed.

Lemma In_zrange (lo hi i : Z) : In i (zrange lo hi) <-> lo <= i < hi.
Proof.
  unfold zrange. rewrite in_map_iff. split.
  - intros (k & <- & Hk). apply in_seq in Hk. lia.
  - intros Hi. exists (Z.to_nat (i - lo)). split; [lia|].
    apply in_seq. lia.
Qed.

Lemma len_nonneg {A : Type} (l : list A) : 0 <= len l.
Proof. unfold len. lia. Qed.

Lemma len_nil_iff {A : Type} (l : list A) : (len l =? 0) = true <-> l = [].
Proof.
  unfold len. destruct l; simpl; split; intros H;
    try reflexivity; discriminate H.
Qed.

(** Peel the first statement off a sequence that ran to completion. *)
Ltac peel H :=
  let r := fresh "r" in
  let Hc := fresh "Hc" in
  apply andThen_inv in H; destruct H as (r & Hc & H).

Lemma nthZ_nth_error {A : Type} (l : list A) (p : Z) :
  0 <= p -> nthZ l p = nth_error l (Z.to_nat p).
Proof.
  intros Hp. unfold nthZ.
  destruct (p <? 0) eqn:E; [apply Z.ltb_lt in E; lia | reflexivity].
Qed.

(* ================================================================== *)
(** * Well-formed exercises are validated without exception *)
(* ================================================================== *)

Lemma good_toMidi (v : jsval) : good v -> exists m, Pitch.toMidi v = Ok m.
Proof.
  intros (s & -> & Hs). unfold parses in Hs. unfold Pitch.toMidi, Pitch.parse.
  destruct (Pitch.parse_string s) as [p|]; [|discriminate Hs].
  exists (Pitch.midi p). reflexivity.
Qed.

Lemma good_genericInterval (a b : jsval) :
  good a -> good b -> exists g, Pitch.genericInterval a b = Ok g.
Proof.
  intros (s & -> & Hs) (t & -> & Ht). unfold parses in Hs, Ht.
  unfold Pitch.genericInterval, Pitch.parse.
  destruct (Pitch.parse_string s) as [p|]; [|discriminate Hs].
  destruct (Pitch.parse_string t) as [q|]; [|discriminate Ht].
  simpl. eexists. reflexivity.
Qed.

Lemma good_between (a b : jsval) :
  good a -> good b -> exists i, Interval.between a b = Ok i.
Proof.
  intros Ha Hb. unfold Interval.between.
  destruct (good_toMidi a Ha) as (ma & ->).
  destruct (good_toMidi b Hb) as (mb & ->).
  destruct (good_genericInterval a b Ha Hb) as (g & Hg).
  simpl. rewrite Hg. simpl. eexists. reflexivity.
Qed.

Lemma good_between_voices (v : voice) (a b : jsval) :
  good a -> good b -> exists i, between_voices v a b = Ok i.
Proof. intros Ha Hb. destruct v; simpl; apply good_between; assumption. Qed.

Lemma good_sign_step (a b : jsval) :
  good a -> good b -> exists d, sign_step a b = Ok d.
Proof.
  intros Ha Hb. unfold sign_step.
  destruct (good_toMidi a Ha) as (ma & ->).
  destruct (good_toMidi b Hb) as (mb & ->).
  simpl. eexists. reflexivity.
Qed.

Lemma good_getMotionType (a b c d : jsval) :
  good a -> good b -> good c -> good d -> exists m, getMotionType a b c d = Ok m.
Proof.
  intros Ha Hb Hc Hd. unfold getMotionType.
  destruct (good_toMidi a Ha) as (ma & ->).
  destruct (good_toMidi b Hb) as (mb & ->).
  destruct (good_toMidi c Hc) as (mc & ->).
  destruct (good_toMidi d Hd) as (md & ->).
  simpl.
  destruct ((Z.sgn (mb - ma) =? 0) && (Z.sgn (md - mc) =? 0));
    [eexists; reflexivity|].
  destruct ((Z.sgn (mb - ma) =? 0) || (Z.sgn (md - mc) =? 0));
    [eexists; reflexivity|].
  destruct (Z.sgn (mb - ma) =? Z.sgn (md - mc)); eexists; reflexivity.
Qed.

Lemma good_getDegree (v : jsval) (key : string) (m : Scale.mode) :
  good v -> parses (key ++ "0") = true -> exists d, Scale.getDegree v key m = Ok d.
Proof.
  intros Hv Hk. unfold Scale.getDegree.
  destruct (good_toMidi v Hv) as (mv & ->).
  destruct (good_toMidi (JString (key ++ "0")) (ex_intro _ _ (conj eq_refl Hk)))
    as (mk & ->).
  simpl. eexists. reflexivity.
Qed.

Lemma nthZ_in_range {A : Type} (l : list A) (i : Z) :
  0 <= i < len l -> exists a, nthZ l i = Some a /\ In a l.
Proof.
  intros Hi. rewrite nthZ_nth_error by lia.
  destruct (nth_error l (Z.to_nat i)) as [a|] eqn:E.
  - exists a. split; [reflexivity | eapply nth_error_In; exact E].
  - apply nth_error_None in E. unfold len in Hi. lia.
Qed.

Lemma nthZ_Some_range {A : Type} (l : list A) (i : Z) (a : A) :
  nthZ l i = Some a -> 0 <= i < len l /\ In a l.
Proof.
  unfold nthZ, len. destruct (i <? 0) eqn:E; [discriminate|].
  apply Z.ltb_ge in E. intros H.
  assert (Hl : (Z.to_nat i < List.length l)%nat)
    by (apply nth_error_Some; congruence).
  split; [lia | eapply nth_error_In; exact H].
Qed.

Lemma good_str_at (l : list string) (i : Z) :
  Forall (fun s => parses s = true) l -> 0 <= i < len l -> good (str_at l i).
Proof.
  intros Hl Hi. destruct (nthZ_in_range l i Hi) as (s & Hs & Hin).
  unfold str_at. rewrite Hs. exists s. split; [reflexivity|].
  rewrite Forall_forall in Hl. apply Hl, Hin.
Qed.

Lemma cp_at_cases (cp : list (option string)) (i : Z) :
  Forall (fun n => entry_ok n = true) cp -> 0 <= i < len cp ->
  cp_at cp i = JNull \/ good (cp_at cp i).
Proof.
  intros Hl Hi. destruct (nthZ_in_range cp i Hi) as (n & Hn & Hin).
  unfold cp_at. rewrite Hn. rewrite Forall_forall in Hl. specialize (Hl n Hin).
  destruct n as [s|]; simpl; [right | left; reflexivity].
  exists s. auto.
Qed.

Lemma good_cp_at (cp : list (option string)) (i : Z) :
  Forall (fun n => entry_ok n = true) cp -> 0 <= i < len cp ->
  is_null (cp_at cp i) = false -> good (cp_at cp i).
Proof.
  intros Hl Hi Hn. destruct (cp_at_cases cp i Hl Hi) as [E|G]; [|exact G].
  rewrite E in Hn. discriminate Hn.
Qed.

(* ------------------------------------------------------------------ *)
(** ** Checks that run to completion *)

Section Totality.

Variable n : Z.

Lemma total_skip : total n skip.
Proof. intros r Hr. exists r. split; [reflexivity | exact Hr]. Qed.

Lemma total_andThen (c1 c2 : check) : total n c1 -> total n c2 -> total n (c1 ;; c2).
Proof.
  intros H1 H2 r Hr. destruct (H1 r Hr) as (r1 & E1 & R1).
  destruct (H2 r1 R1) as (r2 & E2 & R2).
  exists r2. unfold andThen. rewrite E1. simpl. auto.
Qed.

Lemma total_when (b : bool) (c : check) : (b = true -> total n c) -> total n (when b c).
Proof.
  intros H. unfold when. destruct b; [apply H; reflexivity | apply total_skip].
Qed.

Lemma total_eval {A : Type} (m : result A) (k : A -> check) :
  (exists a, m = Ok a) -> (forall a, m = Ok a -> total n (k a)) -> total n (eval m k).
Proof.
  intros (a & Ha) Hk r Hr. unfold eval. rewrite Ha. simpl.
  apply (Hk a Ha r Hr).
Qed.

Lemma total_forEach {A : Type} (l : list A) (body : A -> check) :
  (forall a, In a l -> total n (body a)) -> total n (forEach l body).
Proof.
  induction l as [|a l IH]; intros Hb; simpl.
  - apply total_skip.
  - apply total_andThen.
    + apply Hb. left. reflexivity.
    + apply IH. intros x Hx. apply Hb. right. exact Hx.
Qed.

Lemma totalT_yield {T : Type} (Q : T -> Prop) (t : T) : Q t -> totalT n Q (yield t).
Proof. intros Ht r Hr. exists t, r. repeat split; assumption. Qed.

Lemma totalT_thenYield {T : Type} (Q : T -> Prop) (c : check) (t : T) :
  total n c -> Q t -> totalT n Q (thenYield c t).
Proof.
  intros Hc Ht r Hr. destruct (Hc r Hr) as (r' & E & R).
  exists t, r'. unfold thenYield. rewrite E. simpl. auto.
Qed.

Lemma totalT_evalT {A T : Type} (Q : T -> Prop) (m : result A) (k : A -> step T) :
  (exists a, m = Ok a) -> (forall a, m = Ok a -> totalT n Q (k a)) ->
  totalT n Q (evalT m k).
Proof.
  intros (a & Ha) Hk r Hr. unfold evalT. rewrite Ha. simpl.
  apply (Hk a Ha r Hr).
Qed.

Lemma total_forBreak {A : Type} (l : list A) (body : A -> step bool) :
  (forall a, In a l -> totalT n (fun _ => True) (body a)) -> total n (forBreak l body).
Proof.
  induction l as [|a l IH]; intros Hb; simpl.
  - apply total_skip.
  - intros r Hr.
    destruct (Hb a (or_introl eq_refl) r Hr) as (b & r1 & E1 & R1 & _).
    rewrite E1. simpl. destruct b.
    + exists r1. auto.
    + apply IH; [|exact R1]. intros x Hx. apply Hb. right. exact Hx.
Qed.

Lemma totalT_forState {A S : Type} (I : S -> Prop) (l : list A)
    (body : A -> S -> step S) (s : S) :
  I s -> (forall a s', In a l -> I s' -> totalT n I (body a s')) ->
  totalT n I (forState l body s).
Proof.
  revert s. induction l as [|a l IH]; intros s Hs Hb; simpl.
  - apply totalT_yield, Hs.
  - intros r Hr.
    destruct (Hb a s (or_introl eq_refl) Hs r Hr) as (s1 & r1 & E1 & R1 & I1).
    rewrite E1. simpl.
    apply IH; [exact I1 | | exact R1].
    intros x s' Hx. apply Hb. right. exact Hx.
Qed.

Lemma total_afterLoop {S : Type} (I : S -> Prop) (loop : step S) (k : S -> check) :
  totalT n I loop -> (forall s, I s -> total n (k s)) -> total n (afterLoop loop k).
Proof.
  intros Hl Hk r Hr. destruct (Hl r Hr) as (s & r1 & E1 & R1 & I1).
  unfold afterLoop. rewrite E1. simpl. apply (Hk s I1 r1 R1).
Qed.

Lemma update_nth_total {A : Type} (f : A -> A) (l : list A) (k : nat) :
  (k < List.length l)%nat ->
  exists l', update_nth k f l = Some l' /\ List.length l' = List.length l.
Proof.
  revert k. induction l as [|x l IH]; intros k Hk; simpl in Hk.
  - lia.
  - destruct k as [|k]; simpl.
    + eexists. split; reflexivity.
    + destruct (IH k ltac:(lia)) as (l' & E & L). rewrite E.
      eexists. split; [reflexivity | simpl; congruence].
Qed.

Lemma total_modify_note (p : Z) (f : noteResult -> noteResult) :
  0 <= p < n -> total n (modify_note p f).
Proof.
  intros Hp r Hr. unfold ready, len in Hr. unfold modify_note.
  replace (p <? 0) with false by (symmetry; apply Z.ltb_ge; lia).
  destruct (update_nth_total f (noteResults r) (Z.to_nat p) ltac:(lia))
    as (l' & E & L).
  rewrite E. eexists. split; [reflexivity|].
  unfold ready, len. simpl. lia.
Qed.

Lemma total_push (f : results -> results) :
  (forall r, noteResults (f r) = noteResults r) -> total n (fun r => Ok (f r)).
Proof.
  intros Hf r Hr. exists (f r). split; [reflexivity|].
  unfold ready. rewrite Hf. exact Hr.
Qed.

Lemma total_error_at (rl : string) (p : Z) : 0 <= p < n -> total n (error_at rl p).
Proof.
  intros Hp. unfold error_at. cbv zeta.
  apply total_andThen; [apply total_push; reflexivity|].
  apply total_andThen; apply total_modify_note; exact Hp.
Qed.

Lemma total_warning_at (rl : string) (p : Z) : 0 <= p < n -> total n (warning_at rl p).
Proof.
  intros Hp. unfold warning_at. cbv zeta.
  apply total_andThen; [apply total_push; reflexivity|].
  apply total_modify_note; exact Hp.
Qed.

Lemma total_suggestion_at (rl : string) (p : Z) :
  0 <= p < n -> total n (suggestion_at rl p).
Proof.
  intros Hp. unfold suggestion_at. cbv zeta.
  apply total_andThen; [apply total_push; reflexivity|].
  apply total_modify_note; exact Hp.
Qed.

Lemma total_push_warning (i : issue) : total n (push_warning i).
Proof. apply total_push. reflexivity. Qed.

Lemma total_error_only (rl : string) (p : Z) : total n (error_only rl p).
Proof. apply total_push. reflexivity. Qed.

Lemma total_warning_only (rl : string) (p : Z) : total n (warning_only rl p).
Proof. apply total_push. reflexivity. Qed.

Lemma total_suggestion_only (rl : string) (p : Z) : total n (suggestion_only rl p).
Proof. apply total_push. reflexivity. Qed.

Lemma total_finish (calc : results -> Z) : total n (finish calc).
Proof. apply total_push. reflexivity. Qed.

End Totality.

Lemma init_noteResults_ready (n : Z) :
  0 <= n ->
  exists r, init_noteResults n fresh_results = Ok r /\ ready n r.
Proof.
  intros Hn. unfold init_noteResults, zrange.
  replace (n - 0) with n by lia.
  assert (Hgen : forall k start r,
            exists r', forEach (map (fun j => 0 + Z.of_nat j) (seq start k))
                         (fun _ r0 => Ok (with_noteResults
                                            (noteResults r0 ++ [mkNote true []]) r0)) r
                       = Ok r'
                       /\ List.length (noteResults r')
                          = (List.length (noteResults r) + k)%nat).
  { induction k as [|k IH]; intros start r; simpl.
    - exists r. split; [reflexivity | lia].
    - unfold andThen. simpl.
      destruct (IH (S start)
                  (with_noteResults (noteResults r ++ [mkNote true []]) r))
        as (r' & E & L).
      exists r'. split; [exact E|].
      rewrite L. simpl. rewrite length_app. simpl. lia. }
  destruct (Hgen (Z.to_nat n) 0%nat fresh_results) as (r' & E & L).
  exists r'. split; [exact E|].
  unfold ready, len. rewrite L. simpl. lia.
Qed.

(* ------------------------------------------------------------------ *)
(** ** Reading the arrays inside their bounds *)

Lemma len_map {A B : Type} (f : A -> B) (l : list A) : len (map f l) = len l.
Proof. unfold len. rewrite length_map. reflexivity. Qed.

Lemma note_at_good (cp : list (option string)) (i : Z) :
  Forall (fun n => note_ok n = true) cp -> 0 <= i < len cp -> good (cp_at cp i).
Proof.
  intros Hl Hi. destruct (nthZ_in_range cp i Hi) as (n & Hn & Hin).
  unfold cp_at. rewrite Hn. rewrite Forall_forall in Hl. specialize (Hl n Hin).
  destruct n as [s|]; simpl in *; [|discriminate Hl].
  exists s. auto.
Qed.

Lemma mapM_notes_ok (cp : list (option string)) :
  Forall (fun n => note_ok n = true) cp ->
  exists ms, mapM (fun n => Pitch.toMidi (note_val n)) cp = Ok ms.
Proof.
  induction 1 as [|n l Hn _ IH]; simpl.
  - eexists. reflexivity.
  - destruct n as [s|]; [|discriminate Hn].
    destruct (good_toMidi (JString s) (ex_intro _ s (conj eq_refl Hn))) as (m & Hm).
    simpl. rewrite Hm. simpl. destruct IH as (ms & ->). simpl.
    eexists. reflexivity.
Qed.

Lemma mapM_sounding_ok (cp : list (option string)) :
  Forall (fun n => entry_ok n = true) cp ->
  exists ms, mapM (fun n => Pitch.toMidi (note_val n))
               (filter (fun n => negb (is_null (note_val n))) cp) = Ok ms.
Proof.
  induction 1 as [|n l Hn _ IH]; simpl.
  - eexists. reflexivity.
  - destruct n as [s|]; simpl; [|exact IH].
    destruct (good_toMidi (JString s) (ex_intro _ s (conj eq_refl Hn))) as (m & Hm).
    rewrite Hm. simpl. destruct IH as (ms & ->). simpl.
    eexists. reflexivity.
Qed.

Lemma idx_at_total (l : list Z) (k : Z) :
  0 <= k < len l -> exists i, idx_at l k = Ok i.
Proof.
  intros Hk. destruct (nthZ_in_range l k Hk) as (i & Hi & _).
  unfold idx_at. rewrite Hi. eexists. reflexivity.
Qed.

Lemma idx_at_In (l : list Z) (k i : Z) : idx_at l k = Ok i -> In i l.
Proof.
  unfold idx_at. destruct (nthZ l k) as [j|] eqn:E; [|discriminate].
  intros H. injection H as <-. apply (nthZ_Some_range l k j E).
Qed.

Lemma entry_at_total (l : list (string * Z)) (k : Z) :
  0 <= k < len l -> exists e, entry_at l k = Ok e.
Proof.
  intros Hk. destruct (nthZ_in_range l k Hk) as (e & He & _).
  unfold entry_at. rewrite He. eexists. reflexivity.
Qed.

Lemma entry_at_In (l : list (string * Z)) (k : Z) (e : string * Z) :
  entry_at l k = Ok e -> In e l.
Proof.
  unfold entry_at. destruct (nthZ l k) as [j|] eqn:E; [|discriminate].
  intros H. injection H as <-. apply (nthZ_Some_range l k j E).
Qed.

Lemma index_at_total (l : list (string * Z)) (k : Z) :
  0 <= k < len l -> exists i, index_at l k = Ok i.
Proof.
  intros Hk. unfold index_at. destruct (entry_at_total l k Hk) as (e & ->).
  simpl. eexists. reflexivity.
Qed.

Lemma sounding_from_In (cp : list (option string)) (k : Z) (e : string * Z) :
  In e (getSoundingNotes_from cp k) ->
  k <= snd e < k + len cp /\ In (Some (fst e)) cp.
Proof.
  revert k. induction cp as [|[s|] cp IH]; intros k; simpl.
  - intros [].
  - intros [<- | H].
    + simpl. unfold len. simpl List.length. split; [lia | left; reflexivity].
    + destruct (IH _ H) as (Hr & Hi). unfold len in *. simpl List.length.
      split; [lia | right; exact Hi].
  - intros H. destruct (IH _ H) as (Hr & Hi). unfold len in *. simpl List.length.
    split; [lia | right; exact Hi].
Qed.

Lemma sounding_entry (cp : list (option string)) (k : Z) (e : string * Z) :
  Forall (fun n => entry_ok n = true) cp ->
  entry_at (getSoundingNotes cp) k = Ok e ->
  0 <= snd e < len cp /\ good (JString (fst e)).
Proof.
  intros Hcp H. apply entry_at_In, sounding_from_In in H.
  destruct H as (Hr & Hi). split; [lia|].
  rewrite Forall_forall in Hcp. exists (fst e). split; [reflexivity|].
  apply (Hcp _ Hi).
Qed.

Lemma sounding_parses (cp : list (option string)) :
  Forall (fun n => entry_ok n = true) cp ->
  Forall (fun s => parses s = true) (map fst (getSoundingNotes cp)).
Proof.
  intros Hcp. apply Forall_forall. intros s Hs.
  apply in_map_iff in Hs. destruct Hs as (e & <- & He).
  apply sounding_from_In in He. destruct He as (_ & Hi).
  rewrite Forall_forall in Hcp. apply (Hcp _ Hi).
Qed.

Lemma truthy_good (cp : list (option string)) (i : Z) :
  Forall (fun n => entry_ok n = true) cp ->
  truthy (cp_at cp i) = true -> good (cp_at cp i).
Proof.
  intros Hcp Ht. unfold cp_at in *.
  destruct (nthZ cp i) as [n|] eqn:E; [|discriminate Ht].
  destruct n as [s|]; [|discriminate Ht].
  exists s. split; [reflexivity|].
  rewrite Forall_forall in Hcp.
  apply (Hcp (Some s)). apply (nthZ_Some_range cp i _ E).
Qed.

Lemma first_sounding_from_range (cp : list (option string)) (k i : Z) :
  ThirdSpecies._getFirstSoundingIndex_from cp k = Some i -> k <= i < k + len cp.
Proof.
  revert k. induction cp as [|[s|] cp IH]; intros k; simpl.
  - discriminate.
  - intros H. injection H as <-. unfold len. simpl List.length. lia.
  - intros H. apply IH in H. unfold len in *. simpl List.length. lia.
Qed.

Lemma first_sounding_range (cp : list (option string)) :
  1 <= len cp -> 0 <= ThirdSpecies._getFirstSoundingIndex cp < len cp.
Proof.
  intros Hl. unfold ThirdSpecies._getFirstSoundingIndex.
  destruct (ThirdSpecies._getFirstSoundingIndex_from cp 0) as [i|] eqn:E.
  - apply first_sounding_from_range in E. lia.
  - lia.
Qed.

Lemma bind_total {A B : Type} (m : result A) (k : A -> result B) :
  (exists a, m = Ok a) -> (forall a, m = Ok a -> exists b, k a = Ok b) ->
  exists b, bind m k = Ok b.
Proof. intros (a & Ha) Hk. rewrite Ha. simpl. apply (Hk a Ha). Qed.

(* ------------------------------------------------------------------ *)
(** ** Automation *)

Create HintDb total_db.

(** Boolean tests and array reads in the context, as arithmetic facts. *)
Ltac norm_hyps :=
  repeat match goal with
    | H : In _ (zrange _ _) |- _ => apply In_zrange in H
    | H : In _ (filter _ _) |- _ => apply filter_In in H; destruct H
    | H : idx_at _ _ = Ok _ |- _ => apply idx_at_In in H
    | H : In _ (SecondSpecies.getStrongBeatIndices _) |- _ =>
        unfold SecondSpecies.getStrongBeatIndices in H
    | H : In _ (ThirdSpecies.getDownbeatIndices _) |- _ =>
        unfold ThirdSpecies.getDownbeatIndices in H
    | H : entry_at (getSoundingNotes _) _ = Ok _ |- _ =>
        eapply sounding_entry in H; [destruct H | eassumption]
    | H : (_ && _) = true |- _ => apply andb_true_iff in H; destruct H
    | H : (_ || _) = false |- _ => apply orb_false_iff in H; destruct H
    | H : negb _ = true |- _ => apply negb_true_iff in H
    | H : negb _ = false |- _ => apply negb_false_iff in H
    | H : (_ <? _) = true |- _ => apply Z.ltb_lt in H
    | H : (_ <? _) = false |- _ => apply Z.ltb_ge in H
    | H : (_ <=? _) = true |- _ => apply Z.leb_le in H
    | H : (_ <=? _) = false |- _ => apply Z.leb_gt in H
    | H : (_ >? _) = _ |- _ => rewrite Z.gtb_ltb in H
    | H : (_ >=? _) = _ |- _ => rewrite Z.geb_leb in H
    | H : (_ =? _) = true |- _ => apply Z.eqb_eq in H
    | H : (_ =? _) = false |- _ => apply Z.eqb_neq in H
    | H : is_null ?v = true, H' : is_null ?v = true -> _ |- _ => specialize (H' H)
    end.

Ltac bounds :=
  norm_hyps; rewrite ?len_map in *;
  repeat match goal with
    | |- context [len ?l] =>
        lazymatch goal with
        | _ : 0 <= len l |- _ => fail
        | _ => pose proof (len_nonneg l)
        end
    | _ : context [len ?l] |- _ =>
        lazymatch goal with
        | _ : 0 <= len l |- _ => fail
        | _ => pose proof (len_nonneg l)
        end
    end;
  Z.to_euclidean_division_equations; lia.

Ltac solve_good :=
  norm_hyps;
  first [ assumption
        | apply good_str_at; [eassumption | bounds]
        | apply note_at_good; [eassumption | bounds]
        | apply good_cp_at; [eassumption | bounds | assumption]
        | apply truthy_good; [eassumption | assumption] ].

Ltac solve_ok :=
  lazymatch goal with
  | |- exists _, between_voices _ _ _ = Ok _ => apply good_between_voices; solve_good
  | |- exists _, Interval.between _ _ = Ok _ => apply good_between; solve_good
  | |- exists _, Pitch.toMidi _ = Ok _ => apply good_toMidi; solve_good
  | |- exists _, sign_step _ _ = Ok _ => apply good_sign_step; solve_good
  | |- exists _, getMotionType _ _ _ _ = Ok _ => apply good_getMotionType; solve_good
  | |- exists _, Scale.getDegree _ _ _ = Ok _ =>
      apply good_getDegree; [solve_good | assumption]
  | |- exists _, mapM _ (filter _ _) = Ok _ => apply mapM_sounding_ok; assumption
  | |- exists _, mapM _ _ = Ok _ => apply mapM_notes_ok; assumption
  | |- exists _, idx_at _ _ = Ok _ => apply idx_at_total; bounds
  | |- exists _, entry_at _ _ = Ok _ => apply entry_at_total; bounds
  | |- exists _, index_at _ _ = Ok _ => apply index_at_total; bounds
  | |- exists _, _ = Ok _ => solve [eauto with total_db nocore]
  end.

(** One step of the proof that a detector returns a verdict. *)
Ltac ok_step :=
  cbv beta;
  lazymatch goal with
  | |- exists _, Ok _ = Ok _ => eexists; reflexivity
  | |- exists _, bind _ _ = Ok _ => apply bind_total; [solve_ok | intros ? ?]
  | |- exists _, (if ?b then _ else _) = Ok _ => destruct b eqn:?
  | |- exists _, (match ?x with _ => _ end) = Ok _ => destruct x eqn:?
  | |- exists _, (let _ := _ in _) = Ok _ => cbv zeta
  end.

Ltac prove_ok := repeat ok_step.

(** One structural step of a totality proof. *)
Ltac total_step :=
  cbv beta;
  lazymatch goal with
  | |- total _ skip => apply total_skip
  | |- total _ (_ ;; _) => apply total_andThen
  | |- total _ (when _ _) => apply total_when; intro
  | |- total _ (eval _ _) => apply total_eval; [solve_ok | intros ? ?]
  | |- total _ (forEach _ _) => apply total_forEach; intros ? ?
  | |- total _ (forBreak _ _) => apply total_forBreak; intros ? ?
  | |- total _ (afterLoop _ _) =>
      apply total_afterLoop with (I := fun _ => True); [|intros ? _]
  | |- total _ (error_at _ _) => apply total_error_at; bounds
  | |- total _ (warning_at _ _) => apply total_warning_at; bounds
  | |- total _ (suggestion_at _ _) => apply total_suggestion_at; bounds
  | |- total _ (error_only _ _) => apply total_error_only
  | |- total _ (warning_only _ _) => apply total_warning_only
  | |- total _ (suggestion_only _ _) => apply total_suggestion_only
  | |- total _ (push_warning _) => apply total_push_warning
  | |- total _ (finish _) => apply total_finish
  | |- total _ (if ?b then _ else _) => destruct b eqn:?
  | |- total _ (match ?x with _ => _ end) => destruct x eqn:?
  | |- total _ (let _ := _ in _) => cbv zeta
  | |- totalT _ _ (yield _) => apply totalT_yield; exact I
  | |- totalT _ _ (thenYield _ _) => apply totalT_thenYield; [|exact I]
  | |- totalT _ _ (evalT _ _) => apply totalT_evalT; [solve_ok | intros ? ?]
  | |- totalT _ _ (forState _ _ _) =>
      apply totalT_forState; [exact I | intros ? ? ? _]
  | |- totalT _ _ (if ?b then _ else _) => destruct b eqn:?
  | |- totalT _ _ (match ?x with _ => _ end) => destruct x eqn:?
  | |- totalT _ _ (let _ := _ in _) => cbv zeta
  end.

Ltac prove_total := repeat total_step.

(* ------------------------------------------------------------------ *)
(** ** First species *)

Lemma total1_note_loop cf cp key pos :
  well_formed1 cf cp key ->
  total (len cf)
    (forEach (zrange 0 (len cf)) (fun i =>
       let cf' := cf_at cf i in
       let cp' := cp_at cp i in
       do interval <- between_voices pos cf' cp';
       FirstSpecies.checkConsonance interval i ;;
       FirstSpecies.checkUnison interval i (len cf) ;;
       FirstSpecies.checkVoiceCrossing cf' cp' pos i ;;
       when (i >? 0)
         (let prevCf := cf_at cf (i - 1) in
          let prevCp := cp_at cp (i - 1) in
          do prevInterval <- between_voices pos prevCf prevCp;
          FirstSpecies.checkParallels prevInterval interval prevCf cf' prevCp cp' i ;;
          FirstSpecies.checkMelodicTritone prevCp cp' i ;;
          FirstSpecies.analyzeMotion prevCf cf' prevCp cp' i ;;
          FirstSpecies.checkStepwise prevCp cp' i))).
Proof.
  intros (Hcf & Hcp & Hkey & Hlen & Hne).
  unfold FirstSpecies.checkConsonance, FirstSpecies.checkUnison,
    FirstSpecies.checkVoiceCrossing, FirstSpecies.checkParallels,
    FirstSpecies.checkMelodicTritone, FirstSpecies.analyzeMotion,
    FirstSpecies.checkStepwise, cf_at.
  prove_total.
Qed.

Lemma total1_structure_checks cf cp key mode pos :
  well_formed1 cf cp key ->
  total (len cf) (FirstSpecies.checkStartInterval (cf_at cf 0) (cp_at cp 0) pos) /\
  total (len cf) (FirstSpecies.checkEndInterval cf cp key mode pos) /\
  total (len cf) (FirstSpecies.checkRange cp pos).
Proof.
  intros (Hcf & Hcp & Hkey & Hlen & Hne).
  unfold FirstSpecies.checkStartInterval, FirstSpecies.checkEndInterval,
    FirstSpecies.checkRange, cf_at.
  repeat split; prove_total.
Qed.

Lemma total1_melodic_checks cf cp key mode pos :
  well_formed1 cf cp key ->
  total (len cf) (FirstSpecies.checkCompoundTritones cp key mode) /\
  total (len cf) (FirstSpecies.checkCompoundDissonantLeaps cp) /\
  total (len cf) (FirstSpecies.checkBattutaParallels cf cp pos) /\
  total (len cf) (FirstSpecies.checkProlongedDirection cp) /\
  total (len cf) (FirstSpecies.checkArpeggios cp key mode) /\
  total (len cf) (FirstSpecies.checkExcessiveParallelConsonances cf cp pos).
Proof.
  intros (Hcf & Hcp & Hkey & Hlen & Hne).
  unfold FirstSpecies.checkCompoundTritones,
    FirstSpecies.checkCompoundDissonantLeaps, FirstSpecies.checkBattutaParallels,
    FirstSpecies.checkProlongedDirection, FirstSpecies.checkArpeggios,
    FirstSpecies.checkExcessiveParallelConsonances, cf_at.
  repeat split; prove_total.
Qed.

Theorem validate1_total (e : exercise) :
  well_formed1 (cantusFirmus e) (counterpoint e) (key e) ->
  exists r, FirstSpecies.validate e = Ok r.
Proof.
  intros W. pose proof W as (Hcf & Hcp & Hkey & Hlen & Hne).
  unfold FirstSpecies.validate. cbv zeta.
  replace (len (cantusFirmus e) =? len (counterpoint e)) with true
    by (symmetry; apply Z.eqb_eq; lia).
  simpl negb. cbv iota.
  destruct (init_noteResults_ready (len (cantusFirmus e))
              (len_nonneg (cantusFirmus e))) as (r0 & E0 & R0).
  unfold andThen at 1. rewrite E0. simpl bind.
  pose proof (total1_note_loop _ _ _ (cpPosition e) W) as T1.
  pose proof (total1_structure_checks _ _ _ (mode e) (cpPosition e) W)
    as (T2 & T3 & T4).
  pose proof (total1_melodic_checks _ _ _ (mode e) (cpPosition e) W)
    as (T5 & T6 & T7 & T8 & T9 & T10).
  match goal with
  | |- exists r, ?c r0 = Ok r => assert (T : total (len (cantusFirmus e)) c)
  end.
  { repeat first [ assumption | apply total_finish | apply total_andThen ]. }
  destruct (T r0 R0) as (r & E & _). exists r. exact E.
Qed.

(* ------------------------------------------------------------------ *)
(** ** Second species *)

Ltac unfold2 :=
  unfold SecondSpecies.getCFNote, SecondSpecies.getMeasureIndex,
    SecondSpecies.isWeakBeat, SecondSpecies.isStrongBeat, cf_at in *.

Lemma isPassingTone2_total cf cp key pos i :
  well_formed2 cf cp key -> 0 <= i < len cp ->
  exists f, SecondSpecies.isPassingTone i cp cf pos = Ok f.
Proof.
  intros (Hcf & Hcp & Hkey & Hlen & Hrest) Hi.
  unfold SecondSpecies.isPassingTone. unfold2.
  prove_ok.
Qed.

Lemma total2_anacrusis cf cp key :
  well_formed2 cf cp key ->
  total (len cp) (SecondSpecies.checkAnacrusis cp (len cp)).
Proof.
  intros (Hcf & Hcp & Hkey & Hlen & Hrest).
  unfold SecondSpecies.checkAnacrusis. prove_total.
Qed.

Lemma total2_note_loop cf cp key pos :
  well_formed2 cf cp key ->
  total (len cp)
    (forEach (zrange 0 (len cp)) (fun i =>
       let cp' := cp_at cp i in
       if is_null cp' then skip else
       let cfNote := SecondSpecies.getCFNote i cf in
       do interval <- between_voices pos cfNote cp';
       when (SecondSpecies.isStrongBeat i (len cp))
         (SecondSpecies.checkStrongBeatConsonance interval i ;;
          SecondSpecies.checkUnison interval i (len cp) cp) ;;
       when (SecondSpecies.isWeakBeat i (len cp))
         (SecondSpecies.checkWeakBeatDissonance interval i cp cf pos) ;;
       SecondSpecies.checkVoiceCrossing cfNote cp' pos i)).
Proof.
  intros W. pose proof W as (Hcf & Hcp & Hkey & Hlen & Hrest).
  unfold SecondSpecies.checkStrongBeatConsonance, SecondSpecies.checkUnison,
    SecondSpecies.checkWeakBeatDissonance, SecondSpecies.checkVoiceCrossing.
  unfold2.
  repeat first
    [ total_step
    | apply total_eval;
      [eapply isPassingTone2_total; [exact W | bounds] | intros ? ?] ].
Qed.

Lemma total2_melodic_loop cf cp key :
  well_formed2 cf cp key ->
  total (len cp)
    (forEach (zrange 1 (len (getSoundingNotes cp))) (fun si =>
       do prevEntry <- entry_at (getSoundingNotes cp) (si - 1);
       do currEntry <- entry_at (getSoundingNotes cp) si;
       SecondSpecies.checkMelodicTritone
         (JString (fst prevEntry)) (JString (fst currEntry)) (snd currEntry) ;;
       SecondSpecies.checkStepwise
         (JString (fst prevEntry)) (JString (fst currEntry)) (snd currEntry) ;;
       SecondSpecies.checkNoteRepetition prevEntry currEntry (len cp))).
Proof.
  intros (Hcf & Hcp & Hkey & Hlen & Hrest).
  unfold SecondSpecies.checkMelodicTritone, SecondSpecies.checkStepwise,
    SecondSpecies.checkNoteRepetition.
  unfold2. prove_total.
Qed.

Lemma total2_strong_beat_checks cf cp key pos :
  well_formed2 cf cp key ->
  total (len cp)
    (SecondSpecies.checkStrongBeatParallels cf cp pos (len cp)) /\
  total (len cp)
    (SecondSpecies.checkStrongBeatHiddenParallels cf cp pos (len cp)) /\
  total (len cp)
    (SecondSpecies.checkStrongBeatMotion cf cp pos (len cp)) /\
  total (len cp)
    (SecondSpecies.checkCrossBeatParallels cf cp pos (len cp)).
Proof.
  intros (Hcf & Hcp & Hkey & Hlen & Hrest).
  unfold SecondSpecies.checkStrongBeatParallels,
    SecondSpecies.checkStrongBeatHiddenParallels,
    SecondSpecies.checkStrongBeatMotion, SecondSpecies.checkCrossBeatParallels.
  unfold2. repeat split; prove_total.
Qed.

Lemma total2_structure_checks cf cp key mode pos :
  well_formed2 cf cp key ->
  total (len cp)
    (SecondSpecies.checkStartInterval cf cp pos) /\
  total (len cp)
    (SecondSpecies.checkEndInterval cf cp key mode pos (len cp)) /\
  total (len cp)
    (SecondSpecies.checkLastNoteWhole (len cp)) /\
  total (len cp)
    (SecondSpecies.checkCadence cf cp key mode pos (len cp)) /\
  total (len cp)
    (SecondSpecies.checkRange cp pos).
Proof.
  intros (Hcf & Hcp & Hkey & Hlen & Hrest).
  unfold SecondSpecies.checkStartInterval, SecondSpecies.checkEndInterval,
    SecondSpecies.checkLastNoteWhole, SecondSpecies.checkCadence,
    SecondSpecies.checkRange.
  unfold2. repeat split; try destruct (is_null (cp_at cp 0)) eqn:Hfirst;
    prove_total.
Qed.

Lemma total2_sounding_checks cf cp key mode :
  well_formed2 cf cp key ->
  total (len cp)
    (SecondSpecies.checkCompoundTritones
       (map fst (getSoundingNotes cp)) (getSoundingNotes cp) key mode) /\
  total (len cp)
    (SecondSpecies.checkCompoundDissonantLeaps
       (map fst (getSoundingNotes cp)) (getSoundingNotes cp)) /\
  total (len cp)
    (SecondSpecies.checkArpeggios
       (map fst (getSoundingNotes cp)) (getSoundingNotes cp) key mode).
Proof.
  intros (Hcf & Hcp & Hkey & Hlen & Hrest).
  pose proof (sounding_parses cp Hcp) as Hs.
  unfold SecondSpecies.checkCompoundTritones,
    SecondSpecies.checkCompoundDissonantLeaps, SecondSpecies.checkArpeggios.
  unfold2. repeat split; prove_total.
Qed.

Lemma total2_strong_beat_globals cf cp key pos :
  well_formed2 cf cp key ->
  total (len cp)
    (SecondSpecies.checkExcessiveParallelConsonances cf cp pos (len cp)) /\
  total (len cp)
    (SecondSpecies.checkBattutaParallels cf cp pos (len cp)).
Proof.
  intros (Hcf & Hcp & Hkey & Hlen & Hrest).
  unfold SecondSpecies.checkExcessiveParallelConsonances,
    SecondSpecies.checkBattutaParallels.
  unfold2. repeat split; prove_total.
Qed.

(** The loop of [checkProlongedDirection] keeps its start index inside
    the sounding notes. *)
Lemma total2_prolonged_direction cf cp key :
  well_formed2 cf cp key ->
  total (len cp)
    (SecondSpecies.checkProlongedDirection
       (map fst (getSoundingNotes cp)) (getSoundingNotes cp)).
Proof.
  intros (Hcf & Hcp & Hkey & Hlen & Hrest).
  pose proof (sounding_parses cp Hcp) as Hs.
  unfold SecondSpecies.checkProlongedDirection.
  destruct (len (map fst (getSoundingNotes cp)) <? 4) eqn:Hshort;
    [apply total_skip|].
  apply total_afterLoop
    with (I := fun st : Z * Z * Z => 0 <= snd st < len (getSoundingNotes cp)).
  - apply totalT_forState; [simpl; bounds|].
    intros i [[d c] s] Hin HI. simpl in HI.
    apply totalT_evalT; [solve_ok | intros dir Hdir].
    destruct (dir =? 0); [apply totalT_yield; exact HI|].
    destruct (dir =? d); [apply totalT_yield; exact HI|].
    apply totalT_thenYield; [prove_total | simpl; bounds].
  - intros [[d c] s] HI. simpl in HI. prove_total.
Qed.

Theorem validate2_total (e : exercise) :
  well_formed2 (cantusFirmus e) (counterpoint e) (key e) ->
  exists r, SecondSpecies.validate e = Ok r.
Proof.
  intros W. pose proof W as (Hcf & Hcp & Hkey & Hlen & Hrest).
  unfold SecondSpecies.validate. cbv zeta.
  replace (len (counterpoint e) =? len (cantusFirmus e) * 2 - 1) with true
    by (symmetry; apply Z.eqb_eq; lia).
  simpl negb. cbv iota.
  destruct (init_noteResults_ready (len (counterpoint e))
              (len_nonneg (counterpoint e))) as (r0 & E0 & R0).
  unfold andThen at 1. rewrite E0. simpl bind.
  pose proof (total2_anacrusis _ _ _ W) as T1.
  pose proof (total2_note_loop _ _ _ (cpPosition e) W) as T2.
  pose proof (total2_melodic_loop _ _ _ W) as T3.
  pose proof (total2_strong_beat_checks _ _ _ (cpPosition e) W)
    as (T4 & T5 & T6 & T7).
  pose proof (total2_structure_checks _ _ _ (mode e) (cpPosition e) W)
    as (T8 & T9 & T10 & T11 & T12).
  pose proof (total2_sounding_checks _ _ _ (mode e) W) as (T13 & T14 & T15).
  pose proof (total2_prolonged_direction _ _ _ W) as T16.
  pose proof (total2_strong_beat_globals _ _ _ (cpPosition e) W) as (T17 & T18).
  match goal with
  | |- exists r, ?c r0 = Ok r => assert (T : total (len (counterpoint e)) c)
  end.
  { repeat first [ assumption | apply total_finish | apply total_andThen ]. }
  destruct (T r0 R0) as (r & E & _). exists r. exact E.
Qed.

(* ------------------------------------------------------------------ *)
(** ** Third species *)

Ltac unfold3 :=
  unfold ThirdSpecies.getCFNote, ThirdSpecies.getMeasureIndex,
    ThirdSpecies.isWeakBeat, ThirdSpecies.isDownbeat,
    ThirdSpecies.isSemiStrong, cf_at in *.

Lemma isPassingTone3_total cf cp key pos i :
  well_formed3 cf cp key ->
  exists f, ThirdSpecies.isPassingTone i cp cf pos = Ok f.
Proof.
  intros (Hcf & Hcp & Hkey & Hlen).
  unfold ThirdSpecies.isPassingTone. unfold3. prove_ok.
Qed.

Lemma isStrongBeatPassingTone_total cf cp key pos i :
  well_formed3 cf cp key ->
  exists f, ThirdSpecies.isStrongBeatPassingTone i cp cf pos = Ok f.
Proof.
  intros (Hcf & Hcp & Hkey & Hlen).
  unfold ThirdSpecies.isStrongBeatPassingTone. unfold3. prove_ok.
Qed.

Lemma checkCambiataAt_total cf cp key pos i :
  well_formed3 cf cp key ->
  exists b, ThirdSpecies._checkCambiataAt i cp cf pos (len cp) = Ok b.
Proof.
  intros (Hcf & Hcp & Hkey & Hlen).
  unfold ThirdSpecies._checkCambiataAt. unfold3. prove_ok.
Qed.

Lemma isCambiata_total cf cp key pos i :
  well_formed3 cf cp key ->
  exists c, ThirdSpecies.isCambiata i cp cf pos = Ok c.
Proof.
  intros W. unfold ThirdSpecies.isCambiata. cbv zeta.
  destruct (is_null (cp_at cp i)); [eexists; reflexivity|].
  repeat first
    [ ok_step
    | apply bind_total; [apply (checkCambiataAt_total _ _ _ _ _ W) | intros ? ?] ].
Qed.

Lemma classifyDissonance_total cf cp key pos i :
  well_formed3 cf cp key ->
  exists c, ThirdSpecies.classifyDissonance i cp cf pos = Ok c.
Proof.
  intros W. unfold ThirdSpecies.classifyDissonance. cbv zeta.
  repeat first
    [ ok_step
    | apply bind_total;
      [ first [ apply (isStrongBeatPassingTone_total _ _ _ _ _ W)
              | apply (isPassingTone3_total _ _ _ _ _ W)
              | apply (isCambiata_total _ _ _ _ _ W) ]
      | intros ? ? ] ].
Qed.

Lemma total3_anacrusis cf cp key :
  well_formed3 cf cp key ->
  total (len cp) (ThirdSpecies.checkAnacrusis cp (len cp)).
Proof.
  intros (Hcf & Hcp & Hkey & Hlen).
  unfold ThirdSpecies.checkAnacrusis. cbv zeta.
  destruct (is_null (cp_at cp 0)); prove_total.
Qed.

Lemma total3_note_loop cf cp key pos :
  well_formed3 cf cp key ->
  total (len cp)
    (forEach (zrange 0 (len cp)) (fun i =>
       let cp' := cp_at cp i in
       if is_null cp' then skip else
       let cfNote := ThirdSpecies.getCFNote i cf in
       do interval <- between_voices pos cfNote cp';
       when (ThirdSpecies.isDownbeat i (len cp))
         (ThirdSpecies.checkDownbeatConsonance interval i ;;
          ThirdSpecies.checkUnison interval i (len cp) cp) ;;
       when (ThirdSpecies.isSemiStrong i (len cp))
         (ThirdSpecies.checkBeatThreeConsonance interval i cp cf pos) ;;
       when (ThirdSpecies.isWeakBeat i (len cp))
         (ThirdSpecies.checkWeakBeatDissonance interval i cp cf pos) ;;
       ThirdSpecies.checkVoiceCrossing cfNote cp' pos i)).
Proof.
  intros W. pose proof W as (Hcf & Hcp & Hkey & Hlen).
  pose proof (classifyDissonance_total cf cp key pos) as Hclass.
  unfold ThirdSpecies.checkDownbeatConsonance, ThirdSpecies.checkUnison,
    ThirdSpecies.checkBeatThreeConsonance, ThirdSpecies.checkWeakBeatDissonance,
    ThirdSpecies.checkVoiceCrossing.
  unfold3.
  repeat first
    [ total_step
    | apply total_eval; [apply Hclass; exact W | intros ? ?] ].
Qed.

Lemma total3_melodic_loop cf cp key :
  well_formed3 cf cp key ->
  total (len cp)
    (forEach (zrange 1 (len (getSoundingNotes cp))) (fun si =>
       do prevEntry <- entry_at (getSoundingNotes cp) (si - 1);
       do currEntry <- entry_at (getSoundingNotes cp) si;
       ThirdSpecies.checkMelodicTritone
         (JString (fst prevEntry)) (JString (fst currEntry)) (snd currEntry))).
Proof.
  intros (Hcf & Hcp & Hkey & Hlen).
  unfold ThirdSpecies.checkMelodicTritone. prove_total.
Qed.

Lemma total3_downbeat_checks cf cp key pos :
  well_formed3 cf cp key ->
  total (len cp) (ThirdSpecies.checkDownbeatParallels cf cp pos (len cp)) /\
  total (len cp) (ThirdSpecies.checkDownbeatHiddenParallels cf cp pos (len cp)) /\
  total (len cp) (ThirdSpecies.checkDownbeatMotion cf cp pos (len cp)).
Proof.
  intros (Hcf & Hcp & Hkey & Hlen).
  unfold ThirdSpecies.checkDownbeatParallels,
    ThirdSpecies.checkDownbeatHiddenParallels, ThirdSpecies.checkDownbeatMotion.
  unfold3. repeat split; prove_total.
Qed.

Lemma total3_structure_checks cf cp key mode pos :
  well_formed3 cf cp key ->
  total (len cp) (ThirdSpecies.checkStartInterval cf cp pos) /\
  total (len cp) (ThirdSpecies.checkEndInterval cf cp pos (len cp)) /\
  total (len cp) (ThirdSpecies.checkLastNoteWhole (len cp)) /\
  total (len cp) (ThirdSpecies.checkCadence cf cp key mode pos (len cp)).
Proof.
  intros (Hcf & Hcp & Hkey & Hlen).
  assert (Hfirst : 0 <= ThirdSpecies._getFirstSoundingIndex cp < len cp).
  { apply first_sounding_range. pose proof (len_nonneg cp). lia. }
  unfold ThirdSpecies.checkStartInterval, ThirdSpecies.checkEndInterval,
    ThirdSpecies.checkLastNoteWhole, ThirdSpecies.checkCadence.
  unfold3. repeat split; prove_total.
Qed.

Lemma total3_sounding_checks cf cp key mode :
  well_formed3 cf cp key ->
  total (len cp)
    (ThirdSpecies.checkCompoundTritones
       (map fst (getSoundingNotes cp)) (getSoundingNotes cp) key mode) /\
  total (len cp)
    (ThirdSpecies.checkArpeggios
       (map fst (getSoundingNotes cp)) (getSoundingNotes cp) key mode) /\
  total (len cp) (ThirdSpecies.checkNoteRepetition (getSoundingNotes cp)).
Proof.
  intros (Hcf & Hcp & Hkey & Hlen).
  pose proof (sounding_parses cp Hcp) as Hs.
  unfold ThirdSpecies.checkCompoundTritones, ThirdSpecies.checkArpeggios,
    ThirdSpecies.checkNoteRepetition.
  repeat split; prove_total.
Qed.

Lemma total3_prolonged_direction cf cp key :
  well_formed3 cf cp key ->
  total (len cp)
    (ThirdSpecies.checkProlongedDirection
       (map fst (getSoundingNotes cp)) (getSoundingNotes cp)).
Proof.
  intros (Hcf & Hcp & Hkey & Hlen).
  pose proof (sounding_parses cp Hcp) as Hs.
  unfold ThirdSpecies.checkProlongedDirection.
  destruct (len (map fst (getSoundingNotes cp)) <? 4) eqn:Hshort;
    [apply total_skip|].
  cbv zeta.
  apply total_afterLoop
    with (I := fun st : Z * Z * Z => 0 <= snd st < len (getSoundingNotes cp)).
  - apply totalT_forState; [simpl; bounds|].
    intros i [[d c] s] Hin HI. simpl in HI.
    apply totalT_evalT; [solve_ok | intros dir Hdir].
    destruct (dir =? 0); [apply totalT_yield; exact HI|].
    destruct (dir =? d); [apply totalT_yield; exact HI|].
    apply totalT_thenYield; [prove_total | simpl; bounds].
  - intros [[d c] s] HI. simpl in HI. prove_total.
Qed.

Theorem validate3_total (e : exercise) :
  well_formed3 (cantusFirmus e) (counterpoint e) (key e) ->
  exists r, ThirdSpecies.validate e = Ok r.
Proof.
  intros W. pose proof W as (Hcf & Hcp & Hkey & Hlen).
  unfold ThirdSpecies.validate. cbv zeta.
  replace (len (counterpoint e) =? len (cantusFirmus e) * 4 - 3) with true
    by (symmetry; apply Z.eqb_eq; lia).
  simpl negb. cbv iota.
  destruct (init_noteResults_ready (len (counterpoint e))
              (len_nonneg (counterpoint e))) as (r0 & E0 & R0).
  unfold andThen at 1. rewrite E0. simpl bind.
  pose proof (total3_anacrusis _ _ _ W) as T1.
  pose proof (total3_note_loop _ _ _ (cpPosition e) W) as T2.
  pose proof (total3_melodic_loop _ _ _ W) as T3.
  pose proof (total3_downbeat_checks _ _ _ (cpPosition e) W) as (T4 & T5 & T6).
  pose proof (total3_structure_checks _ _ _ (mode e) (cpPosition e) W)
    as (T7 & T8 & T9 & T10).
  pose proof (total3_sounding_checks _ _ _ (mode e) W) as (T11 & T12 & T13).
  pose proof (total3_prolonged_direction _ _ _ W) as T14.
  match goal with
  | |- exists r, ?c r0 = Ok r => assert (T : total (len (counterpoint e)) c)
  end.
  { repeat first [ assumption | apply total_finish | apply total_andThen ]. }
  destruct (T r0 R0) as (r & E & _). exists r. exact E.
Qed.

(* ------------------------------------------------------------------ *)
(** ** The three validators *)

Lemma well_formed_first (e : exercise) :
  well_formed First e = true ->
  well_formed1 (cantusFirmus e) (counterpoint e) (key e).
Proof.
  unfold well_formed, expected_length. intros H.
  repeat (apply andb_true_iff in H; destruct H as (H & ?)).
  rewrite forallb_forall in *.
  repeat split; try (apply Forall_forall; assumption); try assumption; lia.
Qed.

Lemma well_formed_second (e : exercise) :
  well_formed Second e = true ->
  well_formed2 (cantusFirmus e) (counterpoint e) (key e).
Proof.
  unfold well_formed, expected_length. intros H.
  repeat (apply andb_true_iff in H; destruct H as (H & ?)).
  rewrite forallb_forall in *.
  repeat split; try (apply Forall_forall; assumption); try assumption; try lia.
  destruct (counterpoint e) as [|[s|] [|x l]];
    try discriminate; unfold len; simpl List.length; lia.
Qed.

Lemma well_formed_third (e : exercise) :
  well_formed Third e = true ->
  well_formed3 (cantusFirmus e) (counterpoint e) (key e).
Proof.
  unfold well_formed, expected_length. intros H.
  repeat (apply andb_true_iff in H; destruct H as (H & ?)).
  rewrite forallb_forall in *.
  repeat split; try (apply Forall_forall; assumption); try assumption; lia.
Qed.

(** Every well-formed exercise is validated: [validate] returns a
    result, it does not throw. *)
Theorem validate_total (sp : species) (e : exercise) :
  well_formed sp e = true -> exists r, validate_of sp e = Ok r.
Proof.
  destruct sp; intros W; unfold validate_of.
  - apply validate1_total, well_formed_first, W.
  - apply validate2_total, well_formed_second, W.
  - apply validate3_total, well_formed_third, W.
Qed.

(* ================================================================== *)
(** * Length check (Step 0) *)
(* ================================================================== *)

Lemma validate_length_mismatch (sp : species) (e : exercise) :
  len (counterpoint e) <> expected_length sp (len (cantusFirmus e)) ->
  validate_of sp e = Ok length_error.
Proof.
  intros H. destruct sp; unfold expected_length in H; unfold validate_of.
  - unfold FirstSpecies.validate.
    replace (len (cantusFirmus e) =? len (counterpoint e)) with false; [reflexivity|].
    symmetry. apply Z.eqb_neq. congruence.
  - unfold SecondSpecies.validate.
    replace (len (counterpoint e) =? len (cantusFirmus e) * 2 - 1) with false; [reflexivity|].
    symmetry. apply Z.eqb_neq. lia.
  - unfold ThirdSpecies.validate.
    replace (len (counterpoint e) =? len (cantusFirmus e) * 4 - 3) with false; [reflexivity|].
    symmetry. apply Z.eqb_neq. lia.
Qed.

(** C1.  When the counterpoint length differs from the species formula
    ([len CF], [2 * len CF - 1], [4 * len CF - 3]), [validate] returns a
    result with [valid = false] whose errors are exactly one issue, of
    rule ['LENGTH'], and whose warnings, suggestions and per-position
    results are empty. *)
Theorem C1_length_mismatch_single_LENGTH_error :
  forall (sp : species) (e : exercise),
    len (counterpoint e) <> expected_length sp (len (cantusFirmus e)) ->
    exists r i,
      validate_of sp e = Ok r /\
      valid r = false /\
      errors r = [i] /\ rule i = "LENGTH" /\ severity_of i = ERROR /\
      warnings r = [] /\ suggestions r = [] /\ noteResults r = [].
Proof.
  intros sp e H.
  exists length_error, (mkIssue "LENGTH" None ERROR).
  rewrite (validate_length_mismatch sp e H).
  repeat split; reflexivity.
Qed.

Lemma C1_witness :
  exists r i,
    validate_of Second
      (mkExercise ["C4"; "D4"] [Some "E4"; Some "D4"] "C" Scale.major upper) = Ok r /\
    valid r = false /\
    errors r = [i] /\ rule i = "LENGTH" /\ severity_of i = ERROR /\
    warnings r = [] /\ suggestions r = [] /\ noteResults r = [].
Proof.
  apply (C1_length_mismatch_single_LENGTH_error Second
           (mkExercise ["C4"; "D4"] [Some "E4"; Some "D4"] "C" Scale.major upper)).
  vm_compute. discriminate.
Defined.

(* ================================================================== *)
(** * Score and validity (Step 8) *)
(* ================================================================== *)

Lemma finish_spec (calc : results -> Z) (r r' : results) :
  finish calc r = Ok r' ->
  errors r' = errors r /\ warnings r' = warnings r /\
  suggestions r' = suggestions r /\ noteResults r' = noteResults r /\
  score r' = calc r /\ valid r' = (len (errors r) =? 0).
Proof.
  unfold finish. intros H. inversion H; subst; clear H.
  repeat split; reflexivity.
Qed.

(** Every run of [validate] that passes the length check ends with the
    two final assignments. *)
Lemma validate_ends_with_finish (sp : species) (e : exercise) (r : results) :
  len (counterpoint e) = expected_length sp (len (cantusFirmus e)) ->
  validate_of sp e = Ok r ->
  exists r0, finish (calculateScore_of sp) r0 = Ok r.
Proof.
  intros Hlen H.
  destruct sp; unfold expected_length in Hlen; unfold validate_of in H;
    unfold calculateScore_of.
  - unfold FirstSpecies.validate in H.
    replace (len (cantusFirmus e) =? len (counterpoint e)) with true in H
      by (symmetry; apply Z.eqb_eq; congruence).
    cbv zeta in H. simpl negb in H. cbv iota in H.
    repeat peel H. eexists; exact H.
  - unfold SecondSpecies.validate in H.
    replace (len (counterpoint e) =? len (cantusFirmus e) * 2 - 1) with true in H
      by (symmetry; apply Z.eqb_eq; lia).
    cbv zeta in H. simpl negb in H. cbv iota in H.
    repeat peel H. eexists; exact H.
  - unfold ThirdSpecies.validate in H.
    replace (len (counterpoint e) =? len (cantusFirmus e) * 4 - 3) with true in H
      by (symmetry; apply Z.eqb_eq; lia).
    cbv zeta in H. simpl negb in H. cbv iota in H.
    repeat peel H. eexists; exact H.
Qed.

Lemma calculateScore_weights (sp : species) (r : results) :
  calculateScore_of sp r =
  Z.max 0 (100 - fst (weights sp) * len (errors r)
               - snd (weights sp) * len (warnings r)
               - len (suggestions r)).
Proof.
  destruct sp;
    unfold calculateScore_of, weights, FirstSpecies.calculateScore,
           SecondSpecies.calculateScore, ThirdSpecies.calculateScore;
    cbv zeta; cbn [fst snd]; f_equal; lia.
Qed.

(** C7.  For an exercise that passes the length check, [validate]
    returns a result whenever the exercise is well formed, and in every
    result it returns the score is
    [max 0 (100 - wE * #errors - wW * #warnings - #suggestions)] with
    [(wE, wW)] = (15, 5), (10, 4), (8, 3) for the 1st, 2nd and 3rd
    species, and [valid] is true exactly when there is no error. *)
Theorem C7_score_formula_and_validity :
  forall (sp : species) (e : exercise),
    len (counterpoint e) = expected_length sp (len (cantusFirmus e)) ->
    (well_formed sp e = true -> exists r, validate_of sp e = Ok r)
    /\ (forall r : results,
          validate_of sp e = Ok r ->
          score r = Z.max 0 (100 - fst (weights sp) * len (errors r)
                                 - snd (weights sp) * len (warnings r)
                                 - len (suggestions r))
          /\ (valid r = true <-> errors r = [])).
Proof.
  intros sp e Hlen. split; [apply validate_total|]. intros r H.
  destruct (validate_ends_with_finish sp e r Hlen H) as (r0 & Hf).
  apply finish_spec in Hf.
  destruct Hf as (He & Hw & Hs & _ & Hscore & Hvalid).
  split.
  - rewrite Hscore, calculateScore_weights, He, Hw, Hs. reflexivity.
  - rewrite Hvalid, He. apply len_nil_iff.
Qed.

Lemma C7_witness :
  exists r,
    validate_of First sample_first = Ok r /\
    (score r = Z.max 0 (100 - fst (weights First) * len (errors r)
                            - snd (weights First) * len (warnings r)
                            - len (suggestions r))
     /\ (valid r = true <-> errors r = [])).
Proof.
  destruct (C7_score_formula_and_validity First sample_first eq_refl)
    as (Hreturns & Hresult).
  destruct (Hreturns eq_refl) as (r & Hr).
  exists r. split; [exact Hr | apply Hresult, Hr].
Defined.

(* ================================================================== *)
(** * Pitch round trip *)
(* ================================================================== *)

(** C9, as stated, fails below semitone index 12: [fromMidi] spells the
    octave [-1], which the single-digit octave of [parse] rejects. *)
Lemma C9_counterexample_index_0 :
  0 <= 0 <= 127 /\
  Pitch.fromMidi 0 = "C-1" /\
  Pitch.toMidi (JString (Pitch.fromMidi 0)) = Throw InvalidNoteFormat.
Proof. repeat split; try lia; reflexivity. Qed.

(** C9 (amended).  For every semitone index [i] with [12 <= i <= 127],
    converting [i] to a note name and back is the identity. *)
Theorem C9_roundtrip_from_12 :
  forall i : Z, 12 <= i <= 127 ->
    Pitch.toMidi (JString (Pitch.fromMidi i)) = Ok i.
Proof.
  intros i Hi.
  assert (Hall : forallb roundtrip_ok (zrange 12 128) = true)
    by (vm_compute; reflexivity).
  rewrite forallb_forall in Hall.
  specialize (Hall i (proj2 (In_zrange 12 128 i) ltac:(lia))).
  unfold roundtrip_ok, roundtrip in Hall.
  destruct (Pitch.toMidi (JString (Pitch.fromMidi i))) as [j|]; [|discriminate Hall].
  apply Z.eqb_eq in Hall. subst j. reflexivity.
Qed.

Lemma C9_witness : Pitch.toMidi (JString (Pitch.fromMidi 60)) = Ok 60.
Proof. apply (C9_roundtrip_from_12 60). lia. Defined.

(** The indices below 12 all fail the same way. *)
Lemma roundtrip_below_12 :
  forall i : Z, 0 <= i < 12 -> roundtrip i = Throw InvalidNoteFormat.
Proof.
  intros i Hi.
  assert (Hall : forallb
            (fun k => match roundtrip k with
                      | Throw InvalidNoteFormat => true
                      | _ => false
                      end) (zrange 0 12) = true)
    by (vm_compute; reflexivity).
  rewrite forallb_forall in Hall.
  specialize (Hall i (proj2 (In_zrange 0 12 i) ltac:(lia))).
  destruct (roundtrip i) as [j|[|]]; try discriminate Hall. reflexivity.
Qed.

(* ================================================================== *)
(** * The zero-length exercise *)
(* ================================================================== *)

(** C10.  [FirstSpeciesValidator.validate] does not return a result on
    the zero-length exercise: the length check passes, no position is
    visited, and [checkStartInterval] parses the [undefined] first note,
    which throws. *)
Theorem C10_validate_empty_exercise_throws :
  forall (key : string) (mode : Scale.mode) (cpPosition : voice),
    len ([] : list (option string)) = expected_length First (len ([] : list string)) /\
    Pitch.parse (cf_at [] 0) = Throw TypeError /\
    FirstSpecies.checkStartInterval (cf_at [] 0) (cp_at [] 0) cpPosition fresh_results
      = Throw TypeError /\
    FirstSpecies.validate (mkExercise [] [] key mode cpPosition) = Throw TypeError.
Proof.
  intros key mode cpPosition.
  repeat split; destruct cpPosition; reflexivity.
Qed.

(* ================================================================== *)
(** * Dissonance classification (third species) *)
(* ================================================================== *)

Lemma semiStrong_not_downbeat (i n : Z) :
  ThirdSpecies.isSemiStrong i n = true -> ThirdSpecies.isDownbeat i n = false.
Proof.
  unfold ThirdSpecies.isSemiStrong, ThirdSpecies.isDownbeat.
  intros H. apply andb_true_iff in H. destruct H as (H2 & Hl).
  apply Z.eqb_eq in H2. rewrite H2.
  apply negb_true_iff in Hl. rewrite Hl. reflexivity.
Qed.

Lemma weak_not_downbeat (i n : Z) :
  ThirdSpecies.isWeakBeat i n = true -> ThirdSpecies.isDownbeat i n = false.
Proof.
  unfold ThirdSpecies.isWeakBeat, ThirdSpecies.isDownbeat. cbv zeta.
  intros H. apply andb_true_iff in H. destruct H as (Hb & Hl).
  apply negb_true_iff in Hl. rewrite Hl.
  apply orb_true_iff in Hb.
  destruct Hb as [Hb|Hb]; apply Z.eqb_eq in Hb; rewrite Hb; reflexivity.
Qed.

Lemma weak_not_semiStrong (i n : Z) :
  ThirdSpecies.isWeakBeat i n = true -> ThirdSpecies.isSemiStrong i n = false.
Proof.
  unfold ThirdSpecies.isWeakBeat, ThirdSpecies.isSemiStrong. cbv zeta.
  intros H. apply andb_true_iff in H. destruct H as (Hb & Hl).
  apply orb_true_iff in Hb.
  destruct Hb as [Hb|Hb]; apply Z.eqb_eq in Hb; rewrite Hb; reflexivity.
Qed.

(** The two-detector cascade of [classifyDissonance]: try [first], and
    on its rejection try the cambiata. *)
Lemma cascade_accepts {A : Type} (validA : A -> bool)
    (first : result A) (cam : result Cambiata.t)
    (onFirst : A -> Classification.t) (onCam : Cambiata.t -> Classification.t)
    (onNone : A -> Classification.t) :
  (forall a, Classification.valid (onFirst a) = true) ->
  (forall c, Classification.valid (onCam c) = true) ->
  (forall a, Classification.valid (onNone a) = false) ->
  let cls :=
    let* a := first in
    if validA a then Ok (onFirst a)
    else let* c := cam in
         if Cambiata.valid c then Ok (onCam c) else Ok (onNone a) in
  (accepts Classification.valid cls <->
     accepts validA first \/ (rejects validA first /\ accepts Cambiata.valid cam))
  /\ (rejects Classification.valid cls <->
        rejects validA first /\ rejects Cambiata.valid cam).
Proof.
  intros H1 H2 H3 cls. subst cls. unfold accepts, rejects.
  destruct first as [a|e]; simpl.
  - destruct (validA a) eqn:Ea.
    + split; split.
      * intros _. left. exists a. auto.
      * intros _. eexists; split; [reflexivity | apply H1].
      * intros (c & Hc & Hv). inversion Hc; subst. rewrite H1 in Hv. discriminate Hv.
      * intros ((a' & Ha' & Hv) & _). inversion Ha'; subst. congruence.
    + destruct cam as [c|e]; simpl.
      * destruct (Cambiata.valid c) eqn:Ec.
        -- split; split.
           ++ intros _. right. split; [exists a; auto | exists c; auto].
           ++ intros _. eexists; split; [reflexivity | apply H2].
           ++ intros (x & Hx & Hv). inversion Hx; subst. rewrite H2 in Hv. discriminate Hv.
           ++ intros (_ & (c' & Hc' & Hv)). inversion Hc'; subst. congruence.
        -- split; split.
           ++ intros (x & Hx & Hv). inversion Hx; subst. rewrite H3 in Hv. discriminate Hv.
           ++ intros [(a' & Ha' & Hv) | (_ & (c' & Hc' & Hv))].
              ** inversion Ha'; subst. congruence.
              ** inversion Hc'; subst. congruence.
           ++ intros _. split; [exists a; auto | exists c; auto].
           ++ intros _. eexists; split; [reflexivity | apply H3].
      * split; split.
        -- intros (x & Hx & _). discriminate Hx.
        -- intros [(a' & Ha' & Hv) | (_ & (c' & Hc' & _))].
           ++ inversion Ha'; subst. congruence.
           ++ discriminate Hc'.
        -- intros (x & Hx & _). discriminate Hx.
        -- intros (_ & (c' & Hc' & _)). discriminate Hc'.
  - split; split.
    + intros (x & Hx & _). discriminate Hx.
    + intros [(a' & Ha' & _) | ((a' & Ha' & _) & _)]; discriminate Ha'.
    + intros (x & Hx & _). discriminate Hx.
    + intros ((a' & Ha' & _) & _). discriminate Ha'.
Qed.

(** How [classifyDissonance] dispatches on the role of the position: it
    rejects every downbeat position (beat 1 or the final note) whatever
    the context; on a semi-strong position (beat 3) it accepts iff the
    strong-beat passing-tone detector accepts or, that one rejecting, the
    cambiata detector accepts; on a weak position (beat 2 or 4) it
    accepts iff the passing-tone detector accepts or, that one
    rejecting, the cambiata detector accepts; every other position is
    rejected.  What the detectors themselves accept is another matter:
    see the section on leaps of more than an octave. *)
Lemma classifyDissonance_by_role :
  forall (cpIndex : Z) (counterpoint : list (option string))
         (cf : list string) (cpPosition : voice),
    let cpLen := len counterpoint in
    let cls := ThirdSpecies.classifyDissonance cpIndex counterpoint cf cpPosition in
    let spt := ThirdSpecies.isStrongBeatPassingTone cpIndex counterpoint cf cpPosition in
    let pt := ThirdSpecies.isPassingTone cpIndex counterpoint cf cpPosition in
    let cam := ThirdSpecies.isCambiata cpIndex counterpoint cf cpPosition in
    (ThirdSpecies.isDownbeat cpIndex cpLen = true ->
       rejects Classification.valid cls)
    /\ (ThirdSpecies.isSemiStrong cpIndex cpLen = true ->
          (accepts Classification.valid cls <->
             accepts Formula.valid spt
             \/ (rejects Formula.valid spt /\ accepts Cambiata.valid cam))
          /\ (rejects Classification.valid cls <->
                rejects Formula.valid spt /\ rejects Cambiata.valid cam))
    /\ (ThirdSpecies.isWeakBeat cpIndex cpLen = true ->
          (accepts Classification.valid cls <->
             accepts Formula.valid pt
             \/ (rejects Formula.valid pt /\ accepts Cambiata.valid cam))
          /\ (rejects Classification.valid cls <->
                rejects Formula.valid pt /\ rejects Cambiata.valid cam))
    /\ (ThirdSpecies.isDownbeat cpIndex cpLen = false ->
        ThirdSpecies.isSemiStrong cpIndex cpLen = false ->
        ThirdSpecies.isWeakBeat cpIndex cpLen = false ->
          rejects Classification.valid cls).
Proof.
  intros cpIndex counterpoint cf cpPosition cpLen cls spt pt cam.
  subst cls spt pt cam cpLen.
  unfold ThirdSpecies.classifyDissonance. cbv zeta.
  split; [|split; [|split]].
  - intros Hd. rewrite Hd. eexists; split; reflexivity.
  - intros Hs. rewrite (semiStrong_not_downbeat _ _ Hs), Hs.
    apply cascade_accepts; reflexivity.
  - intros Hw.
    rewrite (weak_not_downbeat _ _ Hw), (weak_not_semiStrong _ _ Hw), Hw.
    apply cascade_accepts; reflexivity.
  - intros Hd Hs Hw. rewrite Hd, Hs, Hw. eexists; split; reflexivity.
Qed.

(* ================================================================== *)
(** * How a rule check extends the results *)
(* ================================================================== *)

(** Every statement that writes to the results is [sound]: it [grows]
    them.  So is every rule check, being built from those statements. *)

Section Growth.

Variable G : string -> bool.

Lemma notes_grow_refl (a : list noteResult) : notes_grow a a.
Proof. intros k nr H. exists nr. split; [exact H | apply incl_refl]. Qed.

Lemma notes_grow_trans (a b c : list noteResult) :
  notes_grow a b -> notes_grow b c -> notes_grow a c.
Proof.
  intros Hab Hbc k nr H.
  destruct (Hab k nr H) as (nr' & H' & I').
  destruct (Hbc k nr' H') as (nr'' & H'' & I'').
  exists nr''. split; [exact H'' | eapply incl_tran; eassumption].
Qed.

Lemma attached_mono (a b : list noteResult) (i : issue) :
  notes_grow a b -> attached a i -> attached b i.
Proof.
  intros Hg Ha p Hp Hp0.
  destruct (Ha p Hp Hp0) as (nr & Hn & Hi).
  rewrite nthZ_nth_error in Hn by exact Hp0.
  destruct (Hg _ _ Hn) as (nr' & Hn' & Hincl).
  exists nr'. rewrite nthZ_nth_error by exact Hp0.
  split; [exact Hn' | apply Hincl, Hi].
Qed.

Lemma admissible_mono (a b : list noteResult) (i : issue) :
  notes_grow a b -> admissible G a i -> admissible G b i.
Proof.
  intros Hg (Hr & [HG | Ha]); split; auto.
  right. eapply attached_mono; eassumption.
Qed.

Lemma extends_refl (nrs : list noteResult) (l : list issue) : extends G nrs l l.
Proof. exists []. split; [symmetry; apply app_nil_r | constructor]. Qed.

Lemma extends_trans (nrs nrs' : list noteResult) (l1 l2 l3 : list issue) :
  notes_grow nrs nrs' ->
  extends G nrs l1 l2 -> extends G nrs' l2 l3 -> extends G nrs' l1 l3.
Proof.
  intros Hg (a & -> & Ha) (b & -> & Hb).
  exists (a ++ b). split; [symmetry; apply app_assoc|].
  apply Forall_app. split; [|exact Hb].
  eapply Forall_impl; [|exact Ha].
  intros i. apply admissible_mono. exact Hg.
Qed.

Lemma grows_refl (r : results) : grows G r r.
Proof.
  constructor; try apply extends_refl. apply notes_grow_refl.
Qed.

Lemma grows_trans (r1 r2 r3 : results) :
  grows G r1 r2 -> grows G r2 r3 -> grows G r1 r3.
Proof.
  intros [e1 w1 s1 n1] [e2 w2 s2 n2].
  constructor.
  - eapply extends_trans; eassumption.
  - eapply extends_trans; eassumption.
  - eapply extends_trans; eassumption.
  - eapply notes_grow_trans; eassumption.
Qed.

Lemma sound_skip : sound G skip.
Proof. intros r r' H. inversion H; subst. apply grows_refl. Qed.

Lemma sound_andThen (c1 c2 : check) :
  sound G c1 -> sound G c2 -> sound G (c1 ;; c2).
Proof.
  intros H1 H2 r r' H. apply andThen_inv in H.
  destruct H as (r1 & Ha & Hb).
  eapply grows_trans; [apply H1 | apply H2]; eassumption.
Qed.

Lemma sound_when (b : bool) (c : check) : sound G c -> sound G (when b c).
Proof. intros H. unfold when. destruct b; [exact H | apply sound_skip]. Qed.

Lemma sound_eval {A : Type} (m : result A) (k : A -> check) :
  (forall a, sound G (k a)) -> sound G (eval m k).
Proof.
  intros Hk r r' H. apply eval_inv in H. destruct H as (a & _ & H).
  eapply Hk; eassumption.
Qed.

Lemma sound_forEach {A : Type} (l : list A) (body : A -> check) :
  (forall a, sound G (body a)) -> sound G (forEach l body).
Proof.
  intros Hb. induction l as [|a l IH]; simpl.
  - apply sound_skip.
  - apply sound_andThen; [apply Hb | exact IH].
Qed.

Lemma soundT_yield {T : Type} (t : T) : soundT G (yield t).
Proof. intros r t' r' H. inversion H; subst. apply grows_refl. Qed.

Lemma soundT_thenYield {T : Type} (c : check) (t : T) :
  sound G c -> soundT G (thenYield c t).
Proof.
  intros Hc r t' r' H. unfold thenYield in H.
  apply bind_Ok_inv in H. destruct H as (r1 & H1 & H2).
  inversion H2; subst. apply Hc, H1.
Qed.

Lemma soundT_evalT {A T : Type} (m : result A) (k : A -> step T) :
  (forall a, soundT G (k a)) -> soundT G (evalT m k).
Proof.
  intros Hk r t r' H. unfold evalT in H.
  apply bind_Ok_inv in H. destruct H as (a & _ & H).
  eapply Hk; eassumption.
Qed.

Lemma sound_forBreak {A : Type} (l : list A) (body : A -> step bool) :
  (forall a, soundT G (body a)) -> sound G (forBreak l body).
Proof.
  intros Hb. induction l as [|a l IH]; simpl.
  - apply sound_skip.
  - intros r r' H. apply bind_Ok_inv in H.
    destruct H as ((b & r1) & H1 & H2). simpl in H2.
    apply Hb in H1. destruct b.
    + inversion H2; subst. exact H1.
    + eapply grows_trans; [exact H1 | apply IH, H2].
Qed.

Lemma soundT_forState {A S : Type} (l : list A) (body : A -> S -> step S) (s : S) :
  (forall a s', soundT G (body a s')) -> soundT G (forState l body s).
Proof.
  intros Hb. revert s. induction l as [|a l IH]; intros s; simpl.
  - apply soundT_yield.
  - intros r t r' H. apply bind_Ok_inv in H.
    destruct H as ((s1 & r1) & H1 & H2). simpl in H2.
    eapply grows_trans; [eapply Hb, H1 | eapply IH, H2].
Qed.

Lemma sound_afterLoop {S : Type} (loop : step S) (k : S -> check) :
  soundT G loop -> (forall s, sound G (k s)) -> sound G (afterLoop loop k).
Proof.
  intros Hl Hk r r' H. unfold afterLoop in H.
  apply bind_Ok_inv in H. destruct H as ((s & r1) & H1 & H2). simpl in H2.
  eapply grows_trans; [eapply Hl, H1 | eapply Hk, H2].
Qed.

(** *** The statements that write to the results *)

Lemma update_nth_spec {A : Type} (f : A -> A) (l l' : list A) (n : nat) :
  update_nth n f l = Some l' ->
  exists x, nth_error l n = Some x /\ nth_error l' n = Some (f x)
            /\ forall k, k <> n -> nth_error l' k = nth_error l k.
Proof.
  revert l' n. induction l as [|y l IH]; intros l' n H.
  - destruct n; discriminate H.
  - destruct n as [|n]; simpl in H.
    + inversion H; subst. exists y. repeat split.
      intros [|k] Hk; [congruence | reflexivity].
    + destruct (update_nth n f l) as [l''|] eqn:E; [|discriminate H].
      inversion H; subst.
      destruct (IH _ _ E) as (x & H1 & H2 & H3).
      exists x. repeat split; auto.
      intros [|k] Hk; [reflexivity|]. simpl. apply H3. congruence.
Qed.

Lemma modify_note_spec (p : Z) (f : noteResult -> noteResult) (r r' : results) :
  modify_note p f r = Ok r' ->
  0 <= p /\
  errors r' = errors r /\ warnings r' = warnings r /\
  suggestions r' = suggestions r /\
  exists x, nth_error (noteResults r) (Z.to_nat p) = Some x
            /\ nth_error (noteResults r') (Z.to_nat p) = Some (f x)
            /\ forall k, k <> Z.to_nat p ->
                 nth_error (noteResults r') k = nth_error (noteResults r) k.
Proof.
  unfold modify_note. intros H.
  destruct (p <? 0) eqn:Ep; [discriminate H|]. apply Z.ltb_ge in Ep.
  destruct (update_nth (Z.to_nat p) f (noteResults r)) as [l|] eqn:E;
    [|discriminate H].
  inversion H; subst; clear H. simpl.
  repeat split; auto. apply update_nth_spec. exact E.
Qed.

Lemma modify_note_grow (p : Z) (f : noteResult -> noteResult) (r r' : results) :
  (forall x, incl (issues x) (issues (f x))) ->
  modify_note p f r = Ok r' ->
  notes_grow (noteResults r) (noteResults r').
Proof.
  intros Hf H. apply modify_note_spec in H.
  destruct H as (_ & _ & _ & _ & x & Hx & Hx' & Hk).
  intros k nr Hn.
  destruct (Nat.eq_dec k (Z.to_nat p)) as [->|Hne].
  - rewrite Hx in Hn. inversion Hn; subst. exists (f nr). split; auto.
  - exists nr. rewrite Hk by exact Hne. split; [exact Hn | apply incl_refl].
Qed.

(** Pushing an issue to a severity list and to the per-position result
    of its position, possibly marking the position invalid in between. *)
Lemma attach_spec (p : Z) (i : issue) (r0 r1 r2 : results) (mark : bool) :
  position i = Some p ->
  (if mark then set_invalid p r0 else Ok r0) = Ok r1 ->
  push_note p i r1 = Ok r2 ->
  errors r2 = errors r0 /\ warnings r2 = warnings r0 /\
  suggestions r2 = suggestions r0 /\
  notes_grow (noteResults r0) (noteResults r2) /\
  attached (noteResults r2) i.
Proof.
  intros Hp H1 H2.
  assert (G1 : notes_grow (noteResults r0) (noteResults r1)
               /\ errors r1 = errors r0 /\ warnings r1 = warnings r0
               /\ suggestions r1 = suggestions r0).
  { destruct mark.
    - split.
      + eapply modify_note_grow; [|exact H1]. intros x. apply incl_refl.
      + apply modify_note_spec in H1. tauto.
    - inversion H1; subst. split; [apply notes_grow_refl | auto]. }
  destruct G1 as (G1 & E1 & W1 & S1).
  assert (G2 : notes_grow (noteResults r1) (noteResults r2)).
  { eapply modify_note_grow; [|exact H2]. intros x. simpl. apply incl_appl, incl_refl. }
  apply modify_note_spec in H2.
  destruct H2 as (Hp0 & E2 & W2 & S2 & x & Hx & Hx' & _).
  repeat split; try congruence.
  - eapply notes_grow_trans; eassumption.
  - intros q Hq Hq0. rewrite Hp in Hq. inversion Hq; subst q.
    exists (mkNote (note_valid x) (issues x ++ [i])).
    rewrite nthZ_nth_error by exact Hp0. split; [exact Hx'|].
    simpl. apply in_or_app. right. left. reflexivity.
Qed.

Lemma extends_with (nrs : list noteResult) (l : list issue) (i : issue) :
  admissible G nrs i -> extends G nrs l (l ++ [i]).
Proof. intros H. exists [i]. split; [reflexivity | constructor; [exact H | constructor]]. Qed.

Lemma extends_eq (nrs : list noteResult) (l l' : list issue) :
  l' = l -> extends G nrs l l'.
Proof. intros ->. apply extends_refl. Qed.

Lemma sound_error_at (rl : string) (p : Z) :
  rl <> RULES.RANGE -> sound G (error_at rl p).
Proof.
  intros Hrl r r' H. unfold error_at in H. cbv zeta in H.
  peel H. peel H.
  unfold push_error in Hc. inversion Hc; subst; clear Hc.
  destruct (attach_spec p (mkIssue rl (Some p) ERROR) _ _ _ true eq_refl Hc0 H)
    as (E & W & S & N & A).
  simpl in *.
  constructor; simpl.
  - rewrite E. apply extends_with. split; [exact Hrl | right; exact A].
  - apply extends_eq, W.
  - apply extends_eq, S.
  - exact N.
Qed.

Lemma sound_warning_at (rl : string) (p : Z) :
  rl <> RULES.RANGE -> sound G (warning_at rl p).
Proof.
  intros Hrl r r' H. unfold warning_at in H. cbv zeta in H.
  peel H.
  unfold push_warning in Hc. inversion Hc; subst; clear Hc.
  destruct (attach_spec p (mkIssue rl (Some p) WARNING) _ _ _ false eq_refl eq_refl H)
    as (E & W & S & N & A).
  simpl in *.
  constructor; simpl.
  - apply extends_eq, E.
  - rewrite W. apply extends_with. split; [exact Hrl | right; exact A].
  - apply extends_eq, S.
  - exact N.
Qed.

Lemma sound_suggestion_at (rl : string) (p : Z) :
  rl <> RULES.RANGE -> sound G (suggestion_at rl p).
Proof.
  intros Hrl r r' H. unfold suggestion_at in H. cbv zeta in H.
  peel H.
  unfold push_suggestion in Hc. inversion Hc; subst; clear Hc.
  destruct (attach_spec p (mkIssue rl (Some p) SUGGESTION) _ _ _ false eq_refl eq_refl H)
    as (E & W & S & N & A).
  simpl in *.
  constructor; simpl.
  - apply extends_eq, E.
  - apply extends_eq, W.
  - rewrite S. apply extends_with. split; [exact Hrl | right; exact A].
  - exact N.
Qed.

Lemma sound_error_only (rl : string) (p : Z) :
  rl <> RULES.RANGE -> G rl = true -> sound G (error_only rl p).
Proof.
  intros Hrl HG r r' H. unfold error_only, push_error in H.
  inversion H; subst; clear H.
  constructor; simpl; try apply extends_refl; try apply notes_grow_refl.
  apply extends_with. split; [exact Hrl | left; exact HG].
Qed.

Lemma sound_warning_only (rl : string) (p : Z) :
  rl <> RULES.RANGE -> G rl = true -> sound G (warning_only rl p).
Proof.
  intros Hrl HG r r' H. unfold warning_only, push_warning in H.
  inversion H; subst; clear H.
  constructor; simpl; try apply extends_refl; try apply notes_grow_refl.
  apply extends_with. split; [exact Hrl | left; exact HG].
Qed.

Lemma sound_suggestion_only (rl : string) (p : Z) :
  rl <> RULES.RANGE -> G rl = true -> sound G (suggestion_only rl p).
Proof.
  intros Hrl HG r r' H. unfold suggestion_only, push_suggestion in H.
  inversion H; subst; clear H.
  constructor; simpl; try apply extends_refl; try apply notes_grow_refl.
  apply extends_with. split; [exact Hrl | left; exact HG].
Qed.

Lemma sound_init_noteResults (n : Z) : sound G (init_noteResults n).
Proof.
  unfold init_noteResults. apply sound_forEach.
  intros _ r r' H. inversion H; subst; clear H.
  constructor; simpl; try apply extends_refl.
  intros k nr Hk. exists nr. split; [|apply incl_refl].
  rewrite nth_error_app1; [exact Hk|].
  apply nth_error_Some. congruence.
Qed.

Lemma sound_finish (calc : results -> Z) : sound G (finish calc).
Proof.
  intros r r' H. apply finish_spec in H.
  destruct H as (E & W & S & N & _).
  constructor.
  - apply extends_eq, E.
  - apply extends_eq, W.
  - apply extends_eq, S.
  - rewrite N. apply notes_grow_refl.
Qed.

End Growth.

(* ------------------------------------------------------------------ *)
(** ** The rules that push to a severity list only *)

(** Side conditions on a rule identifier. *)
Ltac rule_side :=
  try match goal with
      | |- context [if ?b then _ else _] => destruct b
      end;
  solve [ apply String.eqb_neq; reflexivity | reflexivity ].

Ltac head_of t :=
  lazymatch t with
  | ?f _ => head_of f
  | _ => t
  end.

(** One structural step of a soundness proof. *)
Ltac sound_step :=
  cbv beta;
  lazymatch goal with
  | |- sound _ skip => apply sound_skip
  | |- sound _ (_ ;; _) => apply sound_andThen
  | |- sound _ (when _ _) => apply sound_when
  | |- sound _ (eval _ _) => apply sound_eval; intro
  | |- sound _ (forEach _ _) => apply sound_forEach; intro
  | |- sound _ (forBreak _ _) => apply sound_forBreak; intro
  | |- sound _ (afterLoop _ _) => apply sound_afterLoop; [|intro]
  | |- sound _ (error_at _ _) => apply sound_error_at; rule_side
  | |- sound _ (warning_at _ _) => apply sound_warning_at; rule_side
  | |- sound _ (suggestion_at _ _) => apply sound_suggestion_at; rule_side
  | |- sound _ (error_only _ _) => apply sound_error_only; rule_side
  | |- sound _ (warning_only _ _) => apply sound_warning_only; rule_side
  | |- sound _ (suggestion_only _ _) => apply sound_suggestion_only; rule_side
  | |- sound _ (init_noteResults _) => apply sound_init_noteResults
  | |- sound _ (finish _) => apply sound_finish
  | |- sound _ (if ?b then _ else _) => destruct b
  | |- sound _ (match ?x with _ => _ end) => destruct x
  | |- sound _ (let _ := _ in _) => cbv zeta
  | |- soundT _ (yield _) => apply soundT_yield
  | |- soundT _ (thenYield _ _) => apply soundT_thenYield
  | |- soundT _ (evalT _ _) => apply soundT_evalT; intro
  | |- soundT _ (forState _ _ _) => apply soundT_forState; intros
  | |- soundT _ (if ?b then _ else _) => destruct b
  | |- soundT _ (match ?x with _ => _ end) => destruct x
  | |- soundT _ (let _ := _ in _) => cbv zeta
  end.

Create HintDb sound_db.

(** Structural steps, and the lemmas of [sound_db] for the rule checks
    already treated. *)
Ltac prove_sound :=
  repeat first [ sound_step | solve [auto with sound_db nocore] ].

(* ------------------------------------------------------------------ *)
(** ** First-species rule checks *)

Lemma sound1_checkConsonance interval position :
  sound (is_global First) (FirstSpecies.checkConsonance interval position).
Proof. unfold FirstSpecies.checkConsonance. prove_sound. Qed.
#[local] Hint Resolve sound1_checkConsonance : sound_db.

Lemma sound1_checkUnison interval position length :
  sound (is_global First) (FirstSpecies.checkUnison interval position length).
Proof. unfold FirstSpecies.checkUnison. prove_sound. Qed.
#[local] Hint Resolve sound1_checkUnison : sound_db.

Lemma sound1_checkVoiceCrossing cf cp cpPosition position :
  sound (is_global First)
    (FirstSpecies.checkVoiceCrossing cf cp cpPosition position).
Proof. unfold FirstSpecies.checkVoiceCrossing. prove_sound. Qed.
#[local] Hint Resolve sound1_checkVoiceCrossing : sound_db.

Lemma sound1_checkParallels pI cI pCf cCf pCp cCp position :
  sound (is_global First)
    (FirstSpecies.checkParallels pI cI pCf cCf pCp cCp position).
Proof. unfold FirstSpecies.checkParallels. prove_sound. Qed.
#[local] Hint Resolve sound1_checkParallels : sound_db.

Lemma sound1_checkMelodicTritone prevNote currNote position :
  sound (is_global First)
    (FirstSpecies.checkMelodicTritone prevNote currNote position).
Proof. unfold FirstSpecies.checkMelodicTritone. prove_sound. Qed.
#[local] Hint Resolve sound1_checkMelodicTritone : sound_db.

Lemma sound1_analyzeMotion pCf cCf pCp cCp position :
  sound (is_global First) (FirstSpecies.analyzeMotion pCf cCf pCp cCp position).
Proof. unfold FirstSpecies.analyzeMotion. prove_sound. Qed.
#[local] Hint Resolve sound1_analyzeMotion : sound_db.

Lemma sound1_checkStepwise prevNote currNote position :
  sound (is_global First)
    (FirstSpecies.checkStepwise prevNote currNote position).
Proof. unfold FirstSpecies.checkStepwise. prove_sound. Qed.
#[local] Hint Resolve sound1_checkStepwise : sound_db.

Lemma sound1_checkStartInterval cf cp cpPosition :
  sound (is_global First) (FirstSpecies.checkStartInterval cf cp cpPosition).
Proof. unfold FirstSpecies.checkStartInterval. prove_sound. Qed.
#[local] Hint Resolve sound1_checkStartInterval : sound_db.

Lemma sound1_checkEndInterval cantusFirmus counterpoint key mode cpPosition :
  sound (is_global First)
    (FirstSpecies.checkEndInterval cantusFirmus counterpoint key mode cpPosition).
Proof. unfold FirstSpecies.checkEndInterval. prove_sound. Qed.
#[local] Hint Resolve sound1_checkEndInterval : sound_db.

Lemma sound1_checkCompoundTritones counterpoint key mode :
  sound (is_global First)
    (FirstSpecies.checkCompoundTritones counterpoint key mode).
Proof. unfold FirstSpecies.checkCompoundTritones. prove_sound. Qed.
#[local] Hint Resolve sound1_checkCompoundTritones : sound_db.

Lemma sound1_checkCompoundDissonantLeaps counterpoint :
  sound (is_global First)
    (FirstSpecies.checkCompoundDissonantLeaps counterpoint).
Proof. unfold FirstSpecies.checkCompoundDissonantLeaps. prove_sound. Qed.
#[local] Hint Resolve sound1_checkCompoundDissonantLeaps : sound_db.

Lemma sound1_checkBattutaParallels cantusFirmus counterpoint cpPosition :
  sound (is_global First)
    (FirstSpecies.checkBattutaParallels cantusFirmus counterpoint cpPosition).
Proof. unfold FirstSpecies.checkBattutaParallels. prove_sound. Qed.
#[local] Hint Resolve sound1_checkBattutaParallels : sound_db.

Lemma sound1_checkProlongedDirection counterpoint :
  sound (is_global First) (FirstSpecies.checkProlongedDirection counterpoint).
Proof. unfold FirstSpecies.checkProlongedDirection. prove_sound. Qed.
#[local] Hint Resolve sound1_checkProlongedDirection : sound_db.

Lemma sound1_checkArpeggios counterpoint key mode :
  sound (is_global First) (FirstSpecies.checkArpeggios counterpoint key mode).
Proof. unfold FirstSpecies.checkArpeggios. prove_sound. Qed.
#[local] Hint Resolve sound1_checkArpeggios : sound_db.

Lemma sound1_checkExcessiveParallelConsonances cantusFirmus counterpoint cpPosition :
  sound (is_global First)
    (FirstSpecies.checkExcessiveParallelConsonances cantusFirmus counterpoint cpPosition).
Proof. unfold FirstSpecies.checkExcessiveParallelConsonances. prove_sound. Qed.
#[local] Hint Resolve sound1_checkExcessiveParallelConsonances : sound_db.

(* ------------------------------------------------------------------ *)
(** ** Second-species rule checks *)

Lemma sound2_checkAnacrusis counterpoint cpLen :
  sound (is_global Second) (SecondSpecies.checkAnacrusis counterpoint cpLen).
Proof. unfold SecondSpecies.checkAnacrusis. prove_sound. Qed.
#[local] Hint Resolve sound2_checkAnacrusis : sound_db.

Lemma sound2_checkStrongBeatConsonance interval position :
  sound (is_global Second)
    (SecondSpecies.checkStrongBeatConsonance interval position).
Proof. unfold SecondSpecies.checkStrongBeatConsonance. prove_sound. Qed.
#[local] Hint Resolve sound2_checkStrongBeatConsonance : sound_db.

Lemma sound2_checkWeakBeatDissonance interval position counterpoint cf cpPosition :
  sound (is_global Second)
    (SecondSpecies.checkWeakBeatDissonance interval position counterpoint cf cpPosition).
Proof. unfold SecondSpecies.checkWeakBeatDissonance. prove_sound. Qed.
#[local] Hint Resolve sound2_checkWeakBeatDissonance : sound_db.

Lemma sound2_checkUnison interval position cpLen counterpoint :
  sound (is_global Second)
    (SecondSpecies.checkUnison interval position cpLen counterpoint).
Proof. unfold SecondSpecies.checkUnison. prove_sound. Qed.
#[local] Hint Resolve sound2_checkUnison : sound_db.

Lemma sound2_checkVoiceCrossing cf cp cpPosition position :
  sound (is_global Second)
    (SecondSpecies.checkVoiceCrossing cf cp cpPosition position).
Proof. unfold SecondSpecies.checkVoiceCrossing. prove_sound. Qed.
#[local] Hint Resolve sound2_checkVoiceCrossing : sound_db.

Lemma sound2_checkMelodicTritone prevNote currNote position :
  sound (is_global Second)
    (SecondSpecies.checkMelodicTritone prevNote currNote position).
Proof. unfold SecondSpecies.checkMelodicTritone. prove_sound. Qed.
#[local] Hint Resolve sound2_checkMelodicTritone : sound_db.

Lemma sound2_checkStepwise prevNote currNote position :
  sound (is_global Second)
    (SecondSpecies.checkStepwise prevNote currNote position).
Proof. unfold SecondSpecies.checkStepwise. prove_sound. Qed.
#[local] Hint Resolve sound2_checkStepwise : sound_db.

Lemma sound2_checkNoteRepetition prevEntry currEntry cpLen :
  sound (is_global Second)
    (SecondSpecies.checkNoteRepetition prevEntry currEntry cpLen).
Proof. unfold SecondSpecies.checkNoteRepetition. prove_sound. Qed.
#[local] Hint Resolve sound2_checkNoteRepetition : sound_db.

Lemma sound2_checkStrongBeatParallels cf counterpoint cpPosition cpLen :
  sound (is_global Second)
    (SecondSpecies.checkStrongBeatParallels cf counterpoint cpPosition cpLen).
Proof. unfold SecondSpecies.checkStrongBeatParallels. prove_sound. Qed.
#[local] Hint Resolve sound2_checkStrongBeatParallels : sound_db.

Lemma sound2_checkStrongBeatHiddenParallels cf counterpoint cpPosition cpLen :
  sound (is_global Second)
    (SecondSpecies.checkStrongBeatHiddenParallels cf counterpoint cpPosition cpLen).
Proof. unfold SecondSpecies.checkStrongBeatHiddenParallels. prove_sound. Qed.
#[local] Hint Resolve sound2_checkStrongBeatHiddenParallels : sound_db.

Lemma sound2_checkStrongBeatMotion cf counterpoint cpPosition cpLen :
  sound (is_global Second)
    (SecondSpecies.checkStrongBeatMotion cf counterpoint cpPosition cpLen).
Proof. unfold SecondSpecies.checkStrongBeatMotion. prove_sound. Qed.
#[local] Hint Resolve sound2_checkStrongBeatMotion : sound_db.

Lemma sound2_checkCrossBeatParallels cf counterpoint cpPosition cpLen :
  sound (is_global Second)
    (SecondSpecies.checkCrossBeatParallels cf counterpoint cpPosition cpLen).
Proof. unfold SecondSpecies.checkCrossBeatParallels. prove_sound. Qed.
#[local] Hint Resolve sound2_checkCrossBeatParallels : sound_db.

Lemma sound2_checkStartInterval cf counterpoint cpPosition :
  sound (is_global Second)
    (SecondSpecies.checkStartInterval cf counterpoint cpPosition).
Proof. unfold SecondSpecies.checkStartInterval. prove_sound. Qed.
#[local] Hint Resolve sound2_checkStartInterval : sound_db.

Lemma sound2_checkEndInterval cf counterpoint key mode cpPosition cpLen :
  sound (is_global Second)
    (SecondSpecies.checkEndInterval cf counterpoint key mode cpPosition cpLen).
Proof. unfold SecondSpecies.checkEndInterval. prove_sound. Qed.
#[local] Hint Resolve sound2_checkEndInterval : sound_db.

Lemma sound2_checkLastNoteWhole cpLen :
  sound (is_global Second) (SecondSpecies.checkLastNoteWhole cpLen).
Proof. unfold SecondSpecies.checkLastNoteWhole. prove_sound. Qed.
#[local] Hint Resolve sound2_checkLastNoteWhole : sound_db.

Lemma sound2_checkCadence cf counterpoint key mode cpPosition cpLen :
  sound (is_global Second)
    (SecondSpecies.checkCadence cf counterpoint key mode cpPosition cpLen).
Proof. unfold SecondSpecies.checkCadence. prove_sound. Qed.
#[local] Hint Resolve sound2_checkCadence : sound_db.

Lemma sound2_checkCompoundTritones soundingNotes sounding key mode :
  sound (is_global Second)
    (SecondSpecies.checkCompoundTritones soundingNotes sounding key mode).
Proof. unfold SecondSpecies.checkCompoundTritones. prove_sound. Qed.
#[local] Hint Resolve sound2_checkCompoundTritones : sound_db.

Lemma sound2_checkCompoundDissonantLeaps soundingNotes sounding :
  sound (is_global Second)
    (SecondSpecies.checkCompoundDissonantLeaps soundingNotes sounding).
Proof. unfold SecondSpecies.checkCompoundDissonantLeaps. prove_sound. Qed.
#[local] Hint Resolve sound2_checkCompoundDissonantLeaps : sound_db.

Lemma sound2_checkProlongedDirection soundingNotes sounding :
  sound (is_global Second)
    (SecondSpecies.checkProlongedDirection soundingNotes sounding).
Proof. unfold SecondSpecies.checkProlongedDirection. prove_sound. Qed.
#[local] Hint Resolve sound2_checkProlongedDirection : sound_db.

Lemma sound2_checkArpeggios soundingNotes sounding key mode :
  sound (is_global Second)
    (SecondSpecies.checkArpeggios soundingNotes sounding key mode).
Proof. unfold SecondSpecies.checkArpeggios. prove_sound. Qed.
#[local] Hint Resolve sound2_checkArpeggios : sound_db.

Lemma sound2_checkExcessiveParallelConsonances cf counterpoint cpPosition cpLen :
  sound (is_global Second)
    (SecondSpecies.checkExcessiveParallelConsonances cf counterpoint cpPosition cpLen).
Proof. unfold SecondSpecies.checkExcessiveParallelConsonances. prove_sound. Qed.
#[local] Hint Resolve sound2_checkExcessiveParallelConsonances : sound_db.

Lemma sound2_checkBattutaParallels cf counterpoint cpPosition cpLen :
  sound (is_global Second)
    (SecondSpecies.checkBattutaParallels cf counterpoint cpPosition cpLen).
Proof. unfold SecondSpecies.checkBattutaParallels. prove_sound. Qed.
#[local] Hint Resolve sound2_checkBattutaParallels : sound_db.

(* ------------------------------------------------------------------ *)
(** ** Third-species rule checks *)

Lemma sound3_checkAnacrusis counterpoint cpLen :
  sound (is_global Third) (ThirdSpecies.checkAnacrusis counterpoint cpLen).
Proof. unfold ThirdSpecies.checkAnacrusis. prove_sound. Qed.
#[local] Hint Resolve sound3_checkAnacrusis : sound_db.

Lemma sound3_checkDownbeatConsonance interval position :
  sound (is_global Third)
    (ThirdSpecies.checkDownbeatConsonance interval position).
Proof. unfold ThirdSpecies.checkDownbeatConsonance. prove_sound. Qed.
#[local] Hint Resolve sound3_checkDownbeatConsonance : sound_db.

Lemma sound3_checkBeatThreeConsonance interval position counterpoint cf cpPosition :
  sound (is_global Third)
    (ThirdSpecies.checkBeatThreeConsonance interval position counterpoint cf cpPosition).
Proof. unfold ThirdSpecies.checkBeatThreeConsonance. prove_sound. Qed.
#[local] Hint Resolve sound3_checkBeatThreeConsonance : sound_db.

Lemma sound3_checkWeakBeatDissonance interval position counterpoint cf cpPosition :
  sound (is_global Third)
    (ThirdSpecies.checkWeakBeatDissonance interval position counterpoint cf cpPosition).
Proof. unfold ThirdSpecies.checkWeakBeatDissonance. prove_sound. Qed.
#[local] Hint Resolve sound3_checkWeakBeatDissonance : sound_db.

Lemma sound3_checkUnison interval position cpLen counterpoint :
  sound (is_global Third)
    (ThirdSpecies.checkUnison interval position cpLen counterpoint).
Proof. unfold ThirdSpecies.checkUnison. prove_sound. Qed.
#[local] Hint Resolve sound3_checkUnison : sound_db.

Lemma sound3_checkVoiceCrossing cf cp cpPosition position :
  sound (is_global Third)
    (ThirdSpecies.checkVoiceCrossing cf cp cpPosition position).
Proof. unfold ThirdSpecies.checkVoiceCrossing. prove_sound. Qed.
#[local] Hint Resolve sound3_checkVoiceCrossing : sound_db.

Lemma sound3_checkMelodicTritone prevNote currNote position :
  sound (is_global Third)
    (ThirdSpecies.checkMelodicTritone prevNote currNote position).
Proof. unfold ThirdSpecies.checkMelodicTritone. prove_sound. Qed.
#[local] Hint Resolve sound3_checkMelodicTritone : sound_db.

Lemma sound3_checkDownbeatParallels cf counterpoint cpPosition cpLen :
  sound (is_global Third)
    (ThirdSpecies.checkDownbeatParallels cf counterpoint cpPosition cpLen).
Proof. unfold ThirdSpecies.checkDownbeatParallels. prove_sound. Qed.
#[local] Hint Resolve sound3_checkDownbeatParallels : sound_db.

Lemma sound3_checkDownbeatHiddenParallels cf counterpoint cpPosition cpLen :
  sound (is_global Third)
    (ThirdSpecies.checkDownbeatHiddenParallels cf counterpoint cpPosition cpLen).
Proof. unfold ThirdSpecies.checkDownbeatHiddenParallels. prove_sound. Qed.
#[local] Hint Resolve sound3_checkDownbeatHiddenParallels : sound_db.

Lemma sound3_checkDownbeatMotion cf counterpoint cpPosition cpLen :
  sound (is_global Third)
    (ThirdSpecies.checkDownbeatMotion cf counterpoint cpPosition cpLen).
Proof. unfold ThirdSpecies.checkDownbeatMotion. prove_sound. Qed.
#[local] Hint Resolve sound3_checkDownbeatMotion : sound_db.

Lemma sound3_checkStartInterval cf counterpoint cpPosition :
  sound (is_global Third)
    (ThirdSpecies.checkStartInterval cf counterpoint cpPosition).
Proof. unfold ThirdSpecies.checkStartInterval. prove_sound. Qed.
#[local] Hint Resolve sound3_checkStartInterval : sound_db.

Lemma sound3_checkEndInterval cf counterpoint cpPosition cpLen :
  sound (is_global Third)
    (ThirdSpecies.checkEndInterval cf counterpoint cpPosition cpLen).
Proof. unfold ThirdSpecies.checkEndInterval. prove_sound. Qed.
#[local] Hint Resolve sound3_checkEndInterval : sound_db.

Lemma sound3_checkCadence cf counterpoint key mode cpPosition cpLen :
  sound (is_global Third)
    (ThirdSpecies.checkCadence cf counterpoint key mode cpPosition cpLen).
Proof. unfold ThirdSpecies.checkCadence. prove_sound. Qed.
#[local] Hint Resolve sound3_checkCadence : sound_db.

Lemma sound3_checkCompoundTritones soundingNotes sounding key mode :
  sound (is_global Third)
    (ThirdSpecies.checkCompoundTritones soundingNotes sounding key mode).
Proof. unfold ThirdSpecies.checkCompoundTritones. prove_sound. Qed.
#[local] Hint Resolve sound3_checkCompoundTritones : sound_db.

Lemma sound3_checkProlongedDirection soundingNotes sounding :
  sound (is_global Third)
    (ThirdSpecies.checkProlongedDirection soundingNotes sounding).
Proof. unfold ThirdSpecies.checkProlongedDirection. prove_sound. Qed.
#[local] Hint Resolve sound3_checkProlongedDirection : sound_db.

Lemma sound3_checkArpeggios soundingNotes sounding key mode :
  sound (is_global Third)
    (ThirdSpecies.checkArpeggios soundingNotes sounding key mode).
Proof. unfold ThirdSpecies.checkArpeggios. prove_sound. Qed.
#[local] Hint Resolve sound3_checkArpeggios : sound_db.

Lemma sound3_checkNoteRepetition sounding :
  sound (is_global Third) (ThirdSpecies.checkNoteRepetition sounding).
Proof. unfold ThirdSpecies.checkNoteRepetition. prove_sound. Qed.
#[local] Hint Resolve sound3_checkNoteRepetition : sound_db.

(** [checkLastNoteWhole] pushes an error without attaching it, but it
    cannot fire on a counterpoint of length [4 * n - 3]. *)
Lemma sound3_checkLastNoteWhole (n : Z) :
  sound (is_global Third) (ThirdSpecies.checkLastNoteWhole (n * 4 - 3)).
Proof.
  unfold ThirdSpecies.checkLastNoteWhole.
  replace (n * 4 - 3 + 3) with (n * 4) by lia.
  rewrite Z.rem_mul by lia. simpl. apply sound_skip.
Qed.
#[local] Hint Resolve sound3_checkLastNoteWhole : sound_db.

(* ------------------------------------------------------------------ *)
(** ** The range check *)

Lemma range_by_span (ms : list Z) (r r' : results) :
  match ms with
  | [] => skip
  | m :: l =>
      when (fold_left Z.max l m - fold_left Z.min l m >? 19)
        (push_warning range_issue)
  end r = Ok r' ->
  r' = range_step ms r.
Proof.
  unfold range_step, semitone_span. destruct ms as [|m l].
  - intros H. inversion H; subst. reflexivity.
  - destruct (fold_left Z.max l m - fold_left Z.min l m >? 19); simpl;
      intros H; inversion H; subst; reflexivity.
Qed.

Lemma sounding_from_shift (cp : list (option string)) (k : Z) :
  map fst (getSoundingNotes_from cp k) = map fst (getSoundingNotes_from cp 0).
Proof.
  revert k. induction cp as [|[s|] cp IH]; intros k; simpl.
  - reflexivity.
  - rewrite (IH (k + 1)), (IH 1). reflexivity.
  - rewrite (IH (k + 1)), (IH 1). reflexivity.
Qed.

Lemma mapM_sounding_filter (cp : list (option string)) :
  mapM (fun n => Pitch.toMidi (note_val n))
       (filter (fun n => negb (is_null (note_val n))) cp)
  = mapM (fun s => Pitch.toMidi (JString s)) (map fst (getSoundingNotes cp)).
Proof.
  unfold getSoundingNotes. induction cp as [|[s|] cp IH]; simpl.
  - reflexivity.
  - rewrite (sounding_from_shift cp 1), IH. reflexivity.
  - rewrite (sounding_from_shift cp 1). exact IH.
Qed.

Lemma mapM_all_sounding (cp : list (option string)) (ms : list Z) :
  mapM (fun n => Pitch.toMidi (note_val n)) cp = Ok ms ->
  mapM (fun s => Pitch.toMidi (JString s)) (map fst (getSoundingNotes cp)) = Ok ms.
Proof.
  unfold getSoundingNotes. revert ms.
  induction cp as [|[s|] cp IH]; intros ms; simpl.
  - auto.
  - rewrite (sounding_from_shift cp 1). intros H.
    apply bind_Ok_inv in H. destruct H as (m & Hm & H).
    apply bind_Ok_inv in H. destruct H as (ms' & Hms & H).
    inversion H; subst; clear H.
    rewrite Hm. simpl. rewrite (IH _ Hms). reflexivity.
  - intros H. discriminate H.
Qed.

Lemma checkRange1_spec (e : exercise) (r r' : results) :
  FirstSpecies.checkRange (counterpoint e) (cpPosition e) r = Ok r' ->
  exists ms, sounding_midis e = Ok ms /\ r' = range_step ms r.
Proof.
  unfold FirstSpecies.checkRange, FirstSpecies.min_of, FirstSpecies.max_of.
  cbv zeta. intros H. apply eval_inv in H. destruct H as (ms & Hms & H).
  exists ms. split.
  - apply mapM_all_sounding, Hms.
  - apply range_by_span, H.
Qed.

Lemma checkRange2_spec (e : exercise) (r r' : results) :
  SecondSpecies.checkRange (counterpoint e) (cpPosition e) r = Ok r' ->
  exists ms, sounding_midis e = Ok ms /\ r' = range_step ms r.
Proof.
  unfold SecondSpecies.checkRange, SecondSpecies.min_of, SecondSpecies.max_of.
  cbv zeta. intros H. apply eval_inv in H. destruct H as (ms & Hms & H).
  exists ms. split.
  - unfold sounding_midis. rewrite <- mapM_sounding_filter. exact Hms.
  - apply range_by_span, H.
Qed.

(* ------------------------------------------------------------------ *)
(** ** [validate] as a whole *)

(** Turn a completed run [H : c r = Ok r'] into [grows G r r']. *)
Ltac run_grows G H :=
  match type of H with
  | ?c ?r = Ok ?r' =>
      let S := fresh "S" in
      assert (S : sound G c) by prove_sound;
      apply S in H; clear S
  end.

Lemma validate1_growth (e : exercise) (r : results) :
  len (counterpoint e) = expected_length First (len (cantusFirmus e)) ->
  FirstSpecies.validate e = Ok r ->
  exists r1 r2,
    grows (is_global First) fresh_results r1 /\
    FirstSpecies.checkRange (counterpoint e) (cpPosition e) r1 = Ok r2 /\
    grows (is_global First) r2 r.
Proof.
  unfold expected_length. intros Hlen H.
  unfold FirstSpecies.validate in H.
  replace (len (cantusFirmus e) =? len (counterpoint e)) with true in H
    by (symmetry; apply Z.eqb_eq; congruence).
  cbv zeta in H. simpl negb in H. cbv iota in H.
  do 5 peel H.
  run_grows (is_global First) Hc.
  run_grows (is_global First) Hc0.
  run_grows (is_global First) Hc1.
  run_grows (is_global First) Hc2.
  run_grows (is_global First) H.
  exists r3, r4. split; [|split; assumption].
  eauto using grows_trans.
Qed.

Lemma validate2_growth (e : exercise) (r : results) :
  len (counterpoint e) = expected_length Second (len (cantusFirmus e)) ->
  SecondSpecies.validate e = Ok r ->
  exists r1 r2,
    grows (is_global Second) fresh_results r1 /\
    SecondSpecies.checkRange (counterpoint e) (cpPosition e) r1 = Ok r2 /\
    grows (is_global Second) r2 r.
Proof.
  unfold expected_length. intros Hlen H.
  unfold SecondSpecies.validate in H.
  replace (len (counterpoint e) =? len (cantusFirmus e) * 2 - 1) with true in H
    by (symmetry; apply Z.eqb_eq; lia).
  cbv zeta in H. simpl negb in H. cbv iota in H.
  do 13 peel H.
  repeat match goal with
         | Hx : _ _ = Ok _ |- _ =>
             lazymatch type of Hx with
             | SecondSpecies.checkRange _ _ _ = _ => fail
             | _ => run_grows (is_global Second) Hx
             end
         end.
  exists r11, r12. split; [|split; assumption].
  repeat (eapply grows_trans; [eassumption|]). apply grows_refl.
Qed.

Lemma validate3_growth (e : exercise) (r : results) :
  len (counterpoint e) = expected_length Third (len (cantusFirmus e)) ->
  ThirdSpecies.validate e = Ok r ->
  grows (is_global Third) fresh_results r.
Proof.
  unfold expected_length. intros Hlen H.
  unfold ThirdSpecies.validate in H.
  replace (len (counterpoint e) =? len (cantusFirmus e) * 4 - 3) with true in H
    by (symmetry; apply Z.eqb_eq; lia).
  cbv zeta in H. simpl negb in H. cbv iota in H.
  replace (len (counterpoint e)) with (len (cantusFirmus e) * 4 - 3) in H by lia.
  run_grows (is_global Third) H. exact H.
Qed.

(* ------------------------------------------------------------------ *)
(** ** Consequences of growth *)

Lemma In_all_issues (r : results) (i : issue) :
  In i (all_issues r) <->
  In i (errors r) \/ In i (warnings r) \/ In i (suggestions r).
Proof. unfold all_issues. rewrite !in_app_iff. tauto. Qed.

Lemma extends_In G (nrs : list noteResult) (l l' : list issue) (i : issue) :
  extends G nrs l l' -> In i l' -> In i l \/ admissible G nrs i.
Proof.
  intros (a & -> & Ha) Hi. apply in_app_or in Hi.
  destruct Hi as [Hi|Hi]; [left; exact Hi | right].
  rewrite Forall_forall in Ha. apply Ha, Hi.
Qed.

Lemma extends_keeps G (nrs : list noteResult) (l l' : list issue) (i : issue) :
  extends G nrs l l' -> In i l -> In i l'.
Proof. intros (a & -> & _) Hi. apply in_or_app. left. exact Hi. Qed.

Lemma grows_In G (r r' : results) (i : issue) :
  grows G r r' -> In i (all_issues r') ->
  In i (all_issues r) \/ admissible G (noteResults r') i.
Proof.
  intros [He Hw Hs _] Hi. rewrite In_all_issues in *.
  destruct Hi as [Hi|[Hi|Hi]].
  - destruct (extends_In _ _ _ _ _ He Hi); tauto.
  - destruct (extends_In _ _ _ _ _ Hw Hi); tauto.
  - destruct (extends_In _ _ _ _ _ Hs Hi); tauto.
Qed.

Lemma accounted_fresh G : accounted G fresh_results.
Proof. intros i Hi. destruct Hi. Qed.

Lemma accounted_grows G (r r' : results) :
  accounted G r -> grows G r r' -> accounted G r'.
Proof.
  intros Ha Hg i Hi.
  destruct (grows_In _ _ _ _ Hg Hi) as [Hold|Hnew]; [|right; exact Hnew].
  destruct (Ha i Hold) as [Hr|Hadm]; [left; exact Hr | right].
  eapply admissible_mono; [apply (grows_notes _ _ _ Hg) | exact Hadm].
Qed.

Lemma accounted_range_step G (ms : list Z) (r : results) :
  accounted G r -> accounted G (range_step ms r).
Proof.
  unfold range_step. intros Ha.
  destruct (semitone_span ms >? 19); [|exact Ha].
  intros i Hi. rewrite In_all_issues in Hi. simpl in Hi.
  rewrite in_app_iff in Hi. simpl in Hi.
  assert (Hcases : In i (all_issues r) \/ i = range_issue).
  { rewrite In_all_issues. intuition auto. }
  destruct Hcases as [Hold| ->]; [|left; reflexivity].
  apply (Ha i Hold).
Qed.

Lemma accounted_attached G (r : results) (i : issue) (p : Z) :
  accounted G r -> In i (all_issues r) ->
  position i = Some p -> 0 <= p -> G (rule i) = false ->
  exists nr, nthZ (noteResults r) p = Some nr /\ In i (issues nr).
Proof.
  intros Ha Hi Hp Hp0 HG.
  destruct (Ha i Hi) as [-> | (_ & [HG' | Hatt])].
  - simpl in Hp. inversion Hp. lia.
  - congruence.
  - apply (Hatt p Hp Hp0).
Qed.

Lemma no_range_grows G (r r' : results) :
  no_range r -> grows G r r' -> no_range r'.
Proof.
  intros Hn Hg i Hi.
  destruct (grows_In _ _ _ _ Hg Hi) as [Hold|(Hr & _)]; [apply Hn, Hold | exact Hr].
Qed.

Lemma no_range_fresh : no_range fresh_results.
Proof. intros i Hi. destruct Hi. Qed.

Lemma validate_accounted (sp : species) (e : exercise) (r : results) :
  len (counterpoint e) = expected_length sp (len (cantusFirmus e)) ->
  validate_of sp e = Ok r ->
  accounted (is_global sp) r.
Proof.
  intros Hlen H. destruct sp; unfold validate_of in H.
  - destruct (validate1_growth e r Hlen H) as (r1 & r2 & G1 & Hr & G2).
    apply checkRange1_spec in Hr. destruct Hr as (ms & _ & ->).
    eapply accounted_grows; [|exact G2].
    apply accounted_range_step.
    eapply accounted_grows; [apply accounted_fresh | exact G1].
  - destruct (validate2_growth e r Hlen H) as (r1 & r2 & G1 & Hr & G2).
    apply checkRange2_spec in Hr. destruct Hr as (ms & _ & ->).
    eapply accounted_grows; [|exact G2].
    apply accounted_range_step.
    eapply accounted_grows; [apply accounted_fresh | exact G1].
  - eapply accounted_grows; [apply accounted_fresh|].
    apply (validate3_growth e); assumption.
Qed.

(* ================================================================== *)
(** * Range (Step 7) *)
(* ================================================================== *)

(** C6, as stated, fails for the third species, whose validator has no
    range check: a span of 24 semitones yields no range issue. *)
Lemma C6_counterexample_third_species :
  exists r ms,
    len (counterpoint sample_wide3)
      = expected_length Third (len (cantusFirmus sample_wide3)) /\
    validate_of Third sample_wide3 = Ok r /\
    sounding_midis sample_wide3 = Ok ms /\
    semitone_span ms = 24 /\ 19 < semitone_span ms /\
    forallb (fun i => negb (String.eqb (rule i) RULES.RANGE)) (all_issues r) = true.
Proof.
  eexists. eexists.
  split; [reflexivity|].
  split; [vm_compute; reflexivity|].
  split; [vm_compute; reflexivity|].
  split; [reflexivity|].
  split; [vm_compute; reflexivity|].
  vm_compute. reflexivity.
Qed.

Lemma range_step_no_range (ms : list Z) (r : results) :
  semitone_span ms <= 19 -> no_range r -> no_range (range_step ms r).
Proof.
  unfold range_step. intros Hs Hn.
  destruct (semitone_span ms >? 19) eqn:E; [|exact Hn].
  rewrite Z.gtb_ltb in E. apply Z.ltb_lt in E. lia.
Qed.

Lemma range_step_warns (ms : list Z) (r : results) :
  19 < semitone_span ms -> In range_issue (warnings (range_step ms r)).
Proof.
  unfold range_step. intros Hs.
  destruct (semitone_span ms >? 19) eqn:E.
  - simpl. apply in_or_app. right. left. reflexivity.
  - rewrite Z.gtb_ltb in E. apply Z.ltb_ge in E. lia.
Qed.

(** C6 (amended).  For an exercise that passes the length check,
    [validate] returns a result whenever the exercise is well formed.
    For the 1st and the 2nd species, a result returned for an
    exercise whose sounding counterpoint notes span more than 19
    semitones has the range warning, with position -1, and a span
    of 19 or less produces no range issue at all.  The 3rd-species
    validator has no range check: it never produces a range issue. *)
Theorem C6_range_warning_by_span :
  forall (sp : species) (e : exercise),
    len (counterpoint e) = expected_length sp (len (cantusFirmus e)) ->
    (well_formed sp e = true -> exists r, validate_of sp e = Ok r)
    /\ (forall r : results,
          validate_of sp e = Ok r ->
          match sp with
          | First | Second =>
              exists ms,
                sounding_midis e = Ok ms /\
                (19 < semitone_span ms ->
                   In (mkIssue RULES.RANGE (Some (-1)) WARNING) (warnings r)) /\
                (semitone_span ms <= 19 ->
                   forall i, In i (all_issues r) -> rule i <> RULES.RANGE)
          | Third =>
              forall i, In i (all_issues r) -> rule i <> RULES.RANGE
          end).
Proof.
  intros sp e Hlen. split; [apply validate_total|].
  intros r H. destruct sp; unfold validate_of in H.
  - destruct (validate1_growth e r Hlen H) as (r1 & r2 & G1 & Hr & G2).
    apply checkRange1_spec in Hr. destruct Hr as (ms & Hms & ->).
    exists ms. split; [exact Hms|]. split.
    + intros Hs. eapply extends_keeps; [apply (grows_warnings _ _ _ G2)|].
      apply range_step_warns, Hs.
    + intros Hs. eapply no_range_grows; [|exact G2].
      apply range_step_no_range; [exact Hs|].
      eapply no_range_grows; [apply no_range_fresh | exact G1].
  - destruct (validate2_growth e r Hlen H) as (r1 & r2 & G1 & Hr & G2).
    apply checkRange2_spec in Hr. destruct Hr as (ms & Hms & ->).
    exists ms. split; [exact Hms|]. split.
    + intros Hs. eapply extends_keeps; [apply (grows_warnings _ _ _ G2)|].
      apply range_step_warns, Hs.
    + intros Hs. eapply no_range_grows; [|exact G2].
      apply range_step_no_range; [exact Hs|].
      eapply no_range_grows; [apply no_range_fresh | exact G1].
  - eapply no_range_grows; [apply no_range_fresh|].
    apply (validate3_growth e); assumption.
Qed.

Lemma C6_witness :
  (exists r,
     validate_of First sample_first = Ok r /\
     exists ms,
       sounding_midis sample_first = Ok ms /\
       (19 < semitone_span ms ->
          In (mkIssue RULES.RANGE (Some (-1)) WARNING) (warnings r)) /\
       (semitone_span ms <= 19 ->
          forall i, In i (all_issues r) -> rule i <> RULES.RANGE))
  /\ (exists r,
        validate_of Second sample_wide2 = Ok r /\
        exists ms,
          sounding_midis sample_wide2 = Ok ms /\
          (19 < semitone_span ms ->
             In (mkIssue RULES.RANGE (Some (-1)) WARNING) (warnings r)) /\
          (semitone_span ms <= 19 ->
             forall i, In i (all_issues r) -> rule i <> RULES.RANGE))
  /\ (exists r,
        validate_of Third sample_wide3 = Ok r /\
        forall i, In i (all_issues r) -> rule i <> RULES.RANGE).
Proof.
  split; [|split].
  - destruct (C6_range_warning_by_span First sample_first eq_refl)
      as (Hreturns & Hresult).
    destruct (Hreturns eq_refl) as (r & Hr).
    exists r. split; [exact Hr | apply (Hresult r Hr)].
  - destruct (C6_range_warning_by_span Second sample_wide2 eq_refl)
      as (Hreturns & Hresult).
    destruct (Hreturns eq_refl) as (r & Hr).
    exists r. split; [exact Hr | apply (Hresult r Hr)].
  - destruct (C6_range_warning_by_span Third sample_wide3 eq_refl)
      as (Hreturns & Hresult).
    destruct (Hreturns eq_refl) as (r & Hr).
    exists r. split; [exact Hr | apply (Hresult r Hr)].
Defined.

(* ================================================================== *)
(** * Cadence check, lower voice (Step 6) *)
(* ================================================================== *)

Lemma modify_note_lists (p : Z) (f : noteResult -> noteResult) (r r' : results) :
  modify_note p f r = Ok r' ->
  errors r' = errors r /\ warnings r' = warnings r /\ suggestions r' = suggestions r.
Proof. intros H. apply modify_note_spec in H. tauto. Qed.

Lemma warning_at_lists (rl : string) (p : Z) (r r' : results) :
  warning_at rl p r = Ok r' ->
  errors r' = errors r /\
  warnings r' = warnings r ++ [mkIssue rl (Some p) WARNING] /\
  suggestions r' = suggestions r.
Proof.
  unfold warning_at. cbv zeta. intros H. peel H.
  unfold push_warning in Hc. inversion Hc; subst; clear Hc.
  apply modify_note_lists in H. simpl in H. exact H.
Qed.

Lemma error_at_lists (rl : string) (p : Z) (r r' : results) :
  error_at rl p r = Ok r' ->
  errors r' = errors r ++ [mkIssue rl (Some p) ERROR] /\
  warnings r' = warnings r /\
  suggestions r' = suggestions r.
Proof.
  unfold error_at. cbv zeta. intros H. peel H. peel H.
  unfold push_error in Hc. inversion Hc; subst; clear Hc.
  apply modify_note_lists in Hc0. apply modify_note_lists in H.
  simpl in Hc0. destruct Hc0 as (E0 & W0 & S0). destruct H as (E & W & S).
  repeat split; congruence.
Qed.

(** C5, as stated, fails for the first species: in the lower voice a
    penultimate note on degree 5 draws a warning. *)
Lemma C5_counterexample_first_species_degree_5 :
  Scale.getDegree (JString "G3") "C" Scale.major = Ok (Some 5) /\
  exists r',
    FirstSpecies.checkEndInterval ["C4"; "D4"; "C4"]
      [Some "C3"; Some "G3"; Some "C3"] "C" Scale.major lower (blank_results 3)
      = Ok r' /\
    warnings r' = [mkIssue RULES.CADENCE (Some 1) WARNING] /\
    errors r' = [].
Proof.
  split; [reflexivity|].
  eexists. split; [vm_compute; reflexivity|].
  split; reflexivity.
Qed.

Lemma rem_odd_length (n : Z) : 2 <= n -> Z.rem (2 * n - 1 - 2) 2 = 1.
Proof.
  intros Hn. rewrite Z.rem_mod_nonneg by lia.
  replace (2 * n - 1 - 2) with (1 + (n - 2) * 2) by lia.
  rewrite Z.mod_add by lia. reflexivity.
Qed.

Lemma cadence_check_total (sp : species) (e : exercise) :
  well_formed sp e = true ->
  total (len (counterpoint e)) (cadence_check_of sp e).
Proof.
  destruct sp; intros W; unfold cadence_check_of.
  - apply well_formed_first in W. pose proof W as (_ & _ & _ & Hlen & _).
    rewrite Hlen.
    apply (total1_structure_checks _ _ _ (mode e) (cpPosition e) W).
  - apply well_formed_second in W.
    apply (total2_structure_checks _ _ _ (mode e) (cpPosition e) W).
  - apply well_formed_third in W.
    apply (total3_structure_checks _ _ _ (mode e) (cpPosition e) W).
Qed.

(** C5 (amended).  With [cpPosition = 'lower'] and a penultimate unit
    whose note has scale degree [d]: the cadence check of a well-formed
    exercise completes on results that have one entry per position; the
    2nd- and 3rd-species cadence
    checks emit nothing when [d] is 2, 5 or 7, the 1st-species check
    emits nothing only when [d] is 2; for any other degree (5 and 7
    included, in the 1st species) each emits one issue, of severity
    warning, at the penultimate position.  The cadence check itself never
    emits an error (the only error [checkEndInterval] can add is the
    end-consonance one). *)
Theorem C5_lower_voice_cadence :
  forall (sp : species) (e : exercise) (note : string) (d : option Z)
         (r : results),
    len (counterpoint e) = expected_length sp (len (cantusFirmus e)) ->
    2 <= len (cantusFirmus e) ->
    cpPosition e = lower ->
    cp_at (counterpoint e) (len (counterpoint e) - 2) = JString note ->
    Scale.getDegree (JString note) (key e) (mode e) = Ok d ->
    (well_formed sp e = true ->
     len (noteResults r) = len (counterpoint e) ->
       exists r', cadence_check_of sp e r = Ok r')
    /\ (forall r' : results,
          cadence_check_of sp e r = Ok r' ->
          (degree_among d (lower_cadence_degrees sp) = true ->
             warnings r' = warnings r /\ suggestions r' = suggestions r)
          /\ (degree_among d (lower_cadence_degrees sp) = false ->
                warnings r' = warnings r ++
                  [mkIssue (cadence_rule sp)
                     (Some (len (counterpoint e) - 2)) WARNING]
                /\ suggestions r' = suggestions r)
          /\ (forall i, In i (errors r') ->
                In i (errors r) \/ rule i = RULES.END_CONSONANCE)).
Proof.
  intros sp e note d r Hlen Hcf Hlow Hnote Hdeg.
  split.
  { intros W Hr. destruct (cadence_check_total sp e W r Hr) as (r' & E & _).
    exists r'. exact E. }
  intros r' H.
  destruct sp; unfold expected_length in Hlen; unfold cadence_check_of in H;
    unfold lower_cadence_degrees, cadence_rule, degree_among; simpl existsb;
    rewrite Hlow in H.
  - (* first species *)
    unfold FirstSpecies.checkEndInterval in H. cbv zeta in H.
    apply eval_inv in H. destruct H as (interval & _ & H).
    peel H.
    replace (len (cantusFirmus e) - 1 >? 0) with true in H
      by (symmetry; rewrite Z.gtb_ltb; apply Z.ltb_lt; lia).
    unfold when at 1 in H.
    replace (len (cantusFirmus e) - 1 - 1) with (len (counterpoint e) - 2) in H by lia.
    rewrite Hnote in H.
    apply eval_inv in H. destruct H as (d' & Hd' & H).
    rewrite Hdeg in Hd'. inversion Hd'; subst d'; clear Hd'.
    assert (Herr : forall i, In i (errors r0) ->
                     In i (errors r) \/ rule i = RULES.END_CONSONANCE).
    { unfold when in Hc.
      destruct (negb (sname_of interval =? "P1")%string
                && negb (sname_of interval =? "P8")%string).
      - apply error_at_lists in Hc. destruct Hc as (E & _ & _).
        intros i Hi. rewrite E in Hi. apply in_app_or in Hi.
        destruct Hi as [Hi | [<- | []]]; [left; exact Hi | right; reflexivity].
      - inversion Hc; subst. auto. }
    assert (Hsame : warnings r0 = warnings r /\ suggestions r0 = suggestions r).
    { unfold when in Hc.
      destruct (negb (sname_of interval =? "P1")%string
                && negb (sname_of interval =? "P8")%string).
      - apply error_at_lists in Hc. tauto.
      - inversion Hc; subst. auto. }
    destruct Hsame as (W0 & S0).
    rewrite orb_false_r. unfold when in H.
    destruct (degree_is d 2); simpl in H.
    + inversion H; subst; clear H.
      split; [intros _; split; assumption|].
      split; [intros HF; discriminate HF | exact Herr].
    + apply warning_at_lists in H. destruct H as (E & W & S).
      split; [intros HF; discriminate HF|].
      split; [intros _; split; congruence|].
      intros i Hi. rewrite E in Hi. auto.
  - (* second species *)
    unfold SecondSpecies.checkCadence in H. cbv zeta in H.
    replace (len (counterpoint e) <? 3) with false in H
      by (symmetry; apply Z.ltb_ge; lia).
    rewrite Hnote in H. simpl is_null in H. cbv iota in H.
    assert (Hweak : SecondSpecies.isWeakBeat (len (counterpoint e) - 2)
                      (len (counterpoint e)) = true).
    { unfold SecondSpecies.isWeakBeat. rewrite Hlen.
      rewrite (rem_odd_length _ Hcf). simpl.
      apply negb_true_iff, Z.eqb_neq. lia. }
    rewrite Hweak in H. simpl negb in H. cbv iota in H.
    apply eval_inv in H. destruct H as (d' & Hd' & H).
    rewrite Hdeg in Hd'. inversion Hd'; subst d'; clear Hd'.
    peel H.
    assert (Hr0 : r' = r0).
    { unfold when in H. destruct (len (counterpoint e) - 3 >=? 0);
        inversion H; reflexivity. }
    subst r0. clear H.
    rewrite orb_false_r. unfold when in Hc.
    destruct (degree_is d 2), (degree_is d 5), (degree_is d 7); simpl in Hc |- *;
      try (inversion Hc; subst; clear Hc;
           split; [intros _; split; reflexivity|];
           split; [intros HF; discriminate HF | intros i Hi; left; exact Hi]).
    apply warning_at_lists in Hc. destruct Hc as (E & W & S).
    split; [intros HF; discriminate HF|].
    split; [intros _; split; assumption|].
    intros i Hi. rewrite E in Hi. auto.
  - (* third species *)
    unfold ThirdSpecies.checkCadence in H. cbv zeta in H.
    replace (len (counterpoint e) <? 5) with false in H
      by (symmetry; apply Z.ltb_ge; lia).
    rewrite Hnote in H. simpl is_null in H. cbv iota in H.
    apply eval_inv in H. destruct H as (d' & Hd' & H).
    rewrite Hdeg in Hd'. inversion Hd'; subst d'; clear Hd'.
    rewrite orb_false_r. unfold when in H.
    destruct (degree_is d 2), (degree_is d 5), (degree_is d 7); simpl in H |- *;
      try (inversion H; subst; clear H;
           split; [intros _; split; reflexivity|];
           split; [intros HF; discriminate HF | intros i Hi; left; exact Hi]).
    apply warning_at_lists in H. destruct H as (E & W & S).
    split; [intros HF; discriminate HF|].
    split; [intros _; split; assumption|].
    intros i Hi. rewrite E in Hi. auto.
Qed.

Lemma C5_witness :
  (exists r',
     cadence_check_of Second sample_lower2 (blank_results 5) = Ok r' /\
     (degree_among (Some 5) (lower_cadence_degrees Second) = true ->
        warnings r' = warnings (blank_results 5)
        /\ suggestions r' = suggestions (blank_results 5)))
  /\ (exists r',
        cadence_check_of First sample_lower1 (blank_results 3) = Ok r' /\
        (degree_among (Some 5) (lower_cadence_degrees First) = false ->
           warnings r' = warnings (blank_results 3) ++
             [mkIssue (cadence_rule First)
                (Some (len (counterpoint sample_lower1) - 2)) WARNING]
           /\ suggestions r' = suggestions (blank_results 3))).
Proof.
  assert (H23 : 2 <= 3) by (vm_compute; discriminate).
  split.
  - destruct (C5_lower_voice_cadence Second sample_lower2 "G3" (Some 5)
                (blank_results 5) eq_refl H23 eq_refl eq_refl eq_refl)
      as (Hreturns & Hresult).
    destruct (Hreturns eq_refl eq_refl) as (r' & Hr').
    exists r'. split; [exact Hr' | apply (Hresult r' Hr')].
  - destruct (C5_lower_voice_cadence First sample_lower1 "G3" (Some 5)
                (blank_results 3) eq_refl H23 eq_refl eq_refl eq_refl)
      as (Hreturns & Hresult).
    destruct (Hreturns eq_refl eq_refl) as (r' & Hr').
    exists r'. split; [exact Hr' | apply (Hresult r' Hr')].
Defined.

(* ================================================================== *)
(** * Formula detectors on leaps of more than an octave *)
(* ================================================================== *)

(** The detectors test [interval.simple.generic], the generic interval
    reduced to within the octave, where their documentation asks for a
    step (or a third): a leap of a ninth passes for a step, a leap of a
    tenth for a third. *)

(** C3 at a failing input.  The weak-beat D5 is approached from C4 by a
    generic ninth, not by a step; it is dissonant against the C4 of the
    cantus firmus; both passing-tone detectors accept it, and both
    validators return a result without errors. *)
Theorem C3_passing_tone_accepts_ninth :
  Pitch.genericInterval (JString "C4") (JString "D5") = Ok 9
  /\ (let* i := Interval.between (JString "C4") (JString "D5") in
      Ok (Interval.generic i, sgeneric_of i, Interval.isDissonant i))
     = Ok (9, 2, true)
  /\ SecondSpecies.isWeakBeat 1 (len (counterpoint sample_ninth2)) = true
  /\ accepts Formula.valid
       (SecondSpecies.isPassingTone 1 (counterpoint sample_ninth2)
          (cantusFirmus sample_ninth2) upper)
  /\ ThirdSpecies.isWeakBeat 1 (len (counterpoint sample_ninth3)) = true
  /\ accepts Formula.valid
       (ThirdSpecies.isPassingTone 1 (counterpoint sample_ninth3)
          (cantusFirmus sample_ninth3) upper)
  /\ (exists r, SecondSpecies.validate sample_ninth2 = Ok r
                /\ errors r = [] /\ valid r = true)
  /\ (exists r, ThirdSpecies.validate sample_ninth3 = Ok r
                /\ errors r = [] /\ valid r = true).
Proof.
  repeat split;
    try (vm_compute; reflexivity);
    try (eexists; split; vm_compute; reflexivity);
    try (eexists; split; [vm_compute; reflexivity | split; reflexivity]).
Qed.

(** C4 at a failing input.  In the window C4 D5 F5 E5 D5 the first
    motion is a generic ninth, not a second; [_checkCambiataAt] accepts
    the window, [isCambiata] accepts position 1 as its second note, and
    the validator returns a result without errors although the D5 of
    position 1 is dissonant and is no passing tone. *)
Theorem C4_cambiata_accepts_ninth :
  Pitch.genericInterval (JString "C4") (JString "D5") = Ok 9
  /\ ThirdSpecies._checkCambiataAt 0 sample_cp3 ["C4"; "D4"] upper (len sample_cp3)
     = Ok true
  /\ ThirdSpecies.isCambiata 1 sample_cp3 ["C4"; "D4"] upper
     = Ok (Cambiata.mk true "Nota 2 de cambiata válida" (Some 2))
  /\ rejects Formula.valid (ThirdSpecies.isPassingTone 1 sample_cp3 ["C4"; "D4"] upper)
  /\ (exists r, ThirdSpecies.validate sample_cambiata3 = Ok r
                /\ errors r = [] /\ valid r = true).
Proof.
  repeat split;
    try (vm_compute; reflexivity);
    try (eexists; split; vm_compute; reflexivity);
    try (eexists; split; [vm_compute; reflexivity | split; reflexivity]).
Qed.

(** C2 at failing inputs.  [classifyDissonance] accepts notes that are
    neither a valid passing tone nor a member of a valid cambiata.
    - Weak beat: the D5 of position 1 of [sample_ninth3] is approached
      from C4 by a generic ninth, so it is no passing tone, and it is in
      no cambiata (even for [isCambiata]); it is classified as a valid
      passing tone.
    - Semi-strong beat: the F5 of position 2 of [sample_ninth_beat3] is
      approached from E4 by a generic ninth, and its neighbours E4 and G5
      are a tenth apart, not a third; it is in no cambiata; it is
      classified as a valid strong-beat passing tone.
    - Cambiata: in the window C4 D5 F5 E5 D5 the first motion is a
      generic ninth; positions 1 (weak) and 2 (semi-strong) are no
      passing tones, for the detectors themselves, and are classified as
      valid cambiata members.
    In each case the validator reports no error for the dissonant note. *)
Theorem C2_classifyDissonance_accepts_ninth :
  (ThirdSpecies.isWeakBeat 1 (len (counterpoint sample_ninth3)) = true
   /\ Pitch.genericInterval (JString "C4") (JString "D5") = Ok 9
   /\ rejects Cambiata.valid
        (ThirdSpecies.isCambiata 1 (counterpoint sample_ninth3)
           (cantusFirmus sample_ninth3) upper)
   /\ ThirdSpecies.classifyDissonance 1 (counterpoint sample_ninth3)
        (cantusFirmus sample_ninth3) upper
      = Ok (Classification.mk "passing-tone" true "Nota de paso válida"))
  /\ (ThirdSpecies.isSemiStrong 2 (len (counterpoint sample_ninth_beat3)) = true
      /\ Pitch.genericInterval (JString "E4") (JString "F5") = Ok 9
      /\ Pitch.genericInterval (JString "E4") (JString "G5") = Ok 10
      /\ rejects Cambiata.valid
           (ThirdSpecies.isCambiata 2 (counterpoint sample_ninth_beat3)
              (cantusFirmus sample_ninth_beat3) upper)
      /\ ThirdSpecies.classifyDissonance 2 (counterpoint sample_ninth_beat3)
           (cantusFirmus sample_ninth_beat3) upper
         = Ok (Classification.mk "strong-passing-tone" true
                 "Nota de paso en tiempo fuerte válida (§33)"))
  /\ (ThirdSpecies.isWeakBeat 1 (len sample_cp3) = true
      /\ ThirdSpecies.isSemiStrong 2 (len sample_cp3) = true
      /\ rejects Formula.valid
           (ThirdSpecies.isPassingTone 1 sample_cp3 ["C4"; "D4"] upper)
      /\ rejects Formula.valid
           (ThirdSpecies.isStrongBeatPassingTone 2 sample_cp3 ["C4"; "D4"] upper)
      /\ ThirdSpecies.classifyDissonance 1 sample_cp3 ["C4"; "D4"] upper
         = Ok (Classification.mk "cambiata" true "Nota 2 de cambiata válida")
      /\ ThirdSpecies.classifyDissonance 2 sample_cp3 ["C4"; "D4"] upper
         = Ok (Classification.mk "cambiata" true "Nota 3 de cambiata válida"))
  /\ (let dissonant (cf cp : string) :=
        let* i := Interval.between (JString cf) (JString cp) in
        Ok (Interval.isDissonant i) in
      dissonant "C4" "D5" = Ok true /\ dissonant "C4" "F5" = Ok true)
  /\ (exists r, ThirdSpecies.validate sample_ninth3 = Ok r
                /\ errors r = [] /\ valid r = true)
  /\ (exists r, ThirdSpecies.validate sample_ninth_beat3 = Ok r
                /\ errors r = [] /\ valid r = true)
  /\ (exists r, ThirdSpecies.validate sample_cambiata3 = Ok r
                /\ errors r = [] /\ valid r = true).
Proof.
  repeat split;
    try (vm_compute; reflexivity);
    try (eexists; split; vm_compute; reflexivity);
    try (eexists; split; [vm_compute; reflexivity | split; reflexivity]).
Qed.

(* ------------------------------------------------------------------ *)
(** ** What the passing-tone detectors accept *)

Lemma cp_at_in_range (cp : list (option string)) (i : Z) (s : string) :
  cp_at cp i = JString s -> 0 <= i < len cp.
Proof.
  unfold cp_at, nthZ, len. destruct (i <? 0) eqn:E; [discriminate|].
  apply Z.ltb_ge in E.
  destruct (nth_error cp (Z.to_nat i)) eqn:N; [|discriminate].
  intros _. assert (Hl : (Z.to_nat i < List.length cp)%nat)
    by (apply nth_error_Some; congruence).
  lia.
Qed.

Lemma between_undefined_l (v : jsval) : Interval.between JUndefined v = Throw TypeError.
Proof. reflexivity. Qed.

Lemma between_undefined_r (s : string) (a : Interval.t) :
  Interval.between (JString s) JUndefined = Ok a -> False.
Proof.
  unfold Interval.between. intros H.
  apply bind_Ok_inv in H. destruct H as (m1 & _ & H). discriminate H.
Qed.

Lemma accepts_Ok {A : Type} (valid : A -> bool) (a : A) :
  accepts valid (Ok a) <-> valid a = true.
Proof.
  unfold accepts. split.
  - intros (x & Hx & Hv). inversion Hx; subst. exact Hv.
  - intros Hv. exists a. auto.
Qed.

Lemma accepts_bind {A B : Type} (valid : B -> bool) (m : result A) (f : A -> result B) :
  accepts valid (bind m f) <-> exists x, m = Ok x /\ accepts valid (f x).
Proof.
  destruct m as [a|e]; simpl; split.
  - intros H. exists a. auto.
  - intros (x & Hx & H). inversion Hx; subst. exact H.
  - intros (x & Hx & _). discriminate Hx.
  - intros (x & Hx & _). discriminate Hx.
Qed.

Lemma accepts_reject_branch {A : Type} (valid : A -> bool) (b : bool)
    (no : A) (rest : result A) :
  valid no = false ->
  (accepts valid (if b then Ok no else rest) <-> b = false /\ accepts valid rest).
Proof.
  intros Hno. destruct b; split.
  - intros H. apply accepts_Ok in H. congruence.
  - intros (Hb & _). discriminate Hb.
  - auto.
  - intros (_ & H). exact H.
Qed.

Lemma isDissonant_false_iff (i : Interval.t) :
  Interval.isDissonant i = false <-> Interval.isConsonant i = true.
Proof. unfold Interval.isDissonant. apply negb_false_iff. Qed.

Lemma passing_tone_tail_accepts getCFNote cpIndex cf cpPosition prev cur next
    r1 r2 r3 r4 r5 r6 r7 :
  accepts Formula.valid
    (passing_tone_tail getCFNote cpIndex cf cpPosition
       (JString prev) (JString cur) (JString next) r1 r2 r3 r4 r5 r6 r7)
  <-> exists i1 i2 d iP iN,
        Interval.between (JString prev) (JString cur) = Ok i1 /\
        sgeneric_of i1 <= 2 /\
        Interval.between (JString cur) (JString next) = Ok i2 /\
        sgeneric_of i2 <= 2 /\
        sign_step (JString prev) (JString cur) = Ok d /\
        sign_step (JString cur) (JString next) = Ok d /\
        d <> 0 /\
        between_voices cpPosition (getCFNote (cpIndex - 1) cf) (JString prev) = Ok iP /\
        Interval.isConsonant iP = true /\
        between_voices cpPosition (getCFNote (cpIndex + 1) cf) (JString next) = Ok iN /\
        Interval.isConsonant iN = true.
Proof.
  unfold passing_tone_tail. split.
  - intros H.
    apply accepts_bind in H. destruct H as (i1 & Hi1 & H).
    apply accepts_reject_branch in H; [|reflexivity]. destruct H as (G1 & H).
    apply accepts_bind in H. destruct H as (i2 & Hi2 & H).
    apply accepts_reject_branch in H; [|reflexivity]. destruct H as (G2 & H).
    apply accepts_bind in H. destruct H as (d1 & Hd1 & H).
    apply accepts_bind in H. destruct H as (d2 & Hd2 & H).
    apply accepts_reject_branch in H; [|reflexivity]. destruct H as (Z0 & H).
    apply accepts_reject_branch in H; [|reflexivity]. destruct H as (Eq & H).
    apply accepts_bind in H. destruct H as (iP & HiP & H).
    apply accepts_reject_branch in H; [|reflexivity]. destruct H as (CP & H).
    apply accepts_bind in H. destruct H as (iN & HiN & H).
    apply accepts_reject_branch in H; [|reflexivity]. destruct H as (CN & _).
    apply orb_false_iff in Z0. destruct Z0 as (Z1 & Z2).
    apply negb_false_iff, Z.eqb_eq in Eq. subst d2.
    apply Z.eqb_neq in Z1.
    rewrite Z.gtb_ltb in G1, G2. apply Z.ltb_ge in G1, G2.
    apply isDissonant_false_iff in CP, CN.
    exists i1, i2, d1, iP, iN. repeat split; assumption.
  - intros (i1 & i2 & d & iP & iN & Hi1 & G1 & Hi2 & G2 & Hd1 & Hd2 & Hd
            & HiP & CP & HiN & CN).
    rewrite Hi1. simpl.
    replace (sgeneric_of i1 >? 2) with false
      by (symmetry; rewrite Z.gtb_ltb; apply Z.ltb_ge; exact G1).
    rewrite Hi2. simpl.
    replace (sgeneric_of i2 >? 2) with false
      by (symmetry; rewrite Z.gtb_ltb; apply Z.ltb_ge; exact G2).
    rewrite Hd1, Hd2. simpl.
    replace (d =? 0) with false by (symmetry; apply Z.eqb_neq; exact Hd).
    rewrite Z.eqb_refl. simpl.
    rewrite HiP. simpl.
    replace (Interval.isDissonant iP) with false
      by (symmetry; apply isDissonant_false_iff; exact CP).
    rewrite HiN. simpl.
    replace (Interval.isDissonant iN) with false
      by (symmetry; apply isDissonant_false_iff; exact CN).
    apply accepts_Ok. reflexivity.
Qed.

Lemma passing_tone_tail_needs_notes getCFNote cpIndex cf cpPosition prev cur next
    r1 r2 r3 r4 r5 r6 r7 :
  is_null prev = false -> is_null next = false ->
  accepts Formula.valid
    (passing_tone_tail getCFNote cpIndex cf cpPosition
       prev (JString cur) next r1 r2 r3 r4 r5 r6 r7) ->
  exists p n, prev = JString p /\ next = JString n.
Proof.
  intros Hp Hn H. unfold passing_tone_tail in H.
  apply accepts_bind in H. destruct H as (i1 & Hi1 & H).
  apply accepts_reject_branch in H; [|reflexivity]. destruct H as (_ & H).
  apply accepts_bind in H. destruct H as (i2 & Hi2 & _).
  destruct prev as [| |p]; try discriminate.
  destruct next as [| |n]; try discriminate.
  - exfalso. eapply between_undefined_r, Hi2.
  - exists p, n. auto.
Qed.

(** Third species: on a weak beat that holds the note [cur], the
    detector accepts exactly under [passing_tone_conditions]. *)
Lemma isPassingTone3_accepts_iff (cpIndex : Z) (counterpoint : list (option string))
    (cf : list string) (cpPosition : voice) (cur : string) :
  ThirdSpecies.isWeakBeat cpIndex (len counterpoint) = true ->
  cp_at counterpoint cpIndex = JString cur ->
  (accepts Formula.valid
     (ThirdSpecies.isPassingTone cpIndex counterpoint cf cpPosition)
   <-> passing_tone_conditions ThirdSpecies.getCFNote
         cpIndex counterpoint cf cpPosition cur).
Proof.
  intros Hweak Hcur.
  unfold ThirdSpecies.isPassingTone. cbv zeta.
  rewrite Hweak, Hcur. simpl negb. simpl is_null. cbv iota.
  change (accepts Formula.valid
            (if cpIndex - 1 <? 0 then Ok (Formula.mk false "No hay nota anterior")
             else if is_null (cp_at counterpoint (cpIndex - 1))
             then Ok (Formula.mk false "Nota anterior es silencio")
             else if cpIndex + 1 >=? len counterpoint
             then Ok (Formula.mk false "No hay nota siguiente")
             else if is_null (cp_at counterpoint (cpIndex + 1))
             then Ok (Formula.mk false "Nota siguiente es nula")
             else passing_tone_tail ThirdSpecies.getCFNote cpIndex cf cpPosition
                    (cp_at counterpoint (cpIndex - 1)) (JString cur)
                    (cp_at counterpoint (cpIndex + 1))
                    "No hay grado conjunto desde la nota anterior"
                    "No hay grado conjunto hacia la nota siguiente"
                    "Repetición de nota, no movimiento de escala"
                    "Cambio de dirección: no es nota de paso"
                    "Nota anterior no es consonante con el CF"
                    "Nota siguiente no es consonante con el CF"
                    "Nota de paso válida")
          <-> passing_tone_conditions ThirdSpecies.getCFNote
                cpIndex counterpoint cf cpPosition cur).
  unfold passing_tone_conditions. split.
  - intros H.
    apply accepts_reject_branch in H; [|reflexivity]. destruct H as (_ & H).
    apply accepts_reject_branch in H; [|reflexivity]. destruct H as (Np & H).
    apply accepts_reject_branch in H; [|reflexivity]. destruct H as (_ & H).
    apply accepts_reject_branch in H; [|reflexivity]. destruct H as (Nn & H).
    destruct (passing_tone_tail_needs_notes _ _ _ _ _ _ _ _ _ _ _ _ _ _ Np Nn H)
      as (p & n & Ep & En).
    rewrite Ep, En in H. apply passing_tone_tail_accepts in H.
    destruct H as (i1 & i2 & d & iP & iN & H).
    exists p, n, i1, i2, d, iP, iN. tauto.
  - intros (p & n & i1 & i2 & d & iP & iN & Ep & En & H).
    pose proof (cp_at_in_range _ _ _ Ep) as Rp.
    pose proof (cp_at_in_range _ _ _ En) as Rn.
    replace (cpIndex - 1 <? 0) with false by (symmetry; apply Z.ltb_ge; lia).
    replace (cpIndex + 1 >=? len counterpoint) with false
      by (symmetry; rewrite Z.geb_leb; apply Z.leb_gt; lia).
    rewrite Ep, En. simpl is_null. cbv iota.
    apply passing_tone_tail_accepts.
    exists i1, i2, d, iP, iN. exact H.
Qed.

(** Second species: the same, without the test on [prevIndex]. *)
Lemma isPassingTone2_accepts_iff (cpIndex : Z) (counterpoint : list (option string))
    (cf : list string) (cpPosition : voice) (cur : string) :
  SecondSpecies.isWeakBeat cpIndex (len counterpoint) = true ->
  cp_at counterpoint cpIndex = JString cur ->
  (accepts Formula.valid
     (SecondSpecies.isPassingTone cpIndex counterpoint cf cpPosition)
   <-> passing_tone_conditions SecondSpecies.getCFNote
         cpIndex counterpoint cf cpPosition cur).
Proof.
  intros Hweak Hcur.
  unfold SecondSpecies.isPassingTone. cbv zeta.
  rewrite Hweak, Hcur. simpl negb. simpl is_null. cbv iota.
  change (accepts Formula.valid
            (if is_null (cp_at counterpoint (cpIndex - 1))
             then Ok (Formula.mk false "Nota anterior es silencio (anacrusa)")
             else if cpIndex + 1 >=? len counterpoint
             then Ok (Formula.mk false "No hay nota siguiente")
             else if is_null (cp_at counterpoint (cpIndex + 1))
             then Ok (Formula.mk false "Nota siguiente es nula")
             else passing_tone_tail SecondSpecies.getCFNote cpIndex cf cpPosition
                    (cp_at counterpoint (cpIndex - 1)) (JString cur)
                    (cp_at counterpoint (cpIndex + 1))
                    "No hay grado conjunto desde la nota anterior"
                    "No hay grado conjunto hacia la nota siguiente"
                    "Repetición de nota, no movimiento de escala"
                    "Cambio de dirección: no es nota de paso"
                    "Nota anterior (tiempo fuerte) no es consonante con el CF"
                    "Nota siguiente (tiempo fuerte) no es consonante con el CF"
                    "Nota de paso válida")
          <-> passing_tone_conditions SecondSpecies.getCFNote
                cpIndex counterpoint cf cpPosition cur).
  unfold passing_tone_conditions. split.
  - intros H.
    apply accepts_reject_branch in H; [|reflexivity]. destruct H as (Np & H).
    apply accepts_reject_branch in H; [|reflexivity]. destruct H as (_ & H).
    apply accepts_reject_branch in H; [|reflexivity]. destruct H as (Nn & H).
    destruct (passing_tone_tail_needs_notes _ _ _ _ _ _ _ _ _ _ _ _ _ _ Np Nn H)
      as (p & n & Ep & En).
    rewrite Ep, En in H. apply passing_tone_tail_accepts in H.
    destruct H as (i1 & i2 & d & iP & iN & H).
    exists p, n, i1, i2, d, iP, iN. tauto.
  - intros (p & n & i1 & i2 & d & iP & iN & Ep & En & H).
    pose proof (cp_at_in_range _ _ _ En) as Rn.
    replace (cpIndex + 1 >=? len counterpoint) with false
      by (symmetry; rewrite Z.geb_leb; apply Z.leb_gt; lia).
    rewrite Ep, En. simpl is_null. cbv iota.
    apply passing_tone_tail_accepts.
    exists i1, i2, d, iP, iN. exact H.
Qed.

(* ------------------------------------------------------------------ *)
(** ** What the cambiata detector accepts *)

Lemma truthy_JString (v : jsval) :
  truthy v = true -> exists s, v = JString s.
Proof. destruct v as [| |s]; try discriminate. intros _. exists s. reflexivity. Qed.

Lemma toMidi_truthy (s : string) (m : Z) :
  Pitch.toMidi (JString s) = Ok m -> truthy (JString s) = true.
Proof. destruct s; [discriminate | reflexivity]. Qed.

Lemma Ok_true_branch (b : bool) (rest : result bool) :
  (if b then Ok false else rest) = Ok true <-> b = false /\ rest = Ok true.
Proof.
  destruct b; split.
  - intros H. discriminate H.
  - intros (Hb & _). discriminate Hb.
  - auto.
  - intros (_ & H). exact H.
Qed.

Lemma bind_Ok_true {A : Type} (m : result A) (f : A -> result bool) :
  bind m f = Ok true <-> exists a, m = Ok a /\ f a = Ok true.
Proof.
  split.
  - apply bind_Ok_inv.
  - intros (a & -> & H). exact H.
Qed.

(** Break the failed tests of one form of the pattern into facts. *)
Ltac split_tests :=
  repeat match goal with
         | Hx : (_ || _) = false |- _ =>
             apply orb_false_iff in Hx; destruct Hx
         end;
  repeat match goal with
         | Hx : negb (_ =? _) = false |- _ =>
             apply negb_false_iff, Z.eqb_eq in Hx
         | Hx : (_ >=? _) = false |- _ =>
             rewrite Z.geb_leb in Hx; apply Z.leb_gt in Hx
         | Hx : (_ <=? _) = false |- _ => apply Z.leb_gt in Hx
         end.

Lemma checkCambiataAt_accepts_iff (startIndex : Z)
    (counterpoint : list (option string)) (cf : list string) (cpPosition : voice) :
  ThirdSpecies._checkCambiataAt startIndex counterpoint cf cpPosition (len counterpoint)
    = Ok true
  <-> cambiata_window_conditions startIndex counterpoint cf cpPosition.
Proof.
  unfold ThirdSpecies._checkCambiataAt, cambiata_window_conditions. cbv zeta.
  split.
  - intros H.
    apply Ok_true_branch in H. destruct H as (_ & H).
    apply Ok_true_branch in H. destruct H as (T & H).
    repeat (apply orb_false_iff in T; destruct T as (T & ?)).
    repeat match goal with
           | Hn : negb (truthy _) = false |- _ =>
               apply negb_false_iff, truthy_JString in Hn; destruct Hn as (? & Hn)
           end.
    rewrite T, H0, H1, H2, H3 in H.
    apply bind_Ok_true in H. destruct H as (m1 & M1 & H).
    apply bind_Ok_true in H. destruct H as (m2 & M2 & H).
    apply bind_Ok_true in H. destruct H as (m3 & M3 & H).
    apply bind_Ok_true in H. destruct H as (m4 & M4 & H).
    apply bind_Ok_true in H. destruct H as (m5 & M5 & H).
    apply bind_Ok_true in H. destruct H as (i12 & B12 & H).
    apply bind_Ok_true in H. destruct H as (i23 & B23 & H).
    apply bind_Ok_true in H. destruct H as (i34 & B34 & H).
    apply bind_Ok_true in H. destruct H as (i45 & B45 & H).
    apply Ok_true_branch in H. destruct H as (D0 & H).
    apply Ok_true_branch in H. destruct H as (Dn & H).
    apply Ok_true_branch in H. destruct H as (Up & H).
    apply bind_Ok_true in H. destruct H as (I1 & BI1 & H).
    apply Ok_true_branch in H. destruct H as (C1 & H).
    apply bind_Ok_true in H. destruct H as (I5 & BI5 & H).
    apply Ok_true_branch in H. destruct H as (C5 & H).
    apply Ok_true_branch in H. destruct H as (T5 & _).
    apply isDissonant_false_iff in C1, C5.
    exists x3, x2, x1, x0, x, m1, m2, m3, m4, m5, i12, i23, i34, i45, I1, I5.
    repeat (split; [assumption|]).
    apply Z.eqb_neq in D0.
    assert (Hsg : Z.sgn (m2 - m1) < 0 \/ 0 < Z.sgn (m2 - m1)) by lia.
    destruct Hsg as [Hneg | Hpos].
    + replace (Z.sgn (m2 - m1) <? 0) with true in Dn
        by (symmetry; apply Z.ltb_lt; exact Hneg).
      simpl in Dn. clear Up. split_tests.
      repeat (split; [assumption|]).
      split; [left; lia|]. repeat split; assumption.
    + replace (Z.sgn (m2 - m1) >? 0) with true in Up
        by (symmetry; rewrite Z.gtb_ltb; apply Z.ltb_lt; exact Hpos).
      simpl in Up. clear Dn. split_tests.
      repeat (split; [assumption|]).
      split; [right; lia|]. repeat split; assumption.
  - intros (n1 & n2 & n3 & n4 & n5 & m1 & m2 & m3 & m4 & m5
            & i12 & i23 & i34 & i45 & I1 & I5
            & E1 & E2 & E3 & E4 & E5 & M1 & M2 & M3 & M4 & M5
            & B12 & B23 & B34 & B45 & G12 & G23 & G34 & G45 & Hdir
            & BI1 & C1 & BI5 & C5 & T5).
    pose proof (cp_at_in_range _ _ _ E1) as R1.
    pose proof (cp_at_in_range _ _ _ E5) as R5.
    replace ((startIndex <? 0) || (startIndex + 4 >=? len counterpoint)) with false.
    2:{ symmetry. apply orb_false_iff. split.
        - apply Z.ltb_ge. lia.
        - rewrite Z.geb_leb. apply Z.leb_gt. lia. }
    rewrite E1, E2, E3, E4, E5.
    rewrite (toMidi_truthy _ _ M1), (toMidi_truthy _ _ M2), (toMidi_truthy _ _ M3),
            (toMidi_truthy _ _ M4), (toMidi_truthy _ _ M5).
    simpl negb. simpl orb. cbv iota.
    rewrite M1, M2, M3, M4, M5. simpl bind.
    rewrite B12, B23, B34, B45. simpl bind.
    rewrite G12, G23, G34, G45. simpl negb. simpl orb.
    apply isDissonant_false_iff in C1, C5.
    destruct Hdir as [(D1 & D2 & D3 & D4) | (D1 & D2 & D3 & D4)].
    + replace (Z.sgn (m2 - m1)) with (-1) by lia. simpl.
      replace (m2 >=? m1) with false by (symmetry; rewrite Z.geb_leb; apply Z.leb_gt; lia).
      replace (m3 >=? m2) with false by (symmetry; rewrite Z.geb_leb; apply Z.leb_gt; lia).
      replace (m4 <=? m3) with false by (symmetry; apply Z.leb_gt; lia).
      replace (m5 <=? m4) with false by (symmetry; apply Z.leb_gt; lia).
      simpl. rewrite BI1. simpl. rewrite C1, BI5. simpl. rewrite C5, T5. reflexivity.
    + replace (Z.sgn (m2 - m1)) with 1 by lia. simpl.
      replace (m2 <=? m1) with false by (symmetry; apply Z.leb_gt; lia).
      replace (m3 <=? m2) with false by (symmetry; apply Z.leb_gt; lia).
      replace (m4 >=? m3) with false by (symmetry; rewrite Z.geb_leb; apply Z.leb_gt; lia).
      replace (m5 >=? m4) with false by (symmetry; rewrite Z.geb_leb; apply Z.leb_gt; lia).
      simpl. rewrite BI1. simpl. rewrite C1, BI5. simpl. rewrite C5, T5. reflexivity.
Qed.

(** [isCambiata] tries the windows in which the position is note 2, 3
    and 4, in that order, and stops at the first accepted one. *)
Lemma isCambiata_accepts_iff (cpIndex : Z) (counterpoint : list (option string))
    (cf : list string) (cpPosition : voice) :
  let w k := ThirdSpecies._checkCambiataAt (cpIndex - k) counterpoint cf cpPosition
               (len counterpoint) in
  accepts Cambiata.valid (ThirdSpecies.isCambiata cpIndex counterpoint cf cpPosition)
  <-> is_null (cp_at counterpoint cpIndex) = false
      /\ (w 1 = Ok true
          \/ (w 1 = Ok false /\ w 2 = Ok true)
          \/ (w 1 = Ok false /\ w 2 = Ok false /\ w 3 = Ok true)).
Proof.
  intros w. subst w. cbv beta. unfold ThirdSpecies.isCambiata. cbv zeta.
  destruct (is_null (cp_at counterpoint cpIndex)).
  - split.
    + intros H. apply accepts_Ok in H. discriminate H.
    + intros (H & _). discriminate H.
  - destruct (ThirdSpecies._checkCambiataAt (cpIndex - 1) counterpoint cf cpPosition
                (len counterpoint)) as [[|]|e1]; simpl.
    + split; [intros _; auto | intros _; apply accepts_Ok; reflexivity].
    + destruct (ThirdSpecies._checkCambiataAt (cpIndex - 2) counterpoint cf cpPosition
                  (len counterpoint)) as [[|]|e2]; simpl.
      * split; [intros _; auto | intros _; apply accepts_Ok; reflexivity].
      * destruct (ThirdSpecies._checkCambiataAt (cpIndex - 3) counterpoint cf cpPosition
                    (len counterpoint)) as [[|]|e3]; simpl.
        -- split; [intros _; auto 6 | intros _; apply accepts_Ok; reflexivity].
        -- split.
           ++ intros H. apply accepts_Ok in H. discriminate H.
           ++ intros (_ & [H | [(_ & H) | (_ & _ & H)]]); discriminate H.
        -- split.
           ++ intros (x & Hx & _). discriminate Hx.
           ++ intros (_ & [H | [(_ & H) | (_ & _ & H)]]); discriminate H.
      * split.
        -- intros (x & Hx & _). discriminate Hx.
        -- intros (_ & [H | [(_ & H) | (_ & H & _)]]); discriminate H.
    + split.
      * intros (x & Hx & _). discriminate Hx.
      * intros (_ & [H | [(H & _) | (H & _)]]); discriminate H.
Qed.

(** When none of the three windows throws, the position is accepted
    exactly when it holds a note and one of the windows in which it is
    note 2, 3 or 4 satisfies [cambiata_window_conditions]. *)
Lemma isCambiata_some_window (cpIndex : Z) (counterpoint : list (option string))
    (cf : list string) (cpPosition : voice) :
  (forall k, 1 <= k <= 3 ->
     exists b, ThirdSpecies._checkCambiataAt (cpIndex - k) counterpoint cf cpPosition
                 (len counterpoint) = Ok b) ->
  (accepts Cambiata.valid (ThirdSpecies.isCambiata cpIndex counterpoint cf cpPosition)
   <-> is_null (cp_at counterpoint cpIndex) = false
       /\ exists k, 1 <= k <= 3
            /\ cambiata_window_conditions (cpIndex - k) counterpoint cf cpPosition).
Proof.
  intros Hret.
  pose proof (isCambiata_accepts_iff cpIndex counterpoint cf cpPosition) as HI.
  cbv zeta beta in HI. rewrite HI. clear HI.
  destruct (Hret 1 ltac:(lia)) as (b1 & E1).
  destruct (Hret 2 ltac:(lia)) as (b2 & E2).
  destruct (Hret 3 ltac:(lia)) as (b3 & E3).
  split.
  - intros (Hn & Hw). split; [exact Hn|].
    destruct Hw as [H | [(_ & H) | (_ & _ & H)]];
      apply checkCambiataAt_accepts_iff in H.
    + exists 1. split; [lia | exact H].
    + exists 2. split; [lia | exact H].
    + exists 3. split; [lia | exact H].
  - intros (Hn & k & Hk & Hc). split; [exact Hn|].
    apply checkCambiataAt_accepts_iff in Hc.
    assert (Hcases : k = 1 \/ k = 2 \/ k = 3) by lia.
    destruct b1.
    + left. exact E1.
    + right. destruct b2.
      * left. split; [exact E1 | exact E2].
      * right. split; [exact E1|]. split; [exact E2|].
        destruct Hcases as [-> | [-> | ->]]; congruence.
Qed.


(* ================================================================== *)
(** * Note names and semitone indices *)
(* ================================================================== *)

Lemma indexOf_from_range {A : Type} (eqb : A -> A -> bool) (l : list A) (x : A) (k : Z) :
  indexOf_from eqb l x k = -1 \/ k <= indexOf_from eqb l x k < k + len l.
Proof.
  revert k. induction l as [|y l IH]; intros k; simpl.
  - left. reflexivity.
  - unfold len. simpl List.length. destruct (eqb y x).
    + right. lia.
    + destruct (IH (k + 1)) as [E | E]; [left; exact E | right].
      unfold len in E. lia.
Qed.

Lemma indexOf_str_range (l : list string) (x : string) :
  -1 <= indexOf_str l x < len l.
Proof.
  unfold indexOf_str. destruct (indexOf_from_range String.eqb l x 0) as [E | E].
  - rewrite E. pose proof (len_nonneg l). lia.
  - lia.
Qed.

(** What a match of the regular expression of [Pitch.parse] gives. *)
Lemma regex_match_Some (s : string) (l : ascii) (acc : string) (d : ascii) :
  Pitch.regex_match s = Some (l, acc, d) ->
  Pitch.is_letter_AG l = true /\ Pitch.is_digit d = true /\
  s = (Pitch.str1 l ++ acc ++ Pitch.str1 d)%string /\
  (acc = "" \/ exists a, Pitch.is_accidental a = true /\ acc = Pitch.str1 a).
Proof.
  unfold Pitch.regex_match.
  destruct s as [|c1 [|c2 [|c3 [|c4 s]]]]; try discriminate.
  - destruct (Pitch.is_letter_AG c1) eqn:E1; [|discriminate].
    destruct (Pitch.is_digit c2) eqn:E2; [|discriminate].
    simpl. intros H. injection H as <- <- <-.
    repeat split; auto.
  - destruct (Pitch.is_letter_AG c1) eqn:E1; [|discriminate].
    destruct (Pitch.is_accidental c2) eqn:E2; [|discriminate].
    destruct (Pitch.is_digit c3) eqn:E3; [|discriminate].
    simpl. intros H. injection H as <- <- <-.
    repeat split; auto. right. exists c2. auto.
Qed.

Lemma parseInt_digit (d : ascii) :
  Pitch.is_digit d = true -> 0 <= Pitch.parseInt d <= 9.
Proof.
  unfold Pitch.is_digit, Pitch.parseInt. cbv zeta. intros H.
  apply andb_true_iff in H. destruct H as (H1 & H2).
  apply Nat.leb_le in H1, H2. lia.
Qed.

Lemma parse_string_bounds (s : string) (p : Pitch.parsed) :
  Pitch.parse_string s = Ok p ->
  0 <= Pitch.octave p <= 9 /\
  12 * (Pitch.octave p + 1) <= Pitch.midi p <= 12 * (Pitch.octave p + 1) + 11.
Proof.
  unfold Pitch.parse_string.
  destruct (Pitch.regex_match s) as [[[l acc] d]|] eqn:E; [|discriminate].
  apply regex_match_Some in E. destruct E as (_ & Hd & _ & _).
  apply parseInt_digit in Hd. cbv zeta.
  intros H. injection H as <-. cbn [Pitch.octave Pitch.midi].
  split; [exact Hd|].
  match goal with
  | |- context [if ?c then ?a else ?b] =>
      assert (Hs : 0 <= (if c then a else b) <= 11);
      [|generalize dependent (if c then a else b); intros; lia]
  end.
  match goal with
  | |- context [indexOf_str Pitch.NOTE_NAMES ?n =? -1] =>
      pose proof (indexOf_str_range Pitch.NOTE_NAMES n) as Hn;
      destruct (indexOf_str Pitch.NOTE_NAMES n =? -1) eqn:En
  end.
  - pose proof (indexOf_str_range Pitch.NOTE_NAMES
                  (Pitch.str1 (Pitch.toUpperCase l))) as Hb.
    change (len Pitch.NOTE_NAMES) with 12 in Hb.
    destruct (acc =? "#")%string;
      match goal with
      | |- 0 <= Z.rem ?x 12 <= 11 =>
          pose proof (Z.rem_bound_pos x 12 ltac:(lia) ltac:(lia)); lia
      end.
  - apply Z.eqb_neq in En. change (len Pitch.NOTE_NAMES) with 12 in Hn. lia.
Qed.

(** X1.  A note that [Pitch.parse] accepts is a string, and it lies in the
    octave its digit names: the octave is between 0 and 9 and the
    semitone index is [12 * (octave + 1)] plus a pitch class between 0
    and 11, whatever the accidental. *)
Theorem parse_within_octave (v : jsval) (p : Pitch.parsed) :
  Pitch.parse v = Ok p ->
  (exists s, v = JString s) /\
  0 <= Pitch.octave p <= 9 /\
  12 * (Pitch.octave p + 1) <= Pitch.midi p <= 12 * (Pitch.octave p + 1) + 11.
Proof.
  unfold Pitch.parse. destruct v as [| |s]; try discriminate.
  intros H. split.
  - exists s. reflexivity.
  - apply (parse_string_bounds s p H).
Qed.

Lemma parse_within_octave_witness :
  exists p, Pitch.parse (JString "Cb4") = Ok p /\
    (exists s, JString "Cb4" = JString s) /\
    (0 <= Pitch.octave p <= 9 /\
     12 * (Pitch.octave p + 1) <= Pitch.midi p <= 12 * (Pitch.octave p + 1) + 11).
Proof.
  eexists. split; [reflexivity|].
  apply (parse_within_octave (JString "Cb4")). reflexivity.
Defined.

Lemma toMidi_range (v : jsval) (m : Z) : Pitch.toMidi v = Ok m -> 12 <= m <= 131.
Proof.
  unfold Pitch.toMidi, Pitch.parse. destruct v as [| |s]; try discriminate.
  destruct (Pitch.parse_string s) as [p|] eqn:E; [|discriminate].
  simpl. intros H. injection H as <-.
  apply parse_string_bounds in E. lia.
Qed.

Lemma roundtrip_12_131 (i : Z) :
  12 <= i <= 131 -> Pitch.toMidi (JString (Pitch.fromMidi i)) = Ok i.
Proof.
  intros Hi.
  assert (Hall : forallb roundtrip_ok (zrange 12 132) = true)
    by (vm_compute; reflexivity).
  rewrite forallb_forall in Hall.
  specialize (Hall i (proj2 (In_zrange 12 132 i) ltac:(lia))).
  unfold roundtrip_ok, roundtrip in Hall.
  destruct (Pitch.toMidi (JString (Pitch.fromMidi i))) as [j|]; [|discriminate Hall].
  apply Z.eqb_eq in Hall. subst j. reflexivity.
Qed.

(** The decimal spelling of a number from 10 on has at least two
    characters, and the first is not an accidental. *)
Lemma string_of_Z_two_digits (z : Z) :
  10 <= z ->
  exists c1 c2 rest,
    string_of_Z z = String c1 (String c2 rest) /\ Pitch.is_accidental c1 = false.
Proof.
  intros Hz. destruct z as [|p|p]; try lia.
  unfold string_of_Z, Z.to_int, NilZero.string_of_int, NilZero.string_of_uint.
  pose proof (DecimalPos.Unsigned.of_to p) as Hp.
  destruct (Pos.to_uint p) as [|u|u|u|u|u|u|u|u|u|u] eqn:E;
    try (simpl in Hp; discriminate Hp);
    (destruct u as [|u|u|u|u|u|u|u|u|u|u];
     [ simpl in Hp;
       first [ discriminate Hp | injection Hp as Hp; subst p; lia ]
     | do 3 eexists; split; [reflexivity | reflexivity] .. ]).
Qed.

Lemma rem12_cases (i : Z) :
  0 <= i ->
  In (Z.rem i 12) [0; 1; 2; 3; 4; 5; 6; 7; 8; 9; 10; 11].
Proof.
  intros Hi. pose proof (Z.rem_bound_pos i 12 Hi ltac:(lia)) as H.
  simpl. lia.
Qed.

Lemma fromMidi_above_131 (i : Z) :
  131 < i -> Pitch.toMidi (JString (Pitch.fromMidi i)) = Throw InvalidNoteFormat.
Proof.
  intros Hi. unfold Pitch.fromMidi. cbv zeta.
  destruct (string_of_Z_two_digits (i / 12 - 1)) as (c1 & c2 & rest & E & Hc).
  { assert (11 <= i / 12) by (apply Z.div_le_lower_bound; lia). lia. }
  rewrite E.
  pose proof (rem12_cases i ltac:(lia)) as Hr.
  simpl in Hr.
  unfold Pitch.toMidi, Pitch.parse, Pitch.parse_string.
  repeat (destruct Hr as [<- | Hr]); try contradiction;
    match goal with
    | |- context [match nthZ Pitch.NOTE_NAMES ?k with Some n => n | None => ?u end] =>
        let nm := eval vm_compute in
            (match nthZ Pitch.NOTE_NAMES k with Some n => n | None => u end) in
        change (match nthZ Pitch.NOTE_NAMES k with Some n => n | None => u end)
          with nm
    end;
    cbn [String.append]; unfold Pitch.regex_match;
    (destruct rest; try rewrite Hc; reflexivity).
Qed.

(** X2.  [Pitch.toMidi(Pitch.fromMidi(i))] for a semitone index [i >= 0]:
    the round trip is the identity exactly from 12 to 131, the indices
    whose octave is one digit; elsewhere the name that [fromMidi] builds
    does not parse. *)
Theorem fromMidi_toMidi_domain (i : Z) :
  0 <= i ->
  (12 <= i <= 131 -> Pitch.toMidi (JString (Pitch.fromMidi i)) = Ok i)
  /\ (i < 12 \/ 131 < i ->
        Pitch.toMidi (JString (Pitch.fromMidi i)) = Throw InvalidNoteFormat).
Proof.
  intros Hi. split; [apply roundtrip_12_131|].
  intros [Hl | Hh].
  - apply roundtrip_below_12. lia.
  - apply fromMidi_above_131, Hh.
Qed.

Lemma fromMidi_toMidi_domain_witness :
  Pitch.toMidi (JString (Pitch.fromMidi 131)) = Ok 131
  /\ Pitch.toMidi (JString (Pitch.fromMidi 132)) = Throw InvalidNoteFormat.
Proof.
  split.
  - apply (fromMidi_toMidi_domain 131); lia.
  - apply (fromMidi_toMidi_domain 132); lia.
Defined.

Lemma canonical_spellings :
  forallb (fun name =>
    forallb (fun d =>
      match Pitch.toMidi (JString (name ++ string_of_Z d)) with
      | Ok m => String.eqb (Pitch.fromMidi m) (name ++ string_of_Z d)
      | Throw _ => false
      end) (zrange 0 10)) Pitch.NOTE_NAMES = true.
Proof. vm_compute. reflexivity. Qed.

(** X3.  [Pitch.fromMidi(Pitch.toMidi(s))] names the pitch of [s]: it parses
    to the same semitone index; and it is [s] itself when [s] is one
    of the twelve names of [NOTE_NAMES] followed by an octave digit. *)
Theorem fromMidi_after_toMidi :
  (forall (s : string) (m : Z),
     Pitch.toMidi (JString s) = Ok m ->
     Pitch.toMidi (JString (Pitch.fromMidi m)) = Ok m)
  /\ (forall (name : string) (d : Z),
        In name Pitch.NOTE_NAMES -> 0 <= d <= 9 ->
        exists m,
          Pitch.toMidi (JString (name ++ string_of_Z d)) = Ok m /\
          Pitch.fromMidi m = (name ++ string_of_Z d)%string).
Proof.
  split.
  - intros s m H. apply roundtrip_12_131. apply (toMidi_range _ _ H).
  - intros name d Hn Hd.
    pose proof canonical_spellings as Hall.
    rewrite forallb_forall in Hall. specialize (Hall name Hn).
    rewrite forallb_forall in Hall.
    specialize (Hall d (proj2 (In_zrange 0 10 d) ltac:(lia))).
    destruct (Pitch.toMidi (JString (name ++ string_of_Z d))) as [m|];
      [|discriminate Hall].
    exists m. split; [reflexivity|]. apply String.eqb_eq, Hall.
Qed.

Lemma fromMidi_after_toMidi_witness :
  Pitch.toMidi (JString (Pitch.fromMidi 58)) = Ok 58
  /\ exists m, Pitch.toMidi (JString ("F#" ++ string_of_Z 3)) = Ok m /\
               Pitch.fromMidi m = ("F#" ++ string_of_Z 3)%string.
Proof.
  split.
  - apply (proj1 fromMidi_after_toMidi "Bb3"). reflexivity.
  - apply (proj2 fromMidi_after_toMidi "F#" 3); [|lia].
    simpl. tauto.
Defined.

(* ------------------------------------------------------------------ *)
(** ** Transposition *)

Lemma fromMidi_value_in_range (m : Z) :
  0 <= m -> PitchOps.fromMidi_value m = Some (Pitch.fromMidi m).
Proof.
  intros Hm. unfold PitchOps.fromMidi_value.
  pose proof (Z.rem_bound_pos m 12 Hm ltac:(lia)).
  replace (Z.rem m 12 <? 0) with false by (symmetry; apply Z.ltb_ge; lia).
  reflexivity.
Qed.

(** The name that [Pitch.fromMidi] builds for a negative multiple of 12
    is ["C"] followed by a negative octave: it does not parse. *)
Lemma fromMidi_negative_octave (i : Z) :
  i < 0 -> Z.rem i 12 = 0 ->
  PitchOps.fromMidi_value i = Some (Pitch.fromMidi i)
  /\ Pitch.toMidi (JString (Pitch.fromMidi i)) = Throw InvalidNoteFormat.
Proof.
  intros Hi Hr. split.
  - unfold PitchOps.fromMidi_value. rewrite Hr. reflexivity.
  - unfold Pitch.fromMidi. cbv zeta. rewrite Hr.
    change (match nthZ Pitch.NOTE_NAMES 0 with Some n => n | None => "undefined" end)
      with "C".
    assert (Ho : i / 12 - 1 < 0).
    { assert (i / 12 < 0) by (apply Z.div_lt_upper_bound; lia). lia. }
    destruct (i / 12 - 1) as [|q|q] eqn:E; try lia.
    unfold string_of_Z. cbn [Z.to_int NilZero.string_of_int String.append].
    unfold Pitch.toMidi, Pitch.parse, Pitch.parse_string, Pitch.regex_match.
    destruct (NilZero.string_of_uint (Pos.to_uint q)) as [|c [|c' rest]];
      reflexivity.
Qed.

(** X4.  [Pitch.transpose] never throws on a note that parses.  When the
    target index [m + k] is between 12 and 131 the result is a note
    with that index; otherwise it is a string that [Pitch.toMidi]
    rejects or, for a negative index that is no multiple of 12, the
    number [NaN]. *)
Theorem transpose_semitones (note : jsval) (m k : Z) :
  Pitch.toMidi note = Ok m ->
  (exists v, PitchOps.transpose note k = Ok v)
  /\ (12 <= m + k <= 131 ->
       exists t, PitchOps.transpose note k = Ok (Some t) /\
                 Pitch.toMidi (JString t) = Ok (m + k))
  /\ ((0 <= m + k < 12 \/ 131 < m + k
        \/ (m + k < 0 /\ Z.rem (m + k) 12 = 0)) ->
        exists t, PitchOps.transpose note k = Ok (Some t) /\
                  Pitch.toMidi (JString t) = Throw InvalidNoteFormat)
  /\ (m + k < 0 -> Z.rem (m + k) 12 <> 0 ->
        PitchOps.transpose note k = Ok None).
Proof.
  intros Hm. unfold PitchOps.transpose. rewrite Hm. simpl.
  split; [|split; [|split]].
  - eexists. reflexivity.
  - intros Hr. rewrite fromMidi_value_in_range by lia.
    eexists. split; [reflexivity|]. apply roundtrip_12_131, Hr.
  - intros [Hr | [Hr | (Hneg & Hrem)]].
    + rewrite fromMidi_value_in_range by lia.
      eexists. split; [reflexivity|]. apply roundtrip_below_12. lia.
    + rewrite fromMidi_value_in_range by lia.
      eexists. split; [reflexivity|]. apply fromMidi_above_131, Hr.
    + destruct (fromMidi_negative_octave (m + k) Hneg Hrem) as (Hv & Ht).
      rewrite Hv. eexists. split; [reflexivity | exact Ht].
  - intros Hneg Hrem. unfold PitchOps.fromMidi_value.
    assert (Z.rem (m + k) 12 <= 0) by (apply Z.rem_nonpos; lia).
    replace (Z.rem (m + k) 12 <? 0) with true by (symmetry; apply Z.ltb_lt; lia).
    reflexivity.
Qed.

Lemma transpose_semitones_witness :
  (exists v, PitchOps.transpose (JString "C4") 7 = Ok v)
  /\ (exists t, PitchOps.transpose (JString "C4") 7 = Ok (Some t) /\
                Pitch.toMidi (JString t) = Ok (60 + 7))
  /\ (exists t, PitchOps.transpose (JString "C9") 12 = Ok (Some t) /\
                Pitch.toMidi (JString t) = Throw InvalidNoteFormat)
  /\ (exists t, PitchOps.transpose (JString "C0") (-24) = Ok (Some t) /\
                Pitch.toMidi (JString t) = Throw InvalidNoteFormat)
  /\ PitchOps.transpose (JString "C0") (-13) = Ok None.
Proof.
  split; [|split; [|split; [|split]]].
  - apply (transpose_semitones (JString "C4") 60 7 eq_refl).
  - apply (transpose_semitones (JString "C4") 60 7 eq_refl). lia.
  - apply (transpose_semitones (JString "C9") 120 12 eq_refl). lia.
  - apply (transpose_semitones (JString "C0") 12 (-24) eq_refl).
    right. right. split; [lia | reflexivity].
  - apply (transpose_semitones (JString "C0") 12 (-13) eq_refl).
    + lia.
    + vm_compute. discriminate.
Defined.

(** X5.  Transpositions compose: transposing by [a] and then by [b] gives
    the same note name as transposing by [a + b], as long as the
    intermediate note is one that parses. *)
Theorem transpose_compose (note : jsval) (m a b : Z) (t : string) :
  Pitch.toMidi note = Ok m ->
  12 <= m + a <= 131 ->
  PitchOps.transpose note a = Ok (Some t) ->
  PitchOps.transpose (JString t) b = PitchOps.transpose note (a + b).
Proof.
  intros Hm Hr Ht.
  unfold PitchOps.transpose in Ht. rewrite Hm in Ht. cbn [bind] in Ht.
  rewrite fromMidi_value_in_range in Ht by lia. injection Ht as <-.
  unfold PitchOps.transpose.
  rewrite (roundtrip_12_131 (m + a) Hr), Hm. cbn [bind].
  rewrite Z.add_assoc. reflexivity.
Qed.

Lemma transpose_compose_witness :
  PitchOps.transpose (JString "G4") 5 = PitchOps.transpose (JString "C4") (7 + 5).
Proof.
  apply (transpose_compose (JString "C4") 60 7 5 "G4" eq_refl).
  - lia.
  - reflexivity.
Defined.

(* ------------------------------------------------------------------ *)
(** ** Chromatic ranges *)

Lemma mapM_map_id {A B : Type} (f : B -> result A) (g : A -> B) (l : list A) :
  (forall x, In x l -> f (g x) = Ok x) -> mapM f (map g l) = Ok l.
Proof.
  induction l as [|x l IH]; intros H; simpl.
  - reflexivity.
  - rewrite (H x (or_introl eq_refl)). simpl.
    rewrite IH by (intros y Hy; apply H; right; exact Hy).
    reflexivity.
Qed.

Lemma len_zrange (lo hi : Z) : len (zrange lo hi) = Z.max 0 (hi - lo).
Proof.
  unfold len, zrange. rewrite length_map, length_seq. lia.
Qed.

(** X6.  [Pitch.range(low, high)] lists one note per semitone from [low] to
    [high], in ascending order: [max 0 (hi - lo + 1)] notes, whose
    semitone indices are [lo, lo + 1, ..., hi]; the list is empty when
    [high] is below [low]. *)
Theorem range_semitones (low high : jsval) (lo hi : Z) :
  Pitch.toMidi low = Ok lo -> Pitch.toMidi high = Ok hi ->
  exists l,
    PitchOps.range low high = Ok l /\
    len l = Z.max 0 (hi - lo + 1) /\
    mapM (fun s => Pitch.toMidi (JString s)) l = Ok (zrange lo (hi + 1)).
Proof.
  intros Hlo Hhi. unfold PitchOps.range. rewrite Hlo, Hhi. simpl.
  eexists. split; [reflexivity|]. split.
  - rewrite len_map, len_zrange. f_equal. lia.
  - apply mapM_map_id. intros x Hx. apply In_zrange in Hx.
    apply toMidi_range in Hlo, Hhi. apply roundtrip_12_131. lia.
Qed.

Lemma range_semitones_witness :
  exists l,
    PitchOps.range (JString "C4") (JString "E4") = Ok l /\
    len l = Z.max 0 (64 - 60 + 1) /\
    mapM (fun s => Pitch.toMidi (JString s)) l = Ok (zrange 60 (64 + 1)).
Proof.
  apply (range_semitones (JString "C4") (JString "E4")); reflexivity.
Defined.

(* ================================================================== *)
(** * Intervals *)
(* ================================================================== *)

Lemma genericInterval_sym (a b : jsval) (g : Z) :
  Pitch.genericInterval a b = Ok g -> Pitch.genericInterval b a = Ok g.
Proof.
  unfold Pitch.genericInterval.
  destruct (Pitch.parse a) as [pa|]; [|discriminate].
  destruct (Pitch.parse b) as [pb|]; [|discriminate].
  simpl. intros H. injection H as <-. f_equal. lia.
Qed.

Lemma genericInterval_pos (a b : jsval) (g : Z) :
  Pitch.genericInterval a b = Ok g -> 1 <= g.
Proof.
  unfold Pitch.genericInterval.
  destruct (Pitch.parse a) as [pa|]; [|discriminate].
  destruct (Pitch.parse b) as [pb|]; [|discriminate].
  simpl. intros H. injection H as <-. lia.
Qed.

(** The fields of the interval object, from the two semitone indices
    and the generic interval. *)
Lemma between_fields (a b : jsval) (i : Interval.t) :
  Interval.between a b = Ok i ->
  exists ma mb g,
    Pitch.toMidi a = Ok ma /\ Pitch.toMidi b = Ok mb /\
    Pitch.genericInterval a b = Ok g /\ 1 <= g /\
    Interval.semitones i = mb - ma /\
    Interval.generic i = g /\
    Interval.sgeneric (Interval.simple i) = Z.rem (g - 1) 7 + 1 /\
    Interval.ssemitones (Interval.simple i) = Z.rem (Z.abs (mb - ma)) 12 /\
    Interval.sname (Interval.simple i)
      = (Interval.calculateQuality (Z.rem (g - 1) 7 + 1)
           (Z.rem (Z.abs (mb - ma)) 12)
         ++ string_of_Z (Z.rem (g - 1) 7 + 1))%string.
Proof.
  unfold Interval.between.
  destruct (Pitch.toMidi a) as [ma|]; [|discriminate].
  destruct (Pitch.toMidi b) as [mb|]; [|discriminate].
  simpl bind.
  destruct (Pitch.genericInterval a b) as [g|] eqn:Eg; [|discriminate].
  simpl bind. cbv zeta. intros H. injection H as <-.
  exists ma, mb, g. cbn [Interval.semitones Interval.generic Interval.simple
                         Interval.sgeneric Interval.ssemitones Interval.sname].
  repeat split; try reflexivity.
  - apply (genericInterval_pos _ _ _ Eg).
  - destruct (mb - ma >=? 0) eqn:E; rewrite Z.geb_leb in E;
      [apply Z.leb_le in E | apply Z.leb_gt in E]; lia.
Qed.

(** X7.  [Interval.between] does not depend on the order of its two notes,
    except for the sign: the generic interval, the quality, the names
    and the whole [simple] part are the same, and [semitones] changes
    sign.  So the consonance of two voices is the same whichever voice
    is taken as the lower one. *)
Theorem between_swap (a b : jsval) (i : Interval.t) :
  Interval.between a b = Ok i ->
  exists j,
    Interval.between b a = Ok j /\
    Interval.simple j = Interval.simple i /\
    Interval.generic j = Interval.generic i /\
    Interval.quality j = Interval.quality i /\
    Interval.name j = Interval.name i /\
    Interval.compound j = Interval.compound i /\
    Interval.semitones j = - Interval.semitones i.
Proof.
  unfold Interval.between.
  destruct (Pitch.toMidi a) as [ma|]; [|discriminate].
  destruct (Pitch.toMidi b) as [mb|]; [|discriminate].
  simpl bind.
  destruct (Pitch.genericInterval a b) as [g|] eqn:Eg; [|discriminate].
  rewrite (genericInterval_sym _ _ _ Eg).
  simpl bind. cbv zeta. intros H. injection H as <-.
  eexists. split; [reflexivity|].
  cbn [Interval.semitones Interval.generic Interval.simple Interval.quality
       Interval.name Interval.compound].
  replace (Z.abs (ma - mb)) with (Z.abs (mb - ma)) by lia.
  repeat split.
  destruct (mb - ma >=? 0) eqn:E1; destruct (ma - mb >=? 0) eqn:E2;
    rewrite Z.geb_leb in E1, E2;
    first [apply Z.leb_le in E1 | apply Z.leb_gt in E1];
    first [apply Z.leb_le in E2 | apply Z.leb_gt in E2]; lia.
Qed.

Lemma between_swap_witness :
  exists j,
    Interval.between (JString "G4") (JString "C4") = Ok j /\
    Interval.sname (Interval.simple j) = "P5" /\
    Interval.semitones j = - 7.
Proof.
  destruct (between_swap (JString "C4") (JString "G4") _ eq_refl)
    as (j & Hj & Hs & _ & _ & _ & _ & Hsemi).
  exists j. split; [exact Hj|]. rewrite Hs, Hsemi. split; reflexivity.
Defined.

Lemma simple_names_table :
  forallb (fun g =>
    forallb (fun s =>
      negb (String.eqb (simple_name g s) "P8")
      && Bool.eqb (String.eqb (simple_name g s) "P1") ((g =? 1) && (s =? 0))
      && (negb (includes_str ["P1"; "P5"; "P8"; "m3"; "M3"; "m6"; "M6"]
                  (simple_name g s))
          || existsb (Z.eqb s) [0; 3; 4; 7; 8; 9]))
      (zrange 0 12)) (zrange 1 8) = true.
Proof. vm_compute. reflexivity. Qed.

Lemma simple_names_at (g s : Z) :
  1 <= g <= 7 -> 0 <= s <= 11 ->
  simple_name g s <> "P8"
  /\ (simple_name g s = "P1" <-> g = 1 /\ s = 0)
  /\ (includes_str ["P1"; "P5"; "P8"; "m3"; "M3"; "m6"; "M6"] (simple_name g s) = true ->
      In s [0; 3; 4; 7; 8; 9]).
Proof.
  intros Hg Hs. pose proof simple_names_table as Hall.
  rewrite forallb_forall in Hall.
  specialize (Hall g (proj2 (In_zrange 1 8 g) ltac:(lia))).
  rewrite forallb_forall in Hall.
  specialize (Hall s (proj2 (In_zrange 0 12 s) ltac:(lia))).
  apply andb_true_iff in Hall. destruct Hall as (Hall & H3).
  apply andb_true_iff in Hall. destruct Hall as (H1 & H2).
  apply negb_true_iff, String.eqb_neq in H1.
  apply Bool.eqb_prop in H2.
  split; [exact H1|]. split.
  - split.
    + intros E. apply String.eqb_eq in E. rewrite E in H2. symmetry in H2.
      apply andb_true_iff in H2. destruct H2 as (Ha & Hb).
      apply Z.eqb_eq in Ha, Hb. auto.
    + intros (-> & ->). reflexivity.
  - intros Hc. rewrite Hc in H3. cbn [negb orb] in H3.
    apply existsb_exists in H3. destruct H3 as (x & Hx & E).
    apply Z.eqb_eq in E. subst x. exact Hx.
Qed.

Lemma simple_bounds (g d : Z) :
  1 <= g -> 1 <= Z.rem (g - 1) 7 + 1 <= 7 /\ 0 <= Z.rem (Z.abs d) 12 <= 11.
Proof.
  intros Hg.
  pose proof (Z.rem_bound_pos (g - 1) 7 ltac:(lia) ltac:(lia)).
  pose proof (Z.rem_bound_pos (Z.abs d) 12 ltac:(lia) ltac:(lia)).
  lia.
Qed.

(** X8.  The [simple] part of an interval computed by [Interval.between]
    has a generic interval from 1 to 7 and from 0 to 11 semitones; its
    name is never ["P8"], and it is ["P1"] exactly when the notes have
    the same letter and a distance of whole octaves; the [semitones]
    field is the signed difference of the semitone indices. *)
Theorem between_simple_part (a b : jsval) (i : Interval.t) :
  Interval.between a b = Ok i ->
  1 <= sgeneric_of i <= 7 /\
  0 <= Interval.ssemitones (Interval.simple i) <= 11 /\
  sname_of i <> "P8" /\
  (sname_of i = "P1" <->
     Z.rem (Interval.generic i - 1) 7 = 0 /\ Z.rem (Interval.semitones i) 12 = 0) /\
  (exists ma mb, Pitch.toMidi a = Ok ma /\ Pitch.toMidi b = Ok mb /\
                 Interval.semitones i = mb - ma).
Proof.
  intros H. apply between_fields in H.
  destruct H as (ma & mb & g & Ha & Hb & _ & Hg & Hsemi & Hgen & Hsg & Hss & Hname).
  unfold sgeneric_of, sname_of. rewrite Hsg, Hss, Hname, Hgen, Hsemi.
  destruct (simple_bounds g (mb - ma) Hg) as (B1 & B2).
  destruct (simple_names_at _ _ B1 B2) as (N1 & N2 & _).
  split; [exact B1|]. split; [exact B2|]. split; [exact N1|].
  split.
  - unfold simple_name in N2. rewrite N2.
    rewrite Z.rem_abs_l by lia.
    split; intros (E1 & E2); split; lia.
  - exists ma, mb. auto.
Qed.

Lemma between_simple_part_witness :
  exists i, Interval.between (JString "C4") (JString "C5") = Ok i /\
            sname_of i = "P1" /\ Interval.generic i = 8.
Proof.
  eexists. split; [reflexivity|]. split; [|reflexivity].
  apply (between_simple_part (JString "C4") (JString "C5") _ eq_refl).
  split; reflexivity.
Defined.

(** X9.  A consonant interval computed by [Interval.between] has 0, 3, 4,
    7, 8 or 9 simple semitones; in particular it is never a tritone. *)
Theorem consonant_not_tritone (a b : jsval) (i : Interval.t) :
  Interval.between a b = Ok i ->
  Interval.isConsonant i = true ->
  In (Interval.ssemitones (Interval.simple i)) [0; 3; 4; 7; 8; 9]
  /\ Interval.isTritone i = false.
Proof.
  intros H Hc. apply between_fields in H.
  destruct H as (ma & mb & g & _ & _ & _ & Hg & _ & _ & Hsg & Hss & Hname).
  unfold Interval.isConsonant in Hc. unfold Interval.isTritone.
  rewrite Hname in Hc. rewrite Hss.
  destruct (simple_bounds g (mb - ma) Hg) as (B1 & B2).
  destruct (simple_names_at _ _ B1 B2) as (_ & _ & N3).
  specialize (N3 Hc). split; [exact N3|].
  apply Z.eqb_neq. simpl in N3. lia.
Qed.

Lemma consonant_not_tritone_witness :
  exists i, Interval.between (JString "C4") (JString "A4") = Ok i /\
            In (Interval.ssemitones (Interval.simple i)) [0; 3; 4; 7; 8; 9]
            /\ Interval.isTritone i = false.
Proof.
  eexists. split; [reflexivity|].
  apply (consonant_not_tritone (JString "C4") (JString "A4")); reflexivity.
Defined.

(* ================================================================== *)
(** * Scales and degrees *)
(* ================================================================== *)

Lemma indexOf_Z_from_includes (l : list Z) (x k : Z) :
  0 <= k ->
  (indexOf_from Z.eqb l x k =? -1) = negb (includes_Z l x).
Proof.
  unfold includes_Z. revert k. induction l as [|y l IH]; intros k Hk; simpl.
  - reflexivity.
  - rewrite (Z.eqb_sym x y). destruct (y =? x); simpl.
    + apply Z.eqb_neq. lia.
    + apply IH. lia.
Qed.

Lemma rem12_mod (z : Z) : Z.rem (Z.rem z 12 + 12) 12 = z mod 12.
Proof.
  pose proof (Z.rem_bound_abs z 12 ltac:(lia)) as Hb.
  assert (Hn : 0 <= Z.rem z 12 + 12) by lia.
  rewrite Z.rem_mod_nonneg by lia.
  rewrite <- Zplus_mod_idemp_l.
  assert (E : (Z.rem z 12) mod 12 = z mod 12).
  { pose proof (Z.quot_rem' z 12) as Hq.
    rewrite Hq at 2. rewrite Z.add_comm, Z.mul_comm, Z.mod_add by lia.
    reflexivity. }
  rewrite E. rewrite Zplus_mod_idemp_l.
  replace (z + 12) with (z + 1 * 12) by lia.
  apply Z.mod_add. lia.
Qed.

Lemma getPattern_length (m : Scale.mode) : len (Scale.getPattern m) = 7.
Proof. destruct m; reflexivity. Qed.

(** [getDegree] in terms of the semitone indices. *)
Lemma getDegree_eq (note : jsval) (tonic : string) (m : Scale.mode) (x t : Z) :
  Pitch.toMidi note = Ok x ->
  Pitch.toMidi (JString (tonic ++ "0")) = Ok t ->
  Scale.getDegree note tonic m
  = Ok (let k := indexOf_Z (Scale.getPattern m) ((x - t) mod 12) in
        if negb (k =? -1) then Some (k + 1) else None).
Proof.
  intros Hx Ht. unfold Scale.getDegree. rewrite Hx, Ht. simpl bind. cbv zeta.
  rewrite rem12_mod. reflexivity.
Qed.

Lemma containsNote_eq (note : jsval) (tonic : string) (m : Scale.mode) (x t : Z) :
  Pitch.toMidi note = Ok x ->
  Pitch.toMidi (JString (tonic ++ "0")) = Ok t ->
  ScaleOps.containsNote note tonic m
  = Ok (includes_Z (Scale.getPattern m) ((x - t) mod 12)).
Proof.
  intros Hx Ht. unfold ScaleOps.containsNote. rewrite Hx, Ht. simpl bind. cbv zeta.
  rewrite rem12_mod. reflexivity.
Qed.

(** X10.  [Scale.getDegree] returns [null] or a degree from 1 to 7, and
    [Scale.containsNote] holds exactly when the degree is not [null]
    (and throws when [getDegree] does). *)
Theorem containsNote_iff_degree (note : jsval) (tonic : string) (m : Scale.mode) :
  ScaleOps.containsNote note tonic m
  = (let* d := Scale.getDegree note tonic m in
     Ok (match d with Some _ => true | None => false end))
  /\ (forall k, Scale.getDegree note tonic m = Ok (Some k) -> 1 <= k <= 7).
Proof.
  unfold ScaleOps.containsNote, Scale.getDegree.
  destruct (Pitch.toMidi note) as [x|]; [|split; [reflexivity | discriminate]].
  simpl bind.
  destruct (Pitch.toMidi (JString (tonic ++ "0"))) as [t|];
    [|split; [reflexivity | discriminate]].
  simpl bind. cbv zeta. unfold indexOf_Z.
  set (rp := Z.rem (Z.rem (x - t) 12 + 12) 12).
  pose proof (indexOf_Z_from_includes (Scale.getPattern m) rp 0 ltac:(lia)) as Hi.
  split.
  - rewrite Hi. destruct (includes_Z (Scale.getPattern m) rp); reflexivity.
  - intros k Hk.
    destruct (indexOf_from_range Z.eqb (Scale.getPattern m) rp 0) as [E | E].
    + rewrite E in Hk. discriminate Hk.
    + rewrite getPattern_length in E.
      destruct (negb (indexOf_from Z.eqb (Scale.getPattern m) rp 0 =? -1));
        [|discriminate Hk].
      injection Hk as <-. lia.
Qed.

Lemma parse_string_match (s : string) (l : ascii) (acc : string) (d : ascii) :
  Pitch.regex_match s = Some (l, acc, d) ->
  Pitch.parse_string s
  = Ok (Pitch.mkParsed (Pitch.str1 (Pitch.toUpperCase l)) acc (Pitch.parseInt d)
          ((Pitch.parseInt d + 1) * 12 + semitone_of l acc)).
Proof. intros H. unfold Pitch.parse_string. rewrite H. reflexivity. Qed.

Lemma toMidi_match (s : string) (l : ascii) (acc : string) (d : ascii) :
  Pitch.regex_match s = Some (l, acc, d) ->
  Pitch.toMidi (JString s) = Ok ((Pitch.parseInt d + 1) * 12 + semitone_of l acc).
Proof.
  intros H. unfold Pitch.toMidi, Pitch.parse.
  rewrite (parse_string_match _ _ _ _ H). reflexivity.
Qed.

Lemma toMidi_Ok_match (s : string) (x : Z) :
  Pitch.toMidi (JString s) = Ok x ->
  exists l acc d, Pitch.regex_match s = Some (l, acc, d).
Proof.
  unfold Pitch.toMidi, Pitch.parse, Pitch.parse_string.
  destruct (Pitch.regex_match s) as [[[l acc] d]|]; [|discriminate].
  intros _. eauto.
Qed.

(** The letter and the accidental of a tonic that parses with an octave
    digit appended. *)
Lemma tonic_match (tonic : string) (d0 : ascii) (l : ascii) (acc : string) (d1 : ascii) :
  Pitch.regex_match (tonic ++ Pitch.str1 d0) = Some (l, acc, d1) ->
  d1 = d0 /\
  forall d, Pitch.is_digit d = true ->
    Pitch.regex_match (tonic ++ Pitch.str1 d) = Some (l, acc, d).
Proof.
  unfold Pitch.regex_match.
  destruct tonic as [|c1 [|c2 [|c3 rest]]]; cbn [String.append Pitch.str1].
  - discriminate.
  - destruct (Pitch.is_letter_AG c1); [|discriminate].
    destruct (Pitch.is_digit d0); [|discriminate].
    cbn [andb]. intros H. injection H as <- <- <-.
    split; [reflexivity|]. intros d Hd. rewrite Hd. reflexivity.
  - destruct (Pitch.is_letter_AG c1); [|discriminate].
    destruct (Pitch.is_accidental c2); [|discriminate].
    destruct (Pitch.is_digit d0); [|discriminate].
    cbn [andb]. intros H. injection H as <- <- <-.
    split; [reflexivity|]. intros d Hd. rewrite Hd. reflexivity.
  - destruct rest; discriminate.
Qed.

(** A tonic followed by any octave digit parses when it parses with one
    digit; the semitone indices differ by whole octaves. *)
Lemma parse_tonic_digits (tonic : string) (d0 d : ascii) (t : Z) :
  Pitch.is_digit d = true ->
  Pitch.toMidi (JString (tonic ++ Pitch.str1 d0)) = Ok t ->
  Pitch.toMidi (JString (tonic ++ Pitch.str1 d))
  = Ok (t + 12 * (Pitch.parseInt d - Pitch.parseInt d0)).
Proof.
  intros Hd Ht.
  destruct (toMidi_Ok_match _ _ Ht) as (l & acc & d1 & Hm).
  destruct (tonic_match _ _ _ _ _ Hm) as (-> & Hall).
  rewrite (toMidi_match _ _ _ _ Hm) in Ht. injection Ht as <-.
  rewrite (toMidi_match _ _ _ _ (Hall d Hd)). f_equal. lia.
Qed.

Lemma parse_tonic_octave (tonic : string) (d : ascii) (t : Z) :
  Pitch.is_digit d = true ->
  Pitch.toMidi (JString (tonic ++ "0")) = Ok t ->
  Pitch.toMidi (JString (tonic ++ Pitch.str1 d)) = Ok (t + 12 * Pitch.parseInt d).
Proof.
  intros Hd Ht.
  rewrite (parse_tonic_digits tonic "0" d t Hd Ht).
  f_equal. change (Pitch.parseInt "0") with 0. lia.
Qed.

Lemma pattern_starts_at_0 (m : Scale.mode) : indexOf_Z (Scale.getPattern m) 0 = 0.
Proof. destruct m; reflexivity. Qed.

(** X11.  The tonic, in any octave, has degree 1 in every mode;
    [Scale.isTonic] accepts it. *)
Theorem tonic_has_degree_1 (tonic : string) (d : ascii) (m : Scale.mode) (t : Z) :
  Pitch.is_digit d = true ->
  Pitch.toMidi (JString (tonic ++ "0")) = Ok t ->
  Scale.getDegree (JString (tonic ++ Pitch.str1 d)) tonic m = Ok (Some 1)
  /\ ScaleOps.isTonic (JString (tonic ++ Pitch.str1 d)) tonic = Ok true.
Proof.
  intros Hd Ht.
  pose proof (parse_tonic_octave tonic d t Hd Ht) as Hn.
  assert (E : forall m', Scale.getDegree (JString (tonic ++ Pitch.str1 d)) tonic m'
                         = Ok (Some 1)).
  { intros m'. rewrite (getDegree_eq _ _ _ _ _ Hn Ht). cbv zeta.
    replace ((t + 12 * Pitch.parseInt d - t) mod 12) with 0
      by (replace (t + 12 * Pitch.parseInt d - t) with (Pitch.parseInt d * 12) by lia;
          symmetry; apply Z.mod_mul; lia).
    rewrite pattern_starts_at_0. reflexivity. }
  split; [apply E|].
  unfold ScaleOps.isTonic. rewrite E. reflexivity.
Qed.

Lemma tonic_has_degree_1_witness :
  Scale.getDegree (JString ("Bb" ++ Pitch.str1 "5")) "Bb" Scale.dorian = Ok (Some 1)
  /\ ScaleOps.isTonic (JString ("Bb" ++ Pitch.str1 "5")) "Bb" = Ok true.
Proof.
  apply (tonic_has_degree_1 "Bb" "5" Scale.dorian 22); reflexivity.
Defined.

(** X12.  The degree of a note depends on its pitch class only: two notes
    whose semitone indices differ by a multiple of 12 (octaves apart,
    or enharmonic spellings) have the same degree and are in the same
    scales. *)
Theorem getDegree_pitch_class (a b : jsval) (x y : Z) (tonic : string) (m : Scale.mode) :
  Pitch.toMidi a = Ok x -> Pitch.toMidi b = Ok y ->
  (x - y) mod 12 = 0 ->
  Scale.getDegree a tonic m = Scale.getDegree b tonic m
  /\ ScaleOps.containsNote a tonic m = ScaleOps.containsNote b tonic m.
Proof.
  intros Hx Hy Hxy.
  unfold Scale.getDegree, ScaleOps.containsNote. rewrite Hx, Hy. simpl bind.
  destruct (Pitch.toMidi (JString (tonic ++ "0"))) as [t|]; [|split; reflexivity].
  simpl bind. cbv zeta. rewrite !rem12_mod.
  assert (E : (x - t) mod 12 = (y - t) mod 12).
  { replace (x - t) with ((y - t) + (x - y)) by lia.
    rewrite Zplus_mod, Hxy, Z.add_0_r, Z.mod_mod by lia. reflexivity. }
  rewrite E. split; reflexivity.
Qed.

Lemma getDegree_pitch_class_witness :
  Scale.getDegree (JString "C#5") "D" Scale.major
  = Scale.getDegree (JString "Db3") "D" Scale.major
  /\ ScaleOps.containsNote (JString "C#5") "D" Scale.major
     = ScaleOps.containsNote (JString "Db3") "D" Scale.major.
Proof.
  apply (getDegree_pitch_class (JString "C#5") (JString "Db3") 73 49);
    reflexivity.
Defined.

Lemma semitone_of_range (l : ascii) (acc : string) : 0 <= semitone_of l acc <= 11.
Proof.
  unfold semitone_of. cbv zeta.
  match goal with
  | |- context [indexOf_str Pitch.NOTE_NAMES ?n =? -1] =>
      pose proof (indexOf_str_range Pitch.NOTE_NAMES n) as Hn;
      destruct (indexOf_str Pitch.NOTE_NAMES n =? -1) eqn:En
  end.
  - pose proof (indexOf_str_range Pitch.NOTE_NAMES
                  (Pitch.str1 (Pitch.toUpperCase l))) as Hb.
    change (len Pitch.NOTE_NAMES) with 12 in Hb.
    destruct (acc =? "#")%string;
      match goal with
      | |- 0 <= Z.rem ?x 12 <= 11 =>
          pose proof (Z.rem_bound_pos x 12 ltac:(lia) ltac:(lia)); lia
      end.
  - apply Z.eqb_neq in En. change (len Pitch.NOTE_NAMES) with 12 in Hn. lia.
Qed.

(** The semitone index of a tonic with the octave digit 4. *)
Lemma tonic4_range (tonic : string) (t4 : Z) :
  Pitch.toMidi (JString (tonic ++ "4")) = Ok t4 -> 60 <= t4 <= 71.
Proof.
  intros H. destruct (toMidi_Ok_match _ _ H) as (l & acc & d1 & Hm).
  destruct (tonic_match tonic "4" _ _ _ Hm) as (-> & _).
  rewrite (toMidi_match _ _ _ _ Hm) in H.
  assert (E : t4 = (Pitch.parseInt "4" + 1) * 12 + semitone_of l acc)
    by congruence.
  pose proof (semitone_of_range l acc).
  change (Pitch.parseInt "4") with 4 in E. lia.
Qed.

Lemma digit_0 : Pitch.is_digit "0" = true.
Proof. reflexivity. Qed.

Lemma tonic4_tonic0 (tonic : string) (t4 : Z) :
  Pitch.toMidi (JString (tonic ++ "4")) = Ok t4 ->
  Pitch.toMidi (JString (tonic ++ "0")) = Ok (t4 - 48).
Proof.
  intros H.
  pose proof (parse_tonic_digits tonic "4" "0" t4 digit_0 H) as E.
  change (Pitch.str1 "0") with "0" in E. rewrite E. reflexivity.
Qed.

(** The name that [Pitch.fromMidi] gives, without its octave digit and
    put in octave 4. *)
Lemma name_in_octave_4 (x : Z) :
  12 <= x <= 131 ->
  Pitch.toMidi (JString (drop_last (Pitch.fromMidi x) ++ "4")) = Ok (60 + x mod 12).
Proof.
  intros Hx.
  assert (Hall : forallb (fun x =>
            match Pitch.toMidi (JString (drop_last (Pitch.fromMidi x) ++ "4")) with
            | Ok y => y =? 60 + x mod 12
            | Throw _ => false
            end) (zrange 12 132) = true) by (vm_compute; reflexivity).
  rewrite forallb_forall in Hall.
  specialize (Hall x (proj2 (In_zrange 12 132 x) ltac:(lia))).
  destruct (Pitch.toMidi (JString (drop_last (Pitch.fromMidi x) ++ "4"))) as [y|];
    [|discriminate Hall].
  apply Z.eqb_eq in Hall. subst y. reflexivity.
Qed.

Lemma pattern_offsets (m : Scale.mode) (off : Z) :
  In off (Scale.getPattern m) -> 0 <= off <= 11.
Proof. destruct m; simpl; intuition lia. Qed.

Lemma pattern_index (m : Scale.mode) (i off : Z) :
  nthZ (Scale.getPattern m) i = Some off ->
  indexOf_Z (Scale.getPattern m) off = i /\ In off (Scale.getPattern m).
Proof.
  intros H. pose proof (nthZ_Some_range _ _ _ H) as (Hi & Hin).
  rewrite getPattern_length in Hi. split; [|exact Hin].
  assert (Hc : i = 0 \/ i = 1 \/ i = 2 \/ i = 3 \/ i = 4 \/ i = 5 \/ i = 6) by lia.
  destruct m; repeat (destruct Hc as [-> | Hc]); try subst i;
    vm_compute in H; injection H as <-; reflexivity.
Qed.

(** X13.  The note that [Scale.getLeadingTone] names is the leading tone:
    with an octave digit, [Scale.getDegree] gives it degree 7 and
    [Scale.isLeadingTone] accepts it, in every mode. *)
Theorem leading_tone_has_degree_7 (tonic : string) (m : Scale.mode) (lt : string) :
  ScaleOps.getLeadingTone tonic m = Ok lt ->
  Scale.getDegree (JString (lt ++ "4")) tonic m = Ok (Some 7)
  /\ ScaleOps.isLeadingTone (JString (lt ++ "4")) tonic m = Ok true.
Proof.
  unfold ScaleOps.getLeadingTone. cbv zeta.
  destruct (Pitch.toMidi (JString (tonic ++ "4"))) as [t4|] eqn:Ht; [|discriminate].
  simpl bind.
  destruct (nthZ (Scale.getPattern m) 6) as [off|] eqn:Hoff; [|discriminate].
  intros H. injection H as <-.
  pose proof (tonic4_range _ _ Ht) as Hr.
  destruct (pattern_index _ _ _ Hoff) as (Hidx & Hin).
  pose proof (pattern_offsets _ _ Hin) as Ho.
  assert (E : Scale.getDegree (JString (drop_last (Pitch.fromMidi (t4 + off)) ++ "4"))
                tonic m = Ok (Some 7)).
  { rewrite (getDegree_eq _ _ _ _ _ (name_in_octave_4 (t4 + off) ltac:(lia))
               (tonic4_tonic0 _ _ Ht)).
    cbv zeta.
    replace ((60 + (t4 + off) mod 12 - (t4 - 48)) mod 12) with off
      by (Z.div_mod_to_equations; lia).
    rewrite Hidx. reflexivity. }
  split; [exact E|].
  unfold ScaleOps.isLeadingTone. rewrite E. reflexivity.
Qed.

Lemma leading_tone_has_degree_7_witness :
  exists lt,
    ScaleOps.getLeadingTone "Eb" Scale.harmonicMinor = Ok lt /\
    Scale.getDegree (JString (lt ++ "4")) "Eb" Scale.harmonicMinor = Ok (Some 7) /\
    ScaleOps.isLeadingTone (JString (lt ++ "4")) "Eb" Scale.harmonicMinor = Ok true.
Proof.
  eexists. split; [reflexivity|].
  apply (leading_tone_has_degree_7 "Eb" Scale.harmonicMinor). reflexivity.
Defined.

Lemma relative_keys_canonical :
  forallb (fun k =>
    match ScaleOps.relativeMinor k with
    | Ok mn => match ScaleOps.relativeMajor mn with
               | Ok k' => String.eqb k' k
               | Throw _ => false
               end
    | Throw _ => false
    end) Pitch.NOTE_NAMES = true.
Proof. vm_compute. reflexivity. Qed.

(** X14.  [Scale.relativeMajor] undoes [Scale.relativeMinor]: the key it
    returns has the pitch of the key one started from, and is that key
    itself when it is one of the twelve names of [NOTE_NAMES]. *)
Theorem relative_keys_round_trip (k mn : string) :
  ScaleOps.relativeMinor k = Ok mn ->
  exists k',
    ScaleOps.relativeMajor mn = Ok k' /\
    Pitch.toMidi (JString (k' ++ "4")) = Pitch.toMidi (JString (k ++ "4")) /\
    (In k Pitch.NOTE_NAMES -> k' = k).
Proof.
  intros H. pose proof H as H0. unfold ScaleOps.relativeMinor in H.
  destruct (Pitch.toMidi (JString (k ++ "4"))) as [t4|] eqn:Ht; [|discriminate].
  cbn [bind] in H. injection H as <-.
  pose proof (tonic4_range _ _ Ht) as Hr.
  unfold ScaleOps.relativeMajor, ScaleOps.RELATIVE_MINOR_OFFSET.
  rewrite (name_in_octave_4 (t4 + -3) ltac:(lia)). cbn [bind].
  eexists. split; [reflexivity|]. split.
  - rewrite name_in_octave_4
      by (pose proof (Z.mod_pos_bound (t4 + -3) 12 ltac:(lia)); lia).
    f_equal. Z.div_mod_to_equations. lia.
  - intros Hin. pose proof relative_keys_canonical as Hall.
    rewrite forallb_forall in Hall. specialize (Hall k Hin).
    rewrite H0 in Hall.
    unfold ScaleOps.relativeMajor, ScaleOps.RELATIVE_MINOR_OFFSET in Hall.
    rewrite (name_in_octave_4 (t4 + -3) ltac:(lia)) in Hall. cbn [bind] in Hall.
    apply String.eqb_eq in Hall. exact Hall.
Qed.

Lemma relative_keys_round_trip_witness :
  exists k',
    ScaleOps.relativeMajor "G" = Ok k' /\
    Pitch.toMidi (JString (k' ++ "4")) = Pitch.toMidi (JString ("Bb" ++ "4")) /\
    (In "Bb" Pitch.NOTE_NAMES -> k' = "Bb").
Proof.
  apply (relative_keys_round_trip "Bb" "G"). reflexivity.
Defined.

Lemma len_app {A : Type} (l1 l2 : list A) : len (l1 ++ l2) = len l1 + len l2.
Proof. unfold len. rewrite length_app. lia. Qed.

Lemma len_flat_map {A B : Type} (f : A -> list B) (c : Z) (l : list A) :
  (forall x, len (f x) = c) -> len (flat_map f l) = c * len l.
Proof.
  intros Hf. induction l as [|x l IH]; simpl.
  - unfold len. simpl. lia.
  - rewrite len_app, Hf, IH. unfold len. simpl List.length. lia.
Qed.

Lemma includes_Z_In (l : list Z) (x : Z) : In x l -> includes_Z l x = true.
Proof.
  intros H. unfold includes_Z. apply existsb_exists.
  exists x. split; [exact H | apply Z.eqb_refl].
Qed.

Lemma pattern_has_0 (m : Scale.mode) : In 0 (Scale.getPattern m).
Proof. destruct m; left; reflexivity. Qed.

(** A note [off] semitones and some octaves above the tonic is in the
    scale when [off] is an offset of the pattern. *)
Lemma containsNote_offset (tonic : string) (d : ascii) (m : Scale.mode)
    (tm off o : Z) :
  Pitch.is_digit d = true ->
  Pitch.toMidi (JString (tonic ++ Pitch.str1 d)) = Ok tm ->
  In off (Scale.getPattern m) ->
  12 <= tm + off + o * 12 <= 131 ->
  ScaleOps.containsNote (JString (Pitch.fromMidi (tm + off + o * 12))) tonic m = Ok true
  /\ Scale.getDegree (JString (Pitch.fromMidi (tm + off + o * 12))) tonic m
     = Ok (Some (indexOf_Z (Scale.getPattern m) off + 1)).
Proof.
  intros Hd Ht Hoff Hr.
  pose proof (parse_tonic_digits tonic d "0" tm digit_0 Ht) as H0.
  change (Pitch.str1 "0") with "0" in H0.
  pose proof (roundtrip_12_131 _ Hr) as Hx.
  pose proof (pattern_offsets _ _ Hoff) as Ho.
  assert (E : (tm + off + o * 12
               - (tm + 12 * (Pitch.parseInt "0" - Pitch.parseInt d))) mod 12 = off).
  { generalize (Pitch.parseInt "0" - Pitch.parseInt d). intros z.
    Z.div_mod_to_equations. lia. }
  split.
  - rewrite (containsNote_eq _ _ _ _ _ Hx H0), E.
    rewrite (includes_Z_In _ _ Hoff). reflexivity.
  - rewrite (getDegree_eq _ _ _ _ _ Hx H0). cbv zeta. rewrite E.
    pose proof (indexOf_Z_from_includes (Scale.getPattern m) off 0 ltac:(lia)) as Hi.
    rewrite (includes_Z_In _ _ Hoff) in Hi. unfold indexOf_Z. rewrite Hi.
    reflexivity.
Qed.

(** X15.  [Scale.getNotes] over [k] octaves returns [7 * k + 1] notes (none
    for [k <= 0]); as long as the top note is one that parses, every
    note it returns is a note of the scale for [Scale.containsNote]. *)
Theorem getNotes_in_scale (tonic : string) (d : ascii) (m : Scale.mode) (k tm : Z) :
  Pitch.is_digit d = true ->
  Pitch.toMidi (JString (tonic ++ Pitch.str1 d)) = Ok tm ->
  exists l,
    ScaleOps.getNotes (JString (tonic ++ Pitch.str1 d)) m k = Ok l /\
    len l = (if k >? 0 then 7 * k + 1 else 0) /\
    (tm + k * 12 <= 131 ->
     forall n, In n l -> ScaleOps.containsNote (JString n) tonic m = Ok true).
Proof.
  intros Hd Ht. unfold ScaleOps.getNotes. rewrite Ht. cbn [bind]. cbv zeta.
  eexists. split; [reflexivity|].
  pose proof (toMidi_range _ _ Ht) as Htm.
  set (notes := flat_map _ (zrange 0 k)).
  assert (Hlen : len notes = 7 * Z.max 0 k).
  { unfold notes. rewrite (len_flat_map _ 7).
    - rewrite len_zrange. f_equal. lia.
    - intros x. rewrite len_map. apply getPattern_length. }
  assert (Hin : tm + k * 12 <= 131 -> forall n, In n notes ->
                ScaleOps.containsNote (JString n) tonic m = Ok true).
  { intros Htop n Hn. unfold notes in Hn. apply in_flat_map in Hn.
    destruct Hn as (oct & Hoct & Hn). apply In_zrange in Hoct.
    apply in_map_iff in Hn. destruct Hn as (off & <- & Hoff).
    pose proof (pattern_offsets _ _ Hoff).
    apply (containsNote_offset tonic d m tm off oct Hd Ht Hoff). lia. }
  destruct (k >? 0) eqn:Ek; rewrite Z.gtb_ltb in Ek;
    [apply Z.ltb_lt in Ek | apply Z.ltb_ge in Ek].
  - split.
    + rewrite len_app, Hlen. unfold len. simpl List.length. lia.
    + intros Htop n Hn. apply in_app_or in Hn. destruct Hn as [Hn | [<- | []]].
      * apply Hin; assumption.
      * replace (tm + k * 12) with (tm + 0 + k * 12) by lia.
        apply (containsNote_offset tonic d m tm 0 k Hd Ht (pattern_has_0 m)). lia.
  - split; [rewrite Hlen; lia | exact Hin].
Qed.

Lemma getNotes_in_scale_witness :
  exists l,
    ScaleOps.getNotes (JString ("D" ++ Pitch.str1 "4")) Scale.dorian 2 = Ok l /\
    len l = (if 2 >? 0 then 7 * 2 + 1 else 0) /\
    (62 + 2 * 12 <= 131 ->
     forall n, In n l -> ScaleOps.containsNote (JString n) "D" Scale.dorian = Ok true).
Proof.
  apply (getNotes_in_scale "D" "4" Scale.dorian 2 62); reflexivity.
Defined.

(** X16.  [Scale.getNotFromDegree] and [Scale.getDegree] are inverse to each
    other: when the note returned for a [degree >= 1] is one that
    parses, its degree is [degree] reduced to 1..7. *)
Theorem degree_of_getNotFromDegree (degree : Z) (tonic : string) (d : ascii)
    (m : Scale.mode) (n : string) (x : Z) :
  1 <= degree ->
  Pitch.is_digit d = true ->
  ScaleOps.getNotFromDegree degree (JString (tonic ++ Pitch.str1 d)) m = Ok (Some n) ->
  Pitch.toMidi (JString n) = Ok x ->
  Scale.getDegree (JString n) tonic m = Ok (Some ((degree - 1) mod 7 + 1)).
Proof.
  intros Hdeg Hd H Hx. unfold ScaleOps.getNotFromDegree in H.
  destruct (Pitch.toMidi (JString (tonic ++ Pitch.str1 d))) as [tm|] eqn:Ht;
    [|discriminate H].
  cbn [bind] in H. cbv zeta in H.
  rewrite Z.rem_mod_nonneg in H by lia.
  destruct (nthZ (Scale.getPattern m) ((degree - 1) mod 7)) as [off|] eqn:Hoff;
    [|discriminate H].
  destruct (pattern_index _ _ _ Hoff) as (Hidx & Hin).
  pose proof (pattern_offsets _ _ Hin) as Ho.
  pose proof (toMidi_range _ _ Ht) as Htm.
  assert (Hq : 0 <= (degree - 1) / 7) by (apply Z.div_pos; lia).
  rewrite fromMidi_value_in_range in H by lia.
  injection H as <-.
  assert (Hr : 12 <= tm + off + (degree - 1) / 7 * 12 <= 131).
  { destruct (Z_le_gt_dec (tm + off + (degree - 1) / 7 * 12) 131) as [Hle | Hgt];
      [lia|].
    rewrite fromMidi_above_131 in Hx by lia. discriminate Hx. }
  destruct (containsNote_offset tonic d m tm off ((degree - 1) / 7) Hd Ht Hin Hr)
    as (_ & E).
  rewrite E, Hidx. reflexivity.
Qed.

Lemma degree_of_getNotFromDegree_witness :
  Scale.getDegree (JString "C#6") "D" Scale.major = Ok (Some ((14 - 1) mod 7 + 1)).
Proof.
  apply (degree_of_getNotFromDegree 14 "D" "4" Scale.major "C#6" 85).
  - lia.
  - reflexivity.
  - reflexivity.
  - reflexivity.
Defined.

Lemma diatonic_from_filter (tonic : string) (m : Scale.mode) (t : Z) (midis : list Z) :
  Pitch.toMidi (JString (tonic ++ "0")) = Ok t ->
  (forall x, In x midis -> 12 <= x <= 131) ->
  ScaleOps.diatonic_from tonic m midis
  = Ok (filter (fun n => match ScaleOps.containsNote (JString n) tonic m with
                         | Ok b => b
                         | Throw _ => false
                         end)
               (map Pitch.fromMidi midis)).
Proof.
  intros Ht. induction midis as [|x midis IH]; intros Hr.
  - reflexivity.
  - cbn [ScaleOps.diatonic_from map filter]. cbv zeta.
    pose proof (roundtrip_12_131 x (Hr x (or_introl eq_refl))) as Hx.
    rewrite (containsNote_eq _ _ m _ _ Hx Ht). cbn [bind].
    rewrite IH by (intros y Hy; apply Hr; right; exact Hy).
    cbn [bind]. reflexivity.
Qed.

(** X17.  [Scale.getDiatonicRange] returns the notes of [Pitch.range] that
    [Scale.containsNote] accepts, in the same order; it returns (it
    does not throw) whenever the two bounds and the tonic parse. *)
Theorem getDiatonicRange_filters_range (tonic : string) (m : Scale.mode)
    (low high : jsval) (lo hi t : Z) :
  Pitch.toMidi low = Ok lo -> Pitch.toMidi high = Ok hi ->
  Pitch.toMidi (JString (tonic ++ "0")) = Ok t ->
  exists l r,
    ScaleOps.getDiatonicRange tonic m low high = Ok l /\
    PitchOps.range low high = Ok r /\
    l = filter (fun n => match ScaleOps.containsNote (JString n) tonic m with
                         | Ok b => b
                         | Throw _ => false
                         end) r.
Proof.
  intros Hlo Hhi Ht.
  unfold ScaleOps.getDiatonicRange, PitchOps.range. rewrite Hlo, Hhi. cbn [bind].
  rewrite (diatonic_from_filter tonic m t _ Ht).
  - do 2 eexists. split; [reflexivity|]. split; reflexivity.
  - intros x Hx. apply In_zrange in Hx.
    apply toMidi_range in Hlo, Hhi. lia.
Qed.

Lemma getDiatonicRange_filters_range_witness :
  exists l r,
    ScaleOps.getDiatonicRange "C" Scale.major (JString "C4") (JString "G4") = Ok l /\
    PitchOps.range (JString "C4") (JString "G4") = Ok r /\
    l = filter (fun n => match ScaleOps.containsNote (JString n) "C" Scale.major with
                         | Ok b => b
                         | Throw _ => false
                         end) r.
Proof.
  apply (getDiatonicRange_filters_range "C" Scale.major
           (JString "C4") (JString "G4") 60 67 12); reflexivity.
Defined.

(* ================================================================== *)
(** * The layout of the counterpoint array *)
(* ================================================================== *)

Lemma strong_beat_even (i cpLen : Z) :
  0 <= i -> Z.rem cpLen 2 = 1 -> i < cpLen ->
  SecondSpecies.isStrongBeat i cpLen = (Z.rem i 2 =? 0).
Proof.
  intros Hi Hodd Hlt. unfold SecondSpecies.isStrongBeat.
  destruct (Z.rem i 2 =? 0) eqn:E0; [reflexivity|].
  apply Z.eqb_neq in E0. cbn [orb]. apply Z.eqb_neq. intros ->.
  apply E0. rewrite Z.rem_mod_nonneg in * by lia.
  Z.div_mod_to_equations. lia.
Qed.

Lemma downbeat_multiple_of_4 (i cpLen : Z) :
  0 <= i -> Z.rem cpLen 4 = 1 -> i < cpLen ->
  ThirdSpecies.isDownbeat i cpLen = (Z.rem i 4 =? 0).
Proof.
  intros Hi Hlen Hlt. unfold ThirdSpecies.isDownbeat.
  destruct (Z.rem i 4 =? 0) eqn:E0; [reflexivity|].
  apply Z.eqb_neq in E0. cbn [orb]. apply Z.eqb_neq. intros ->.
  apply E0. rewrite Z.rem_mod_nonneg in * by lia.
  Z.div_mod_to_equations. lia.
Qed.

(** X18.  In the second species every index from 0 on is a strong beat or a
    weak beat, never both; in a counterpoint of odd length the strong
    beats are the even indices. *)
Theorem second_species_beats (i cpLen : Z) :
  0 <= i ->
  SecondSpecies.isWeakBeat i cpLen = negb (SecondSpecies.isStrongBeat i cpLen)
  /\ (Z.rem cpLen 2 = 1 -> i < cpLen ->
      SecondSpecies.isStrongBeat i cpLen = (Z.rem i 2 =? 0)).
Proof.
  intros Hi.
  pose proof (Z.rem_bound_pos i 2 Hi ltac:(lia)) as Hr.
  split.
  - unfold SecondSpecies.isWeakBeat, SecondSpecies.isStrongBeat.
    destruct (Z.rem i 2 =? 0) eqn:E0; destruct (Z.rem i 2 =? 1) eqn:E1;
      destruct (i =? cpLen - 1); try reflexivity;
      try (apply Z.eqb_eq in E0); try (apply Z.eqb_eq in E1);
      try (apply Z.eqb_neq in E0); try (apply Z.eqb_neq in E1); lia.
  - intros Hodd Hlt. apply strong_beat_even; assumption.
Qed.

Lemma second_species_beats_witness :
  SecondSpecies.isWeakBeat 3 5 = negb (SecondSpecies.isStrongBeat 3 5)
  /\ (Z.rem 5 2 = 1 -> 3 < 5 -> SecondSpecies.isStrongBeat 3 5 = (Z.rem 3 2 =? 0)).
Proof. apply (second_species_beats 3 5). lia. Defined.

(** X19.  In the third species every index from 0 on has exactly one of the
    three roles downbeat, semi-strong beat and weak beat; in a
    counterpoint of length [4 k - 3] the downbeats are the multiples of
    4. *)
Theorem third_species_beats (i cpLen : Z) :
  0 <= i ->
  (ThirdSpecies.isDownbeat i cpLen = true
   /\ ThirdSpecies.isSemiStrong i cpLen = false
   /\ ThirdSpecies.isWeakBeat i cpLen = false
   \/ ThirdSpecies.isDownbeat i cpLen = false
      /\ ThirdSpecies.isSemiStrong i cpLen = true
      /\ ThirdSpecies.isWeakBeat i cpLen = false
   \/ ThirdSpecies.isDownbeat i cpLen = false
      /\ ThirdSpecies.isSemiStrong i cpLen = false
      /\ ThirdSpecies.isWeakBeat i cpLen = true)
  /\ (Z.rem cpLen 4 = 1 -> i < cpLen ->
      ThirdSpecies.isDownbeat i cpLen = (Z.rem i 4 =? 0)).
Proof.
  intros Hi.
  unfold ThirdSpecies.isDownbeat, ThirdSpecies.isSemiStrong, ThirdSpecies.isWeakBeat.
  cbv zeta.
  pose proof (Z.rem_bound_pos i 4 Hi ltac:(lia)) as Hr.
  split.
  - destruct (i =? cpLen - 1); cbn [negb andb orb];
      rewrite ?andb_false_r, ?andb_true_r, ?orb_true_r, ?orb_false_r.
    + auto.
    + assert (Hc : Z.rem i 4 = 0 \/ Z.rem i 4 = 1 \/ Z.rem i 4 = 2 \/ Z.rem i 4 = 3)
        by lia.
      destruct Hc as [E | [E | [E | E]]]; rewrite E; cbn; auto.
  - intros Hlen Hlt. fold (ThirdSpecies.isDownbeat i cpLen).
    apply downbeat_multiple_of_4; assumption.
Qed.

Lemma third_species_beats_witness :
  (ThirdSpecies.isDownbeat 6 9 = true
   /\ ThirdSpecies.isSemiStrong 6 9 = false
   /\ ThirdSpecies.isWeakBeat 6 9 = false
   \/ ThirdSpecies.isDownbeat 6 9 = false
      /\ ThirdSpecies.isSemiStrong 6 9 = true
      /\ ThirdSpecies.isWeakBeat 6 9 = false
   \/ ThirdSpecies.isDownbeat 6 9 = false
      /\ ThirdSpecies.isSemiStrong 6 9 = false
      /\ ThirdSpecies.isWeakBeat 6 9 = true)
  /\ (Z.rem 9 4 = 1 -> 6 < 9 -> ThirdSpecies.isDownbeat 6 9 = (Z.rem 6 4 =? 0)).
Proof. apply (third_species_beats 6 9). lia. Defined.

Lemma map_seq_offset {A : Type} (f : nat -> A) (s n : nat) :
  map f (seq s n) = map (fun k => f (s + k)%nat) (seq 0 n).
Proof.
  revert f s. induction n as [|n IH]; intros f s.
  - reflexivity.
  - cbn [seq map]. rewrite Nat.add_0_r. f_equal.
    rewrite (IH f (S s)), (IH (fun k => f (s + k)%nat) 1%nat).
    apply map_ext. intros k. f_equal. lia.
Qed.

Lemma zrange_split (a b c : Z) :
  a <= b <= c -> zrange a c = zrange a b ++ zrange b c.
Proof.
  intros H. unfold zrange.
  replace (Z.to_nat (c - a)) with (Z.to_nat (b - a) + Z.to_nat (c - b))%nat by lia.
  rewrite seq_app, map_app. f_equal.
  rewrite map_seq_offset. apply map_ext. intros k. lia.
Qed.

Lemma zrange_nil (a : Z) : zrange a a = [].
Proof. unfold zrange. rewrite Z.sub_diag. reflexivity. Qed.

Lemma zrange_cons (a b : Z) : a < b -> zrange a b = a :: zrange (a + 1) b.
Proof.
  intros H. unfold zrange.
  replace (Z.to_nat (b - a)) with (S (Z.to_nat (b - (a + 1)))) by lia.
  cbn [seq map]. f_equal; [lia|].
  rewrite map_seq_offset. apply map_ext. intros k. lia.
Qed.

Lemma filter_none {A : Type} (f : A -> bool) (l : list A) :
  (forall x, In x l -> f x = false) -> filter f l = [].
Proof.
  induction l as [|x l IH]; intros H; simpl.
  - reflexivity.
  - rewrite (H x (or_introl eq_refl)). apply IH.
    intros y Hy. apply H. right. exact Hy.
Qed.

(** The multiples of [c] among [0 .. c * k]. *)
Lemma filter_multiples (c : Z) (k : nat) :
  0 < c ->
  filter (fun i => i mod c =? 0) (zrange 0 (c * Z.of_nat k + 1))
  = map (fun j => c * j) (zrange 0 (Z.of_nat k + 1)).
Proof.
  intros Hc. induction k as [|k IH].
  - change (Z.of_nat 0) with 0. rewrite Z.mul_0_r.
    rewrite (zrange_cons 0 (0 + 1)), zrange_nil by lia.
    cbn [filter map]. rewrite Z.mod_0_l, Z.mul_0_r by lia. reflexivity.
  - assert (HK : Z.of_nat (S k) = Z.of_nat k + 1) by lia.
    rewrite HK. set (K := Z.of_nat k) in *. assert (0 <= K) by lia.
    clearbody K. clear HK.
    rewrite (zrange_split 0 (c * K + 1) (c * (K + 1) + 1)) by nia.
    rewrite filter_app, IH.
    rewrite (zrange_split 0 (K + 1) (K + 1 + 1)) by lia.
    rewrite map_app. f_equal.
    rewrite (zrange_cons (K + 1)), zrange_nil by lia.
    rewrite (zrange_split _ (c * (K + 1)) (c * (K + 1) + 1)) by nia.
    rewrite filter_app.
    rewrite (zrange_cons (c * (K + 1))), zrange_nil by lia.
    assert (E1 : filter (fun i => i mod c =? 0) [c * (K + 1)] = [c * (K + 1)]).
    { simpl. rewrite Z.mul_comm, Z.mod_mul by lia. reflexivity. }
    rewrite E1.
    rewrite filter_none; [reflexivity|].
    intros i Hi. apply In_zrange in Hi. apply Z.eqb_neq.
    intros E. apply Z.mod_divide in E; [|lia]. destruct E as (q & ->).
    assert (K < q < K + 1) by nia. lia.
Qed.

(** X20.  In a second-species counterpoint for [n] cantus-firmus notes the
    strong beats are the indices [0, 2, ..., 2 (n - 1)]: one per
    cantus-firmus note, the [j]-th aligned with the [j]-th note. *)
Theorem second_species_strong_beats (cf : list string) (n : Z) :
  1 <= n ->
  SecondSpecies.getStrongBeatIndices (2 * n - 1) = map (fun j => 2 * j) (zrange 0 n)
  /\ len (SecondSpecies.getStrongBeatIndices (2 * n - 1)) = n
  /\ forall j, SecondSpecies.getCFNote (2 * j) cf = cf_at cf j.
Proof.
  intros Hn.
  assert (E : SecondSpecies.getStrongBeatIndices (2 * n - 1)
              = map (fun j => 2 * j) (zrange 0 n)).
  { unfold SecondSpecies.getStrongBeatIndices.
    rewrite (filter_ext_in _ (fun i => i mod 2 =? 0)).
    - replace (2 * n - 1) with (2 * Z.of_nat (Z.to_nat (n - 1)) + 1) by lia.
      rewrite filter_multiples by lia. f_equal. f_equal. lia.
    - intros i Hi. apply In_zrange in Hi.
      rewrite strong_beat_even; [| lia | | lia].
      + rewrite Z.rem_mod_nonneg by lia. reflexivity.
      + rewrite Z.rem_mod_nonneg by lia. Z.div_mod_to_equations. lia. }
  split; [exact E|]. split.
  - rewrite E, len_map, len_zrange. lia.
  - intros j. unfold SecondSpecies.getCFNote, SecondSpecies.getMeasureIndex.
    rewrite Z.mul_comm, Z.div_mul by lia. reflexivity.
Qed.

Lemma second_species_strong_beats_witness :
  SecondSpecies.getStrongBeatIndices (2 * 3 - 1) = map (fun j => 2 * j) (zrange 0 3)
  /\ len (SecondSpecies.getStrongBeatIndices (2 * 3 - 1)) = 3
  /\ forall j, SecondSpecies.getCFNote (2 * j) ["C4"; "D4"; "C4"]
               = cf_at ["C4"; "D4"; "C4"] j.
Proof. apply (second_species_strong_beats ["C4"; "D4"; "C4"] 3). lia. Defined.

(** X21.  In a third-species counterpoint for [n] cantus-firmus notes the
    downbeats are the indices [0, 4, ..., 4 (n - 1)]: one per
    cantus-firmus note, the [j]-th aligned with the [j]-th note. *)
Theorem third_species_downbeats (cf : list string) (n : Z) :
  1 <= n ->
  ThirdSpecies.getDownbeatIndices (4 * n - 3) = map (fun j => 4 * j) (zrange 0 n)
  /\ len (ThirdSpecies.getDownbeatIndices (4 * n - 3)) = n
  /\ forall j, ThirdSpecies.getCFNote (4 * j) cf = cf_at cf j.
Proof.
  intros Hn.
  assert (E : ThirdSpecies.getDownbeatIndices (4 * n - 3)
              = map (fun j => 4 * j) (zrange 0 n)).
  { unfold ThirdSpecies.getDownbeatIndices.
    rewrite (filter_ext_in _ (fun i => i mod 4 =? 0)).
    - replace (4 * n - 3) with (4 * Z.of_nat (Z.to_nat (n - 1)) + 1) by lia.
      rewrite filter_multiples by lia. f_equal. f_equal. lia.
    - intros i Hi. apply In_zrange in Hi.
      rewrite downbeat_multiple_of_4; [| lia | | lia].
      + rewrite Z.rem_mod_nonneg by lia. reflexivity.
      + rewrite Z.rem_mod_nonneg by lia. Z.div_mod_to_equations. lia. }
  split; [exact E|]. split.
  - rewrite E, len_map, len_zrange. lia.
  - intros j. unfold ThirdSpecies.getCFNote, ThirdSpecies.getMeasureIndex.
    rewrite Z.mul_comm, Z.div_mul by lia. reflexivity.
Qed.

Lemma third_species_downbeats_witness :
  ThirdSpecies.getDownbeatIndices (4 * 2 - 3) = map (fun j => 4 * j) (zrange 0 2)
  /\ len (ThirdSpecies.getDownbeatIndices (4 * 2 - 3)) = 2
  /\ forall j, ThirdSpecies.getCFNote (4 * j) ["C4"; "D4"] = cf_at ["C4"; "D4"] j.
Proof. apply (third_species_downbeats ["C4"; "D4"] 2). lia. Defined.

Lemma sounding_from_iff (cp : list (option string)) (k : Z) (s : string) (i : Z) :
  In (s, i) (getSoundingNotes_from cp k) <->
  k <= i /\ nth_error cp (Z.to_nat (i - k)) = Some (Some s).
Proof.
  revert k. induction cp as [|[t|] cp IH]; intros k.
  - simpl. split; [intros [] | intros (_ & H)].
    destruct (Z.to_nat (i - k)); discriminate H.
  - cbn [getSoundingNotes_from In]. rewrite IH. split.
    + intros [E | (Hk & H)].
      * injection E as -> ->. split; [lia|].
        rewrite Z.sub_diag. reflexivity.
      * split; [lia|].
        replace (Z.to_nat (i - k)) with (S (Z.to_nat (i - (k + 1)))) by lia.
        exact H.
    + intros (Hk & H). destruct (Z.eq_dec i k) as [-> | Hne].
      * rewrite Z.sub_diag in H. simpl in H. injection H as ->. left. reflexivity.
      * right. split; [lia|].
        replace (Z.to_nat (i - k)) with (S (Z.to_nat (i - (k + 1)))) in H by lia.
        exact H.
  - cbn [getSoundingNotes_from]. rewrite IH. split.
    + intros (Hk & H). split; [lia|].
      replace (Z.to_nat (i - k)) with (S (Z.to_nat (i - (k + 1)))) by lia.
      exact H.
    + intros (Hk & H). destruct (Z.eq_dec i k) as [-> | Hne].
      * rewrite Z.sub_diag in H. discriminate H.
      * split; [lia|].
        replace (Z.to_nat (i - k)) with (S (Z.to_nat (i - (k + 1)))) in H by lia.
        exact H.
Qed.

Lemma sounding_from_sorted (cp : list (option string)) (k : Z) :
  StronglySorted Z.lt (map snd (getSoundingNotes_from cp k)).
Proof.
  revert k. induction cp as [|[t|] cp IH]; intros k; cbn [getSoundingNotes_from map].
  - constructor.
  - constructor; [apply IH|].
    apply Forall_forall. intros j Hj. apply in_map_iff in Hj.
    destruct Hj as ((s & i) & <- & Hin). apply sounding_from_iff in Hin.
    simpl. lia.
  - apply IH.
Qed.

(** X22.  [getSoundingNotes] lists exactly the entries of the counterpoint
    that are notes, each with its index, in ascending order of the
    indices. *)
Theorem getSoundingNotes_entries (cp : list (option string)) :
  (forall s i, In (s, i) (getSoundingNotes cp) <-> nthZ cp i = Some (Some s))
  /\ StronglySorted Z.lt (map snd (getSoundingNotes cp)).
Proof.
  split; [|apply sounding_from_sorted].
  intros s i. unfold getSoundingNotes. rewrite sounding_from_iff.
  unfold nthZ. rewrite Z.sub_0_r.
  destruct (i <? 0) eqn:E; [apply Z.ltb_lt in E | apply Z.ltb_ge in E].
  - split; [intros (H & _); lia | discriminate].
  - split; [intros (_ & H); exact H | intros H; split; [lia | exact H]].
Qed.

(* ================================================================== *)
(** * What every validation result keeps *)
(* ================================================================== *)

Section Keeping.

Variable G : string -> bool.
Variable n : Z.

Lemma preserves_skip : preserves G n skip.
Proof. intros r r' K H. injection H as <-. exact K. Qed.

Lemma preserves_andThen (c1 c2 : check) :
  preserves G n c1 -> preserves G n c2 -> preserves G n (c1 ;; c2).
Proof.
  intros H1 H2 r r' K H. apply andThen_inv in H. destruct H as (r1 & Ha & Hb).
  eapply H2; [eapply H1|]; eassumption.
Qed.

Lemma preserves_when (b : bool) (c : check) :
  (b = true -> preserves G n c) -> preserves G n (when b c).
Proof.
  intros H. unfold when. destruct b; [apply H; reflexivity | apply preserves_skip].
Qed.

Lemma preserves_eval {A : Type} (m : result A) (k : A -> check) :
  (forall a, m = Ok a -> preserves G n (k a)) -> preserves G n (eval m k).
Proof.
  intros Hk r r' K H. apply eval_inv in H. destruct H as (a & Ha & H).
  apply (Hk a Ha r r' K H).
Qed.

Lemma preserves_forEach {A : Type} (l : list A) (body : A -> check) :
  (forall a, In a l -> preserves G n (body a)) -> preserves G n (forEach l body).
Proof.
  induction l as [|a l IH]; intros Hb; simpl.
  - apply preserves_skip.
  - apply preserves_andThen.
    + apply Hb. left. reflexivity.
    + apply IH. intros x Hx. apply Hb. right. exact Hx.
Qed.

Lemma preservesT_yield {T : Type} (Q : T -> Prop) (t : T) :
  Q t -> preservesT G n Q (yield t).
Proof. intros Ht r t' r' K H. injection H as <- <-. split; assumption. Qed.

Lemma preservesT_thenYield {T : Type} (Q : T -> Prop) (c : check) (t : T) :
  preserves G n c -> Q t -> preservesT G n Q (thenYield c t).
Proof.
  intros Hc Ht r t' r' K H. unfold thenYield in H.
  destruct (c r) as [r1|] eqn:E; [|discriminate H].
  simpl in H. injection H as <- <-. split; [eapply Hc; eassumption | exact Ht].
Qed.

Lemma preservesT_evalT {A T : Type} (Q : T -> Prop) (m : result A) (k : A -> step T) :
  (forall a, m = Ok a -> preservesT G n Q (k a)) -> preservesT G n Q (evalT m k).
Proof.
  intros Hk r t r' K H. unfold evalT in H.
  destruct m as [a|]; [|discriminate H]. simpl in H.
  apply (Hk a eq_refl r t r' K H).
Qed.

Lemma preserves_forBreak {A : Type} (l : list A) (body : A -> step bool) :
  (forall a, In a l -> preservesT G n (fun _ => True) (body a)) ->
  preserves G n (forBreak l body).
Proof.
  induction l as [|a l IH]; intros Hb; simpl.
  - apply preserves_skip.
  - intros r r' K H.
    destruct (body a r) as [[b r1]|] eqn:E; [|discriminate H]. simpl in H.
    destruct (Hb a (or_introl eq_refl) r b r1 K E) as (K1 & _).
    destruct b.
    + injection H as <-. exact K1.
    + eapply IH; [|exact K1|exact H]. intros x Hx. apply Hb. right. exact Hx.
Qed.

Lemma preservesT_forState {A S : Type} (I : S -> Prop) (l : list A)
    (body : A -> S -> step S) (s : S) :
  I s -> (forall a s', In a l -> I s' -> preservesT G n I (body a s')) ->
  preservesT G n I (forState l body s).
Proof.
  revert s. induction l as [|a l IH]; intros s Hs Hb; simpl.
  - apply preservesT_yield, Hs.
  - intros r t r' K H.
    destruct (body a s r) as [[s1 r1]|] eqn:E; [|discriminate H]. simpl in H.
    destruct (Hb a s (or_introl eq_refl) Hs r s1 r1 K E) as (K1 & I1).
    eapply IH; [exact I1| |exact K1|exact H].
    intros x s' Hx. apply Hb. right. exact Hx.
Qed.

Lemma preserves_afterLoop {S : Type} (I : S -> Prop) (loop : step S) (k : S -> check) :
  preservesT G n I loop -> (forall s, I s -> preserves G n (k s)) ->
  preserves G n (afterLoop loop k).
Proof.
  intros Hl Hk r r' K H. unfold afterLoop in H.
  destruct (loop r) as [[s r1]|] eqn:E; [|discriminate H]. simpl in H.
  destruct (Hl r s r1 K E) as (K1 & I1).
  apply (Hk s I1 r1 r' K1 H).
Qed.

End Keeping.

(** ** The statements that write to the results keep them well formed *)

Lemma update_nth_length {A : Type} (f : A -> A) (l l' : list A) (k : nat) :
  update_nth k f l = Some l' -> List.length l' = List.length l.
Proof.
  revert l' k. induction l as [|y l IH]; intros l' k H.
  - destruct k; discriminate H.
  - destruct k as [|k]; simpl in H.
    + injection H as <-. reflexivity.
    + destruct (update_nth k f l) as [l''|] eqn:E; [|discriminate H].
      injection H as <-. simpl. f_equal. apply (IH _ _ E).
Qed.

Lemma modify_note_length (p : Z) (f : noteResult -> noteResult) (r r' : results) :
  modify_note p f r = Ok r' -> len (noteResults r') = len (noteResults r).
Proof.
  unfold modify_note. intros H.
  destruct (p <? 0); [discriminate H|].
  destruct (update_nth (Z.to_nat p) f (noteResults r)) as [l|] eqn:E;
    [|discriminate H].
  injection H as <-. unfold len. simpl. f_equal. apply (update_nth_length _ _ _ _ E).
Qed.

Lemma all_issues_mono (r r' : results) (le lw ls : list issue) (i : issue) :
  errors r' = errors r ++ le -> warnings r' = warnings r ++ lw ->
  suggestions r' = suggestions r ++ ls ->
  In i (all_issues r) -> In i (all_issues r').
Proof.
  unfold all_issues. intros -> -> ->. rewrite !in_app_iff. tauto.
Qed.

Lemma listed_ok_app (n : Z) (sev : severity) (l l' : list issue) :
  listed_ok n sev l -> listed_ok n sev l' -> listed_ok n sev (l ++ l').
Proof.
  intros H H' i Hi. apply in_app_or in Hi. destruct Hi; [apply H | apply H']; assumption.
Qed.

(** An issue of severity other than error is pushed to its list only. *)
Lemma kept_push (G : string -> bool) (n : Z) (r r' : results) (lw ls : list issue) :
  well_kept G n r ->
  errors r' = errors r -> warnings r' = warnings r ++ lw ->
  suggestions r' = suggestions r ++ ls -> noteResults r' = noteResults r ->
  listed_ok n WARNING lw -> listed_ok n SUGGESTION ls ->
  well_kept G n r'.
Proof.
  intros [Kl Ke Kw Ks Kn Kv Kg] He Hw Hs Hn Lw Ls.
  constructor.
  - rewrite Hn. exact Kl.
  - rewrite He. exact Ke.
  - rewrite Hw. apply listed_ok_app; assumption.
  - rewrite Hs. apply listed_ok_app; assumption.
  - intros p nr Hp. rewrite Hn in Hp. destruct (Kn p nr Hp) as (Ha & Hb).
    split; [|exact Hb].
    intros i Hi. destruct (Ha i Hi) as (H1 & H2). split; [exact H1|].
    apply (all_issues_mono r r' [] lw ls); rewrite ?app_nil_r; assumption.
  - rewrite He, Hn. exact Kv.
  - rewrite Hn. exact Kg.
Qed.

(** An issue is pushed to its list and to the result of its position,
    which is marked invalid when the issue is an error. *)
Lemma kept_attach (G : string -> bool) (n : Z) (r r' : results) (p : Z)
    (i : issue) (x : noteResult) (le lw ls : list issue) :
  well_kept G n r ->
  G (rule i) = false ->
  position i = Some p -> 0 <= p ->
  errors r' = errors r ++ le -> warnings r' = warnings r ++ lw ->
  suggestions r' = suggestions r ++ ls ->
  (forall j, In j le -> j = i /\ severity_of i = ERROR) ->
  (forall j, In j lw -> j = i /\ severity_of i = WARNING) ->
  (forall j, In j ls -> j = i /\ severity_of i = SUGGESTION) ->
  In i (le ++ lw ++ ls) ->
  len (noteResults r') = len (noteResults r) ->
  nth_error (noteResults r) (Z.to_nat p) = Some x ->
  nth_error (noteResults r') (Z.to_nat p)
  = Some (mkNote (match le with [] => note_valid x | _ => false end)
            (issues x ++ [i])) ->
  (forall k, k <> Z.to_nat p ->
             nth_error (noteResults r') k = nth_error (noteResults r) k) ->
  well_kept G n r'.
Proof.
  intros [Kl Ke Kw Ks Kn Kv Kg] HGi Hpos Hp0 He Hw Hs Le Lw Ls Hin Hlen Hx Hx' Hk.
  assert (Hpn : 0 <= p < n).
  { split; [exact Hp0|]. rewrite <- Kl. unfold len.
    assert (Z.to_nat p < List.length (noteResults r))%nat
      by (apply nth_error_Some; rewrite Hx; discriminate).
    lia. }
  assert (Pi : pos_ok n i) by (unfold pos_ok; rewrite Hpos; left; exact Hpn).
  assert (Ai : In i (all_issues r')).
  { unfold all_issues. rewrite He, Hw, Hs. rewrite !in_app_iff in *. tauto. }
  constructor.
  - rewrite Hlen. exact Kl.
  - rewrite He. apply listed_ok_app; [exact Ke|].
    intros j Hj. destruct (Le j Hj) as (-> & S). split; assumption.
  - rewrite Hw. apply listed_ok_app; [exact Kw|].
    intros j Hj. destruct (Lw j Hj) as (-> & S). split; assumption.
  - rewrite Hs. apply listed_ok_app; [exact Ks|].
    intros j Hj. destruct (Ls j Hj) as (-> & S). split; assumption.
  - intros q nr Hq.
    assert (Hq0 : 0 <= q).
    { unfold nthZ in Hq. destruct (q <? 0) eqn:E; [discriminate Hq|].
      apply Z.ltb_ge in E. exact E. }
    rewrite nthZ_nth_error in Hq by exact Hq0.
    destruct (Z.eq_dec q p) as [->|Hne].
    + rewrite Hx' in Hq. injection Hq as <-.
      assert (Kx : note_entry_ok r p x)
        by (apply Kn; rewrite nthZ_nth_error by exact Hp0; exact Hx).
      destruct Kx as (Ka & Kb). split.
      * cbn [issues]. intros j Hj. apply in_app_or in Hj. destruct Hj as [Hj|Hj].
        -- destruct (Ka j Hj) as (H1 & H2). split; [exact H1|].
           apply (all_issues_mono r r' le lw ls); assumption.
        -- destruct Hj as [<-|[]]. split; assumption.
      * cbn [issues note_valid]. destruct le as [|e le].
        -- rewrite Kb. split.
           ++ intros (j & Hj & Sj). exists j. split; [|exact Sj].
              apply in_or_app. left. exact Hj.
           ++ intros (j & Hj & Sj). apply in_app_or in Hj. destruct Hj as [Hj|Hj].
              ** exists j. split; assumption.
              ** destruct Hj as [<-|[]]. exfalso.
                 cbn [app] in Hin. apply in_app_or in Hin. destruct Hin as [Hi|Hi].
                 --- destruct (Lw _ Hi) as (_ & S). congruence.
                 --- destruct (Ls _ Hi) as (_ & S). congruence.
        -- split; [|reflexivity]. intros _. exists i. split.
           ++ apply in_or_app. right. left. reflexivity.
           ++ apply (Le e). left. reflexivity.
    + assert (Hne' : Z.to_nat q <> Z.to_nat p) by lia.
      rewrite (Hk _ Hne') in Hq.
      assert (Kx : note_entry_ok r q nr)
        by (apply Kn; rewrite nthZ_nth_error by exact Hq0; exact Hq).
      destruct Kx as (Ka & Kb). split; [|exact Kb].
      intros j Hj. destruct (Ka j Hj) as (H1 & H2). split; [exact H1|].
      apply (all_issues_mono r r' le lw ls); assumption.
  - intros j Hj. rewrite He in Hj. apply in_app_or in Hj. destruct Hj as [Hj|Hj].
    + destruct (Kv j Hj) as (q & nr & Hq & Hnr & Hin').
      assert (Hq0 : 0 <= q).
      { unfold nthZ in Hnr. destruct (q <? 0) eqn:E; [discriminate Hnr|].
        apply Z.ltb_ge in E. exact E. }
      rewrite nthZ_nth_error in Hnr by exact Hq0.
      destruct (Z.eq_dec q p) as [->|Hne].
      * rewrite Hx in Hnr. injection Hnr as <-.
        eexists p, _. split; [exact Hq|].
        rewrite nthZ_nth_error by exact Hp0. split; [exact Hx'|].
        cbn [issues]. apply in_or_app. left. exact Hin'.
      * exists q, nr. split; [exact Hq|].
        rewrite nthZ_nth_error by exact Hq0. split; [|exact Hin'].
        rewrite Hk by lia. exact Hnr.
    + destruct (Le j Hj) as (-> & _).
      eexists p, _. split; [exact Hpos|].
      rewrite nthZ_nth_error by exact Hp0. split; [exact Hx'|].
      cbn [issues]. apply in_or_app. right. left. reflexivity.
  - intros q nr j Hq Hj.
    assert (Hq0 : 0 <= q).
    { unfold nthZ in Hq. destruct (q <? 0) eqn:E; [discriminate Hq|].
      apply Z.ltb_ge in E. exact E. }
    rewrite nthZ_nth_error in Hq by exact Hq0.
    destruct (Z.eq_dec q p) as [->|Hne].
    + rewrite Hx' in Hq. injection Hq as <-. cbn [issues] in Hj.
      apply in_app_or in Hj. destruct Hj as [Hj|[<-|[]]]; [|exact HGi].
      apply (Kg p x j); [|exact Hj].
      rewrite nthZ_nth_error by exact Hp0. exact Hx.
    + rewrite Hk in Hq by lia. apply (Kg q nr j); [|exact Hj].
      rewrite nthZ_nth_error by exact Hq0. exact Hq.
Qed.

Section KeepingWrites.

Variable G : string -> bool.
Variable n : Z.

Lemma preserves_error_at (rl : string) (p : Z) :
  G rl = false -> preserves G n (error_at rl p).
Proof.
  intros HG r r' K H. unfold error_at in H. cbv zeta in H.
  peel H. peel H. unfold push_error in Hc. injection Hc as <-.
  pose proof (modify_note_length _ _ _ _ Hc0) as L1.
  pose proof (modify_note_length _ _ _ _ H) as L2.
  apply modify_note_spec in Hc0. apply modify_note_spec in H.
  destruct Hc0 as (Hp0 & E1 & W1 & S1 & x & Hx & Hx1 & Hk1).
  destruct H as (_ & E2 & W2 & S2 & y & Hy & Hy2 & Hk2).
  rewrite Hx1 in Hy. injection Hy as <-. cbn [issues note_valid] in Hy2.
  cbn [errors warnings suggestions noteResults with_errors] in *.
  apply (kept_attach G n r r' p (mkIssue rl (Some p) ERROR) x
           [mkIssue rl (Some p) ERROR] [] []); auto.
  - congruence.
  - rewrite W2, W1, app_nil_r. reflexivity.
  - rewrite S2, S1, app_nil_r. reflexivity.
  - intros j [<-|[]]. split; reflexivity.
  - intros j [].
  - intros j [].
  - left. reflexivity.
  - congruence.
  - intros k Hk. rewrite Hk2, Hk1 by exact Hk. reflexivity.
Qed.

Lemma preserves_warning_at (rl : string) (p : Z) :
  G rl = false -> preserves G n (warning_at rl p).
Proof.
  intros HG r r' K H. unfold warning_at in H. cbv zeta in H.
  peel H. unfold push_warning in Hc. injection Hc as <-.
  pose proof (modify_note_length _ _ _ _ H) as L2.
  apply modify_note_spec in H.
  destruct H as (Hp0 & E2 & W2 & S2 & x & Hx & Hx2 & Hk2).
  cbn [errors warnings suggestions noteResults with_warnings] in *.
  apply (kept_attach G n r r' p (mkIssue rl (Some p) WARNING) x
           [] [mkIssue rl (Some p) WARNING] []); auto.
  - rewrite E2, app_nil_r. reflexivity.
  - rewrite S2, app_nil_r. reflexivity.
  - intros j [].
  - intros j [<-|[]]. split; reflexivity.
  - intros j [].
  - left. reflexivity.
Qed.

Lemma preserves_suggestion_at (rl : string) (p : Z) :
  G rl = false -> preserves G n (suggestion_at rl p).
Proof.
  intros HG r r' K H. unfold suggestion_at in H. cbv zeta in H.
  peel H. unfold push_suggestion in Hc. injection Hc as <-.
  pose proof (modify_note_length _ _ _ _ H) as L2.
  apply modify_note_spec in H.
  destruct H as (Hp0 & E2 & W2 & S2 & x & Hx & Hx2 & Hk2).
  cbn [errors warnings suggestions noteResults with_suggestions] in *.
  apply (kept_attach G n r r' p (mkIssue rl (Some p) SUGGESTION) x
           [] [] [mkIssue rl (Some p) SUGGESTION]); auto.
  - rewrite E2, app_nil_r. reflexivity.
  - rewrite W2, app_nil_r. reflexivity.
  - intros j [].
  - intros j [].
  - intros j [<-|[]]. split; reflexivity.
  - left. reflexivity.
Qed.

Lemma preserves_warning_only (rl : string) (p : Z) :
  0 <= p < n -> preserves G n (warning_only rl p).
Proof.
  intros Hp r r' K H. unfold warning_only, push_warning in H. injection H as <-.
  apply (kept_push G n r _ [mkIssue rl (Some p) WARNING] []); auto.
  - cbn. rewrite app_nil_r. reflexivity.
  - intros j [<-|[]]. split; [reflexivity|]. unfold pos_ok. cbn. left. exact Hp.
  - intros j [].
Qed.

Lemma preserves_suggestion_only (rl : string) (p : Z) :
  0 <= p < n -> preserves G n (suggestion_only rl p).
Proof.
  intros Hp r r' K H. unfold suggestion_only, push_suggestion in H. injection H as <-.
  apply (kept_push G n r _ [] [mkIssue rl (Some p) SUGGESTION]); auto.
  - cbn. rewrite app_nil_r. reflexivity.
  - intros j [].
  - intros j [<-|[]]. split; [reflexivity|]. unfold pos_ok. cbn. left. exact Hp.
Qed.

Lemma preserves_range_warning :
  preserves G n (push_warning (mkIssue RULES.RANGE (Some (-1)) WARNING)).
Proof.
  intros r r' K H. unfold push_warning in H. injection H as <-.
  apply (kept_push G n r _ [mkIssue RULES.RANGE (Some (-1)) WARNING] []); auto.
  - cbn. rewrite app_nil_r. reflexivity.
  - intros j [<-|[]]. split; [reflexivity|]. unfold pos_ok. cbn. right. auto.
  - intros j [].
Qed.

Lemma preserves_finish (calc : results -> Z) : preserves G n (finish calc).
Proof.
  intros r r' [Kl Ke Kw Ks Kn Kv Kg] H. apply finish_spec in H.
  destruct H as (He & Hw & Hs & Hn & _ & _).
  constructor; rewrite ?He, ?Hw, ?Hs, ?Hn; try assumption.
  intros p nr Hp. destruct (Kn p nr Hp) as (Ha & Hb). split; [|exact Hb].
  intros i Hi. destruct (Ha i Hi) as (H1 & H2). split; [exact H1|].
  unfold all_issues in *. rewrite He, Hw, Hs. exact H2.
Qed.

End KeepingWrites.

Lemma init_noteResults_spec (n : Z) (r r' : results) :
  init_noteResults n r = Ok r' ->
  errors r' = errors r /\ warnings r' = warnings r /\
  suggestions r' = suggestions r /\
  noteResults r'
  = noteResults r ++ repeat (mkNote true []) (Z.to_nat (Z.max 0 n)).
Proof.
  unfold init_noteResults.
  replace (Z.to_nat (Z.max 0 n)) with (List.length (zrange 0 n))
    by (pose proof (len_zrange 0 n) as L; unfold len in L; lia).
  generalize (zrange 0 n). intros l. revert r.
  induction l as [|a l IH]; intros r H.
  - injection H as <-. rewrite app_nil_r. auto.
  - cbn [forEach] in H. peel H. injection Hc as <-.
    apply IH in H. destruct H as (He & Hw & Hs & Hn).
    cbn [errors warnings suggestions noteResults with_noteResults] in *.
    rewrite He, Hw, Hs, Hn, <- app_assoc. auto.
Qed.

Lemma init_noteResults_kept (G : string -> bool) (n : Z) (r : results) :
  0 <= n -> init_noteResults n fresh_results = Ok r -> well_kept G n r.
Proof.
  intros Hn H. apply init_noteResults_spec in H.
  destruct H as (He & Hw & Hs & Hr). cbn in He, Hw, Hs, Hr.
  assert (Hall : forall nr, In nr (noteResults r) -> nr = mkNote true []).
  { intros nr Hi. rewrite Hr in Hi. apply repeat_spec in Hi. exact Hi. }
  constructor.
  - rewrite Hr. unfold len. rewrite repeat_length. lia.
  - rewrite He. intros i [].
  - rewrite Hw. intros i [].
  - rewrite Hs. intros i [].
  - intros p nr Hp. apply nthZ_Some_range in Hp. destruct Hp as (_ & Hi).
    rewrite (Hall _ Hi). split.
    + intros i [].
    + cbn. split; [discriminate | intros (i & [] & _)].
  - rewrite He. intros i [].
  - intros p nr i Hp Hi. apply nthZ_Some_range in Hp. destruct Hp as (_ & Hp).
    rewrite (Hall _ Hp) in Hi. destruct Hi.
Qed.

Lemma entry_at_sounding_range (cp : list (option string)) (k : Z) (e : string * Z) :
  entry_at (getSoundingNotes cp) k = Ok e -> 0 <= snd e < len cp.
Proof.
  unfold entry_at. destruct (nthZ (getSoundingNotes cp) k) as [x|] eqn:E; [|discriminate].
  intros H. injection H as <-. apply nthZ_Some_range in E. destruct E as (_ & Hi).
  destruct x as [s i]. unfold getSoundingNotes in Hi.
  apply sounding_from_iff in Hi. destruct Hi as (Hk & Hn). cbn [snd].
  assert (Z.to_nat (i - 0) < List.length cp)%nat
    by (apply nth_error_Some; rewrite Hn; discriminate).
  unfold len. lia.
Qed.

Lemma index_at_sounding_range (cp : list (option string)) (k p : Z) :
  index_at (getSoundingNotes cp) k = Ok p -> 0 <= p < len cp.
Proof.
  unfold index_at. destruct (entry_at (getSoundingNotes cp) k) as [e|] eqn:E;
    [|discriminate].
  cbn [bind]. intros H. injection H as <-. apply (entry_at_sounding_range _ _ _ E).
Qed.

(** ** Automation *)

Ltac keep_hyps :=
  repeat match goal with
    | H : entry_at (getSoundingNotes _) _ = Ok _ |- _ =>
        apply entry_at_sounding_range in H
    | H : index_at (getSoundingNotes _) _ = Ok _ |- _ =>
        apply index_at_sounding_range in H
    end.

Ltac keep_bounds :=
  keep_hyps; cbv beta iota; cbn [fst snd]; try exact I;
  repeat match goal with
    | |- context [if ?b then _ else _] => destruct b
    end;
  bounds.

Ltac keep_step :=
  cbv beta;
  lazymatch goal with
  | |- preserves _ _ skip => apply preserves_skip
  | |- preserves _ _ (_ ;; _) => apply preserves_andThen
  | |- preserves _ _ (when _ _) => apply preserves_when; intro
  | |- preserves _ _ (eval _ _) => apply preserves_eval; intros ? ?
  | |- preserves _ _ (forEach _ _) => apply preserves_forEach; intros ? ?
  | |- preserves _ _ (forBreak _ _) => apply preserves_forBreak; intros ? ?
  | |- preserves _ _ (error_at _ _) => apply preserves_error_at; rule_side
  | |- preserves _ _ (warning_at _ _) => apply preserves_warning_at; rule_side
  | |- preserves _ _ (suggestion_at _ _) => apply preserves_suggestion_at; rule_side
  | |- preserves _ _ (warning_only _ _) => apply preserves_warning_only; keep_bounds
  | |- preserves _ _ (suggestion_only _ _) => apply preserves_suggestion_only; keep_bounds
  | |- preserves _ _ (push_warning _) => apply preserves_range_warning
  | |- preserves _ _ (finish _) => apply preserves_finish
  | |- preserves _ _ (if ?b then _ else _) => destruct b eqn:?
  | |- preserves _ _ (match ?x with _ => _ end) => destruct x eqn:?
  | |- preserves _ _ (let _ := _ in _) => cbv zeta
  | |- preservesT _ _ _ (yield _) => apply preservesT_yield; keep_bounds
  | |- preservesT _ _ _ (thenYield _ _) => apply preservesT_thenYield; [|keep_bounds]
  | |- preservesT _ _ _ (evalT _ _) => apply preservesT_evalT; intros ? ?
  | |- preservesT _ _ _ (if ?b then _ else _) => destruct b eqn:?
  | |- preservesT _ _ _ (match ?x with _ => _ end) => destruct x eqn:?
  | |- preservesT _ _ _ (let _ := _ in _) => cbv zeta
  end.

Ltac prove_keeps := repeat keep_step.

(** ** First species *)

Lemma keeps1_note_loop cf cp pos :
  preserves (is_global First) (len cf)
    (forEach (zrange 0 (len cf)) (fun i =>
       let cf' := cf_at cf i in
       let cp' := cp_at cp i in
       do interval <- between_voices pos cf' cp';
       FirstSpecies.checkConsonance interval i ;;
       FirstSpecies.checkUnison interval i (len cf) ;;
       FirstSpecies.checkVoiceCrossing cf' cp' pos i ;;
       when (i >? 0)
         (let prevCf := cf_at cf (i - 1) in
          let prevCp := cp_at cp (i - 1) in
          do prevInterval <- between_voices pos prevCf prevCp;
          FirstSpecies.checkParallels prevInterval interval prevCf cf' prevCp cp' i ;;
          FirstSpecies.checkMelodicTritone prevCp cp' i ;;
          FirstSpecies.analyzeMotion prevCf cf' prevCp cp' i ;;
          FirstSpecies.checkStepwise prevCp cp' i))).
Proof.
  unfold FirstSpecies.checkConsonance, FirstSpecies.checkUnison,
    FirstSpecies.checkVoiceCrossing, FirstSpecies.checkParallels,
    FirstSpecies.checkMelodicTritone, FirstSpecies.analyzeMotion,
    FirstSpecies.checkStepwise.
  prove_keeps.
Qed.

Lemma keeps1_structure_checks cf cp key mode pos :
  preserves (is_global First) (len cf) (FirstSpecies.checkStartInterval (cf_at cf 0) (cp_at cp 0) pos) /\
  preserves (is_global First) (len cf) (FirstSpecies.checkEndInterval cf cp key mode pos) /\
  preserves (is_global First) (len cf) (FirstSpecies.checkRange cp pos).
Proof.
  unfold FirstSpecies.checkStartInterval, FirstSpecies.checkEndInterval,
    FirstSpecies.checkRange.
  split; [|split]; prove_keeps.
Qed.

Lemma keeps1_melodic_checks cf cp key mode pos :
  len cf = len cp ->
  preserves (is_global First) (len cf) (FirstSpecies.checkCompoundTritones cp key mode) /\
  preserves (is_global First) (len cf) (FirstSpecies.checkCompoundDissonantLeaps cp) /\
  preserves (is_global First) (len cf) (FirstSpecies.checkBattutaParallels cf cp pos) /\
  preserves (is_global First) (len cf) (FirstSpecies.checkArpeggios cp key mode).
Proof.
  intros Hlen.
  unfold FirstSpecies.checkCompoundTritones, FirstSpecies.checkCompoundDissonantLeaps,
    FirstSpecies.checkBattutaParallels, FirstSpecies.checkArpeggios.
  split; [|split; [|split]]; prove_keeps.
Qed.

Lemma keeps1_prolonged (cf : list string) (cp : list (option string)) :
  len cf = len cp ->
  preserves (is_global First) (len cf) (FirstSpecies.checkProlongedDirection cp).
Proof.
  intros Hlen. unfold FirstSpecies.checkProlongedDirection.
  destruct (len cp <? 4) eqn:E4; [apply preserves_skip|].
  apply preserves_afterLoop
    with (I := fun s : Z * Z * Z => 0 <= snd s < len cf).
  - apply preservesT_forState; [cbn [snd]; keep_bounds|].
    intros i [[d c] s] Hi Hs. cbn [snd] in Hs. prove_keeps.
  - intros [[d c] s] Hs. cbn [snd] in Hs. prove_keeps.
Qed.

Lemma keeps1_excessive cf cp pos :
  preserves (is_global First) (len cf) (FirstSpecies.checkExcessiveParallelConsonances cf cp pos).
Proof.
  unfold FirstSpecies.checkExcessiveParallelConsonances.
  destruct (len cf <? 4) eqn:E4; [apply preserves_skip|].
  apply preserves_afterLoop
    with (I := fun s : Z * Z * Z * Z =>
                 0 <= snd (fst s) < len cf /\ 0 <= snd s < len cf).
  - apply preservesT_forState; [cbn [fst snd]; keep_bounds|].
    intros i [[[a b] t] s] Hi (Ht & Hs). cbn [fst snd] in Ht, Hs. prove_keeps.
  - intros [[[a b] t] s] (Ht & Hs). cbn [fst snd] in Ht, Hs. prove_keeps.
Qed.

Lemma validate1_kept (e : exercise) (r : results) :
  len (counterpoint e) = len (cantusFirmus e) ->
  FirstSpecies.validate e = Ok r ->
  well_kept (is_global First) (len (counterpoint e)) r.
Proof.
  intros Hlen H. unfold FirstSpecies.validate in H.
  replace (len (cantusFirmus e) =? len (counterpoint e)) with true in H
    by (symmetry; apply Z.eqb_eq; congruence).
  cbv zeta in H. simpl negb in H. cbv iota in H.
  rewrite Hlen.
  pose proof (keeps1_note_loop (cantusFirmus e) (counterpoint e) (cpPosition e)) as K1.
  destruct (keeps1_structure_checks (cantusFirmus e) (counterpoint e) (key e)
              (mode e) (cpPosition e)) as (K2 & K3 & K4).
  destruct (keeps1_melodic_checks (cantusFirmus e) (counterpoint e) (key e)
              (mode e) (cpPosition e) (eq_sym Hlen)) as (K5 & K6 & K7 & K8).
  pose proof (keeps1_prolonged (cantusFirmus e) (counterpoint e) (eq_sym Hlen)) as K9.
  pose proof (keeps1_excessive (cantusFirmus e) (counterpoint e) (cpPosition e)) as K10.
  pose proof (preserves_finish (is_global First) (len (cantusFirmus e)) FirstSpecies.calculateScore) as K11.
  peel H. apply (init_noteResults_kept (is_global First)) in Hc; [|apply len_nonneg].
  repeat (peel H;
          match goal with
          | K : preserves _ _ ?c, Hx : ?c ?a = Ok ?b, W : well_kept _ _ ?a |- _ =>
              pose proof (K a b W Hx); clear Hx W
          end).
  eapply K11; eassumption.
Qed.

(** ** Second species *)

Lemma strong_indices_nonempty (cpLen : Z) :
  1 <= len (SecondSpecies.getStrongBeatIndices cpLen) -> 0 < cpLen.
Proof.
  unfold SecondSpecies.getStrongBeatIndices, len.
  destruct (filter _ (zrange 0 cpLen)) as [|x l] eqn:E; [simpl; lia|].
  intros _. assert (Hx : In x (filter (fun i => SecondSpecies.isStrongBeat i cpLen)
                                 (zrange 0 cpLen))) by (rewrite E; left; reflexivity).
  apply filter_In in Hx. destruct Hx as (Hx & _). apply In_zrange in Hx. lia.
Qed.

Lemma keeps2_note_loop cf cp pos :
  preserves (is_global Second) (len cp)
    (forEach (zrange 0 (len cp)) (fun i =>
       let cp' := cp_at cp i in
       if is_null cp' then skip else
       let cfNote := SecondSpecies.getCFNote i cf in
       do interval <- between_voices pos cfNote cp';
       when (SecondSpecies.isStrongBeat i (len cp))
         (SecondSpecies.checkStrongBeatConsonance interval i ;;
          SecondSpecies.checkUnison interval i (len cp) cp) ;;
       when (SecondSpecies.isWeakBeat i (len cp))
         (SecondSpecies.checkWeakBeatDissonance interval i cp cf pos) ;;
       SecondSpecies.checkVoiceCrossing cfNote cp' pos i)).
Proof.
  unfold SecondSpecies.checkStrongBeatConsonance, SecondSpecies.checkUnison,
    SecondSpecies.checkWeakBeatDissonance, SecondSpecies.checkVoiceCrossing.
  prove_keeps.
Qed.

Lemma keeps2_melodic_loop (cp : list (option string)) :
  preserves (is_global Second) (len cp)
    (forEach (zrange 1 (len (getSoundingNotes cp))) (fun si =>
       do prevEntry <- entry_at (getSoundingNotes cp) (si - 1);
       do currEntry <- entry_at (getSoundingNotes cp) si;
       SecondSpecies.checkMelodicTritone (JString (fst prevEntry))
         (JString (fst currEntry)) (snd currEntry) ;;
       SecondSpecies.checkStepwise (JString (fst prevEntry))
         (JString (fst currEntry)) (snd currEntry) ;;
       SecondSpecies.checkNoteRepetition prevEntry currEntry (len cp))).
Proof.
  unfold SecondSpecies.checkMelodicTritone, SecondSpecies.checkStepwise,
    SecondSpecies.checkNoteRepetition.
  prove_keeps.
Qed.

Lemma keeps2_strong_beat_checks cf cp pos :
  preserves (is_global Second) (len cp) (SecondSpecies.checkAnacrusis cp (len cp)) /\
  preserves (is_global Second) (len cp) (SecondSpecies.checkStrongBeatParallels cf cp pos (len cp)) /\
  preserves (is_global Second) (len cp) (SecondSpecies.checkStrongBeatHiddenParallels cf cp pos (len cp)) /\
  preserves (is_global Second) (len cp) (SecondSpecies.checkStrongBeatMotion cf cp pos (len cp)) /\
  preserves (is_global Second) (len cp) (SecondSpecies.checkCrossBeatParallels cf cp pos (len cp)).
Proof.
  unfold SecondSpecies.checkAnacrusis, SecondSpecies.checkStrongBeatParallels,
    SecondSpecies.checkStrongBeatHiddenParallels, SecondSpecies.checkStrongBeatMotion,
    SecondSpecies.checkCrossBeatParallels.
  split; [|split; [|split; [|split]]]; prove_keeps.
Qed.

Lemma keeps2_structure_checks cf cp key mode pos :
  preserves (is_global Second) (len cp) (SecondSpecies.checkStartInterval cf cp pos) /\
  preserves (is_global Second) (len cp) (SecondSpecies.checkEndInterval cf cp key mode pos (len cp)) /\
  preserves (is_global Second) (len cp) (SecondSpecies.checkLastNoteWhole (len cp)) /\
  preserves (is_global Second) (len cp) (SecondSpecies.checkCadence cf cp key mode pos (len cp)) /\
  preserves (is_global Second) (len cp) (SecondSpecies.checkRange cp pos).
Proof.
  unfold SecondSpecies.checkStartInterval, SecondSpecies.checkEndInterval,
    SecondSpecies.checkLastNoteWhole, SecondSpecies.checkCadence,
    SecondSpecies.checkRange.
  split; [|split; [|split; [|split]]]; prove_keeps.
Qed.

Lemma keeps2_sounding_checks (cp : list (option string)) key mode :
  preserves (is_global Second) (len cp) (SecondSpecies.checkCompoundTritones
                        (map fst (getSoundingNotes cp)) (getSoundingNotes cp) key mode) /\
  preserves (is_global Second) (len cp) (SecondSpecies.checkCompoundDissonantLeaps
                        (map fst (getSoundingNotes cp)) (getSoundingNotes cp)) /\
  preserves (is_global Second) (len cp) (SecondSpecies.checkArpeggios
                        (map fst (getSoundingNotes cp)) (getSoundingNotes cp) key mode).
Proof.
  unfold SecondSpecies.checkCompoundTritones, SecondSpecies.checkCompoundDissonantLeaps,
    SecondSpecies.checkArpeggios.
  split; [|split]; prove_keeps.
Qed.

Lemma keeps2_prolonged (cp : list (option string)) :
  preserves (is_global Second) (len cp) (SecondSpecies.checkProlongedDirection
                        (map fst (getSoundingNotes cp)) (getSoundingNotes cp)).
Proof.
  unfold SecondSpecies.checkProlongedDirection.
  destruct (len (map fst (getSoundingNotes cp)) <? 4) eqn:E4; [apply preserves_skip|].
  apply preserves_afterLoop with (I := fun _ : Z * Z * Z => True).
  - apply preservesT_forState; [exact I|].
    intros i [[d c] s] Hi _. prove_keeps.
  - intros [[d c] s] _. prove_keeps.
Qed.

Lemma keeps2_excessive cf cp pos :
  preserves (is_global Second) (len cp) (SecondSpecies.checkExcessiveParallelConsonances cf cp pos (len cp)).
Proof.
  unfold SecondSpecies.checkExcessiveParallelConsonances. cbv zeta.
  destruct (len (SecondSpecies.getStrongBeatIndices (len cp)) <? 4) eqn:E4;
    [apply preserves_skip|].
  apply Z.ltb_ge in E4.
  assert (H0 : 0 < len cp) by (apply strong_indices_nonempty; lia).
  apply preserves_afterLoop
    with (I := fun s : Z * Z * Z * Z =>
                 0 <= snd (fst s) < len cp /\ 0 <= snd s < len cp).
  - apply preservesT_forState; [cbn [fst snd]; lia|].
    intros i [[[a b] t] s] Hi (Ht & Hs). cbn [fst snd] in Ht, Hs. prove_keeps.
  - intros [[[a b] t] s] (Ht & Hs). cbn [fst snd] in Ht, Hs. prove_keeps.
Qed.

Lemma keeps2_battuta cf cp pos :
  preserves (is_global Second) (len cp) (SecondSpecies.checkBattutaParallels cf cp pos (len cp)).
Proof.
  unfold SecondSpecies.checkBattutaParallels. prove_keeps.
Qed.

Lemma validate2_kept (e : exercise) (r : results) :
  len (counterpoint e) = 2 * len (cantusFirmus e) - 1 ->
  SecondSpecies.validate e = Ok r ->
  well_kept (is_global Second) (len (counterpoint e)) r.
Proof.
  intros Hlen H. unfold SecondSpecies.validate in H.
  replace (len (counterpoint e) =? len (cantusFirmus e) * 2 - 1) with true in H
    by (symmetry; apply Z.eqb_eq; lia).
  cbv zeta in H. simpl negb in H. cbv iota in H.
  pose proof (keeps2_note_loop (cantusFirmus e) (counterpoint e) (cpPosition e)) as K1.
  pose proof (keeps2_melodic_loop (counterpoint e)) as K2.
  destruct (keeps2_strong_beat_checks (cantusFirmus e) (counterpoint e) (cpPosition e))
    as (K3 & K4 & K5 & K6 & K7).
  destruct (keeps2_structure_checks (cantusFirmus e) (counterpoint e) (key e)
              (mode e) (cpPosition e)) as (K8 & K9 & K10 & K11 & K12).
  destruct (keeps2_sounding_checks (counterpoint e) (key e) (mode e))
    as (K13 & K14 & K15).
  pose proof (keeps2_prolonged (counterpoint e)) as K16.
  pose proof (keeps2_excessive (cantusFirmus e) (counterpoint e) (cpPosition e)) as K17.
  pose proof (keeps2_battuta (cantusFirmus e) (counterpoint e) (cpPosition e)) as K18.
  pose proof (preserves_finish (is_global Second) (len (counterpoint e)) SecondSpecies.calculateScore) as K19.
  peel H. apply (init_noteResults_kept (is_global Second)) in Hc; [|apply len_nonneg].
  repeat (peel H;
          match goal with
          | K : preserves _ _ ?c, Hx : ?c ?a = Ok ?b, W : well_kept _ _ ?a |- _ =>
              pose proof (K a b W Hx); clear Hx W
          end).
  eapply K19; eassumption.
Qed.

(** ** Third species *)

Lemma keeps3_note_loop cf cp pos :
  preserves (is_global Third) (len cp)
    (forEach (zrange 0 (len cp)) (fun i =>
       let cp' := cp_at cp i in
       if is_null cp' then skip else
       let cfNote := ThirdSpecies.getCFNote i cf in
       do interval <- between_voices pos cfNote cp';
       when (ThirdSpecies.isDownbeat i (len cp))
         (ThirdSpecies.checkDownbeatConsonance interval i ;;
          ThirdSpecies.checkUnison interval i (len cp) cp) ;;
       when (ThirdSpecies.isSemiStrong i (len cp))
         (ThirdSpecies.checkBeatThreeConsonance interval i cp cf pos) ;;
       when (ThirdSpecies.isWeakBeat i (len cp))
         (ThirdSpecies.checkWeakBeatDissonance interval i cp cf pos) ;;
       ThirdSpecies.checkVoiceCrossing cfNote cp' pos i)).
Proof.
  unfold ThirdSpecies.checkDownbeatConsonance, ThirdSpecies.checkUnison,
    ThirdSpecies.checkBeatThreeConsonance, ThirdSpecies.checkWeakBeatDissonance,
    ThirdSpecies.checkVoiceCrossing.
  prove_keeps.
Qed.

Lemma keeps3_melodic_loop (cp : list (option string)) :
  preserves (is_global Third) (len cp)
    (forEach (zrange 1 (len (getSoundingNotes cp))) (fun si =>
       do prevEntry <- entry_at (getSoundingNotes cp) (si - 1);
       do currEntry <- entry_at (getSoundingNotes cp) si;
       ThirdSpecies.checkMelodicTritone (JString (fst prevEntry))
         (JString (fst currEntry)) (snd currEntry))).
Proof.
  unfold ThirdSpecies.checkMelodicTritone. prove_keeps.
Qed.

Lemma keeps3_downbeat_checks cf cp pos :
  preserves (is_global Third) (len cp) (ThirdSpecies.checkAnacrusis cp (len cp)) /\
  preserves (is_global Third) (len cp) (ThirdSpecies.checkDownbeatParallels cf cp pos (len cp)) /\
  preserves (is_global Third) (len cp) (ThirdSpecies.checkDownbeatHiddenParallels cf cp pos (len cp)) /\
  preserves (is_global Third) (len cp) (ThirdSpecies.checkDownbeatMotion cf cp pos (len cp)).
Proof.
  unfold ThirdSpecies.checkAnacrusis, ThirdSpecies.checkDownbeatParallels,
    ThirdSpecies.checkDownbeatHiddenParallels, ThirdSpecies.checkDownbeatMotion.
  split; [|split; [|split]]; prove_keeps.
Qed.

Lemma keeps3_structure_checks cf cp key mode pos :
  preserves (is_global Third) (len cp) (ThirdSpecies.checkStartInterval cf cp pos) /\
  preserves (is_global Third) (len cp) (ThirdSpecies.checkEndInterval cf cp pos (len cp)) /\
  preserves (is_global Third) (len cp) (ThirdSpecies.checkCadence cf cp key mode pos (len cp)).
Proof.
  unfold ThirdSpecies.checkStartInterval, ThirdSpecies.checkEndInterval,
    ThirdSpecies.checkCadence.
  split; [|split]; prove_keeps.
Qed.

(** On a counterpoint of the expected length the last-note check pushes
    nothing. *)
Lemma keeps3_last_note_whole (G : string -> bool) (cfLen cpLen n : Z) :
  cpLen = 4 * cfLen - 3 -> preserves G n (ThirdSpecies.checkLastNoteWhole cpLen).
Proof.
  intros ->. unfold ThirdSpecies.checkLastNoteWhole.
  replace (4 * cfLen - 3 + 3) with (cfLen * 4) by lia.
  rewrite Z.rem_mul by lia. apply preserves_when. discriminate.
Qed.

Lemma keeps3_sounding_checks (cp : list (option string)) key mode :
  preserves (is_global Third) (len cp) (ThirdSpecies.checkCompoundTritones
                        (map fst (getSoundingNotes cp)) (getSoundingNotes cp) key mode) /\
  preserves (is_global Third) (len cp) (ThirdSpecies.checkArpeggios
                        (map fst (getSoundingNotes cp)) (getSoundingNotes cp) key mode).
Proof.
  unfold ThirdSpecies.checkCompoundTritones, ThirdSpecies.checkArpeggios.
  split; prove_keeps.
Qed.

Lemma keeps3_prolonged (cp : list (option string)) :
  preserves (is_global Third) (len cp) (ThirdSpecies.checkProlongedDirection
                        (map fst (getSoundingNotes cp)) (getSoundingNotes cp)).
Proof.
  unfold ThirdSpecies.checkProlongedDirection.
  destruct (len (map fst (getSoundingNotes cp)) <? 4) eqn:E4; [apply preserves_skip|].
  cbv zeta.
  apply preserves_afterLoop with (I := fun _ : Z * Z * Z => True).
  - apply preservesT_forState; [exact I|].
    intros i [[d c] s] Hi _. prove_keeps.
  - intros [[d c] s] _. prove_keeps.
Qed.

Lemma keeps3_repetition (cp : list (option string)) :
  preserves (is_global Third) (len cp) (ThirdSpecies.checkNoteRepetition (getSoundingNotes cp)).
Proof.
  unfold ThirdSpecies.checkNoteRepetition.
  destruct (len (getSoundingNotes cp) <? 3) eqn:E3; [apply preserves_skip|].
  apply preserves_afterLoop with (I := fun _ : Z => True).
  - apply preservesT_forState; [exact I|].
    intros i c Hi _. prove_keeps.
  - intros c _. apply preserves_skip.
Qed.

Lemma validate3_kept (e : exercise) (r : results) :
  len (counterpoint e) = 4 * len (cantusFirmus e) - 3 ->
  ThirdSpecies.validate e = Ok r ->
  well_kept (is_global Third) (len (counterpoint e)) r.
Proof.
  intros Hlen H. unfold ThirdSpecies.validate in H.
  replace (len (counterpoint e) =? len (cantusFirmus e) * 4 - 3) with true in H
    by (symmetry; apply Z.eqb_eq; lia).
  cbv zeta in H. simpl negb in H. cbv iota in H.
  pose proof (keeps3_note_loop (cantusFirmus e) (counterpoint e) (cpPosition e)) as K1.
  pose proof (keeps3_melodic_loop (counterpoint e)) as K2.
  destruct (keeps3_downbeat_checks (cantusFirmus e) (counterpoint e) (cpPosition e))
    as (K3 & K4 & K5 & K6).
  destruct (keeps3_structure_checks (cantusFirmus e) (counterpoint e) (key e)
              (mode e) (cpPosition e)) as (K7 & K8 & K9).
  pose proof (keeps3_last_note_whole (is_global Third)
                (len (cantusFirmus e)) (len (counterpoint e))
                (len (counterpoint e)) Hlen) as K10.
  destruct (keeps3_sounding_checks (counterpoint e) (key e) (mode e)) as (K11 & K12).
  pose proof (keeps3_prolonged (counterpoint e)) as K13.
  pose proof (keeps3_repetition (counterpoint e)) as K14.
  pose proof (preserves_finish (is_global Third) (len (counterpoint e)) ThirdSpecies.calculateScore) as K15.
  peel H. apply (init_noteResults_kept (is_global Third)) in Hc; [|apply len_nonneg].
  repeat (peel H;
          match goal with
          | K : preserves _ _ ?c, Hx : ?c ?a = Ok ?b, W : well_kept _ _ ?a |- _ =>
              pose proof (K a b W Hx); clear Hx W
          end).
  eapply K15; eassumption.
Qed.

(** ** The results of the three validators *)

Lemma validate_kept (sp : species) (e : exercise) (r : results) :
  len (counterpoint e) = expected_length sp (len (cantusFirmus e)) ->
  validate_of sp e = Ok r ->
  well_kept (is_global sp) (len (counterpoint e)) r.
Proof.
  destruct sp; unfold expected_length, validate_of; intros Hlen H.
  - apply validate1_kept; assumption.
  - apply validate2_kept; assumption.
  - apply validate3_kept; assumption.
Qed.

Lemma listed_in_errors (G : string -> bool) (n : Z) (r : results) (i : issue) :
  well_kept G n r -> In i (all_issues r) -> severity_of i = ERROR -> In i (errors r).
Proof.
  intros K Hi Hs. unfold all_issues in Hi.
  apply in_app_or in Hi. destruct Hi as [Hi|Hi]; [exact Hi|].
  apply in_app_or in Hi. destruct Hi as [Hi|Hi].
  - destruct (kept_warnings G n r K i Hi) as (S & _). congruence.
  - destruct (kept_suggestions G n r K i Hi) as (S & _). congruence.
Qed.

Lemma kept_all_valid (G : string -> bool) (n : Z) (r : results) :
  well_kept G n r ->
  errors r = [] <-> (forall nr, In nr (noteResults r) -> note_valid nr = true).
Proof.
  intros K. split.
  - intros He nr Hnr. destruct (note_valid nr) eqn:V; [reflexivity|]. exfalso.
    apply In_nth_error in Hnr. destruct Hnr as (k & Hk).
    assert (Hz : nthZ (noteResults r) (Z.of_nat k) = Some nr)
      by (rewrite nthZ_nth_error by lia; rewrite Nat2Z.id; exact Hk).
    destruct (kept_notes G n r K _ _ Hz) as (Ha & Hb).
    apply Hb in V. destruct V as (i & Hi & Si).
    destruct (Ha i Hi) as (_ & Hall).
    pose proof (listed_in_errors G n r i K Hall Si) as Hin.
    rewrite He in Hin. destruct Hin.
  - intros Hall. destruct (errors r) as [|i l] eqn:He; [reflexivity|]. exfalso.
    destruct (kept_attached G n r K i) as (p & nr & Hp & Hnr & Hin).
    { rewrite He. left. reflexivity. }
    destruct (kept_notes G n r K _ _ Hnr) as (_ & Hb).
    assert (V : note_valid nr = false).
    { apply Hb. exists i. split; [exact Hin|].
      apply (kept_errors G n r K i). rewrite He. left. reflexivity. }
    apply nthZ_Some_range in Hnr. destruct Hnr as (_ & Hnr).
    rewrite (Hall nr Hnr) in V. discriminate V.
Qed.

(* ================================================================== *)
(** * Per-position results *)
(* ================================================================== *)

(** C8, as stated, fails: the compound-tritone warning of position 1 is
    in [warnings] but not in [noteResults[1].issues]. *)
Lemma C8_counterexample_compound_tritone :
  exists r i nr,
    len (counterpoint sample_tritone)
      = expected_length First (len (cantusFirmus sample_tritone)) /\
    validate_of First sample_tritone = Ok r /\
    In i (warnings r) /\ position i = Some 1 /\ 0 <= 1 /\
    rule i = RULES.COMPOUND_TRITONE /\
    nthZ (noteResults r) 1 = Some nr /\ ~ In i (issues nr).
Proof.
  eexists. exists (mkIssue RULES.COMPOUND_TRITONE (Some 1) WARNING). eexists.
  split; [reflexivity|].
  split; [vm_compute; reflexivity|].
  split; [simpl; left; reflexivity|].
  split; [reflexivity|].
  split; [lia|].
  split; [reflexivity|].
  split; [reflexivity|].
  simpl. intros [H | H]; [discriminate H | exact H].
Qed.

(** C8 (amended).  For an exercise that passes the length check,
    [validate] returns a result whenever the exercise is well formed, and
    in every result it returns, every
    issue of the returned errors, warnings or suggestions whose rule is
    not one of the validator's global melodic rules ([global_rules]:
    compound tritone, compound dissonant leap, battuta fifths / octaves,
    prolonged direction, arpeggio, excessive parallels in the 1st and 2nd
    species; compound tritone, prolonged direction, arpeggio, note
    repetition in the 3rd) and whose position is some [p >= 0] also
    appears in [noteResults[p].issues].  The issues of the global melodic
    rules are pushed to their severity list only: no issue of
    [noteResults[p].issues], whatever [p], has the rule of one. *)
Theorem C8_issues_recorded_per_position :
  forall (sp : species) (e : exercise),
    len (counterpoint e) = expected_length sp (len (cantusFirmus e)) ->
    (well_formed sp e = true -> exists r, validate_of sp e = Ok r)
    /\ (forall r : results,
          validate_of sp e = Ok r ->
          forall (i : issue) (p : Z),
            In i (all_issues r) ->
            position i = Some p -> 0 <= p ->
            is_global sp (rule i) = false ->
            exists nr, nthZ (noteResults r) p = Some nr /\ In i (issues nr))
    /\ (forall r : results,
          validate_of sp e = Ok r ->
          forall (p : Z) (nr : noteResult) (i : issue),
            nthZ (noteResults r) p = Some nr -> In i (issues nr) ->
            is_global sp (rule i) = false).
Proof.
  intros sp e Hlen. split; [apply validate_total|]. split.
  - intros r H i p Hi Hp Hp0 HG.
    eapply accounted_attached; try eassumption.
    apply (validate_accounted sp e); assumption.
  - intros r H p nr i Hp Hi.
    apply (kept_local _ _ _ (validate_kept sp e r Hlen H) p nr i Hp Hi).
Qed.

Lemma C8_witness :
  exists r,
    validate_of First sample_tritone = Ok r /\
    exists nr, nthZ (noteResults r) 1 = Some nr /\
               In (mkIssue RULES.STEPWISE (Some 1) SUGGESTION) (issues nr) /\
               is_global First
                 (rule (mkIssue RULES.STEPWISE (Some 1) SUGGESTION)) = false.
Proof.
  destruct (C8_issues_recorded_per_position First sample_tritone eq_refl)
    as (Hreturns & Hresult & Hlocal).
  destruct (Hreturns eq_refl) as (r & Hr).
  exists r. split; [exact Hr|].
  assert (E : r = match validate_of First sample_tritone with
                  | Ok r0 => r0
                  | Throw _ => r
                  end) by (rewrite Hr; reflexivity).
  destruct (Hresult r Hr (mkIssue RULES.STEPWISE (Some 1) SUGGESTION) 1)
    as (nr & Hnr & Hin).
  - rewrite E. vm_compute. right. left. reflexivity.
  - reflexivity.
  - lia.
  - reflexivity.
  - exists nr. split; [exact Hnr|]. split; [exact Hin|].
    apply (Hlocal r Hr 1 nr _ Hnr Hin).
Defined.

(** X23.  For an exercise that passes the length check, the result has one
    per-position entry for each counterpoint position, and every issue
    recorded at position [p] is an issue of position [p] that is also in
    the errors, warnings or suggestions of the result. *)
Theorem note_results_per_position :
  forall (sp : species) (e : exercise) (r : results),
    len (counterpoint e) = expected_length sp (len (cantusFirmus e)) ->
    validate_of sp e = Ok r ->
    len (noteResults r) = len (counterpoint e)
    /\ (forall (p : Z) (nr : noteResult) (i : issue),
          nthZ (noteResults r) p = Some nr -> In i (issues nr) ->
          position i = Some p /\ In i (all_issues r)).
Proof.
  intros sp e r Hlen H. pose proof (validate_kept sp e r Hlen H) as K.
  split; [apply (kept_len _ _ _ K)|].
  intros p nr i Hp Hi. destruct (kept_notes _ _ _ K p nr Hp) as (Ha & _).
  apply (Ha i Hi).
Qed.

Lemma note_results_per_position_witness :
  exists r,
    validate_of First sample_tritone = Ok r /\
    len (noteResults r) = len (counterpoint sample_tritone)
    /\ (forall (p : Z) (nr : noteResult) (i : issue),
          nthZ (noteResults r) p = Some nr -> In i (issues nr) ->
          position i = Some p /\ In i (all_issues r)).
Proof.
  assert (E : exists r, validate_of First sample_tritone = Ok r)
    by (vm_compute; eexists; reflexivity).
  destruct E as (r & E). exists r. split; [exact E|].
  apply (note_results_per_position First sample_tritone r eq_refl E).
Defined.

(** X24.  For an exercise that passes the length check, the issues of the
    three lists have the severity of their list; an error or a suggestion
    has a position of the counterpoint, and so has a warning, unless it is
    the range warning, whose position is [-1]. *)
Theorem issues_by_severity_and_position :
  forall (sp : species) (e : exercise) (r : results),
    len (counterpoint e) = expected_length sp (len (cantusFirmus e)) ->
    validate_of sp e = Ok r ->
    (forall i, In i (errors r) ->
       severity_of i = ERROR
       /\ exists p, position i = Some p /\ 0 <= p < len (counterpoint e))
    /\ (forall i, In i (warnings r) ->
          severity_of i = WARNING
          /\ exists p, position i = Some p
                       /\ (0 <= p < len (counterpoint e)
                           \/ (p = -1 /\ rule i = RULES.RANGE)))
    /\ (forall i, In i (suggestions r) ->
          severity_of i = SUGGESTION
          /\ exists p, position i = Some p /\ 0 <= p < len (counterpoint e)).
Proof.
  intros sp e r Hlen H. pose proof (validate_kept sp e r Hlen H) as K.
  split; [|split]; intros i Hi.
  - destruct (kept_errors _ _ _ K i Hi) as (S & P). split; [exact S|].
    unfold pos_ok in P. destruct (position i) as [p|]; [|destruct P].
    exists p. split; [reflexivity|].
    destruct P as [P|(_ & _ & S')]; [exact P | congruence].
  - destruct (kept_warnings _ _ _ K i Hi) as (S & P). split; [exact S|].
    unfold pos_ok in P. destruct (position i) as [p|]; [|destruct P].
    exists p. split; [reflexivity|].
    destruct P as [P|(E1 & E2 & _)]; [left; exact P | right; split; assumption].
  - destruct (kept_suggestions _ _ _ K i Hi) as (S & P). split; [exact S|].
    unfold pos_ok in P. destruct (position i) as [p|]; [|destruct P].
    exists p. split; [reflexivity|].
    destruct P as [P|(_ & _ & S')]; [exact P | congruence].
Qed.

Lemma issues_by_severity_and_position_witness :
  exists r,
    validate_of Second sample_wide2 = Ok r /\
    (forall i, In i (errors r) ->
       severity_of i = ERROR
       /\ exists p, position i = Some p /\ 0 <= p < len (counterpoint sample_wide2))
    /\ (forall i, In i (warnings r) ->
          severity_of i = WARNING
          /\ exists p, position i = Some p
                       /\ (0 <= p < len (counterpoint sample_wide2)
                           \/ (p = -1 /\ rule i = RULES.RANGE)))
    /\ (forall i, In i (suggestions r) ->
          severity_of i = SUGGESTION
          /\ exists p, position i = Some p /\ 0 <= p < len (counterpoint sample_wide2)).
Proof.
  assert (E : exists r, validate_of Second sample_wide2 = Ok r)
    by (vm_compute; eexists; reflexivity).
  destruct E as (r & E). exists r. split; [exact E|].
  apply (issues_by_severity_and_position Second sample_wide2 r eq_refl E).
Defined.

(** X25.  For an exercise that passes the length check, every error of the
    result is recorded among the issues of its position, and that
    position is marked invalid. *)
Theorem errors_mark_their_position :
  forall (sp : species) (e : exercise) (r : results) (i : issue),
    len (counterpoint e) = expected_length sp (len (cantusFirmus e)) ->
    validate_of sp e = Ok r ->
    In i (errors r) ->
    exists p nr,
      position i = Some p /\ nthZ (noteResults r) p = Some nr
      /\ In i (issues nr) /\ note_valid nr = false.
Proof.
  intros sp e r i Hlen H Hi. pose proof (validate_kept sp e r Hlen H) as K.
  destruct (kept_attached _ _ _ K i Hi) as (p & nr & Hp & Hnr & Hin).
  exists p, nr. repeat split; try assumption.
  destruct (kept_notes _ _ _ K p nr Hnr) as (_ & Hb). apply Hb.
  exists i. split; [exact Hin|]. apply (kept_errors _ _ _ K i Hi).
Qed.

Lemma errors_mark_their_position_witness :
  exists r,
    validate_of First sample_first = Ok r /\
    exists p nr,
      position (mkIssue RULES.CONSONANCE (Some 1) ERROR) = Some p
      /\ nthZ (noteResults r) p = Some nr
      /\ In (mkIssue RULES.CONSONANCE (Some 1) ERROR) (issues nr)
      /\ note_valid nr = false.
Proof.
  assert (E : exists r, validate_of First sample_first = Ok r
                        /\ In (mkIssue RULES.CONSONANCE (Some 1) ERROR) (errors r)).
  { vm_compute. eexists. split; [reflexivity|]. left. reflexivity. }
  destruct E as (r & E & Hi). exists r. split; [exact E|].
  apply (errors_mark_their_position First sample_first r _ eq_refl E Hi).
Defined.

(** X26.  For an exercise that passes the length check, a position is marked
    invalid exactly when one of its issues is an error, and the result is
    valid exactly when no position is marked invalid. *)
Theorem valid_iff_every_position_valid :
  forall (sp : species) (e : exercise) (r : results),
    len (counterpoint e) = expected_length sp (len (cantusFirmus e)) ->
    validate_of sp e = Ok r ->
    (forall (p : Z) (nr : noteResult),
       nthZ (noteResults r) p = Some nr ->
       (note_valid nr = false <->
        exists i, In i (issues nr) /\ severity_of i = ERROR))
    /\ (valid r = true <->
        forall nr, In nr (noteResults r) -> note_valid nr = true).
Proof.
  intros sp e r Hlen H. pose proof (validate_kept sp e r Hlen H) as K.
  split.
  - intros p nr Hp. apply (kept_notes _ _ _ K p nr Hp).
  - rewrite <- (kept_all_valid _ _ _ K).
    destruct (validate_ends_with_finish sp e r Hlen H) as (r0 & Hf).
    apply finish_spec in Hf. destruct Hf as (He & _ & _ & _ & _ & Hv).
    rewrite Hv, He. apply len_nil_iff.
Qed.

Lemma valid_iff_every_position_valid_witness :
  exists r,
    validate_of Third sample_wide3 = Ok r /\
    (forall (p : Z) (nr : noteResult),
       nthZ (noteResults r) p = Some nr ->
       (note_valid nr = false <->
        exists i, In i (issues nr) /\ severity_of i = ERROR))
    /\ (valid r = true <->
        forall nr, In nr (noteResults r) -> note_valid nr = true).
Proof.
  assert (E : exists r, validate_of Third sample_wide3 = Ok r)
    by (vm_compute; eexists; reflexivity).
  destruct E as (r & E). exists r. split; [exact E|].
  apply (valid_iff_every_position_valid Third sample_wide3 r eq_refl E).
Defined.

(** ** What [validate] needs of the notes, and what it says of rests *)

Lemma toMidi_Ok_good (v : jsval) (m : Z) : Pitch.toMidi v = Ok m -> good v.
Proof.
  unfold Pitch.toMidi, Pitch.parse. destruct v as [| |s]; try discriminate.
  intros H. exists s. split; [reflexivity|]. unfold parses.
  destruct (Pitch.parse_string s); [reflexivity | discriminate H].
Qed.

Lemma between_Ok_good (a b : jsval) (x : Interval.t) :
  Interval.between a b = Ok x -> good a /\ good b.
Proof.
  unfold Interval.between.
  destruct (Pitch.toMidi a) as [ma|] eqn:Ea; [|discriminate].
  destruct (Pitch.toMidi b) as [mb|] eqn:Eb; [|discriminate].
  intros _. split; eapply toMidi_Ok_good; eassumption.
Qed.

Lemma between_voices_Ok_good (pos : voice) (cf cp : jsval) (x : Interval.t) :
  between_voices pos cf cp = Ok x -> good cf /\ good cp.
Proof.
  unfold between_voices. destruct pos; intros H; apply between_Ok_good in H; tauto.
Qed.

Lemma good_cf_at (cf : list string) (i : Z) :
  good (cf_at cf i) -> exists c, nthZ cf i = Some c /\ parses c = true.
Proof.
  unfold cf_at, str_at. intros (s & E & Hs).
  destruct (nthZ cf i) as [c|]; [|discriminate E].
  injection E as ->. exists s. split; [reflexivity | exact Hs].
Qed.

(** Every iteration of a loop that ran to completion ran to completion. *)
Lemma forEach_ran {A : Type} (l : list A) (body : A -> check) (r r' : results) (a : A) :
  forEach l body r = Ok r' -> In a l -> exists ra rb, body a ra = Ok rb.
Proof.
  revert r. induction l as [|x l IH]; intros r H Ha; [destruct Ha|].
  cbn [forEach] in H. peel H. destruct Ha as [->|Ha].
  - exists r, r0. exact Hc.
  - apply (IH r0 H Ha).
Qed.

(** X27.  [validate] returns a result only if every note it is given parses:
    in a result of an exercise that passes the length check, every
    counterpoint note parses and so does the cantus-firmus note that
    sounds against it; a rest makes the first-species [validate] throw. *)
Theorem validate_returns_only_on_parsable_notes :
  forall (sp : species) (e : exercise) (r : results) (i : Z) (n : option string),
    len (counterpoint e) = expected_length sp (len (cantusFirmus e)) ->
    validate_of sp e = Ok r ->
    nthZ (counterpoint e) i = Some n ->
    match n with
    | Some s =>
        parses s = true
        /\ exists c, nthZ (cantusFirmus e) (getMeasureIndex_of sp i) = Some c
                     /\ parses c = true
    | None => sp <> First
    end.
Proof.
  intros sp e r i n Hlen H Hn.
  assert (Hi : In i (zrange 0 (len (counterpoint e)))).
  { apply In_zrange. apply (nthZ_Some_range _ _ _ Hn). }
  assert (Hcp : cp_at (counterpoint e) i = note_val n)
    by (unfold cp_at; rewrite Hn; reflexivity).
  assert (Hgood : forall x, between_voices (cpPosition e)
                    (cf_at (cantusFirmus e) (getMeasureIndex_of sp i))
                    (note_val n) = Ok x ->
                  match n with
                  | Some s =>
                      parses s = true
                      /\ exists c, nthZ (cantusFirmus e) (getMeasureIndex_of sp i) = Some c
                                   /\ parses c = true
                  | None => sp <> First
                  end).
  { intros x Hx. apply between_voices_Ok_good in Hx. destruct Hx as (Gcf & Gcp).
    destruct n as [s|].
    - split; [|apply good_cf_at, Gcf].
      destruct Gcp as (s' & E & Hs). injection E as <-. exact Hs.
    - destruct Gcp as (s' & E & _). discriminate E. }
  destruct sp; unfold expected_length in Hlen; unfold validate_of in H.
  - unfold FirstSpecies.validate in H.
    replace (len (cantusFirmus e) =? len (counterpoint e)) with true in H
      by (symmetry; apply Z.eqb_eq; congruence).
    cbv zeta in H. simpl negb in H. cbv iota in H.
    peel H. peel H. rewrite <- Hlen in Hc0.
    destruct (forEach_ran _ _ _ _ i Hc0 Hi) as (ra & rb & Hb).
    cbv beta zeta in Hb. apply eval_inv in Hb. destruct Hb as (x & Hx & _).
    rewrite Hcp in Hx. apply (Hgood x Hx).
  - unfold SecondSpecies.validate in H.
    replace (len (counterpoint e) =? len (cantusFirmus e) * 2 - 1) with true in H
      by (symmetry; apply Z.eqb_eq; lia).
    cbv zeta in H. simpl negb in H. cbv iota in H.
    destruct n as [s|]; [|discriminate].
    do 3 peel H.
    destruct (forEach_ran _ _ _ _ i Hc1 Hi) as (ra & rb & Hb).
    cbv beta zeta in Hb. rewrite Hcp in Hb. cbn [note_val is_null] in Hb.
    apply eval_inv in Hb. destruct Hb as (x & Hx & _).
    apply (Hgood x Hx).
  - unfold ThirdSpecies.validate in H.
    replace (len (counterpoint e) =? len (cantusFirmus e) * 4 - 3) with true in H
      by (symmetry; apply Z.eqb_eq; lia).
    cbv zeta in H. simpl negb in H. cbv iota in H.
    destruct n as [s|]; [|discriminate].
    do 3 peel H.
    destruct (forEach_ran _ _ _ _ i Hc1 Hi) as (ra & rb & Hb).
    cbv beta zeta in Hb. rewrite Hcp in Hb. cbn [note_val is_null] in Hb.
    apply eval_inv in Hb. destruct Hb as (x & Hx & _).
    apply (Hgood x Hx).
Qed.

Lemma validate_returns_only_on_parsable_notes_witness :
  exists r,
    validate_of Second sample_rest2 = Ok r /\
    parses "B4" = true
    /\ exists c, nthZ (cantusFirmus sample_rest2) (getMeasureIndex_of Second 3) = Some c
                 /\ parses c = true.
Proof.
  assert (E : exists r, validate_of Second sample_rest2 = Ok r)
    by (vm_compute; eexists; reflexivity).
  destruct E as (r & E). exists r. split; [exact E|].
  apply (validate_returns_only_on_parsable_notes Second sample_rest2 r 3 (Some "B4")
           eq_refl E eq_refl).
Defined.

Lemma grows_errors_incl (G : string -> bool) (r r' : results) :
  grows G r r' -> incl (errors r) (errors r').
Proof.
  intros [(l & -> & _) _ _ _]. apply incl_appl, incl_refl.
Qed.

Lemma error_at_reports (rl : string) (p : Z) (r r' : results) :
  error_at rl p r = Ok r' -> In (mkIssue rl (Some p) ERROR) (errors r').
Proof.
  unfold error_at. cbv zeta. intros H. peel H. peel H.
  unfold push_error in Hc. injection Hc as <-.
  apply modify_note_spec in Hc0. apply modify_note_spec in H.
  destruct Hc0 as (_ & E1 & _). destruct H as (_ & E2 & _).
  rewrite E2, E1. cbn [errors with_errors]. apply in_or_app. right. left. reflexivity.
Qed.

(** What one iteration of a loop reports is still there at its end. *)
Lemma forEach_reports (G : string -> bool) {A : Type} (l : list A)
    (body : A -> check) (a : A) (i0 : issue) (r r' : results) :
  (forall x, sound G (body x)) -> In a l ->
  (forall ra rb, body a ra = Ok rb -> In i0 (errors rb)) ->
  forEach l body r = Ok r' -> In i0 (errors r').
Proof.
  intros Hs Ha Hb. revert r. induction l as [|x l IH]; intros r H; [destruct Ha|].
  cbn [forEach] in H. peel H. destruct Ha as [->|Ha].
  - apply (grows_errors_incl G r0 r').
    + apply (sound_forEach G l body Hs r0 r' H).
    + apply (Hb r r0 Hc).
  - apply (IH Ha r0 H).
Qed.

Lemma range_step_errors (ms : list Z) (r : results) :
  errors (range_step ms r) = errors r.
Proof. unfold range_step. destruct (semitone_span ms >? 19); reflexivity. Qed.

Lemma anacrusis2_reports (cp : list (option string)) (i : Z) (r r' : results) :
  nthZ cp i = Some None -> 1 <= i ->
  SecondSpecies.checkAnacrusis cp (len cp) r = Ok r' ->
  In (mkIssue RULES.ANACRUSIS (Some i) ERROR) (errors r').
Proof.
  intros Hn Hi H. unfold SecondSpecies.checkAnacrusis in H.
  refine (forEach_reports (is_global Second) _ _ i _ r r' _ _ _ H).
  - intros x. prove_sound.
  - apply In_zrange. apply (nthZ_Some_range _ _ _ Hn).
  - intros ra rb Hb. unfold cp_at in Hb. rewrite Hn in Hb.
    replace (i =? 0) with false in Hb by (symmetry; apply Z.eqb_neq; lia).
    cbn in Hb. apply (error_at_reports _ _ _ _ Hb).
Qed.

Lemma anacrusis3_reports (cp : list (option string)) (i : Z) (r r' : results) :
  nthZ cp i = Some None -> first_checked Third cp <= i ->
  ThirdSpecies.checkAnacrusis cp (len cp) r = Ok r' ->
  In (mkIssue RULES.UNISON (Some i) ERROR) (errors r').
Proof.
  intros Hn Hi H. unfold ThirdSpecies.checkAnacrusis in H. cbv zeta in H.
  unfold first_checked in Hi.
  refine (forEach_reports (is_global Third) _ _ i _ r r' _ _ _ H).
  - intros x. prove_sound.
  - apply In_zrange. pose proof (nthZ_Some_range _ _ _ Hn). lia.
  - intros ra rb Hb. unfold cp_at in Hb at 1. rewrite Hn in Hb.
    cbn in Hb. apply (error_at_reports _ _ _ _ Hb).
Qed.

(** X28.  In the second and third species a rest at a position that
    [checkAnacrusis] looks at (from the second position on in the second
    species; from the first position, or from the fourth when the
    counterpoint starts with a rest, in the third) is reported as an
    error at that position, under the rule identifier ['anacrusis'] in
    the second species and ['unison'] in the third, and the result is not
    valid. *)
Theorem misplaced_rest_is_an_error :
  forall (sp : species) (e : exercise) (r : results) (i : Z),
    sp <> First ->
    len (counterpoint e) = expected_length sp (len (cantusFirmus e)) ->
    validate_of sp e = Ok r ->
    nthZ (counterpoint e) i = Some None ->
    first_checked sp (counterpoint e) <= i ->
    In (mkIssue (rest_rule sp) (Some i) ERROR) (errors r) /\ valid r = false.
Proof.
  intros sp e r i Hsp Hlen H Hn Hi.
  assert (Hin : In (mkIssue (rest_rule sp) (Some i) ERROR) (errors r)).
  { destruct sp; [congruence| |];
      unfold expected_length in Hlen; unfold validate_of in H;
      cbn [rest_rule].
    - unfold SecondSpecies.validate in H.
      replace (len (counterpoint e) =? len (cantusFirmus e) * 2 - 1) with true in H
        by (symmetry; apply Z.eqb_eq; lia).
      cbv zeta in H. simpl negb in H. cbv iota in H.
      peel H. peel H. apply (anacrusis2_reports _ i) in Hc0; [|exact Hn|exact Hi].
      repeat peel H.
      repeat match goal with
             | Hx : SecondSpecies.checkRange _ _ ?a = Ok ?b,
               Hy : In _ (errors ?a) |- _ =>
                 let ms := fresh "ms" in
                 apply checkRange2_spec in Hx; destruct Hx as (ms & _ & Hx);
                 rewrite <- (range_step_errors ms a), <- Hx in Hy; clear Hx
             | Hx : ?c ?a = Ok ?b, Hy : In _ (errors ?a) |- _ =>
                 run_grows (is_global Second) Hx;
                 apply (grows_errors_incl _ _ _ Hx) in Hy; clear Hx
             end.
      assumption.
    - unfold ThirdSpecies.validate in H.
      replace (len (counterpoint e) =? len (cantusFirmus e) * 4 - 3) with true in H
        by (symmetry; apply Z.eqb_eq; lia).
      cbv zeta in H. simpl negb in H. cbv iota in H.
      peel H. peel H. apply (anacrusis3_reports _ i) in Hc0; [|exact Hn|exact Hi].
      replace (len (counterpoint e)) with (len (cantusFirmus e) * 4 - 3) in H by lia.
      run_grows (is_global Third) H.
      apply (grows_errors_incl _ _ _ H), Hc0. }
  split; [exact Hin|].
  destruct (validate_ends_with_finish sp e r Hlen H) as (r0 & Hf).
  apply finish_spec in Hf. destruct Hf as (He & _ & _ & _ & _ & Hv).
  rewrite Hv, <- He. destruct (errors r); [destruct Hin | reflexivity].
Qed.

Lemma misplaced_rest_is_an_error_witness :
  exists r,
    validate_of Third sample_rest3 = Ok r /\
    In (mkIssue (rest_rule Third) (Some 3) ERROR) (errors r) /\ valid r = false.
Proof.
  assert (E : exists r, validate_of Third sample_rest3 = Ok r)
    by (vm_compute; eexists; reflexivity).
  destruct E as (r & E). exists r. split; [exact E|].
  apply (misplaced_rest_is_an_error Third sample_rest3 r 3);
    [discriminate | reflexivity | exact E | reflexivity | vm_compute; discriminate].
Defined.

(** X29.  For an exercise that passes the length check, the score is between 0
    and 100; it is 100 exactly when the result has no issue at all, and
    a result that is not valid scores at most 100 minus the weight of one
    error (85, 90 and 92 for the three species). *)
Theorem score_range :
  forall (sp : species) (e : exercise) (r : results),
    len (counterpoint e) = expected_length sp (len (cantusFirmus e)) ->
    validate_of sp e = Ok r ->
    0 <= score r <= 100
    /\ (score r = 100 <-> all_issues r = [])
    /\ (valid r = false -> score r <= 100 - fst (weights sp)).
Proof.
  intros sp e r Hlen H.
  destruct (validate_ends_with_finish sp e r Hlen H) as (r0 & Hf).
  apply finish_spec in Hf. destruct Hf as (He & Hw & Hs & _ & Hscore & Hv).
  rewrite Hscore, calculateScore_weights, <- He, <- Hw, <- Hs.
  pose proof (len_nonneg (errors r)) as Le.
  pose proof (len_nonneg (warnings r)) as Lw.
  pose proof (len_nonneg (suggestions r)) as Ls.
  assert (Hnil : all_issues r = [] <->
                 len (errors r) = 0 /\ len (warnings r) = 0 /\ len (suggestions r) = 0).
  { unfold all_issues, len.
    destruct (errors r), (warnings r), (suggestions r); cbn;
      split; intros X; try discriminate X; try (repeat split; reflexivity);
      destruct X as (X1 & X2 & X3); try discriminate X1; try discriminate X2;
      try discriminate X3; lia. }
  assert (Hinv : valid r = false -> 1 <= len (errors r)).
  { rewrite Hv, <- He. intros X. apply Z.eqb_neq in X. lia. }
  rewrite Hnil.
  destruct sp; unfold weights; cbn [fst snd]; repeat split; try lia;
    intros V; specialize (Hinv V); lia.
Qed.

Lemma score_range_witness :
  exists r,
    validate_of First sample_first = Ok r /\
    0 <= score r <= 100
    /\ (score r = 100 <-> all_issues r = [])
    /\ (valid r = false -> score r <= 100 - fst (weights First)).
Proof.
  assert (E : exists r, validate_of First sample_first = Ok r)
    by (vm_compute; eexists; reflexivity).
  destruct E as (r & E). exists r. split; [exact E|].
  apply (score_range First sample_first r eq_refl E).
Defined.
